(** * Single-path predicate register allocation and CFG reduction (Patmos)

    A shallow embedding of the predicate register allocator [RAInfo]
    (RAInfo.cpp) and of the parts of [PatmosSPReduce.cpp] that consume its
    results: the redundant load eliminator and the loop back-edge emitted by
    the linearizer.

    Conventions of the embedding.
    - [unsigned] counters and indices of the allocator ([NumLocs], location
      indices, block positions, predicate numbers) are [nat]: the allocator
      only counts locations it hands out (one per call of [getAvailLoc]) and
      adds such counts, and never subtracts below zero.
    - [std::map] is [gmap]; [std::set<Location>] is a list kept in the order
      of the container's comparator, with the container's own insertion rule.
    - [assert] is modelled as a run-time check: a failing assertion makes
      the run end in [AssertFail].  Undefined behaviour of the C++ code
      (e.g. [back()] of an empty vector, [at()] on a missing key) ends the
      run in [Undef]. *)

From Stdlib Require Import ZArith Lia Bool.
From stdpp Require Import base option list gmap sorting.

Set Default Proof Using "Type".
Set Warnings "-register-all".

(* ===================================================================== *)
(** ** Outcomes of a run *)

Inductive res (A : Type) : Type :=
| Ok (a : A)
| AssertFail
| Undef.
Arguments Ok {A} a.
Arguments AssertFail {A}.
Arguments Undef {A}.

#[global] Instance res_bind : MBind res := fun A B k r =>
  match r with
  | Ok a => k a
  | AssertFail => AssertFail
  | Undef => Undef
  end.

(** [assert(c)] followed by the rest of the function. *)
Definition assert {A} (c : bool) (k : res A) : res A :=
  if c then k else AssertFail.

(* ===================================================================== *)
(** ** Locations *)

Inductive LocType : Type := Register | Stack.

Definition LocType_eqb (a b : LocType) : bool :=
  match a, b with
  | Register, Register | Stack, Stack => true
  | _, _ => false
  end.

Record Location : Type := mkLocation { getType : LocType; getLoc : nat }.

Definition isRegister (l : Location) : bool := LocType_eqb (getType l) Register.
Definition isStack (l : Location) : bool := LocType_eqb (getType l) Stack.

(** [operator<(const Location&, const Location&)] *)
Definition Location_lt (l r : Location) : bool :=
  if LocType_eqb (getType l) (getType r)
  then getLoc l <? getLoc r
  else false.

(** The ordering in the words of the specification: registers sort before
    stack slots, otherwise locations compare by index. *)
Definition Location_lt_spec (l r : Location) : bool :=
  (isRegister l && isStack r)
  || (LocType_eqb (getType l) (getType r) && (getLoc l <? getLoc r)).

(* --------------------------------------------------------------------- *)
(** *** [std::set<Location>]

    The container keeps its keys in comparator order and regards two keys
    as the same key when neither is less than the other.  Insertion walks to
    the key's place and leaves the set unchanged when it meets such an
    equivalent key.  With [Location_lt] a register and a stack slot are
    always equivalent, so a set never mixes the two kinds (lemma
    [set_insert_uniform] below), and on such sets the walk from the front is
    the search the tree performs. *)

Definition Location_equiv (x y : Location) : bool :=
  negb (Location_lt x y) && negb (Location_lt y x).

Fixpoint set_insert (x : Location) (s : list Location) : list Location :=
  match s with
  | [] => [x]
  | y :: s' =>
      if Location_lt x y then x :: y :: s'
      else if Location_lt y x then y :: set_insert x s'
      else y :: s'
  end.

(** [s.count(x)] *)
Definition set_count (x : Location) (s : list Location) : nat :=
  if existsb (Location_equiv x) s then 1 else 0.

(* ===================================================================== *)
(** ** Live ranges *)

Record LiveRange : Type := mkLR { uses : list bool; defs : list bool }.

(** [LiveRange::LiveRange(unsigned range)] *)
Definition newLiveRange (range : nat) : LiveRange :=
  {| uses := replicate (S range) false; defs := replicate (S range) false |}.

(** [BitVector::set] and [BitVector::test]; both are only called inside the
    vector's size. *)
Definition bv_set (pos : nat) (bv : list bool) : list bool := <[pos := true]> bv.
Definition bv_test (pos : nat) (bv : list bool) : bool := default false (bv !! pos).

Definition addUse (pos : nat) (lr : LiveRange) : LiveRange :=
  {| uses := bv_set pos (uses lr); defs := defs lr |}.
Definition addDef (pos : nat) (lr : LiveRange) : LiveRange :=
  {| uses := uses lr; defs := bv_set pos (defs lr) |}.

Definition isUse (lr : LiveRange) (pos : nat) : bool := bv_test pos (uses lr).
Definition isDef (lr : LiveRange) (pos : nat) : bool := bv_test pos (defs lr).

(** [lastUse]: no use at any position after [pos]. *)
Definition lastUse (lr : LiveRange) (pos : nat) : bool :=
  forallb negb (drop (S pos) (uses lr)).

(** [hasDefBefore]: a definition at some position below [pos]. *)
Definition hasDefBefore (lr : LiveRange) (pos : nat) : bool :=
  existsb id (take pos (defs lr)).

(** [anyUseBefore]: a use at some position up to and including [pos]. *)
Definition anyUseBefore (lr : LiveRange) (pos : nat) : bool :=
  existsb id (take (S pos) (uses lr)).

Fixpoint nextUseBefore (us os : list bool) : bool :=
  match us, os with
  | u :: us', o :: os' =>
      if o then false else if u then true else nextUseBefore us' os'
  | _, _ => false
  end.

(** [hasNextUseBefore]: scanning from [pos], this range has a use strictly
    before the other one has. *)
Definition hasNextUseBefore (lr : LiveRange) (pos : nat) (other : LiveRange) : bool :=
  nextUseBefore (drop pos (uses lr)) (drop pos (uses other)).

(* ===================================================================== *)
(** ** Scopes and predicated blocks *)

(** Modelled from the spec: [PredicatedBlock] is declared in a header that
    is not among the sources at hand.  A block carries the machine basic
    block it stands for, its block predicates (in the iteration order of the
    set) and the predicate of each of its definitions (one per successor
    edge). *)
Record PredicatedBlock : Type := mkBlock {
  getMBB : nat;
  getBlockPredicates : list nat;
  getDefinitions : list nat
}.

(** Modelled from the spec: [SPScope] is declared in a header that is not
    among the sources at hand.  A scope carries its header block, the
    remaining blocks in topological order, whether it is the top-level scope
    of its function and whether that function is a single-path root, its
    nesting depth, and whether a loop bound is known. *)
Record SPScope : Type := mkScope {
  getHeader : PredicatedBlock;
  getBody : list PredicatedBlock;
  isTopLevel : bool;
  isRootTopLevel : bool;
  getDepth : nat;
  hasLoopBound : bool
}.

(** Modelled from the spec: the ordered list of member blocks; the header is
    the first block ("the first position in the range matches the header
    block in the scope", as the comment on [LiveRange] has it). *)
Definition getBlocksTopoOrd (Sc : SPScope) : list PredicatedBlock :=
  getHeader Sc :: getBody Sc.

(** Modelled from the spec: a live range has one position per block of the
    scope plus one, so the number of FCFG blocks is the number of blocks in
    topological order. *)
Definition getNumberOfFcfgBlocks (Sc : SPScope) : nat :=
  length (getBlocksTopoOrd Sc).

(* ===================================================================== *)
(** ** Live range construction *)

Abbreviation LRmap := (gmap nat LiveRange).

(** The lambda [getOrCreateLRFor] followed by an update of the range. *)
Definition updLR (Sc : SPScope) (f : LiveRange -> LiveRange)
    (predicate : nat) (LRs : LRmap) : LRmap :=
  <[predicate := f (default (newLiveRange (getNumberOfFcfgBlocks Sc)) (LRs !! predicate))]> LRs.

Definition addUses (Sc : SPScope) (pos : nat) (preds : list nat) (LRs : LRmap) : LRmap :=
  foldl (fun m p => updLR Sc (addUse pos) p m) LRs preds.

Definition addDefs (Sc : SPScope) (pos : nat) (ds : list nat) (LRs : LRmap) : LRmap :=
  foldl (fun m p => updLR Sc (addDef pos) p m) LRs ds.

(** The loop over the blocks, from position [i] on. *)
Fixpoint liveRangesFrom (Sc : SPScope) (i : nat) (bs : list PredicatedBlock)
    (LRs : LRmap) : LRmap :=
  match bs with
  | [] => LRs
  | block :: bs' =>
      let LRs1 := addUses Sc i (getBlockPredicates block) LRs in
      let LRs2 := addDefs Sc i (getDefinitions block) LRs1 in
      liveRangesFrom Sc (S i) bs' LRs2
  end.

(** [RAInfo::Impl::createLiveRanges] *)
Definition createLiveRanges (Sc : SPScope) : LRmap :=
  let blocks := getBlocksTopoOrd Sc in
  let LRs := liveRangesFrom Sc 0 blocks ∅ in
  if negb (isTopLevel Sc)
  then addUses Sc (length blocks) (getBlockPredicates (getHeader Sc)) LRs
  else LRs.

(* ===================================================================== *)
(** ** The allocator's state *)

(** [RAInfo::Impl::UseLoc]; a pair (false, _) is [None]. *)
Record UseLoc : Type := mkUseLoc {
  loc : nat;
  load : option nat;
  spill : option nat
}.

(** The constructor [UseLoc(unsigned loc)]. *)
Definition newUseLoc (l : nat) : UseLoc :=
  {| loc := l; load := None; spill := None |}.

Record Impl : Type := mkImpl {
  MaxRegs : nat;
  LRs : gmap nat LiveRange;
  DefLocs : gmap nat Location;
  NumLocs : nat;
  ChildrenMaxCumLocs : nat;
  FirstUsableReg : nat;
  FirstUsableStackSlot : nat;
  UseLocs : gmap nat (gmap nat UseLoc);
  NeedsScopeSpill : bool
}.

Definition set_DefLocs (d : gmap nat Location) (I : Impl) : Impl :=
  mkImpl (MaxRegs I) (LRs I) d (NumLocs I) (ChildrenMaxCumLocs I)
         (FirstUsableReg I) (FirstUsableStackSlot I) (UseLocs I) (NeedsScopeSpill I).
Definition set_NumLocs (n : nat) (I : Impl) : Impl :=
  mkImpl (MaxRegs I) (LRs I) (DefLocs I) n (ChildrenMaxCumLocs I)
         (FirstUsableReg I) (FirstUsableStackSlot I) (UseLocs I) (NeedsScopeSpill I).
Definition set_ChildrenMaxCumLocs (n : nat) (I : Impl) : Impl :=
  mkImpl (MaxRegs I) (LRs I) (DefLocs I) (NumLocs I) n
         (FirstUsableReg I) (FirstUsableStackSlot I) (UseLocs I) (NeedsScopeSpill I).
Definition set_FirstUsableReg (n : nat) (I : Impl) : Impl :=
  mkImpl (MaxRegs I) (LRs I) (DefLocs I) (NumLocs I) (ChildrenMaxCumLocs I)
         n (FirstUsableStackSlot I) (UseLocs I) (NeedsScopeSpill I).
Definition set_FirstUsableStackSlot (n : nat) (I : Impl) : Impl :=
  mkImpl (MaxRegs I) (LRs I) (DefLocs I) (NumLocs I) (ChildrenMaxCumLocs I)
         (FirstUsableReg I) n (UseLocs I) (NeedsScopeSpill I).
Definition set_UseLocs (u : gmap nat (gmap nat UseLoc)) (I : Impl) : Impl :=
  mkImpl (MaxRegs I) (LRs I) (DefLocs I) (NumLocs I) (ChildrenMaxCumLocs I)
         (FirstUsableReg I) (FirstUsableStackSlot I) u (NeedsScopeSpill I).
Definition set_NeedsScopeSpill (b : bool) (I : Impl) : Impl :=
  mkImpl (MaxRegs I) (LRs I) (DefLocs I) (NumLocs I) (ChildrenMaxCumLocs I)
         (FirstUsableReg I) (FirstUsableStackSlot I) (UseLocs I) b.

(** The state of the scan of [assignLocations]: the object itself and the
    two locals that every helper receives by reference. *)
Record Scan : Type := mkScan {
  impl : Impl;
  curLocs : gmap nat Location;
  FreeLocs : list Location
}.

Definition set_impl (I : Impl) (st : Scan) : Scan := mkScan I (curLocs st) (FreeLocs st).
Definition set_curLocs (c : gmap nat Location) (st : Scan) : Scan :=
  mkScan (impl st) c (FreeLocs st).
Definition set_FreeLocs (f : list Location) (st : Scan) : Scan :=
  mkScan (impl st) (curLocs st) f.

(** [getAvailLoc]: the first free location, else a new one.  The code reads
    the element through its iterator right after erasing it; the value read
    is the erased first element. *)
Definition getAvailLoc (st : Scan) : Location * Scan :=
  match FreeLocs st with
  | l :: rest => (l, set_FreeLocs rest st)
  | [] =>
      let oldNumLocs := NumLocs (impl st) in
      let st' := set_impl (set_NumLocs (S oldNumLocs) (impl st)) st in
      (if oldNumLocs <? MaxRegs (impl st)
       then mkLocation Register oldNumLocs
       else mkLocation Stack (oldNumLocs - MaxRegs (impl st)),
       st')
  end.

(** [hasFreeRegister] *)
Definition hasFreeRegister (st : Scan) : bool :=
  match FreeLocs st with
  | l :: _ => isRegister l
  | [] => false
  end
  || (NumLocs (impl st) <? MaxRegs (impl st)).

(** [getCumLocs] *)
Definition getCumLocs (I : Impl) : nat := NumLocs I + ChildrenMaxCumLocs I.

(** The keys of a [std::map<unsigned, _>] in iteration order. *)
Definition keys {A} (m : gmap nat A) : list nat :=
  merge_sort Nat.le (map fst (map_to_list m)).

Definition inRegister (c : gmap nat Location) (pred : nat) : bool :=
  match c !! pred with
  | Some l => isRegister l
  | None => false
  end.

Section Allocator.

(** [std::sort] with the comparator of [sortFurthestNextUse].  The
    standard leaves the order of equivalent elements open, so the sort is a
    parameter: given the live ranges and the position it rearranges the
    vector. *)
Variable sortFurthestNextUse : gmap nat LiveRange -> nat -> list nat -> list nat.

Variable Sc : SPScope.

(** [getHeaderPred]: the first block predicate of the header. *)
Definition getHeaderPred : res nat :=
  match getBlockPredicates (getHeader Sc) with
  | p :: _ => Ok p
  | [] => Undef
  end.

(** [handleIfNotInRegister] *)
Definition handleIfNotInRegister (blockIndex : nat) (stackLoc : nat) (st : Scan)
    : res (UseLoc * Location * Scan) :=
  if hasFreeRegister st then
    let '(newLoc, st1) := getAvailLoc st in
    let UL := {| loc := getLoc newLoc; load := Some stackLoc; spill := None |} in
    assert (loc UL <=? MaxRegs (impl st1))
      (Ok (UL, newLoc, st1))
  else
    let order := filter (fun pred => inRegister (curLocs st) pred = true)
                        (keys (LRs (impl st))) in
    let order := sortFurthestNextUse (LRs (impl st)) blockIndex order in
    match last order with
    | None => Undef
    | Some furthestPred =>
        let '(newStackLoc, st1) := getAvailLoc st in
        assert (isStack newStackLoc)
          match curLocs st1 !! furthestPred with
          | None => AssertFail
          | Some replacement =>
              let UL := {| loc := getLoc replacement; load := Some stackLoc;
                           spill := None |} in
              match LRs (impl st1) !! furthestPred with
              | None => Undef
              | Some lr =>
                  '(UL, st2) ←
                    (if anyUseBefore lr blockIndex then
                       Ok ({| loc := loc UL; load := load UL;
                              spill := Some (getLoc newStackLoc) |}, st1)
                     else
                       assert (bool_decide (is_Some (DefLocs (impl st1) !! furthestPred)))
                         (Ok (UL, set_impl (set_DefLocs
                                 (<[furthestPred := newStackLoc]> (DefLocs (impl st1)))
                                 (impl st1)) st1)));
                  assert (isRegister replacement)
                    (Ok (UL, replacement,
                         set_curLocs (<[furthestPred := newStackLoc]> (curLocs st2)) st2))
              end
          end
    end.

(** [calculateNotHeaderUseLoc] *)
Definition calculateNotHeaderUseLoc (blockIndex usePred : nat) (st : Scan)
    : res (UseLoc * Scan) :=
  match curLocs st !! usePred with
  | None => AssertFail
  | Some curUseLoc =>
      if isStack curUseLoc then
        '(UL, newLoc, st1) ← handleIfNotInRegister blockIndex (getLoc curUseLoc) st;
        Ok (UL, set_curLocs (<[usePred := newLoc]> (curLocs st1)) st1)
      else
        Ok (newUseLoc (getLoc curUseLoc), st)
  end.

(** [calculateHeaderUseLoc] *)
Definition calculateHeaderUseLoc (st : Scan) : res (UseLoc * Scan) :=
  let '(l, st1) := getAvailLoc st in
  let UL := newUseLoc (getLoc l) in
  headerPred ← getHeaderPred;
  assert (length (getBlockPredicates (getHeader Sc)) =? 1)
    (assert (bool_decide (DefLocs (impl st1) !! headerPred = None))
       (let st2 := set_impl (set_DefLocs (<[headerPred := l]> (DefLocs (impl st1)))
                                         (impl st1)) st1 in
        let st3 := set_curLocs (<[headerPred := l]> (curLocs st2)) st2 in
        assert (loc UL =? 0) (Ok (UL, st3)))).

(** [Scope->isHeader(block)] for the block at position [i]: the header is
    the block at position 0, and the blocks of a scope are distinct. *)
Definition isHeader (i : nat) : bool := i =? 0.

(** The test that guards both loops of [handlePredUse]. *)
Definition usesP0 (usePred : nat) : res bool :=
  headerPred ← getHeaderPred;
  Ok ((usePred =? headerPred) && isRootTopLevel Sc).

(** [UseLocs[MBB]], which creates the entry when it is missing. *)
Definition useLocsOf (I : Impl) (MBB : nat) : gmap nat UseLoc :=
  default ∅ (UseLocs I !! MBB).

(** One round of the first loop of [handlePredUse]. *)
Definition assignUse (i : nat) (block : PredicatedBlock) (usePred : nat) (st : Scan)
    : res Scan :=
  p0 ← usesP0 usePred;
  if negb p0 then
    assert (isHeader i || (0 <? i))
      (assert (negb (bool_decide (is_Some (useLocsOf (impl st) (getMBB block) !! usePred))))
         ('(useLoc, st1) ←
            (if isHeader i then calculateHeaderUseLoc st
             else calculateNotHeaderUseLoc i usePred st);
          let here := useLocsOf (impl st1) (getMBB block) in
          assert (negb (bool_decide (is_Some (here !! usePred))))
            (Ok (set_impl (set_UseLocs
                   (<[getMBB block := <[usePred := useLoc]> here]> (UseLocs (impl st1)))
                   (impl st1)) st1))))
  else Ok st.

(** One round of the second loop of [handlePredUse]. *)
Definition retire (i : nat) (usePred : nat) (st : Scan) : res Scan :=
  p0 ← usesP0 usePred;
  if negb p0 then
    assert (isHeader i || (0 <? i))
      match LRs (impl st) !! usePred with
      | None => Undef
      | Some lr =>
          if lastUse lr i then
            match curLocs st !! usePred with
            | None => AssertFail
            | Some curUseLoc =>
                assert (set_count curUseLoc (FreeLocs st) =? 0)
                  (Ok (set_curLocs (delete usePred (curLocs st))
                         (set_FreeLocs (set_insert curUseLoc (FreeLocs st)) st)))
            end
          else Ok st
      end
  else Ok st.

(** A loop whose body may fail. *)
Fixpoint forEach {A} (f : A -> Scan -> res Scan) (l : list A) (st : Scan) : res Scan :=
  match l with
  | [] => Ok st
  | x :: l' => st1 ← f x st; forEach f l' st1
  end.

(** [handlePredUse] *)
Definition handlePredUse (i : nat) (block : PredicatedBlock) (st : Scan) : res Scan :=
  st1 ← forEach (assignUse i block) (getBlockPredicates block) st;
  forEach (retire i) (getBlockPredicates block) st1.

(** The body of the loop over [order] in [assignLocations]. *)
Definition assignDef (pred : nat) (st : Scan) : res Scan :=
  let '(l, st1) := getAvailLoc st in
  let st2 := set_curLocs (<[pred := l]> (curLocs st1)) st1 in
  let st3 := set_impl (set_DefLocs (<[pred := l]> (DefLocs (impl st2))) (impl st2)) st2 in
  match curLocs st3 !! pred, DefLocs (impl st3) !! pred with
  | Some c, Some d => assert (getLoc c =? getLoc d) (Ok st3)
  | _, _ => Undef
  end.

(** The body of the loop over the blocks in [assignLocations]. *)
Definition scanBlock (i : nat) (block : PredicatedBlock) (st : Scan) : res Scan :=
  st1 ← handlePredUse i block st;
  let definitions := getDefinitions block in
  let order := filter (fun pred => curLocs st1 !! pred = None) definitions in
  let order := sortFurthestNextUse (LRs (impl st1)) i order in
  forEach assignDef order st1.

Fixpoint scanFrom (i : nat) (bs : list PredicatedBlock) (st : Scan) : res Scan :=
  match bs with
  | [] => Ok st
  | block :: bs' => st1 ← scanBlock i block st; scanFrom (S i) bs' st1
  end.

(** The closing step of [assignLocations] for one header predicate. *)
Definition fixHeaderLoad (headerPred : nat) (st : Scan) : res Scan :=
  let HeaderMBB := getMBB (getHeader Sc) in
  match UseLocs (impl st) !! HeaderMBB with
  | None => AssertFail
  | Some headerUseLocs =>
      match headerUseLocs !! headerPred with
      | None => AssertFail
      | Some predUseLoc =>
          match curLocs st !! headerPred with
          | None => Undef
          | Some cur =>
              let curPredLoc := getLoc cur in
              if negb (loc predUseLoc =? curPredLoc) then
                let UL := {| loc := loc predUseLoc; load := Some curPredLoc;
                             spill := spill predUseLoc |} in
                Ok (set_impl (set_UseLocs
                      (<[HeaderMBB := <[headerPred := UL]> headerUseLocs]>
                         (UseLocs (impl st))) (impl st)) st)
              else Ok st
          end
      end
  end.

(** [assignLocations] *)
Definition assignLocations (I : Impl) : res Scan :=
  let st := mkScan I ∅ [] in
  st1 ← scanFrom 0 (getBlocksTopoOrd Sc) st;
  if negb (isTopLevel Sc) then
    assert (bool_decide (is_Some (UseLocs (impl st1) !! getMBB (getHeader Sc))))
      (forEach fixHeaderLoad (getBlockPredicates (getHeader Sc)) st1)
  else Ok st1.

(** The constructor [Impl::Impl]. *)
Definition newImpl (availRegs : nat) : res Impl :=
  let I := mkImpl availRegs (createLiveRanges Sc) ∅ 0 0 0 0 ∅ true in
  st ← assignLocations I;
  Ok (impl st).

End Allocator.

(* ===================================================================== *)
(** ** Queries on a finished allocation *)

(** [unifyRegister] and [unifyStack] *)
Definition unifyRegister (I : Impl) (idx : nat) : nat := idx + FirstUsableReg I.
Definition unifyStack (I : Impl) (idx : nat) : nat := idx + FirstUsableStackSlot I.

(** [RAInfo::needsScopeSpill] *)
Definition needsScopeSpill (I : Impl) : bool := NeedsScopeSpill I.

(** [RAInfo::getUseLocs]; the loop over the map builds the same result, and
    fails on the same maps, in whatever order the entries are visited. *)
Definition getUseLocs (I : Impl) (MBB : nat) : res (gmap nat nat) :=
  map_fold
    (fun pred ul acc =>
       result ← acc;
       let l := unifyRegister I (loc ul) in
       assert (l <? MaxRegs I) (Ok (<[pred := l]> result)))
    (Ok ∅) (useLocsOf I MBB).

(** [getAnyLoc] *)
Definition getAnyLoc (I : Impl) (MBB : nat) (f : UseLoc -> option nat) : gmap nat nat :=
  omap (fun ul => unifyRegister I <$> f ul) (useLocsOf I MBB).

(** [RAInfo::getLoadLocs] and [RAInfo::getSpillLocs] *)
Definition getLoadLocs (I : Impl) (MBB : nat) : gmap nat nat := getAnyLoc I MBB load.
Definition getSpillLocs (I : Impl) (MBB : nat) : gmap nat nat := getAnyLoc I MBB spill.

(** [RAInfo::neededSpillLocs] *)
Definition neededSpillLocs (I : Impl) : nat :=
  if NumLocs I <? MaxRegs I then 0 else NumLocs I - MaxRegs I.

(** [RAInfo::hasSpillLoad]: some use at the block has a spill or a load. *)
Definition hasSpillLoad (I : Impl) (MBB : nat) : bool :=
  existsb (fun ul => bool_decide (is_Some (spill ul.2)) || bool_decide (is_Some (load ul.2)))
          (map_to_list (useLocsOf I MBB)).

(** [RAInfo::getDefLoc] *)
Definition getDefLoc (I : Impl) (pred : nat) : res (LocType * nat) :=
  match DefLocs I !! pred with
  | None => AssertFail
  | Some l =>
      match getType l with
      | Register => Ok (getType l, unifyRegister I (getLoc l))
      | Stack => Ok (getType l, unifyStack I (getLoc l))
      end
  end.

(** The loop of [RAInfo::isFirstDef] from position [i] on. *)
Fixpoint isFirstDefFrom (I : Impl) (MBB pred : nat) (i : nat)
    (blocks : list PredicatedBlock) : res bool :=
  match blocks with
  | [] => Ok false
  | block :: blocks' =>
      if getMBB block =? MBB then
        match LRs I !! pred with
        | None => Undef
        | Some lr => Ok (negb (hasDefBefore lr i))
        end
      else isFirstDefFrom I MBB pred (S i) blocks'
  end.

(** [RAInfo::isFirstDef] *)
Definition isFirstDef (Sc : SPScope) (I : Impl) (MBB pred : nat) : res bool :=
  isFirstDefFrom I MBB pred 0 (getBlocksTopoOrd Sc).

(** [unifyWithParent] *)
Definition unifyWithParent (parent : Impl) (parentSpillLocCnt : nat) (topLevel : bool)
    (I : Impl) : Impl :=
  let I1 :=
    if negb topLevel && (NumLocs parent + getCumLocs I <=? MaxRegs I)
    then set_NeedsScopeSpill false
           (set_FirstUsableReg (FirstUsableReg parent + NumLocs parent) I)
    else I in
  if MaxRegs I1 <? NumLocs I1
  then set_FirstUsableStackSlot parentSpillLocCnt I1
  else I1.

(** [unifyWithChild] *)
Definition unifyWithChild (child : Impl) (I : Impl) : Impl :=
  set_ChildrenMaxCumLocs (Nat.max (getCumLocs child) (ChildrenMaxCumLocs I)) I.

(* ===================================================================== *)
(** ** Allocation over the scope tree

    The scope tree is a rose tree.  [computeRegAlloc] returns a map from
    scope objects to their [RAInfo]; a scope object is a node of the tree,
    so the map is kept as a tree of the same shape that carries, at each
    node, the scope and its [RAInfo]. *)

Inductive ScopeTree : Type :=
| ScopeNode (scope : SPScope) (children : list ScopeTree).

Inductive RATree : Type :=
| RANode (scope : SPScope) (RI : Impl) (children : list RATree).

Definition rootRI (t : RATree) : Impl := match t with RANode _ RI _ => RI end.
Definition rootScope (t : RATree) : SPScope := match t with RANode sc _ _ => sc end.
Definition subtrees (t : RATree) : list RATree := match t with RANode _ _ cs => cs end.

(** Loops over the children of a node: each child in turn, the second one
    with a counter handed from child to child. *)
Definition mapM {A B} (f : A -> res B) : list A -> res (list B) :=
  fix go (l : list A) : res (list B) :=
    match l with
    | [] => Ok []
    | x :: l' => y ← f x; r ← go l'; Ok (y :: r)
    end.

Definition mapAccumM {A B} (f : A -> nat -> res (B * nat)) : list A -> nat -> res (list B * nat) :=
  fix go (l : list A) (n : nat) : res (list B * nat) :=
    match l with
    | [] => Ok ([], n)
    | x :: l' => '(y, n1) ← f x n; '(r, n2) ← go l' n1; Ok (y :: r, n2)
    end.

Section ComputeRegAlloc.

Variable sortFurthestNextUse : gmap nat LiveRange -> nat -> list nat -> list nat.
Variable AvailPredRegs : nat.

(** The post-order pass: a scope's [RAInfo] is built after those of its
    children and then unified with each of them. *)
Fixpoint allocPostOrder (t : ScopeTree) : res RATree :=
  match t with
  | ScopeNode scope children =>
      cs ← mapM allocPostOrder children;
      RI ← newImpl sortFurthestNextUse scope AvailPredRegs;
      Ok (RANode scope (foldl (fun ri c => unifyWithChild (rootRI c) ri) RI cs) cs)
  end.

(** The depth-first pass: offsets are pushed from a scope to its
    children; [spillLocCnt] is threaded through the walk. *)
Fixpoint unifyPreOrder (parent : option Impl) (t : RATree) (spillLocCnt : nat)
    : res (RATree * nat) :=
  match t with
  | RANode scope RI children =>
      RI1 ← (if negb (isTopLevel scope) then
               match parent with
               | None => Undef
               | Some P => Ok (unifyWithParent P spillLocCnt (isTopLevel scope) RI)
               end
             else Ok RI);
      let spillLocCnt1 := spillLocCnt + neededSpillLocs RI1 in
      '(cs, cnt) ← mapAccumM (unifyPreOrder (Some RI1)) children spillLocCnt1;
      Ok (RANode scope RI1 cs, cnt)
  end.

(** [RAInfo::computeRegAlloc] *)
Definition computeRegAlloc (root : ScopeTree) : res RATree :=
  t ← allocPostOrder root;
  '(t', _) ← unifyPreOrder None t 0;
  Ok t'.

End ComputeRegAlloc.

(* --------------------------------------------------------------------- *)
(** *** One admissible sort

    Insertion sort with the comparator of [sortFurthestNextUse]; it is used
    to run the allocator on concrete scopes. *)

Definition nextUseLess (LRs : gmap nat LiveRange) (pos a b : nat) : bool :=
  match LRs !! a, LRs !! b with
  | Some la, Some lb => hasNextUseBefore la pos lb
  | _, _ => false
  end.

Fixpoint insertBy (lt : nat -> nat -> bool) (x : nat) (l : list nat) : list nat :=
  match l with
  | [] => [x]
  | y :: l' => if lt y x then y :: insertBy lt x l' else x :: y :: l'
  end.

Definition insertionSort (LRs : gmap nat LiveRange) (pos : nat) (l : list nat) : list nat :=
  foldr (insertBy (nextUseLess LRs pos)) [] l.

(* ===================================================================== *)
(** ** Machine code

    Modelled from the spec: the control-flow graph abstraction of the
    surrounding infrastructure (ordered basic blocks with successor and
    predecessor edges, each holding an ordered instruction list;
    instructions with an opcode and an operand list) is kept to what the code
    at hand reads and writes.  In the eliminator a machine basic block is
    named by its index in the function and an instruction by its block and
    its index in that block. *)

Inductive Reg : Type :=
| NoRegister
| GPR (n : nat)
| PRED (n : nat)
| SPEC (n : nat).

#[global] Instance Reg_eq_dec : EqDecision Reg.
Proof. solve_decision. Defined.

Definition R0 : Reg := GPR 0.
Definition R26 : Reg := GPR 26.
Definition P0 : Reg := PRED 0.
Definition S0 : Reg := SPEC 0.

Inductive Opcode : Type :=
| LBC | LWC | SBC | SWC | LIi | LIl | SUBi | CMPLT | BR | BTESTI | BCOPY | PMOV
| OtherOpcode (n : nat).

#[global] Instance Opcode_eq_dec : EqDecision Opcode.
Proof. solve_decision. Defined.

Inductive MachineOperand : Type :=
| MO_Reg (r : Reg)
| MO_Imm (i : Z)
| MO_FI (fi : Z)
| MO_MBB (b : nat).

#[global] Instance MachineOperand_eq_dec : EqDecision MachineOperand.
Proof. solve_decision. Defined.

Record MachineInstr : Type := mkMI {
  getOpcode : Opcode;
  operands : list MachineOperand
}.

#[global] Instance MachineInstr_eq_dec : EqDecision MachineInstr.
Proof. solve_decision. Defined.

Record MachineBasicBlock : Type := mkMBB {
  instrs : list MachineInstr;
  predecessors : list nat;
  successors : list nat
}.

Abbreviation MachineFunction := (list MachineBasicBlock).

(* ===================================================================== *)
(** ** The redundant load/store eliminator *)

Abbreviation BitVector := (list bool).

Definition bv_and (a b : BitVector) : BitVector := zip_with andb a b.
Definition bv_eqb (a b : BitVector) : bool := bool_decide (a = b).

(** The two vectors of [Blockinfo] that the load analysis uses; the other
    four belong to the store analysis, which [process] does not run. *)
Record Blockinfo : Type := mkBI {
  LiveFIExit : BitVector;
  LiveFIEntry : BitVector
}.

Definition newBlockinfo (size : nat) : Blockinfo :=
  {| LiveFIExit := replicate size false; LiveFIEntry := replicate size false |}.

Abbreviation InstrRef := (nat * nat)%type.

Section Eliminator.

Variable MF : MachineFunction.
Variable TgtReg : Reg.
Variable NumFIs : nat.
Variable OffsetFIs : nat.
(** The blocks in the order of [ReversePostOrderTraversal]. *)
Variable RPOT : list nat.

(** [normalizeFI]: the difference is taken in [unsigned] arithmetic. *)
Definition normalizeFI (fi : Z) : res nat :=
  let norm := ((fi - Z.of_nat OffsetFIs) mod 2 ^ 32)%Z in
  assert ((0 <=? fi)%Z && (norm <? Z.of_nat NumFIs)%Z) (Ok (Z.to_nat norm)).

(** [denormalizeFI]: the sum is taken in [unsigned] arithmetic and returned
    as an [int]. *)
Definition denormalizeFI (fi : nat) : res Z :=
  let sum := ((Z.of_nat fi + Z.of_nat OffsetFIs) mod 2 ^ 32)%Z in
  assert (fi <? NumFIs)
    (Ok (if (sum <? 2 ^ 31)%Z then sum else (sum - 2 ^ 32)%Z)).

(** [isUncondLoad]; the frame index is returned when the test holds. *)
Definition isUncondLoad (MI : MachineInstr) : option Z :=
  match getOpcode MI, operands MI with
  | (LBC | LWC), MO_Reg d :: MO_Reg p :: MO_Imm off :: MO_FI fi :: _ =>
      if bool_decide (d = TgtReg)
         && (bool_decide (p = NoRegister) || bool_decide (p = P0))
         && (off =? 0)%Z
      then Some fi else None
  | _, _ => None
  end.

(** [isUncondStore] *)
Definition isUncondStore (MI : MachineInstr) : option Z :=
  match getOpcode MI, operands MI with
  | (SBC | SWC), MO_Reg p :: MO_Imm off :: MO_FI fi :: _ :: MO_Reg v :: _ =>
      if bool_decide (v = TgtReg)
         && (bool_decide (p = NoRegister) || bool_decide (p = P0))
         && (off =? 0)%Z
      then Some fi else None
  | _, _ => None
  end.

(** The join over the predecessors of a block. *)
Fixpoint joinPreds (BlockInfos : list Blockinfo) (ps : list nat) (livein : BitVector)
    : res BitVector :=
  match ps with
  | [] => Ok livein
  | p :: ps' =>
      match BlockInfos !! p with
      | None => Undef
      | Some BI => joinPreds BlockInfos ps' (bv_and livein (LiveFIExit BI))
      end
  end.

Definition liveIn (BlockInfos : list Blockinfo) (MBB : MachineBasicBlock) : res BitVector :=
  if 0 <? length (predecessors MBB)
  then joinPreds BlockInfos (predecessors MBB) (replicate NumFIs true)
  else Ok (replicate NumFIs false).

(** The transfer loop over the instructions of block [b], from
    instruction [k] on. *)
Fixpoint transfer (b k : nat) (mis : list MachineInstr)
    (collected_loads : gmap InstrRef BitVector) (livefi : BitVector)
    : res (gmap InstrRef BitVector * BitVector) :=
  match mis with
  | [] => Ok (collected_loads, livefi)
  | MI :: mis' =>
      match isUncondLoad MI with
      | Some fi =>
          n ← normalizeFI fi;
          transfer b (S k) mis' (<[(b, k) := livefi]> collected_loads)
                   (bv_set n (replicate NumFIs false))
      | None => transfer b (S k) mis' collected_loads livefi
      end
  end.

Record LoadState : Type := mkLS {
  BlockInfos : list Blockinfo;
  collected : gmap InstrRef BitVector;
  changed : bool
}.

(** The body of the loop over the blocks in reverse post-order. *)
Definition visitBlock (b : nat) (st : LoadState) : res LoadState :=
  match MF !! b, BlockInfos st !! b with
  | Some MBB, Some BI =>
      livein ← liveIn (BlockInfos st) MBB;
      let '(BI1, changed1) :=
        if negb (bv_eqb (LiveFIEntry BI) livein)
        then (mkBI (LiveFIExit BI) livein, true)
        else (BI, changed st) in
      '(coll, livefi) ← transfer b 0 (instrs MBB) (collected st) livein;
      let '(BI2, changed2) :=
        if negb (bv_eqb (LiveFIExit BI1) livefi)
        then (mkBI livefi (LiveFIEntry BI1), true)
        else (BI1, changed1) in
      Ok (mkLS (<[b := BI2]> (BlockInfos st)) coll changed2)
  | _, _ => Undef
  end.

Fixpoint sweep (bs : list nat) (st : LoadState) : res LoadState :=
  match bs with
  | [] => Ok st
  | b :: bs' => st1 ← visitBlock b st; sweep bs' st1
  end.

(** The [do ... while (changed)] loop; [None] when the fuel runs out. *)
Fixpoint iterate (fuel : nat) (st : LoadState) : option (res LoadState) :=
  match fuel with
  | 0 => None
  | S fuel' =>
      match sweep RPOT (mkLS (BlockInfos st) (collected st) false) with
      | Ok st1 => if changed st1 then iterate fuel' st1 else Some (Ok st1)
      | AssertFail => Some AssertFail
      | Undef => Some Undef
      end
  end.

Definition instrAt (r : InstrRef) : option MachineInstr :=
  MBB ← MF !! r.1; instrs MBB !! r.2.

(** The closing loop of [findRedundantLoads] for one collected load. *)
Definition markLoad (r : InstrRef) (bv : BitVector) (acc : res (gset InstrRef))
    : res (gset InstrRef) :=
  Removables ← acc;
  match instrAt r ≫= isUncondLoad with
  | None => Undef
  | Some fi =>
      n ← normalizeFI fi;
      Ok (if bv_test n bv then {[ r ]} ∪ Removables else Removables)
  end.

(** [findRedundantLoads]: the instructions to remove and the final block
    information. *)
Definition findRedundantLoads (fuel : nat) (BIs : list Blockinfo)
    (Removables : gset InstrRef) : option (res (gset InstrRef * list Blockinfo)) :=
  match iterate fuel (mkLS BIs ∅ true) with
  | None => None
  | Some r =>
      Some (st ← r;
            Removables' ← map_fold markLoad (Ok Removables) (collected st);
            Ok (Removables', BlockInfos st))
  end.

(** [remove]: erases every instruction of [Removables] from its block. *)
Definition eraseFrom (Removables : gset InstrRef) (b : nat) (MBB : MachineBasicBlock)
    : MachineBasicBlock :=
  mkMBB (omap id (imap (fun k MI => if bool_decide ((b, k) ∈ Removables)
                                     then None else Some MI) (instrs MBB)))
        (predecessors MBB) (successors MBB).

Definition remove (F : MachineFunction) (Removables : gset InstrRef)
    : nat * MachineFunction :=
  (size Removables, imap (eraseFrom Removables) F).

(** [process]; [Removables] holds the instructions registered with
    [addRemovableInst] before the call. *)
Definition process (fuel : nat) (Removables : gset InstrRef)
    : option (res (nat * MachineFunction)) :=
  let BIs := map (fun _ => newBlockinfo NumFIs) MF in
  match findRedundantLoads fuel BIs Removables with
  | None => None
  | Some r =>
      Some ('(Removables1, _) ← r;
            let '(cnt1, F1) := remove MF Removables1 in
            let '(cnt2, F2) := remove F1 ∅ in
            Ok (cnt1 + cnt2, F2))
  end.

End Eliminator.

(* ===================================================================== *)
(** ** The linearizer: leaving a loop scope *)

(** The function under construction: its blocks by number, the code
    layout, and the walker's [LastMBB]. *)
Record Walker : Type := mkWalker {
  mbbs : gmap nat MachineBasicBlock;
  layout : list nat;
  LastMBB : option nat
}.

Definition emptyMBB : MachineBasicBlock := mkMBB [] [] [].

(** [BuildMI] at the end of a block: the instruction is appended. *)
Definition appendInstr (MI : MachineInstr) (B : MachineBasicBlock) : MachineBasicBlock :=
  mkMBB (instrs B ++ [MI]) (predecessors B) (successors B).

Definition removeAll (x : nat) (l : list nat) : list nat :=
  filter (fun y => y ≠ x) l.

(** [A->addSuccessor(B)] and [A->removeSuccessor(B)] on the block map. *)
Definition addSuccessor (a b : nat) (m : gmap nat MachineBasicBlock)
    : gmap nat MachineBasicBlock :=
  let m1 := alter (fun A => mkMBB (instrs A) (predecessors A) (successors A ++ [b])) a m in
  alter (fun B => mkMBB (instrs B) (predecessors B ++ [a]) (successors B)) b m1.

Definition removeSuccessor (a b : nat) (m : gmap nat MachineBasicBlock)
    : gmap nat MachineBasicBlock :=
  let m1 := alter (fun A => mkMBB (instrs A) (predecessors A) (removeAll b (successors A))) a m in
  alter (fun B => mkMBB (instrs B) (removeAll a (predecessors B)) (successors B)) b m1.

(** [MBB->moveAfter(Last)] on the layout. *)
Fixpoint insertAfter (last x : nat) (l : list nat) : list nat :=
  match l with
  | [] => []
  | y :: l' => if y =? last then y :: x :: l' else y :: insertAfter last x l'
  end.

Definition moveAfter (x last : nat) (l : list nat) : list nat :=
  insertAfter last x (removeAll x l).

(** The bindings of a [std::map] in iteration order. *)
Definition bindings {A} (m : gmap nat A) : list (nat * A) :=
  omap (fun k => (fun v => (k, v)) <$> m !! k) (keys m).

Section Linearize.

(** What the pass object and the target description provide. *)
Variable AvailPredRegs : list Reg.
Variable GuardsReg : Reg.
Variable PRTmp : Reg.
Variable defaultPred : list MachineOperand.
Variable getSinglePathLoopCntFI : Z -> Z.
Variable getSinglePathS0SpillFI : Z -> Z.
Variable getSinglePathExcessSpillFI : nat -> Z.
Variable getS0Index : Reg -> Z.
Variable copyPhysReg : Reg -> Reg -> bool -> list MachineInstr.
Variable removeBranch : list MachineInstr -> list MachineInstr.

(** [AddDefaultPred(BuildMI(..., desc [, dest]))] followed by the
    operands added afterwards. *)
Definition buildPred (op : Opcode) (dest : list MachineOperand)
    (rest : list MachineOperand) : MachineInstr :=
  mkMI op (dest ++ defaultPred ++ rest).

(** [PatmosSPReduce::getPredicateRegisters] *)
Definition getPredicateRegisters (R : Impl) (block : PredicatedBlock)
    : res (gmap nat Reg) :=
  uls ← getUseLocs R (getMBB block);
  map_fold
    (fun pred l acc =>
       m ← acc;
       match AvailPredRegs !! l with
       | Some r => Ok (<[pred := r]> m)
       | None => AssertFail
       end)
    (Ok ∅) uls.

(** [PatmosSPReduce::getStackLocPair] *)
Definition getStackLocPair (stloc : nat) : Z * Z :=
  (getSinglePathExcessSpillFI (stloc / 32), Z.of_nat (stloc mod 32)).

(** The two instructions of [PatmosSPReduce::insertPredicateLoad]; its
    assertion [loc != -1] concerns the largest [unsigned] value only. *)
Definition predicateLoad (l : nat) (target_preg : Reg) : list MachineInstr :=
  let '(fi, bitpos) := getStackLocPair l in
  [ buildPred LWC [MO_Reg GuardsReg] [MO_FI fi; MO_Imm 0];
    buildPred BTESTI [MO_Reg target_preg] [MO_Reg GuardsReg; MO_Imm bitpos] ].

(** [PatmosSPReduce::getLoopLiveOutPRegs], from the live-in sets of the
    blocks that succeed the scope. *)
Definition getLoopLiveOutPRegs (succLiveIn : list (Reg -> bool))
    (UnavailPredRegs : list Reg) : list Reg :=
  flat_map (fun isLiveIn => filter (fun r => isLiveIn r = true) UnavailPredRegs)
           succLiveIn.

(** [MF.CreateMachineBasicBlock()] and [MF.push_back]. *)
Definition createMBB (w : Walker) : nat * Walker :=
  let n := fresh (dom (mbbs w)) in
  (n, mkWalker (<[n := emptyMBB]> (mbbs w)) (layout w ++ [n]) (LastMBB w)).

(** [LinearizeWalker::nextMBB] *)
Definition nextMBB (MBB : nat) (w : Walker) : Walker :=
  let succs := default [] (successors <$> mbbs w !! MBB) in
  let m1 := foldl (fun m s => removeSuccessor MBB s m) (mbbs w) succs in
  let m2 := alter (fun B => mkMBB (removeBranch (instrs B)) (predecessors B)
                                  (successors B)) MBB m1 in
  match LastMBB w with
  | Some last =>
      mkWalker (addSuccessor last MBB m2) (moveAfter MBB last (layout w)) (Some MBB)
  | None => mkWalker m2 (layout w) (Some MBB)
  end.

Definition emit (MBB : nat) (mis : list MachineInstr) (w : Walker) : Walker :=
  mkWalker (alter (fun B => mkMBB (instrs B ++ mis) (predecessors B) (successors B))
                  MBB (mbbs w))
           (layout w) (LastMBB w).

(** The loads of the header predicates at the head of the back-edge block. *)
Fixpoint headerLoads (predRegs : gmap nat Reg) (neededLoads : list (nat * nat))
    : res (list MachineInstr) :=
  match neededLoads with
  | [] => Ok []
  | (pred, l) :: rest =>
      match predRegs !! pred with
      | None => Undef
      | Some r => mis ← headerLoads predRegs rest; Ok (predicateLoad l r ++ mis)
      end
  end.

(** [S->getDepth() - 1]: the depth is an [unsigned], so the difference
    wraps around at depth 0. *)
Definition depthSlot (Sc : SPScope) : Z := ((Z.of_nat (getDepth Sc) - 1) mod 2 ^ 32)%Z.

(** The counter update of the back-edge block. *)
Definition counterUpdate (fi : Z) : list MachineInstr :=
  let tmpReg := GuardsReg in
  let branch_preg := PRTmp in
  [ buildPred LWC [MO_Reg tmpReg] [MO_FI fi; MO_Imm 0];
    buildPred SUBi [MO_Reg tmpReg] [MO_Reg tmpReg; MO_Imm 1];
    buildPred CMPLT [MO_Reg branch_preg] [MO_Reg R0; MO_Reg tmpReg];
    buildPred SWC [] [MO_FI fi; MO_Imm 0; MO_Reg tmpReg] ].

(** The branch to the header that ends the back-edge block. *)
Definition backBranch (HeaderMBB : nat) : MachineInstr :=
  let branch_preg := PRTmp in
  mkMI BR [MO_Reg branch_preg; MO_Imm 0; MO_MBB HeaderMBB].

(** The instructions of the post-loop block. *)
Definition postLoop (fi : Z) (liveouts : list Reg) : list MachineInstr :=
  let tmpReg := GuardsReg in
  [ buildPred LBC [MO_Reg tmpReg] [MO_FI fi; MO_Imm 0] ]
  ++ map (fun r => buildPred BCOPY [MO_Reg tmpReg]
                     [MO_Reg tmpReg; MO_Imm (getS0Index r); MO_Reg r; MO_Imm 0])
         liveouts
  ++ copyPhysReg S0 tmpReg true.

(** [LinearizeWalker::exitSubscope] *)
Definition exitSubscope (Sc : SPScope) (RI : Impl) (succLiveIn : list (Reg -> bool))
    (UnavailPredRegs : list Reg) (w : Walker) : res Walker :=
  let headerBlock := getHeader Sc in
  let HeaderMBB := getMBB headerBlock in
  if isTopLevel Sc then Ok w
  else
    let '(BranchMBB, w1) := createMBB w in
    let w2 := nextMBB BranchMBB w1 in
    predRegs ← getPredicateRegisters RI headerBlock;
    let neededLoads := getLoadLocs RI HeaderMBB in
    loads ← headerLoads predRegs (bindings neededLoads);
    let w3 := emit BranchMBB loads w2 in
    assert (negb (isTopLevel Sc))
      (assert (hasLoopBound Sc)
         (let fi := getSinglePathLoopCntFI (depthSlot Sc) in
          let w4 := emit BranchMBB (counterUpdate fi) w3 in
          assert (negb (bool_decide (PRTmp = NoRegister)))
            (let w4 := emit BranchMBB [backBranch HeaderMBB] w4 in
             let w5 := mkWalker (addSuccessor BranchMBB HeaderMBB (mbbs w4))
                                (layout w4) (LastMBB w4) in
             if needsScopeSpill RI then
               let '(PostMBB, w6) := createMBB w5 in
               let fi := getSinglePathS0SpillFI (depthSlot Sc) in
               let liveouts := getLoopLiveOutPRegs succLiveIn UnavailPredRegs in
               let w7 := emit PostMBB (postLoop fi liveouts) w6 in
               Ok (nextMBB PostMBB w7)
             else Ok w5))).

(** The spill code of [PatmosSPReduce::insertUseSpillLoad] for one
    predicate (the variant compiled with [USE_BCOPY]). *)
Definition useSpill (spillLoc : nat) (use_preg : Reg) : list MachineInstr :=
  let '(fi, bitpos) := getStackLocPair spillLoc in
  [ buildPred LWC [MO_Reg GuardsReg] [MO_FI fi; MO_Imm 0];
    buildPred BCOPY [MO_Reg GuardsReg]
              [MO_Reg GuardsReg; MO_Imm bitpos; MO_Reg use_preg; MO_Imm 0];
    buildPred SWC [] [MO_FI fi; MO_Imm 0; MO_Reg GuardsReg] ].

(** One round of the second loop of [insertUseSpillLoad]: the code is
    inserted before the first instruction of the block. *)
Definition insertLoad (spillLocs : gmap nat nat) (useLocs : gmap nat Reg)
    (acc : res (list MachineInstr)) (loadLoc : nat * nat) : res (list MachineInstr) :=
  body ← acc;
  match useLocs !! loadLoc.1 with
  | None => AssertFail
  | Some use_preg =>
      Ok (match spillLocs !! loadLoc.1 with
          | Some spillLoc => useSpill spillLoc use_preg
          | None => []
          end ++ predicateLoad loadLoc.2 use_preg ++ body)
  end.

(** [PatmosSPReduce::insertUseSpillLoad], on the instructions of the
    block. *)
Definition insertUseSpillLoad (R : Impl) (block : PredicatedBlock)
    (body : list MachineInstr) : res (list MachineInstr) :=
  let MBB := getMBB block in
  let spillLocs := getSpillLocs R MBB in
  let loadLocs := getLoadLocs R MBB in
  useLocs ← getPredicateRegisters R block;
  assert (forallb (fun pred => bool_decide (is_Some (loadLocs !! pred))) (keys spillLocs))
    (foldl (insertLoad spillLocs useLocs) (Ok body) (bindings loadLocs)).

(** Modelled from the spec: the loop bound of a scope ([SPScope::getLoopBound]
    is declared in a header that is not among the sources at hand). *)
Variable getLoopBound : SPScope -> Z.

(** The loop of [LinearizeWalker::insertHeaderPredLoadOrCopy].  Reading a
    [std::map] with [operator[]] enters a missing key with the value 0, which
    is no register; the two maps of registers are threaded through the loop
    for that reason. *)
Fixpoint headerPredLoadOrCopy (parentLoadLocs : gmap nat nat)
    (parentPredRegs predRegs : gmap nat Reg) (preds : list nat) : list MachineInstr :=
  match preds with
  | [] => []
  | pred :: preds' =>
      let r := default NoRegister (predRegs !! pred) in
      let predRegs' := <[pred := r]> predRegs in
      match parentLoadLocs !! pred with
      | Some l =>
          predicateLoad l r
          ++ headerPredLoadOrCopy parentLoadLocs parentPredRegs predRegs' preds'
      | None =>
          let parentReg := default P0 (parentPredRegs !! pred) in
          let pr := default NoRegister (parentPredRegs !! pred) in
          let parentPredRegs' := <[pred := pr]> parentPredRegs in
          (if bool_decide (r = pr) then []
           else [buildPred PMOV [MO_Reg r] [MO_Reg parentReg; MO_Imm 0]])
          ++ headerPredLoadOrCopy parentLoadLocs parentPredRegs' predRegs' preds'
      end
  end.

(** [LinearizeWalker::insertHeaderPredLoadOrCopy]: the instructions added
    to the preheader, for the [RAInfo] of the scope and of its parent. *)
Definition insertHeaderPredLoadOrCopy (Sc : SPScope) (RI RP : Impl)
    : res (list MachineInstr) :=
  let headerBlock := getHeader Sc in
  let parentLoadLocs := getLoadLocs RP (getMBB headerBlock) in
  parentPredRegs ← getPredicateRegisters RP headerBlock;
  predRegs ← getPredicateRegisters RI headerBlock;
  Ok (headerPredLoadOrCopy parentLoadLocs parentPredRegs predRegs
        (getBlockPredicates headerBlock)).

(** The save of S0 at the head of the preheader; the load in the middle is
    the dummy that is registered with the eliminator. *)
Definition scopeSpill (fi : Z) : list MachineInstr :=
  copyPhysReg GuardsReg S0 false
  ++ [ buildPred LBC [MO_Reg GuardsReg] [MO_FI fi; MO_Imm 0];
       buildPred SBC [] [MO_FI fi; MO_Imm 0; MO_Reg GuardsReg] ].

(** The initialisation of the loop counter; [loop] is a [uint32_t]. *)
Definition loopCounterInit (loop : Z) (fi : Z) : list MachineInstr :=
  let tmpReg := GuardsReg in
  [ buildPred (if (loop <? 2 ^ 12)%Z then LIi else LIl) [MO_Reg tmpReg] [MO_Imm loop];
    buildPred LWC [MO_Reg GuardsReg] [MO_FI fi; MO_Imm 0];
    buildPred SWC [] [MO_FI fi; MO_Imm 0; MO_Reg tmpReg] ].

(** [LinearizeWalker::enterSubscope]: the walker afterwards, and the
    instructions handed to [addRemovableInst]. *)
Definition enterSubscope (Sc : SPScope) (RI RP : Impl) (w : Walker)
    : res (Walker * list MachineInstr) :=
  if isTopLevel Sc then Ok (w, [])
  else
    let '(PrehdrMBB, w1) := createMBB w in
    let '(spillCode, dummy1) :=
      if needsScopeSpill RI then
        let fi := getSinglePathS0SpillFI (depthSlot Sc) in
        (scopeSpill fi, [buildPred LBC [MO_Reg GuardsReg] [MO_FI fi; MO_Imm 0]])
      else ([], []) in
    copies ← insertHeaderPredLoadOrCopy Sc RI RP;
    let '(counterCode, dummy2) :=
      if hasLoopBound Sc then
        let loop := (getLoopBound Sc mod 2 ^ 32)%Z in
        let fi := getSinglePathLoopCntFI (depthSlot Sc) in
        (loopCounterInit loop fi, [buildPred LWC [MO_Reg GuardsReg] [MO_FI fi; MO_Imm 0]])
      else ([], []) in
    let w2 := emit PrehdrMBB (spillCode ++ copies ++ counterCode) w1 in
    Ok (nextMBB PrehdrMBB w2, dummy1 ++ dummy2).

End Linearize.

(* ===================================================================== *)
(* ===================================================================== *)
(** * Properties *)

(* ===================================================================== *)
(** ** The ordering of locations *)

Lemma LocType_eqb_eq a b : LocType_eqb a b = true ↔ a = b.
Proof. destruct a, b; simpl; split; congruence. Qed.

Lemma isRegister_isStack l : isStack l = negb (isRegister l).
Proof. destruct l as [[] n]; reflexivity. Qed.

Lemma Location_lt_iff l r :
  Location_lt l r = true ↔ getType l = getType r ∧ getLoc l < getLoc r.
Proof.
  unfold Location_lt. destruct (LocType_eqb (getType l) (getType r)) eqn:E.
  - apply LocType_eqb_eq in E. rewrite Nat.ltb_lt. tauto.
  - split; [congruence|]. intros [H _]. apply LocType_eqb_eq in H. congruence.
Qed.

Lemma Location_lt_same_type l r :
  getType l = getType r → Location_lt l r = Location_lt_spec l r.
Proof.
  destruct l as [[] a], r as [[] b]; simpl; intros; try discriminate; reflexivity.
Qed.

(** C3.  The comparison of the code answers "not less" for a register and
    a stack slot, in both directions, where the stated order puts the
    register first. *)
Theorem C3_register_not_before_stack :
  Location_lt (mkLocation Register 0) (mkLocation Stack 0) = false
  ∧ Location_lt (mkLocation Stack 0) (mkLocation Register 0) = false
  ∧ Location_lt_spec (mkLocation Register 0) (mkLocation Stack 0) = true.
Proof. repeat split. Qed.

(* ===================================================================== *)
(** ** Live range construction *)

Section LiveRanges.

Variable Sc : SPScope.

Local Abbreviation n := (getNumberOfFcfgBlocks Sc).

(** Every range has one position more than the scope has blocks. *)
Definition sizedLRs (m : LRmap) : Prop :=
  ∀ p lr, m !! p = Some lr → length (uses lr) = S n ∧ length (defs lr) = S n.

(** Uses that are recorded stay recorded. *)
Definition keepsUses (m m' : LRmap) : Prop :=
  ∀ p lr i, m !! p = Some lr → isUse lr i = true →
    ∃ lr', m' !! p = Some lr' ∧ isUse lr' i = true.

Lemma keepsUses_refl m : keepsUses m m.
Proof. intros p lr i ? ?; eauto. Qed.

Lemma keepsUses_trans m1 m2 m3 :
  keepsUses m1 m2 → keepsUses m2 m3 → keepsUses m1 m3.
Proof.
  intros H12 H23 p lr i Hp Hi.
  destruct (H12 _ _ _ Hp Hi) as (lr' & Hp' & Hi'). eauto.
Qed.

Lemma bv_test_set_eq pos bv : pos < length bv → bv_test pos (bv_set pos bv) = true.
Proof. intros H. unfold bv_test, bv_set. by rewrite list_lookup_insert_eq. Qed.

Lemma bv_test_set_mono pos i bv : bv_test i bv = true → bv_test i (bv_set pos bv) = true.
Proof.
  unfold bv_test, bv_set. intros H. destruct (decide (pos = i)) as [->|Hne].
  - destruct (bv !! i) eqn:E; [|discriminate].
    rewrite list_lookup_insert_eq; [done|]. by eapply lookup_lt_Some.
  - by rewrite list_lookup_insert_ne.
Qed.

Lemma sized_new : length (uses (newLiveRange n)) = S n ∧ length (defs (newLiveRange n)) = S n.
Proof. simpl. rewrite !length_replicate. done. Qed.

Lemma updLR_lookup f p q m :
  updLR Sc f p m !! q =
    if decide (p = q) then Some (f (default (newLiveRange n) (m !! p))) else m !! q.
Proof.
  unfold updLR. destruct (decide (p = q)) as [->|].
  - by rewrite lookup_insert_eq.
  - by rewrite lookup_insert_ne.
Qed.

Lemma updLR_addUse_sized pos p m : sizedLRs m → sizedLRs (updLR Sc (addUse pos) p m).
Proof.
  intros Hm q lr. rewrite updLR_lookup. destruct (decide (p = q)) as [->|]; [|apply Hm].
  intros [= <-]. simpl. unfold bv_set. rewrite length_insert.
  destruct (m !! q) eqn:E; simpl; [by apply (Hm q)|apply sized_new].
Qed.

Lemma updLR_addDef_sized pos p m : sizedLRs m → sizedLRs (updLR Sc (addDef pos) p m).
Proof.
  intros Hm q lr. rewrite updLR_lookup. destruct (decide (p = q)) as [->|]; [|apply Hm].
  intros [= <-]. simpl. unfold bv_set. rewrite length_insert.
  destruct (m !! q) eqn:E; simpl; [by apply (Hm q)|apply sized_new].
Qed.

Lemma updLR_addUse_keeps pos p m : keepsUses m (updLR Sc (addUse pos) p m).
Proof.
  intros q lr i Hq Hi. rewrite updLR_lookup. destruct (decide (p = q)) as [->|]; [|eauto].
  eexists; split; [done|]. rewrite Hq. simpl. by apply bv_test_set_mono.
Qed.

Lemma updLR_addDef_keeps pos p m : keepsUses m (updLR Sc (addDef pos) p m).
Proof.
  intros q lr i Hq Hi. rewrite updLR_lookup. destruct (decide (p = q)) as [->|]; [|eauto].
  eexists; split; [done|]. by rewrite Hq.
Qed.

Lemma updLR_addUse_here pos p m :
  sizedLRs m → pos ≤ n →
  ∃ lr, updLR Sc (addUse pos) p m !! p = Some lr ∧ isUse lr pos = true.
Proof.
  intros Hm Hpos. rewrite updLR_lookup, decide_True by done.
  eexists; split; [done|]. unfold isUse; simpl. apply bv_test_set_eq.
  destruct (m !! p) eqn:E; simpl.
  - destruct (Hm _ _ E) as [-> _]. lia.
  - rewrite length_replicate. unfold getNumberOfFcfgBlocks in Hpos. simpl in Hpos. lia.
Qed.

Lemma addUses_sized pos ps m : sizedLRs m → sizedLRs (addUses Sc pos ps m).
Proof.
  unfold addUses. revert m. induction ps as [|p ps IH]; intros m Hm; simpl; [done|].
  apply IH. by apply updLR_addUse_sized.
Qed.

Lemma addDefs_sized pos ps m : sizedLRs m → sizedLRs (addDefs Sc pos ps m).
Proof.
  unfold addDefs. revert m. induction ps as [|p ps IH]; intros m Hm; simpl; [done|].
  apply IH. by apply updLR_addDef_sized.
Qed.

Lemma addUses_keeps pos ps m : keepsUses m (addUses Sc pos ps m).
Proof.
  unfold addUses. revert m. induction ps as [|p ps IH]; intros m; simpl.
  - apply keepsUses_refl.
  - eapply keepsUses_trans; [apply updLR_addUse_keeps|apply IH].
Qed.

Lemma addDefs_keeps pos ps m : keepsUses m (addDefs Sc pos ps m).
Proof.
  unfold addDefs. revert m. induction ps as [|p ps IH]; intros m; simpl.
  - apply keepsUses_refl.
  - eapply keepsUses_trans; [apply updLR_addDef_keeps|apply IH].
Qed.

Lemma addUses_here pos ps m p :
  sizedLRs m → pos ≤ n → p ∈ ps →
  ∃ lr, addUses Sc pos ps m !! p = Some lr ∧ isUse lr pos = true.
Proof.
  unfold addUses. revert m. induction ps as [|q ps IH]; intros m Hm Hpos Hin; simpl.
  - by apply elem_of_nil in Hin.
  - apply elem_of_cons in Hin as [->|Hin].
    + destruct (updLR_addUse_here pos q m Hm Hpos) as (lr & Hlr & Hu).
      exact (addUses_keeps pos ps _ _ _ _ Hlr Hu).
    + apply IH; [by apply updLR_addUse_sized|done|done].
Qed.

Lemma liveRangesFrom_sized i bs m : sizedLRs m → sizedLRs (liveRangesFrom Sc i bs m).
Proof.
  revert i m. induction bs as [|b bs IH]; intros i m Hm; simpl; [done|].
  apply IH. by apply addDefs_sized, addUses_sized.
Qed.

Lemma liveRangesFrom_keeps i bs m : keepsUses m (liveRangesFrom Sc i bs m).
Proof.
  revert i m. induction bs as [|b bs IH]; intros i m; simpl; [apply keepsUses_refl|].
  eapply keepsUses_trans; [apply addUses_keeps|].
  eapply keepsUses_trans; [apply addDefs_keeps|apply IH].
Qed.

(** A block predicate of the block at position [i + k] has a use there. *)
Lemma liveRangesFrom_use i bs m k block p :
  sizedLRs m → i + length bs ≤ n →
  bs !! k = Some block → p ∈ getBlockPredicates block →
  ∃ lr, liveRangesFrom Sc i bs m !! p = Some lr ∧ isUse lr (i + k) = true.
Proof.
  revert i m k. induction bs as [|b bs IH]; intros i m k Hm Hlen Hk Hp; simpl in *.
  - by rewrite lookup_nil in Hk.
  - destruct k as [|k]; simpl in Hk.
    + injection Hk as ->. rewrite Nat.add_0_r.
      destruct (addUses_here i (getBlockPredicates block) m p Hm) as (lr & Hlr & Hu);
        [lia|done|].
      destruct (addDefs_keeps i (getDefinitions block) _ _ _ _ Hlr Hu) as (lr1 & Hlr1 & Hu1).
      exact (liveRangesFrom_keeps (S i) bs _ _ _ _ Hlr1 Hu1).
    + replace (i + S k) with (S i + k) by lia.
      apply IH; [by apply addDefs_sized, addUses_sized|lia|done|done].
Qed.

Lemma sized_empty : sizedLRs ∅.
Proof. intros p lr H. by rewrite lookup_empty in H. Qed.

Lemma createLiveRanges_sized : sizedLRs (createLiveRanges Sc).
Proof.
  unfold createLiveRanges. destruct (negb (isTopLevel Sc)).
  - apply addUses_sized, liveRangesFrom_sized, sized_empty.
  - apply liveRangesFrom_sized, sized_empty.
Qed.

(** The uses at the positions of the blocks. *)
Lemma createLiveRanges_use k block p :
  getBlocksTopoOrd Sc !! k = Some block → p ∈ getBlockPredicates block →
  ∃ lr, createLiveRanges Sc !! p = Some lr ∧ isUse lr k = true.
Proof.
  intros Hk Hp.
  destruct (liveRangesFrom_use 0 (getBlocksTopoOrd Sc) ∅ k block p sized_empty)
    as (lr & Hlr & Hu); [done|done|done|].
  unfold createLiveRanges. destruct (negb (isTopLevel Sc)); [|eauto].
  exact (addUses_keeps _ _ _ _ _ _ Hlr Hu).
Qed.

(** C4 (amended).  In a scope that is not top-level, every block
    predicate of the header has a use at the position one past the last
    block, and the uses at the positions of the blocks are recorded as
    well. *)
Theorem C4_sentinel_use_of_header_predicates :
  isTopLevel Sc = false →
  ∀ p, p ∈ getBlockPredicates (getHeader Sc) →
    ∃ lr, createLiveRanges Sc !! p = Some lr
          ∧ length (uses lr) = S (length (getBlocksTopoOrd Sc))
          ∧ isUse lr (length (getBlocksTopoOrd Sc)) = true
          ∧ ∀ k block, getBlocksTopoOrd Sc !! k = Some block →
              p ∈ getBlockPredicates block → isUse lr k = true.
Proof.
  intros Htop p Hp.
  assert (Hs := createLiveRanges_sized).
  assert (∃ lr, createLiveRanges Sc !! p = Some lr
                ∧ isUse lr (length (getBlocksTopoOrd Sc)) = true) as (lr & Hlr & Hu).
  { unfold createLiveRanges. rewrite Htop. simpl negb. cbv iota.
    apply addUses_here; [apply liveRangesFrom_sized, sized_empty|done|done]. }
  exists lr. split; [done|]. split; [by apply (Hs p)|]. split; [done|].
  intros k block Hk Hpk.
  destruct (createLiveRanges_use k block p Hk Hpk) as (lr' & Hlr' & Hu').
  congruence.
Qed.

End LiveRanges.

Definition topScope1 : SPScope :=
  mkScope (mkBlock 0 [0] []) [] true false 0 false.

Definition loopScope1 : SPScope :=
  mkScope (mkBlock 1 [1] [2]) [mkBlock 2 [2] []] false false 1 true.

(** C4, as stated for every scope, fails on a top-level scope: its header
    predicate has no use at the position past the last block. *)
Lemma C4_top_level_has_no_sentinel_use :
  ¬ (∀ Sc p, p ∈ getBlockPredicates (getHeader Sc) →
       ∃ lr, createLiveRanges Sc !! p = Some lr
             ∧ isUse lr (length (getBlocksTopoOrd Sc)) = true).
Proof.
  intros H. destruct (H topScope1 0) as (lr & Hlr & Hu).
  - simpl. apply list_elem_of_here.
  - vm_compute in Hlr. injection Hlr as <-. vm_compute in Hu. discriminate.
Qed.

Lemma C4_witness :
  isTopLevel loopScope1 = false
  ∧ ∃ lr, createLiveRanges loopScope1 !! 1 = Some lr ∧ isUse lr 2 = true.
Proof.
  split; [reflexivity|].
  destruct (C4_sentinel_use_of_header_predicates loopScope1 eq_refl 1) as (lr & H1 & _ & H2 & _).
  - simpl. apply list_elem_of_here.
  - exists lr. split; [exact H1|exact H2].
Defined.

(* ===================================================================== *)
(** ** Runs that succeed *)

Lemma bind_Ok {A B} (r : res A) (k : A → res B) (y : B) :
  (r ≫= k) = Ok y ↔ ∃ a, r = Ok a ∧ k a = Ok y.
Proof.
  destruct r; simpl; split.
  - eauto.
  - by intros (? & [= ->] & ?).
  - discriminate.
  - by intros (? & ? & ?).
  - discriminate.
  - by intros (? & ? & ?).
Qed.

Lemma assert_Ok {A} (c : bool) (k : res A) (y : A) :
  assert c k = Ok y ↔ c = true ∧ k = Ok y.
Proof. destruct c; simpl; split; try tauto; try discriminate. by intros []. Qed.

(* ===================================================================== *)
(** ** The set of free locations *)

Definition uniform (s : list Location) : Prop :=
  ∀ x y, x ∈ s → y ∈ s → getType x = getType y.

Lemma uniform_nil : uniform [].
Proof. intros x y Hx. by apply elem_of_nil in Hx. Qed.

Lemma uniform_tail x s : uniform (x :: s) → uniform s.
Proof. intros H a b Ha Hb. apply H; by apply elem_of_cons; right. Qed.

Lemma Location_lt_type x y : Location_lt x y = true → getType x = getType y.
Proof. intros H. by apply Location_lt_iff in H as [? _]. Qed.

Lemma set_insert_elem x s a : a ∈ set_insert x s → a = x ∨ a ∈ s.
Proof.
  induction s as [|y s IH]; simpl.
  - intros ->%list_elem_of_singleton. by left.
  - destruct (Location_lt x y); [|destruct (Location_lt y x)].
    + intros [->|H]%elem_of_cons; [by left|by right].
    + intros [->|H]%elem_of_cons; [right; apply list_elem_of_here|].
      destruct (IH H) as [->|?]; [by left|right; by apply list_elem_of_further].
    + by right.
Qed.

Lemma set_insert_keeps x s a : a ∈ s → a ∈ set_insert x s.
Proof.
  induction s as [|y s IH]; simpl; [intros H; by apply elem_of_nil in H|].
  intros Ha. destruct (Location_lt x y); [|destruct (Location_lt y x)].
  - by apply list_elem_of_further.
  - apply elem_of_cons in Ha as [->|Ha]; [apply list_elem_of_here|].
    by apply list_elem_of_further, IH.
  - done.
Qed.

(** A set never mixes registers and stack slots. *)
Lemma set_insert_uniform x s : uniform s → uniform (set_insert x s).
Proof.
  induction s as [|y s IH]; simpl; intros Hu.
  - intros a b ->%list_elem_of_singleton ->%list_elem_of_singleton. done.
  - destruct (Location_lt x y) eqn:Exy; [|destruct (Location_lt y x) eqn:Eyx]; [| |done].
    + apply Location_lt_type in Exy.
      assert (∀ a, a ∈ x :: y :: s → getType a = getType y) as Hall.
      { intros a [->|Ha]%elem_of_cons; [done|]. apply Hu; [done|apply list_elem_of_here]. }
      intros a b Ha Hb. by rewrite (Hall a Ha), (Hall b Hb).
    + apply Location_lt_type in Eyx.
      assert (∀ a, a ∈ y :: set_insert x s → getType a = getType y) as Hall.
      { intros a [->|Ha]%elem_of_cons; [done|].
        destruct (set_insert_elem _ _ _ Ha) as [->|Ha']; [done|].
        apply Hu; [by apply list_elem_of_further|apply list_elem_of_here]. }
      intros a b Ha Hb. by rewrite (Hall a Ha), (Hall b Hb).
Qed.

(** When the set holds no key equivalent to [x], inserting [x] adds it. *)
Lemma set_insert_new x s : set_count x s = 0 → x ∈ set_insert x s.
Proof.
  unfold set_count. induction s as [|y s IH]; simpl.
  - intros _. apply list_elem_of_here.
  - unfold Location_equiv at 1.
    destruct (Location_lt x y); simpl; [intros _; apply list_elem_of_here|].
    destruct (Location_lt y x); simpl; [|discriminate].
    intros H. apply list_elem_of_further, IH, H.
Qed.

(* ===================================================================== *)
(** ** The invariant of the scan *)

(** A location that [getAvailLoc] has handed out: a register below the
    budget, or a stack slot counted after the registers. *)
Definition validLoc (I : Impl) (l : Location) : Prop :=
  match getType l with
  | Register => getLoc l < MaxRegs I ∧ getLoc l < NumLocs I
  | Stack => MaxRegs I + getLoc l < NumLocs I
  end.

(** A use descriptor: a spill comes with a load, and the location used is
    a register of the budget when there is one. *)
Definition validUseLoc (I : Impl) (u : UseLoc) : Prop :=
  (is_Some (spill u) → is_Some (load u))
  ∧ (0 < MaxRegs I → loc u < MaxRegs I ∧ loc u < NumLocs I).

Definition validUseLocs (I : Impl) : Prop :=
  ∀ MBB m pred u, UseLocs I !! MBB = Some m → m !! pred = Some u → validUseLoc I u.

Record ScanInv (st : Scan) : Prop := mkScanInv {
  inv_free : ∀ l, l ∈ FreeLocs st → validLoc (impl st) l;
  inv_uniform : uniform (FreeLocs st);
  inv_cur : ∀ p l, curLocs st !! p = Some l → validLoc (impl st) l;
  inv_use : validUseLocs (impl st)
}.

(** What every step of the scan leaves alone, or only lets grow. *)
Definition offsets (I : Impl) : nat * nat * nat * bool :=
  (ChildrenMaxCumLocs I, FirstUsableReg I, FirstUsableStackSlot I, NeedsScopeSpill I).

Definition grows (I I' : Impl) : Prop :=
  MaxRegs I' = MaxRegs I ∧ LRs I' = LRs I ∧ NumLocs I ≤ NumLocs I'
  ∧ offsets I' = offsets I.

Lemma grows_refl I : grows I I.
Proof. by repeat split. Qed.

Lemma grows_trans I1 I2 I3 : grows I1 I2 → grows I2 I3 → grows I1 I3.
Proof. intros (?&?&?&?) (?&?&?&?). repeat split; [congruence|congruence|lia|congruence]. Qed.

Lemma validLoc_grows I I' l : grows I I' → validLoc I l → validLoc I' l.
Proof.
  intros (HM & _ & HN & _). unfold validLoc. rewrite HM.
  destruct (getType l); lia.
Qed.

Lemma validUseLoc_grows I I' u : grows I I' → validUseLoc I u → validUseLoc I' u.
Proof.
  intros (HM & _ & HN & _) [H1 H2]. split; [done|]. rewrite HM. intros H0.
  destruct (H2 H0). lia.
Qed.

Lemma validLoc_register I l :
  validLoc I l → isRegister l = true → getLoc l < MaxRegs I ∧ getLoc l < NumLocs I.
Proof. unfold validLoc, isRegister. destruct (getType l); simpl; [done|discriminate]. Qed.

Lemma validLoc_stack I l :
  validLoc I l → isStack l = true → MaxRegs I + getLoc l < NumLocs I.
Proof. unfold validLoc, isStack. destruct (getType l); simpl; [discriminate|done]. Qed.

Lemma ScanInv_grows st I' :
  ScanInv st → grows (impl st) I' → UseLocs I' = UseLocs (impl st) →
  ScanInv (set_impl I' st).
Proof.
  intros [Hf Hu Hc Hus] Hg HU. split; simpl.
  - intros l Hl. eapply validLoc_grows; eauto.
  - done.
  - intros p l Hl. eapply validLoc_grows; eauto.
  - intros MBB m pred u Hm Hp. rewrite HU in Hm.
    eapply validUseLoc_grows; eauto.
Qed.

(** [getAvailLoc] hands out a valid location and keeps the invariant. *)
Lemma getAvailLoc_inv st l st' :
  getAvailLoc st = (l, st') → ScanInv st →
  ScanInv st' ∧ grows (impl st) (impl st') ∧ validLoc (impl st') l
  ∧ curLocs st' = curLocs st ∧ UseLocs (impl st') = UseLocs (impl st)
  ∧ DefLocs (impl st') = DefLocs (impl st).
Proof.
  unfold getAvailLoc. intros Hg Hinv. destruct (FreeLocs st) as [|x rest] eqn:EF.
  - injection Hg as <- <-. simpl.
    assert (grows (impl st) (set_NumLocs (S (NumLocs (impl st))) (impl st))) as Hgr.
    { repeat split; simpl; lia. }
    split; [by apply ScanInv_grows|]. split; [done|]. split; [|done].
    unfold validLoc. destruct (NumLocs (impl st) <? MaxRegs (impl st)) eqn:E; simpl.
    + apply Nat.ltb_lt in E. lia.
    + apply Nat.ltb_ge in E. lia.
  - injection Hg as <- <-. destruct Hinv as [Hf Hu Hc Hus]. rewrite EF in Hf, Hu.
    split; [|split; [apply grows_refl|split; [|done]]].
    + split; simpl; [|by eapply uniform_tail|done|done].
      intros l Hl. apply Hf. by apply list_elem_of_further.
    + simpl. apply Hf, list_elem_of_here.
Qed.

(** With a free register in sight, [getAvailLoc] returns a register. *)
Lemma getAvailLoc_register st :
  ScanInv st → hasFreeRegister st = true → isRegister (getAvailLoc st).1 = true.
Proof.
  intros [Hf _ _ _]. unfold hasFreeRegister, getAvailLoc.
  destruct (FreeLocs st) as [|x rest]; simpl.
  - intros ->. done.
  - intros [H|H]%orb_true_iff; [done|]. apply Nat.ltb_lt in H.
    destruct (isRegister x) eqn:E; [done|].
    assert (isStack x = true) as Hs by (by rewrite isRegister_isStack, E).
    pose proof (validLoc_stack _ _ (Hf x (list_elem_of_here _ _)) Hs). lia.
Qed.

(** Without one, it returns a stack slot. *)
Lemma getAvailLoc_stack st :
  hasFreeRegister st = false → isStack (getAvailLoc st).1 = true.
Proof.
  unfold hasFreeRegister, getAvailLoc.
  destruct (FreeLocs st) as [|x rest]; simpl.
  - intros ->. done.
  - intros [H _]%orb_false_iff. by rewrite isRegister_isStack, H.
Qed.

Section ScanInvariant.

Variable sortFurthestNextUse : gmap nat LiveRange → nat → list nat → list nat.
Variable Sc : SPScope.

Lemma handleIfNotInRegister_inv blockIndex stackLoc st UL newLoc st' :
  handleIfNotInRegister sortFurthestNextUse blockIndex stackLoc st = Ok (UL, newLoc, st') →
  ScanInv st →
  ScanInv st' ∧ grows (impl st) (impl st') ∧ validLoc (impl st') newLoc
  ∧ isRegister newLoc = true ∧ loc UL = getLoc newLoc ∧ is_Some (load UL)
  ∧ UseLocs (impl st') = UseLocs (impl st).
Proof.
  unfold handleIfNotInRegister. intros H Hinv.
  destruct (hasFreeRegister st) eqn:Efree.
  - pose proof (getAvailLoc_register st Hinv Efree) as Hreg.
    destruct (getAvailLoc st) as [l st1] eqn:Eg. simpl in Hreg.
    destruct (getAvailLoc_inv _ _ _ Eg Hinv) as (Hinv1 & Hg & Hv & _ & HU & _).
    apply assert_Ok in H as [_ [= <- <- <-]]. simpl. eauto 10.
  - destruct (last _) as [furthestPred|]; [|discriminate].
    destruct (getAvailLoc st) as [newStackLoc st1] eqn:Eg.
    destruct (getAvailLoc_inv _ _ _ Eg Hinv) as (Hinv1 & Hg & Hv & Hcur & HU & _).
    apply assert_Ok in H as [Hstack H].
    destruct (curLocs st1 !! furthestPred) as [replacement|] eqn:Erep; [|discriminate].
    destruct (LRs (impl st1) !! furthestPred) as [lr|]; [|discriminate].
    apply bind_Ok in H as ([UL2 st2] & H2 & H).
    apply assert_Ok in H as [Hreg [= <- <- <-]].
    assert (grows (impl st1) (impl st2) ∧ UseLocs (impl st2) = UseLocs (impl st1)
            ∧ curLocs st2 = curLocs st1 ∧ FreeLocs st2 = FreeLocs st1
            ∧ loc UL2 = getLoc replacement ∧ is_Some (load UL2)) as (Hg2 & HU2 & Hc2 & Hf2 & Hl2 & Hld2).
    { destruct (anyUseBefore lr blockIndex).
      - injection H2 as <- <-. simpl. repeat split; eauto.
      - apply assert_Ok in H2 as [_ [= <- <-]]. simpl. repeat split; eauto. }
    assert (grows (impl st) (impl st2)) as Hg02 by (by eapply grows_trans).
    destruct Hinv1 as [Hf1 Hu1 Hc1 Hus1].
    split; [|split; [done|split; [|split; [done|split; [done|split; [done|simpl; congruence]]]]]].
    + split; simpl.
      * rewrite Hf2. intros l Hl. apply (validLoc_grows _ _ _ Hg2), Hf1, Hl.
      * by rewrite Hf2.
      * rewrite Hc2. intros p l. destruct (decide (p = furthestPred)) as [->|Hne].
        -- rewrite lookup_insert_eq. intros [= <-]. apply (validLoc_grows _ _ _ Hg2), Hv.
        -- rewrite lookup_insert_ne by done. intros Hl.
           apply (validLoc_grows _ _ _ Hg2), (Hc1 _ _ Hl).
      * intros MBB m pred u Hm Hp. rewrite HU2 in Hm.
        apply (validUseLoc_grows _ _ _ Hg2), (Hus1 _ _ _ _ Hm Hp).
    + simpl. apply (validLoc_grows _ _ _ Hg2), (Hc1 _ _ Erep).
Qed.

Lemma calculateNotHeaderUseLoc_inv blockIndex usePred st UL st' :
  calculateNotHeaderUseLoc sortFurthestNextUse blockIndex usePred st = Ok (UL, st') →
  ScanInv st →
  ScanInv st' ∧ grows (impl st) (impl st') ∧ validUseLoc (impl st') UL
  ∧ UseLocs (impl st') = UseLocs (impl st).
Proof.
  unfold calculateNotHeaderUseLoc. intros H Hinv.
  destruct (curLocs st !! usePred) as [curUseLoc|] eqn:Ecur; [|discriminate].
  destruct (isStack curUseLoc) eqn:Es.
  - apply bind_Ok in H as ([[UL1 newLoc] st1] & H1 & [= <- <-]).
    destruct (handleIfNotInRegister_inv _ _ _ _ _ _ H1 Hinv)
      as (Hinv1 & Hg & Hv & Hreg & Hloc & Hload & HU).
    destruct Hinv1 as [Hf1 Hu1 Hc1 Hus1].
    split; [|split; [done|split; [|done]]].
    + split; simpl; [done|done| |done].
      intros p l. destruct (decide (p = usePred)) as [->|Hne].
      * rewrite lookup_insert_eq. by intros [= <-].
      * rewrite lookup_insert_ne by done. apply Hc1.
    + simpl. split; [done|]. intros _. rewrite Hloc.
      by apply validLoc_register.
  - injection H as <- <-. split; [done|]. split; [apply grows_refl|]. split; [|done].
    split; simpl; [by intros [? [=]]|]. intros _.
    apply validLoc_register; [by eapply inv_cur|].
    rewrite isRegister_isStack in Es. by destruct (isRegister curUseLoc).
Qed.

Lemma calculateHeaderUseLoc_inv st UL st' :
  calculateHeaderUseLoc Sc st = Ok (UL, st') →
  ScanInv st →
  ScanInv st' ∧ grows (impl st) (impl st') ∧ validUseLoc (impl st') UL
  ∧ UseLocs (impl st') = UseLocs (impl st).
Proof.
  unfold calculateHeaderUseLoc. intros H Hinv.
  destruct (getAvailLoc st) as [l st1] eqn:Eg.
  destruct (getAvailLoc_inv _ _ _ Eg Hinv) as (Hinv1 & Hg & Hv & Hcur & HU & _).
  apply bind_Ok in H as (headerPred & _ & H).
  apply assert_Ok in H as [_ H]. apply assert_Ok in H as [_ H].
  apply assert_Ok in H as [H0 [= <- <-]]. apply Nat.eqb_eq in H0. simpl in H0.
  destruct Hinv1 as [Hf1 Hu1 Hc1 Hus1].
  split; [|split; [done|split; [|done]]].
  - split; simpl; [done|done| |done].
    intros p l'. destruct (decide (p = headerPred)) as [->|Hne].
    + rewrite lookup_insert_eq. by intros [= <-].
    + rewrite lookup_insert_ne by done. apply Hc1.
  - simpl. split; simpl; [by intros [? [=]]|]. rewrite H0. intros Hpos.
    split; [done|]. unfold validLoc in Hv. destruct (getType l); lia.
Qed.

Lemma validUseLocs_insert I MBB pred u :
  validUseLocs I → validUseLoc I u →
  validUseLocs (set_UseLocs (<[MBB := <[pred := u]> (useLocsOf I MBB)]> (UseLocs I)) I).
Proof.
  intros HI Hu MBB' m pred' u'. simpl.
  destruct (decide (MBB' = MBB)) as [->|Hne].
  - rewrite lookup_insert_eq. intros [= <-].
    destruct (decide (pred' = pred)) as [->|Hnp].
    + rewrite lookup_insert_eq. by intros [= <-].
    + rewrite lookup_insert_ne by done. unfold useLocsOf.
      destruct (UseLocs I !! MBB) as [m|] eqn:Em; simpl.
      * intros Hp. exact (HI _ _ _ _ Em Hp).
      * by rewrite lookup_empty.
  - rewrite lookup_insert_ne by done. intros Hm Hp. exact (HI _ _ _ _ Hm Hp).
Qed.

Lemma assignUse_inv i block usePred st st' :
  assignUse sortFurthestNextUse Sc i block usePred st = Ok st' →
  ScanInv st → ScanInv st' ∧ grows (impl st) (impl st').
Proof.
  unfold assignUse. intros H Hinv.
  apply bind_Ok in H as (p0 & _ & H). destruct (negb p0).
  2:{ injection H as <-. split; [done|apply grows_refl]. }
  apply assert_Ok in H as [_ H]. apply assert_Ok in H as [_ H].
  apply bind_Ok in H as ([useLoc st1] & H1 & H).
  apply assert_Ok in H as [_ [= <-]].
  assert (ScanInv st1 ∧ grows (impl st) (impl st1) ∧ validUseLoc (impl st1) useLoc)
    as ([Hf1 Hu1 Hc1 Hus1] & Hg & Hv).
  { destruct (isHeader i).
    - destruct (calculateHeaderUseLoc_inv _ _ _ H1 Hinv) as (?&?&?&?). done.
    - destruct (calculateNotHeaderUseLoc_inv _ _ _ _ _ H1 Hinv) as (?&?&?&?). done. }
  split; [|done]. split; simpl; [done|done|done|].
  by apply validUseLocs_insert.
Qed.

Lemma retire_inv i usePred st st' :
  retire Sc i usePred st = Ok st' →
  ScanInv st → ScanInv st' ∧ grows (impl st) (impl st').
Proof.
  unfold retire. intros H Hinv.
  apply bind_Ok in H as (p0 & _ & H). destruct (negb p0).
  2:{ injection H as <-. split; [done|apply grows_refl]. }
  apply assert_Ok in H as [_ H].
  destruct (LRs (impl st) !! usePred) as [lr|]; [|discriminate].
  destruct (lastUse lr i).
  2:{ injection H as <-. split; [done|apply grows_refl]. }
  destruct (curLocs st !! usePred) as [curUseLoc|] eqn:Ecur; [|discriminate].
  apply assert_Ok in H as [_ [= <-]].
  destruct Hinv as [Hf Hu Hc Hus].
  split; [|apply grows_refl]. split; simpl.
  - intros l [->|Hl]%set_insert_elem; [by eapply Hc|by apply Hf].
  - by apply set_insert_uniform.
  - intros p l [_ Hl]%lookup_delete_Some. by eapply Hc.
  - done.
Qed.

Lemma assignDef_inv pred st st' :
  assignDef pred st = Ok st' →
  ScanInv st → ScanInv st' ∧ grows (impl st) (impl st').
Proof.
  unfold assignDef. intros H Hinv.
  destruct (getAvailLoc st) as [l st1] eqn:Eg.
  destruct (getAvailLoc_inv _ _ _ Eg Hinv) as ([Hf1 Hu1 Hc1 Hus1] & Hg & Hv & Hcur & HU & _).
  simpl in H. rewrite !lookup_insert_eq in H.
  apply assert_Ok in H as [_ [= <-]].
  split; [|done]. split; simpl; [done|done| |done].
  intros p l'. destruct (decide (p = pred)) as [->|Hne].
  - rewrite lookup_insert_eq. by intros [= <-].
  - rewrite lookup_insert_ne by done. apply Hc1.
Qed.

(** A loop keeps what each of its rounds keeps. *)
Lemma forEach_inv {A} (f : A → Scan → res Scan) (l : list A) st st' :
  (∀ x s s', f x s = Ok s' → ScanInv s → ScanInv s' ∧ grows (impl s) (impl s')) →
  forEach f l st = Ok st' →
  ScanInv st → ScanInv st' ∧ grows (impl st) (impl st').
Proof.
  intros Hf. revert st. induction l as [|x l IH]; simpl; intros st H Hinv.
  - injection H as <-. split; [done|apply grows_refl].
  - apply bind_Ok in H as (st1 & H1 & H).
    destruct (Hf _ _ _ H1 Hinv) as [Hinv1 Hg1].
    destruct (IH _ H Hinv1) as [Hinv2 Hg2].
    split; [done|by eapply grows_trans].
Qed.

Lemma handlePredUse_inv i block st st' :
  handlePredUse sortFurthestNextUse Sc i block st = Ok st' →
  ScanInv st → ScanInv st' ∧ grows (impl st) (impl st').
Proof.
  unfold handlePredUse. intros H Hinv.
  apply bind_Ok in H as (st1 & H1 & H).
  destruct (forEach_inv _ _ _ _ (assignUse_inv i block) H1 Hinv) as [Hinv1 Hg1].
  destruct (forEach_inv _ _ _ _ (retire_inv i) H Hinv1) as [Hinv2 Hg2].
  split; [done|by eapply grows_trans].
Qed.

Lemma scanBlock_inv i block st st' :
  scanBlock sortFurthestNextUse Sc i block st = Ok st' →
  ScanInv st → ScanInv st' ∧ grows (impl st) (impl st').
Proof.
  unfold scanBlock. intros H Hinv.
  apply bind_Ok in H as (st1 & H1 & H).
  destruct (handlePredUse_inv _ _ _ _ H1 Hinv) as [Hinv1 Hg1].
  destruct (forEach_inv _ _ _ _ assignDef_inv H Hinv1) as [Hinv2 Hg2].
  split; [done|by eapply grows_trans].
Qed.

Lemma scanFrom_inv bs i st st' :
  scanFrom sortFurthestNextUse Sc i bs st = Ok st' →
  ScanInv st → ScanInv st' ∧ grows (impl st) (impl st').
Proof.
  revert i st. induction bs as [|b bs IH]; simpl; intros i st H Hinv.
  - injection H as <-. split; [done|apply grows_refl].
  - apply bind_Ok in H as (st1 & H1 & H).
    destruct (scanBlock_inv _ _ _ _ H1 Hinv) as [Hinv1 Hg1].
    destruct (IH _ _ H Hinv1) as [Hinv2 Hg2].
    split; [done|by eapply grows_trans].
Qed.

Lemma fixHeaderLoad_inv headerPred st st' :
  fixHeaderLoad Sc headerPred st = Ok st' →
  ScanInv st → ScanInv st' ∧ grows (impl st) (impl st').
Proof.
  unfold fixHeaderLoad. intros H Hinv.
  destruct (UseLocs (impl st) !! getMBB (getHeader Sc)) as [headerUseLocs|] eqn:EU;
    [|discriminate].
  destruct (headerUseLocs !! headerPred) as [predUseLoc|] eqn:EP; [|discriminate].
  destruct (curLocs st !! headerPred) as [cur|]; [|discriminate].
  destruct (negb _).
  2:{ injection H as <-. split; [done|apply grows_refl]. }
  injection H as <-. destruct Hinv as [Hf Hu Hc Hus].
  split; [|by repeat split]. split; simpl; [done|done|done|].
  intros MBB m pred u. simpl.
  destruct (decide (MBB = getMBB (getHeader Sc))) as [->|Hne].
  - rewrite lookup_insert_eq. intros [= <-].
    destruct (decide (pred = headerPred)) as [->|Hnp].
    + rewrite lookup_insert_eq. intros [= <-].
      destruct (Hus _ _ _ _ EU EP) as [_ H2]. split; simpl; [eauto|done].
    + rewrite lookup_insert_ne by done. intros Hp. exact (Hus _ _ _ _ EU Hp).
  - rewrite lookup_insert_ne by done. intros Hm Hp. exact (Hus _ _ _ _ Hm Hp).
Qed.

Lemma ScanInv_init I : UseLocs I = ∅ → ScanInv (mkScan I ∅ []).
Proof.
  intros HU. split; simpl.
  - intros l Hl. by apply elem_of_nil in Hl.
  - apply uniform_nil.
  - intros p l. by rewrite lookup_empty.
  - intros MBB m pred u. by rewrite HU, lookup_empty.
Qed.

Lemma assignLocations_inv I st :
  assignLocations sortFurthestNextUse Sc I = Ok st →
  UseLocs I = ∅ → ScanInv st ∧ grows I (impl st).
Proof.
  unfold assignLocations. intros H HU.
  apply bind_Ok in H as (st1 & H1 & H).
  destruct (scanFrom_inv _ _ _ _ H1 (ScanInv_init I HU)) as [Hinv1 Hg1].
  destruct (negb (isTopLevel Sc)).
  - apply assert_Ok in H as [_ H].
    destruct (forEach_inv _ _ _ _ fixHeaderLoad_inv H Hinv1) as [Hinv2 Hg2].
    split; [done|by eapply grows_trans].
  - by injection H as <-.
Qed.

(** The allocation of a scope: its use descriptors are valid, its live
    ranges are those of [createLiveRanges], and nothing is known yet about
    parent and children. *)
Lemma newImpl_inv availRegs I :
  newImpl sortFurthestNextUse Sc availRegs = Ok I →
  validUseLocs I ∧ MaxRegs I = availRegs ∧ LRs I = createLiveRanges Sc
  ∧ offsets I = (0, 0, 0, true).
Proof.
  unfold newImpl. intros H. apply bind_Ok in H as (st & H & [= <-]).
  destruct (assignLocations_inv _ _ H eq_refl) as [[_ _ _ Hus] (HM & HL & _ & HO)].
  done.
Qed.

End ScanInvariant.

(* ===================================================================== *)
(** ** The states of the scan

    The states in which [assignLocations] can find itself between two
    steps: it starts with nothing assigned, and moves by giving a block
    predicate its use location, by retiring one, or by giving a defined
    predicate its location. *)

Section ScanStates.

Variable sortFurthestNextUse : gmap nat LiveRange → nat → list nat → list nat.
Variable Sc : SPScope.

Inductive scanState : Scan → Prop :=
| scan_start I :
    UseLocs I = ∅ → scanState (mkScan I ∅ [])
| scan_assignUse i block usePred st st' :
    scanState st →
    assignUse sortFurthestNextUse Sc i block usePred st = Ok st' →
    scanState st'
| scan_retire i usePred st st' :
    scanState st → retire Sc i usePred st = Ok st' → scanState st'
| scan_assignDef pred st st' :
    scanState st → assignDef pred st = Ok st' → scanState st'.

Lemma scanState_inv st : scanState st → ScanInv st.
Proof.
  induction 1 as [I HU|i block usePred st st' _ IH H|i usePred st st' _ IH H
                  |pred st st' _ IH H].
  - by apply ScanInv_init.
  - by destruct (assignUse_inv _ _ _ _ _ _ _ H IH).
  - by destruct (retire_inv _ _ _ _ _ H IH).
  - by destruct (assignDef_inv _ _ _ H IH).
Qed.

Lemma forEach_scanState {A} (f : A → Scan → res Scan) l st st' :
  (∀ x s s', f x s = Ok s' → scanState s → scanState s') →
  forEach f l st = Ok st' → scanState st → scanState st'.
Proof.
  intros Hf. revert st. induction l as [|x l IH]; simpl; intros st H Hst.
  - by injection H as <-.
  - apply bind_Ok in H as (st1 & H1 & H). eauto.
Qed.

(** The scan itself only passes through such states. *)
Lemma scanFrom_scanState bs i st st' :
  scanFrom sortFurthestNextUse Sc i bs st = Ok st' → scanState st → scanState st'.
Proof.
  revert i st. induction bs as [|b bs IH]; simpl; intros i st H Hst.
  - by injection H as <-.
  - apply bind_Ok in H as (st1 & H1 & H). apply (IH _ _ H).
    unfold scanBlock in H1. apply bind_Ok in H1 as (st2 & H2 & H1).
    unfold handlePredUse in H2. apply bind_Ok in H2 as (st3 & H3 & H2).
    eapply forEach_scanState; [|exact H1|].
    { intros; by eapply scan_assignDef. }
    eapply forEach_scanState; [|exact H2|].
    { intros; by eapply scan_retire. }
    eapply forEach_scanState; [|exact H3|done].
    intros; by eapply scan_assignUse.
Qed.

(** The condition of the claim: a register is free, or one can be made. *)
Definition registerAvailable (st : Scan) : Prop :=
  (∃ l, l ∈ FreeLocs st ∧ isRegister l = true)
  ∨ NumLocs (impl st) < MaxRegs (impl st).

Lemma hasFreeRegister_iff st :
  ScanInv st → hasFreeRegister st = true ↔ registerAvailable st.
Proof.
  intros [Hf Hu _ _]. unfold hasFreeRegister, registerAvailable.
  rewrite orb_true_iff, Nat.ltb_lt. split.
  - intros [H|H]; [left|by right].
    destruct (FreeLocs st) as [|x rest]; [discriminate|].
    exists x. split; [apply list_elem_of_here|done].
  - intros [(l & Hl & Hreg)|H]; [left|by right].
    destruct (FreeLocs st) as [|x rest]; [by apply elem_of_nil in Hl|].
    unfold isRegister in *. rewrite (Hu x l); [done|apply list_elem_of_here|done].
Qed.

(** C1.  In every state of the scan: when a register is free in the free
    set or the budget is not exhausted, the location handed out is a
    register, and [handleIfNotInRegister] assigns it; otherwise the location
    handed out in the eviction path is a stack slot.  Whatever path is
    taken, the predicate ends up in a register. *)
Theorem C1_new_location_kind st :
  scanState st →
  (registerAvailable st →
     isRegister (getAvailLoc st).1 = true
     ∧ ∀ blockIndex stackLoc, ∃ UL st',
         handleIfNotInRegister sortFurthestNextUse blockIndex stackLoc st
         = Ok (UL, (getAvailLoc st).1, st'))
  ∧ (¬ registerAvailable st →
       hasFreeRegister st = false ∧ isStack (getAvailLoc st).1 = true)
  ∧ (∀ blockIndex stackLoc UL newLoc st',
       handleIfNotInRegister sortFurthestNextUse blockIndex stackLoc st
       = Ok (UL, newLoc, st') → isRegister newLoc = true).
Proof.
  intros Hst. pose proof (scanState_inv st Hst) as Hinv.
  split; [|split].
  - intros Hav. apply (hasFreeRegister_iff st Hinv) in Hav.
    pose proof (getAvailLoc_register st Hinv Hav) as Hreg. split; [done|].
    intros blockIndex stackLoc. unfold handleIfNotInRegister. rewrite Hav.
    destruct (getAvailLoc st) as [l st1] eqn:Eg. simpl in *.
    destruct (getAvailLoc_inv _ _ _ Eg Hinv) as (_ & _ & Hv & _).
    destruct (validLoc_register _ _ Hv Hreg) as [Hlt _].
    exists {| loc := getLoc l; load := Some stackLoc; spill := None |}, st1.
    apply assert_Ok. split; [|done]. apply Nat.leb_le. lia.
  - intros Hnav.
    assert (hasFreeRegister st = false) as Hno.
    { destruct (hasFreeRegister st) eqn:E; [|done].
      exfalso. by apply Hnav, (hasFreeRegister_iff st Hinv). }
    split; [done|by apply getAvailLoc_stack].
  - intros blockIndex stackLoc UL newLoc st' H.
    by destruct (handleIfNotInRegister_inv _ _ _ _ _ _ _ H Hinv) as (_&_&_&?&_).
Qed.

End ScanStates.

(* ===================================================================== *)
(** ** Retirement *)

Lemma lastUse_no_later_use lr i j :
  lastUse lr i = true → i < j → isUse lr j = false.
Proof.
  unfold lastUse, isUse, bv_test. intros H Hij.
  destruct (uses lr !! j) as [b|] eqn:E; [|done]. simpl.
  rewrite forallb_forall in H.
  assert (b ∈ drop (S i) (uses lr)) as Hin.
  { apply list_elem_of_lookup. exists (j - S i). rewrite lookup_drop.
    by replace (S i + (j - S i)) with j by lia. }
  apply list_elem_of_In, H in Hin. by destruct b.
Qed.

Section Retirement.

Variable sortFurthestNextUse : gmap nat LiveRange → nat → list nat → list nat.
Variable Sc : SPScope.

(** A predicate at its last use hands its location back. *)
Lemma retire_last_use i p st st' lr l :
  retire Sc i p st = Ok st' →
  usesP0 Sc p = Ok false →
  LRs (impl st) !! p = Some lr → lastUse lr i = true →
  curLocs st !! p = Some l →
  l ∈ FreeLocs st' ∧ curLocs st' !! p = None.
Proof.
  unfold retire. intros H Hp0 Hlr Hlast Hcur. rewrite Hp0 in H. simpl in H.
  apply assert_Ok in H as [_ H]. rewrite Hlr, Hlast, Hcur in H.
  apply assert_Ok in H as [Hcount [= <-]]. apply Nat.eqb_eq in Hcount. simpl.
  split; [by apply set_insert_new|by rewrite lookup_delete_eq].
Qed.

(** What the retirement of another predicate leaves alone. *)
Lemma retire_frame i q st st' :
  retire Sc i q st = Ok st' →
  impl st' = impl st
  ∧ (∀ l, l ∈ FreeLocs st → l ∈ FreeLocs st')
  ∧ (∀ p, curLocs st !! p = None → curLocs st' !! p = None)
  ∧ (∀ p, p ≠ q → curLocs st' !! p = curLocs st !! p).
Proof.
  unfold retire. intros H.
  apply bind_Ok in H as (p0 & _ & H). destruct (negb p0).
  2:{ by injection H as <-. }
  apply assert_Ok in H as [_ H].
  destruct (LRs (impl st) !! q) as [lr|]; [|discriminate].
  destruct (lastUse lr i).
  2:{ by injection H as <-. }
  destruct (curLocs st !! q) as [curUseLoc|] eqn:Ecur; [|discriminate].
  apply assert_Ok in H as [_ [= <-]]. simpl.
  split; [done|]. split; [intros l; apply set_insert_keeps|]. split.
  - intros p Hp. apply lookup_delete_None. by right.
  - intros p Hne. by rewrite lookup_delete_ne.
Qed.

Lemma retire_rest_frame i ps st st' :
  forEach (retire Sc i) ps st = Ok st' →
  impl st' = impl st
  ∧ (∀ l, l ∈ FreeLocs st → l ∈ FreeLocs st')
  ∧ (∀ p, curLocs st !! p = None → curLocs st' !! p = None).
Proof.
  revert st. induction ps as [|q ps IH]; simpl; intros st H.
  - by injection H as <-.
  - apply bind_Ok in H as (st1 & H1 & H).
    destruct (retire_frame _ _ _ _ H1) as (HI1 & HF1 & HN1 & _).
    destruct (IH _ H) as (HI2 & HF2 & HN2).
    split; [congruence|]. split; eauto.
Qed.

Lemma retire_loop_last_use i ps p st st' lr :
  forEach (retire Sc i) ps st = Ok st' →
  p ∈ ps → usesP0 Sc p = Ok false →
  LRs (impl st) !! p = Some lr → lastUse lr i = true →
  (∃ l, curLocs st !! p = Some l ∧ l ∈ FreeLocs st') ∧ curLocs st' !! p = None.
Proof.
  intros H Hin Hp0 Hlr Hlast. revert st H Hlr.
  induction ps as [|q ps IH]; intros st H Hlr; [by apply elem_of_nil in Hin|].
  simpl in H. apply bind_Ok in H as (st1 & H1 & H).
  destruct (decide (q = p)) as [->|Hne].
  - destruct (curLocs st !! p) as [l|] eqn:Ecur.
    + destruct (retire_last_use _ _ _ _ _ _ H1 Hp0 Hlr Hlast Ecur) as [Hl Hnone].
      destruct (retire_rest_frame _ _ _ _ H) as (_ & HF & HN).
      split; [exists l; split; [done|by apply HF]|by apply HN].
    + exfalso. unfold retire in H1. rewrite Hp0 in H1. simpl in H1.
      apply assert_Ok in H1 as [_ H1]. by rewrite Hlr, Hlast, Ecur in H1.
  - apply elem_of_cons in Hin as [->|Hin]; [done|].
    destruct (retire_frame _ _ _ _ H1) as (HI1 & _ & _ & Hsame).
    rewrite <- (Hsame p) by done. apply (IH Hin); [done|by rewrite HI1].
Qed.

(** *** What the use of other predicates leaves alone *)

Lemma getAvailLoc_frame st l st' :
  getAvailLoc st = (l, st') →
  curLocs st' = curLocs st ∧ UseLocs (impl st') = UseLocs (impl st).
Proof.
  unfold getAvailLoc. destruct (FreeLocs st); intros [= <- <-]; done.
Qed.

Lemma handleIfNotInRegister_frame blockIndex stackLoc st UL newLoc st' p :
  handleIfNotInRegister sortFurthestNextUse blockIndex stackLoc st = Ok (UL, newLoc, st') →
  UseLocs (impl st') = UseLocs (impl st)
  ∧ (curLocs st !! p = None → curLocs st' !! p = None).
Proof.
  unfold handleIfNotInRegister. intros H.
  destruct (hasFreeRegister st).
  - destruct (getAvailLoc st) as [l st1] eqn:Eg.
    destruct (getAvailLoc_frame _ _ _ Eg) as [Hc HU].
    apply assert_Ok in H as [_ [= <- <- <-]]. by rewrite Hc.
  - destruct (last _) as [furthestPred|]; [|discriminate].
    destruct (getAvailLoc st) as [newStackLoc st1] eqn:Eg.
    destruct (getAvailLoc_frame _ _ _ Eg) as [Hc HU].
    apply assert_Ok in H as [_ H].
    destruct (curLocs st1 !! furthestPred) as [replacement|] eqn:Erep; [|discriminate].
    destruct (LRs (impl st1) !! furthestPred) as [lr|]; [|discriminate].
    apply bind_Ok in H as ([UL2 st2] & H2 & H).
    apply assert_Ok in H as [_ [= <- <- <-]]. simpl.
    assert (UseLocs (impl st2) = UseLocs (impl st1) ∧ curLocs st2 = curLocs st1) as [HU2 Hc2].
    { destruct (anyUseBefore lr blockIndex).
      - by injection H2 as <- <-.
      - by apply assert_Ok in H2 as [_ [= <- <-]]. }
    split; [congruence|]. intros Hnone. rewrite Hc2.
    rewrite lookup_insert_ne; [by rewrite Hc|]. intros <-. congruence.
Qed.

Lemma assignUse_frame i block q st st' p :
  0 < i → p ≠ q →
  assignUse sortFurthestNextUse Sc i block q st = Ok st' →
  (∀ MBB, useLocsOf (impl st') MBB !! p = useLocsOf (impl st) MBB !! p)
  ∧ (curLocs st !! p = None → curLocs st' !! p = None).
Proof.
  intros Hi Hne. unfold assignUse. intros H.
  apply bind_Ok in H as (p0 & _ & H). destruct (negb p0).
  2:{ by injection H as <-. }
  apply assert_Ok in H as [_ H]. apply assert_Ok in H as [_ H].
  apply bind_Ok in H as ([useLoc st1] & H1 & H).
  apply assert_Ok in H as [_ [= <-]]. simpl.
  assert (isHeader i = false) as Hh by (unfold isHeader; apply Nat.eqb_neq; lia).
  rewrite Hh in H1. unfold calculateNotHeaderUseLoc in H1.
  destruct (curLocs st !! q) as [curUseLoc|] eqn:Ecur; [|discriminate].
  assert (UseLocs (impl st1) = UseLocs (impl st)
          ∧ (curLocs st !! p = None → curLocs st1 !! p = None)) as [HU Hc].
  { destruct (isStack curUseLoc).
    - apply bind_Ok in H1 as ([[UL1 newLoc] st2] & H2 & [= <- <-]).
      destruct (handleIfNotInRegister_frame _ _ _ _ _ _ p H2) as [HU2 Hc2].
      simpl. split; [done|]. intros Hn. rewrite lookup_insert_ne by done. auto.
    - by injection H1 as <- <-. }
  split; [|done]. intros MBB. unfold useLocsOf. simpl.
  destruct (decide (MBB = getMBB block)) as [->|HM].
  - rewrite lookup_insert_eq. simpl. rewrite lookup_insert_ne by done.
    unfold useLocsOf. by rewrite HU.
  - rewrite lookup_insert_ne by done. by rewrite HU.
Qed.

Lemma handlePredUse_frame i block st st' p :
  0 < i → p ∉ getBlockPredicates block →
  handlePredUse sortFurthestNextUse Sc i block st = Ok st' →
  (∀ MBB, useLocsOf (impl st') MBB !! p = useLocsOf (impl st) MBB !! p)
  ∧ (curLocs st !! p = None → curLocs st' !! p = None).
Proof.
  intros Hi Hnin. unfold handlePredUse. intros H.
  apply bind_Ok in H as (st1 & H1 & H).
  destruct (retire_rest_frame _ _ _ _ H) as (HI & _ & HN).
  rewrite HI. clear H HI.
  assert ((∀ MBB, useLocsOf (impl st1) MBB !! p = useLocsOf (impl st) MBB !! p)
          ∧ (curLocs st !! p = None → curLocs st1 !! p = None)) as [HU Hc]; [|by auto].
  revert st H1. induction (getBlockPredicates block) as [|q qs IH]; simpl; intros st H1.
  - by injection H1 as <-.
  - apply bind_Ok in H1 as (st2 & H2 & H1).
    apply not_elem_of_cons in Hnin as [Hpq Hnin].
    destruct (assignUse_frame _ _ _ _ _ p Hi Hpq H2) as [HU2 Hc2].
    destruct (IH Hnin _ H1) as [HU1 Hc1].
    split; [intros MBB; by rewrite HU1|auto].
Qed.

(** X19.  Retirement when no assertion of [handlePredUse] fails.  Let [p]
    be a block predicate of the block at position [i] other than the header
    predicate of a single-path root, which lives in p0 and has no location.
    If [i] is the last use of [p] and both loops of [handlePredUse] run
    through, then the location [p] holds after the uses of the block are
    assigned is in the free set when [handlePredUse] is done, [p] has left
    the map of current locations, no later block of the scope has [p] among
    its predicates, and handling the uses of such a block neither gives [p]
    a use location nor a current location. *)
Theorem retirement_of_last_use pre block post st0 st1 st2 p lr :
  getBlocksTopoOrd Sc = pre ++ block :: post →
  LRs (impl st0) = createLiveRanges Sc →
  ScanInv st0 →
  forEach (assignUse sortFurthestNextUse Sc (length pre) block)
          (getBlockPredicates block) st0 = Ok st1 →
  forEach (retire Sc (length pre)) (getBlockPredicates block) st1 = Ok st2 →
  p ∈ getBlockPredicates block →
  usesP0 Sc p = Ok false →
  createLiveRanges Sc !! p = Some lr →
  lastUse lr (length pre) = true →
  (∃ l, curLocs st1 !! p = Some l ∧ l ∈ FreeLocs st2)
  ∧ curLocs st2 !! p = None
  ∧ ∀ k block', post !! k = Some block' →
      (p ∉ getBlockPredicates block')
      ∧ (∀ st st', handlePredUse sortFurthestNextUse Sc (length pre + 1 + k) block' st = Ok st' →
          (∀ MBB, useLocsOf (impl st') MBB !! p = useLocsOf (impl st) MBB !! p)
          ∧ (curLocs st !! p = None → curLocs st' !! p = None)).
Proof.
  intros Hblocks HLR Hinv H1 H2 Hin Hp0 Hlr Hlast.
  destruct (forEach_inv _ _ _ _ (assignUse_inv sortFurthestNextUse Sc (length pre) block)
              H1 Hinv) as [_ (_ & HL & _ & _)].
  assert (LRs (impl st1) !! p = Some lr) as Hlr1 by (by rewrite HL, HLR).
  destruct (retire_loop_last_use _ _ _ _ _ _ H2 Hin Hp0 Hlr1 Hlast) as [Hfree Hnone].
  split; [done|]. split; [done|].
  intros k block' Hk.
  assert (p ∉ getBlockPredicates block') as Hnin.
  { intros Hin'.
    destruct (createLiveRanges_use Sc (length pre + 1 + k) block' p) as (lr' & Hlr' & Hu);
      [|done|].
    - rewrite Hblocks, lookup_app_r by lia.
      replace (length pre + 1 + k - length pre) with (S k) by lia. done.
    - rewrite Hlr in Hlr'. injection Hlr' as <-.
      rewrite (lastUse_no_later_use lr (length pre)) in Hu; [done|done|lia]. }
  split; [done|]. intros st st' H.
  apply (handlePredUse_frame (length pre + 1 + k) block' st st' p); [lia|done|done].
Qed.

End Retirement.

(* --------------------------------------------------------------------- *)
(** *** Insertion sort rearranges its input *)

Lemma insertBy_Permutation lt x l : insertBy lt x l ≡ₚ x :: l.
Proof.
  induction l as [|y l IH]; simpl; [done|].
  destruct (lt y x); [|done]. rewrite IH. apply Permutation_swap.
Qed.

Lemma insertionSort_Permutation m pos l : insertionSort m pos l ≡ₚ l.
Proof.
  unfold insertionSort. induction l as [|x l IH]; simpl; [done|].
  by rewrite insertBy_Permutation, IH.
Qed.

(* --------------------------------------------------------------------- *)
(** *** Concrete runs *)

Definition initialImpl (Sc : SPScope) (availRegs : nat) : Impl :=
  mkImpl availRegs (createLiveRanges Sc) ∅ 0 0 0 0 ∅ true.

Definition initialScan (Sc : SPScope) (availRegs : nat) : Scan :=
  mkScan (initialImpl Sc availRegs) ∅ [].

Definition rootScope1 : SPScope :=
  mkScope (mkBlock 0 [0] []) [] true true 0 false.

Lemma C1_witness :
  scanState insertionSort topScope1 (initialScan topScope1 1)
  ∧ registerAvailable (initialScan topScope1 1)
  ∧ isRegister (getAvailLoc (initialScan topScope1 1)).1 = true.
Proof.
  assert (scanState insertionSort topScope1 (initialScan topScope1 1)) as Hst.
  { apply scan_start. reflexivity. }
  assert (registerAvailable (initialScan topScope1 1)) as Hav.
  { right. simpl. lia. }
  split; [exact Hst|]. split; [exact Hav|].
  exact (proj1 (proj1 (C1_new_location_kind insertionSort topScope1 _ Hst) Hav)).
Defined.

(** The header predicate of a single-path root is retired by nothing: it is
    a block predicate of the header and position 0 is its last use, yet it
    has no current location and nothing enters the free set. *)
Lemma root_header_predicate_has_no_location :
  ¬ (∀ Sc pre block post st0 st1 st2 p lr,
       getBlocksTopoOrd Sc = pre ++ block :: post →
       LRs (impl st0) = createLiveRanges Sc →
       ScanInv st0 →
       forEach (assignUse insertionSort Sc (length pre) block)
               (getBlockPredicates block) st0 = Ok st1 →
       forEach (retire Sc (length pre)) (getBlockPredicates block) st1 = Ok st2 →
       p ∈ getBlockPredicates block →
       createLiveRanges Sc !! p = Some lr →
       lastUse lr (length pre) = true →
       ∃ l, curLocs st1 !! p = Some l ∧ l ∈ FreeLocs st2).
Proof.
  intros H.
  destruct (H rootScope1 [] (mkBlock 0 [0] []) [] (initialScan rootScope1 1)
              (initialScan rootScope1 1) (initialScan rootScope1 1) 0
              (mkLR [true; false] [false; false]))
    as (l & Hl & _).
  - reflexivity.
  - reflexivity.
  - by apply ScanInv_init.
  - reflexivity.
  - reflexivity.
  - apply list_elem_of_here.
  - by vm_compute.
  - reflexivity.
  - simpl in Hl. by rewrite lookup_empty in Hl.
Qed.

Lemma retirement_of_last_use_witness :
  ∃ st1 st2,
    forEach (assignUse insertionSort topScope1 0 (getHeader topScope1)) [0]
            (initialScan topScope1 1) = Ok st1
    ∧ forEach (retire topScope1 0) [0] st1 = Ok st2
    ∧ (∃ l, curLocs st1 !! 0 = Some l ∧ l ∈ FreeLocs st2)
    ∧ curLocs st2 !! 0 = None.
Proof.
  destruct (forEach (assignUse insertionSort topScope1 0 (getHeader topScope1)) [0]
                    (initialScan topScope1 1)) as [st1| |] eqn:E1;
    [|vm_compute in E1; discriminate..].
  destruct (forEach (retire topScope1 0) [0] st1) as [st2| |] eqn:E2;
    [|vm_compute in E1; injection E1 as <-; vm_compute in E2; discriminate..].
  exists st1, st2. split; [reflexivity|]. split; [exact E2|].
  assert (ScanInv (initialScan topScope1 1)) as Hinv by (by apply ScanInv_init).
  assert (0 ∈ getBlockPredicates (getHeader topScope1)) as Hin by apply list_elem_of_here.
  assert (createLiveRanges topScope1 !! 0 = Some (mkLR [true; false] [false; false]))
    as Hlr by (by vm_compute).
  pose proof (retirement_of_last_use insertionSort topScope1 [] (getHeader topScope1) []
                (initialScan topScope1 1) st1 st2 0 _
                eq_refl eq_refl Hinv E1 E2 Hin eq_refl Hlr eq_refl) as (H1 & H2 & _).
  exact (conj H1 H2).
Defined.

(* --------------------------------------------------------------------- *)
(** *** Retiring the predicates of a merged block *)

(** A top-level scope of a single-path root whose second block holds two
    predicates. *)
Definition mergedScope : SPScope :=
  mkScope (mkBlock 0 [0] [1; 2]) [mkBlock 1 [1; 2] []] true true 0 false.

(** A sort that leaves the vector as it is. *)
Definition keepOrder : gmap nat LiveRange → nat → list nat → list nat := fun _ _ l => l.

Section MergedBlock.

Variable sort : gmap nat LiveRange → nat → list nat → list nat.
Hypothesis sort_perm : ∀ m pos l, sort m pos l ≡ₚ l.

Lemma sort_one m pos x : sort m pos [x] = [x].
Proof using sort_perm. apply Permutation_singleton_r, sort_perm. Qed.

Lemma sort_two m pos x y : sort m pos [x; y] = [x; y] ∨ sort m pos [x; y] = [y; x].
Proof using sort_perm.
  pose proof (sort_perm m pos [x; y]) as H.
  destruct (sort m pos [x; y]) as [|a [|b [|c l]]].
  - by apply Permutation_nil_l in H.
  - apply Permutation_length in H. done.
  - apply Permutation_length_2 in H as [[-> ->]|[-> ->]]; auto.
  - apply Permutation_length in H. done.
Qed.

(** With at most one predicate in a register the choice of the victim does
    not depend on the sort. *)
Lemma assignUse_one_in_register Sc i block usePred st q :
  filter (fun pred => inRegister (curLocs st) pred = true) (keys (LRs (impl st))) = [q] →
  assignUse sort Sc i block usePred st = assignUse keepOrder Sc i block usePred st.
Proof using sort_perm.
  intros Hq. unfold assignUse, calculateNotHeaderUseLoc, handleIfNotInRegister.
  rewrite Hq, sort_one. reflexivity.
Qed.
End MergedBlock.


Section MergedBlockFails.

Variable sort : gmap nat LiveRange → nat → list nat → list nat.
Hypothesis sort_perm : ∀ m pos l, sort m pos l ≡ₚ l.

Lemma mergedScope_header :
  scanBlock sort mergedScope 0 (getHeader mergedScope) (initialScan mergedScope 1)
  = forEach assignDef (sort (createLiveRanges mergedScope) 0 [1; 2])
            (initialScan mergedScope 1).
Proof using Type.
  unfold scanBlock.
  assert (handlePredUse sort mergedScope 0 (getHeader mergedScope)
            (initialScan mergedScope 1) = Ok (initialScan mergedScope 1)) as ->
    by reflexivity.
  reflexivity.
Qed.

Lemma mergedScope_uses st0 s1 q q' :
  filter (fun pred => inRegister (curLocs st0) pred = true) (keys (LRs (impl st0))) = [q] →
  assignUse keepOrder mergedScope 1 (mkBlock 1 [1; 2] []) 1 st0 = Ok s1 →
  filter (fun pred => inRegister (curLocs s1) pred = true) (keys (LRs (impl s1))) = [q'] →
  forEach (assignUse sort mergedScope 1 (mkBlock 1 [1; 2] [])) [1; 2] st0
  = forEach (assignUse keepOrder mergedScope 1 (mkBlock 1 [1; 2] [])) [1; 2] st0.
Proof using sort_perm.
  intros H0 H1 H2. cbn [forEach].
  rewrite (assignUse_one_in_register sort sort_perm _ _ _ _ _ _ H0), H1.
  cbn [mbind res_bind].
  by rewrite (assignUse_one_in_register sort sort_perm _ _ _ _ _ _ H2).
Qed.

(** C5.  A block with two predicates, with one register available: the
    header defines the predicates 1 and 2 and the next block uses both, each
    for the last time.  Whatever order the sort gives the definitions, the
    uses of the block are assigned, predicate 2 ends in register 0 and
    predicate 1 on the stack, and retiring predicate 1 puts its stack slot
    into the free set.  The set takes a register and a stack slot for the
    same key, so when predicate 2 is retired the set counts its register as
    present: the assertion before the insertion fails, the insertion itself
    would change nothing, and the register is not in the free set.  The
    constructor of the allocation fails. *)
Theorem C5_retire_assertion_fails :
  ∃ st0 st1 st1' lr,
    scanFrom sort mergedScope 0 [getHeader mergedScope] (initialScan mergedScope 1) = Ok st0
    ∧ forEach (assignUse sort mergedScope 1 (mkBlock 1 [1; 2] [])) [1; 2] st0 = Ok st1
    ∧ usesP0 mergedScope 2 = Ok false
    ∧ createLiveRanges mergedScope !! 2 = Some lr ∧ lastUse lr 1 = true
    ∧ curLocs st1 !! 2 = Some (mkLocation Register 0)
    ∧ retire mergedScope 1 1 st1 = Ok st1'
    ∧ curLocs st1' !! 2 = Some (mkLocation Register 0)
    ∧ set_count (mkLocation Register 0) (FreeLocs st1') = 1
    ∧ set_insert (mkLocation Register 0) (FreeLocs st1') = FreeLocs st1'
    ∧ (mkLocation Register 0 ∉ FreeLocs st1')
    ∧ retire mergedScope 1 2 st1' = AssertFail
    ∧ newImpl sort mergedScope 1 = AssertFail.
Proof using sort_perm.
  assert (∀ order, order = [1; 2] ∨ order = [2; 1] →
            ∃ st0, forEach assignDef order (initialScan mergedScope 1) = Ok st0
              ∧ ∃ st1 st1' lr,
                forEach (assignUse sort mergedScope 1 (mkBlock 1 [1; 2] [])) [1; 2] st0 = Ok st1
                ∧ usesP0 mergedScope 2 = Ok false
                ∧ createLiveRanges mergedScope !! 2 = Some lr ∧ lastUse lr 1 = true
                ∧ curLocs st1 !! 2 = Some (mkLocation Register 0)
                ∧ retire mergedScope 1 1 st1 = Ok st1'
                ∧ curLocs st1' !! 2 = Some (mkLocation Register 0)
                ∧ set_count (mkLocation Register 0) (FreeLocs st1') = 1
                ∧ set_insert (mkLocation Register 0) (FreeLocs st1') = FreeLocs st1'
                ∧ (mkLocation Register 0 ∉ FreeLocs st1')
                ∧ retire mergedScope 1 2 st1' = AssertFail) as Hcases.
  { intros order Horder.
    destruct Horder as [-> | ->].
    - eexists. split; [vm_compute; reflexivity|].
      eexists _, _, _. split.
      { eapply eq_trans; [eapply mergedScope_uses; vm_compute; reflexivity|].
        vm_compute; reflexivity. }
      split; [reflexivity|]. split; [vm_compute; reflexivity|]. split; [reflexivity|].
      split; [reflexivity|]. split; [vm_compute; reflexivity|].
      split; [reflexivity|]. split; [reflexivity|]. split; [reflexivity|].
      split; [|reflexivity].
      intros Hin. apply list_elem_of_singleton in Hin. discriminate.
    - eexists. split; [vm_compute; reflexivity|].
      eexists _, _, _. split.
      { eapply eq_trans; [eapply mergedScope_uses; vm_compute; reflexivity|].
        vm_compute; reflexivity. }
      split; [reflexivity|]. split; [vm_compute; reflexivity|]. split; [reflexivity|].
      split; [reflexivity|]. split; [vm_compute; reflexivity|].
      split; [reflexivity|]. split; [reflexivity|]. split; [reflexivity|].
      split; [|reflexivity].
      intros Hin. apply list_elem_of_singleton in Hin. discriminate. }
  destruct (Hcases _ (sort_two sort sort_perm (createLiveRanges mergedScope) 0 1 2))
    as (st0 & H0 & st1 & st1' & lr & H1 & Hrest).
  pose proof Hrest as (_ & _ & _ & _ & Hr1 & _ & _ & _ & _ & Hr2).
  exists st0, st1, st1', lr.
  split; [cbn [scanFrom]; by rewrite mergedScope_header, H0|]. split; [exact H1|].
  repeat (split; [apply Hrest|]; apply proj2 in Hrest).
  split; [exact Hrest|].
  unfold newImpl, assignLocations.
  change (scanFrom sort mergedScope 0 (getBlocksTopoOrd mergedScope)
            (mkScan (mkImpl 1 (createLiveRanges mergedScope) ∅ 0 0 0 0 ∅ true) ∅ []))
    with (st ← scanBlock sort mergedScope 0 (getHeader mergedScope)
                 (initialScan mergedScope 1);
          scanFrom sort mergedScope 1 [mkBlock 1 [1; 2] []] st).
  rewrite mergedScope_header, H0.
  cbn [mbind res_bind scanFrom]. unfold scanBlock, handlePredUse.
  change (getBlockPredicates (mkBlock 1 [1; 2] [])) with [1; 2]. rewrite H1.
  cbn [mbind res_bind forEach].
  rewrite Hr1. cbn [mbind res_bind]. rewrite Hr2. reflexivity.
Qed.

End MergedBlockFails.

Lemma C5_witness :
  ∃ st0 st1 st1' lr,
    scanFrom insertionSort mergedScope 0 [getHeader mergedScope] (initialScan mergedScope 1)
    = Ok st0
    ∧ forEach (assignUse insertionSort mergedScope 1 (mkBlock 1 [1; 2] [])) [1; 2] st0
      = Ok st1
    ∧ usesP0 mergedScope 2 = Ok false
    ∧ createLiveRanges mergedScope !! 2 = Some lr ∧ lastUse lr 1 = true
    ∧ curLocs st1 !! 2 = Some (mkLocation Register 0)
    ∧ retire mergedScope 1 1 st1 = Ok st1'
    ∧ curLocs st1' !! 2 = Some (mkLocation Register 0)
    ∧ set_count (mkLocation Register 0) (FreeLocs st1') = 1
    ∧ set_insert (mkLocation Register 0) (FreeLocs st1') = FreeLocs st1'
    ∧ (mkLocation Register 0 ∉ FreeLocs st1')
    ∧ retire mergedScope 1 2 st1' = AssertFail
    ∧ newImpl insertionSort mergedScope 1 = AssertFail.
Proof. exact (C5_retire_assertion_fails insertionSort insertionSort_Permutation). Defined.

(* ===================================================================== *)
(** ** Allocation over the scope tree *)

Lemma ScopeTree_ind' (P : ScopeTree → Prop) :
  (∀ scope children, Forall P children → P (ScopeNode scope children)) →
  ∀ t, P t.
Proof.
  intros H. fix IH 1. intros [scope children]. apply H.
  induction children as [|c cs IHcs]; constructor; [apply IH|exact IHcs].
Qed.

Lemma RATree_ind' (P : RATree → Prop) :
  (∀ scope RI children, Forall P children → P (RANode scope RI children)) →
  ∀ t, P t.
Proof.
  intros H. fix IH 1. intros [scope RI children]. apply H.
  induction children as [|c cs IHcs]; constructor; [apply IH|exact IHcs].
Qed.

(** The scopes of a result with their [RAInfo], and the pairs of a parent's
    [RAInfo] and a child. *)
Fixpoint nodes (t : RATree) : list (SPScope * Impl) :=
  match t with
  | RANode scope RI children => (scope, RI) :: flat_map nodes children
  end.

Fixpoint edges (t : RATree) : list (Impl * RATree) :=
  match t with
  | RANode scope RI children => flat_map (fun c => (RI, c) :: edges c) children
  end.

(** The largest cumulative location count among a list of children. *)
Definition maxCum (cs : list RATree) : nat :=
  foldr Nat.max 0 (map (fun c => getCumLocs (rootRI c)) cs).

Lemma mapM_Ok {A B} (f : A → res B) l r :
  mapM f l = Ok r → Forall2 (fun x y => f x = Ok y) l r.
Proof.
  revert r. induction l as [|x l IH]; simpl; intros r H.
  - injection H as <-. constructor.
  - apply bind_Ok in H as (y & Hy & H). apply bind_Ok in H as (r' & Hr & [= <-]).
    constructor; auto.
Qed.

Lemma mapAccumM_Ok {A B} (f : A → nat → res (B * nat)) l n r n' :
  mapAccumM f l n = Ok (r, n') →
  Forall2 (fun x y => ∃ a b, f x a = Ok (y, b)) l r.
Proof.
  revert n r. induction l as [|x l IH]; simpl; intros n r H.
  - injection H as <- <-. constructor.
  - apply bind_Ok in H as ([y n1] & Hy & H).
    apply bind_Ok in H as ([r' n2] & Hr & [= <- <-]).
    constructor; eauto.
Qed.

(** What unification with parent and children leaves alone. *)
Lemma unifyWithChild_fields child I :
  MaxRegs (unifyWithChild child I) = MaxRegs I
  ∧ NumLocs (unifyWithChild child I) = NumLocs I
  ∧ UseLocs (unifyWithChild child I) = UseLocs I
  ∧ FirstUsableReg (unifyWithChild child I) = FirstUsableReg I
  ∧ NeedsScopeSpill (unifyWithChild child I) = NeedsScopeSpill I.
Proof. done. Qed.

Lemma unifyWithParent_fields parent cnt top I :
  MaxRegs (unifyWithParent parent cnt top I) = MaxRegs I
  ∧ NumLocs (unifyWithParent parent cnt top I) = NumLocs I
  ∧ UseLocs (unifyWithParent parent cnt top I) = UseLocs I
  ∧ ChildrenMaxCumLocs (unifyWithParent parent cnt top I) = ChildrenMaxCumLocs I.
Proof.
  unfold unifyWithParent.
  destruct (negb top && _); destruct (_ <? _); done.
Qed.

(** The decision of [unifyWithParent]. *)
Lemma unifyWithParent_spill parent cnt I :
  NeedsScopeSpill I = true → FirstUsableReg I = 0 →
  let I' := unifyWithParent parent cnt false I in
  (NeedsScopeSpill I' = false ↔ NumLocs parent + getCumLocs I ≤ MaxRegs I)
  ∧ (FirstUsableReg I' =
       if NeedsScopeSpill I' then 0 else FirstUsableReg parent + NumLocs parent).
Proof.
  intros HN HF. unfold unifyWithParent. simpl.
  destruct (NumLocs parent + getCumLocs I <=? MaxRegs I) eqn:E.
  - apply Nat.leb_le in E. destruct (_ <? _); simpl; tauto.
  - apply Nat.leb_gt in E. destruct (_ <? _); simpl; rewrite HN, HF;
      (split; [split; [discriminate|lia]|done]).
Qed.

Lemma validUseLocs_same I I' :
  MaxRegs I' = MaxRegs I → NumLocs I' = NumLocs I → UseLocs I' = UseLocs I →
  validUseLocs I → validUseLocs I'.
Proof.
  intros HM HN HU H MBB m pred u Hm Hp. rewrite HU in Hm.
  destruct (H _ _ _ _ Hm Hp) as [H1 H2]. split; [done|]. by rewrite HM, HN.
Qed.

Lemma unifyWithChildren_fields cs I :
  let I' := foldl (fun ri c => unifyWithChild (rootRI c) ri) I cs in
  MaxRegs I' = MaxRegs I ∧ NumLocs I' = NumLocs I ∧ UseLocs I' = UseLocs I
  ∧ FirstUsableReg I' = FirstUsableReg I ∧ NeedsScopeSpill I' = NeedsScopeSpill I
  ∧ ChildrenMaxCumLocs I' = Nat.max (maxCum cs) (ChildrenMaxCumLocs I).
Proof.
  revert I. induction cs as [|c cs IH]; intros I; simpl.
  - repeat split; done.
  - destruct (IH (unifyWithChild (rootRI c) I)) as (H1 & H2 & H3 & H4 & H5 & H6).
    simpl in *. repeat split; try done. rewrite H6. unfold maxCum. simpl. lia.
Qed.

Lemma maxCum_ge c cs : c ∈ cs → getCumLocs (rootRI c) ≤ maxCum cs.
Proof.
  unfold maxCum. induction cs as [|d cs IH]; [by intros ?%elem_of_nil|].
  intros [->|H]%elem_of_cons; simpl; [lia|]. specialize (IH H). lia.
Qed.

(** The shape of a result after the post-order pass. *)
Inductive preTree (Avail : nat) : RATree → Prop :=
| preNode scope RI children :
    MaxRegs RI = Avail → validUseLocs RI → FirstUsableReg RI = 0 →
    NeedsScopeSpill RI = true → ChildrenMaxCumLocs RI = maxCum children →
    Forall (preTree Avail) children →
    preTree Avail (RANode scope RI children).

(** The registers below a scope's first usable one and those of the scope
    and its children fit into the budget, unless the scope starts at 0. *)
Definition firstOK (Avail : nat) (I : Impl) : Prop :=
  FirstUsableReg I = 0 ∨ FirstUsableReg I + getCumLocs I ≤ Avail.

(** The shape of a result of [computeRegAlloc], below a given parent. *)
Inductive okTree (Avail : nat) : option Impl → RATree → Prop :=
| okNode parent scope RI children :
    MaxRegs RI = Avail → validUseLocs RI →
    ChildrenMaxCumLocs RI = maxCum children →
    firstOK Avail RI →
    (if isTopLevel scope then NeedsScopeSpill RI = true
     else ∃ P, parent = Some P
               ∧ (NeedsScopeSpill RI = false ↔ NumLocs P + getCumLocs RI ≤ Avail)) →
    Forall (okTree Avail (Some RI)) children →
    okTree Avail parent (RANode scope RI children).

Section TreeInvariant.

Variable sortFurthestNextUse : gmap nat LiveRange → nat → list nat → list nat.
Variable Avail : nat.

Lemma allocPostOrder_pre t r :
  allocPostOrder sortFurthestNextUse Avail t = Ok r → preTree Avail r.
Proof.
  revert r. induction t as [scope children IH] using ScopeTree_ind'. intros r H.
  cbn [allocPostOrder] in H.
  apply bind_Ok in H as (cs & Hcs & H). apply bind_Ok in H as (RI & HRI & [= <-]).
  destruct (newImpl_inv _ _ _ _ HRI) as (Hv & HM & _ & HO).
  injection HO as HC HF HS HN.
  destruct (unifyWithChildren_fields cs RI) as (H1 & H2 & H3 & H4 & H5 & H6).
  constructor.
  - congruence.
  - by apply (validUseLocs_same RI).
  - congruence.
  - congruence.
  - rewrite H6, HC. lia.
  - apply mapM_Ok in Hcs. clear -IH Hcs.
    induction Hcs as [|c c' cs cs' Hc _ IHcs]; constructor.
    + apply Forall_cons in IH as [IHc _]. by apply IHc.
    + apply Forall_cons in IH as [_ IH]. by apply IHcs.
Qed.

Lemma unifyPreOrder_ok t0 :
  preTree Avail t0 →
  ∀ parent cnt t cnt',
    unifyPreOrder parent t0 cnt = Ok (t, cnt') →
    (∀ P, parent = Some P →
       MaxRegs P = Avail ∧ firstOK Avail P
       ∧ NumLocs P + getCumLocs (rootRI t0) ≤ getCumLocs P) →
    okTree Avail parent t ∧ getCumLocs (rootRI t) = getCumLocs (rootRI t0).
Proof.
  induction t0 as [scope RI children IH] using RATree_ind'.
  intros Hpre parent cnt t cnt' H Hparent.
  inversion Hpre as [? ? ? HM Hv HF HN HC Hchildren]; subst.
  cbn [unifyPreOrder] in H.
  apply bind_Ok in H as (RI1 & HRI1 & H).
  apply bind_Ok in H as ([cs cnt2] & Hcs & [= <- <-]).
  (* the node itself *)
  assert (MaxRegs RI1 = MaxRegs RI ∧ NumLocs RI1 = NumLocs RI ∧ UseLocs RI1 = UseLocs RI
          ∧ ChildrenMaxCumLocs RI1 = ChildrenMaxCumLocs RI
          ∧ firstOK (MaxRegs RI) RI1
          ∧ (if isTopLevel scope then NeedsScopeSpill RI1 = true
             else ∃ P, parent = Some P
                  ∧ (NeedsScopeSpill RI1 = false
                     ↔ NumLocs P + getCumLocs RI1 ≤ MaxRegs RI)))
    as (HM1 & HN1 & HU1 & HC1 & Hfirst & Hspill).
  { destruct (isTopLevel scope) eqn:Etop; simpl in HRI1.
    - injection HRI1 as <-. repeat split; try done. by left.
    - destruct parent as [P|]; [|discriminate]. injection HRI1 as <-.
      destruct (unifyWithParent_fields P cnt false RI) as (F1 & F2 & F3 & F4).
      destruct (unifyWithParent_spill P cnt RI HN HF) as [S1 S2].
      assert (getCumLocs (unifyWithParent P cnt false RI) = getCumLocs RI) as Hcum.
      { unfold getCumLocs. by rewrite F2, F4. }
      split; [done|]. split; [done|]. split; [done|]. split; [done|]. split.
      + unfold firstOK. rewrite S2, Hcum.
        destruct (NeedsScopeSpill (unifyWithParent P cnt false RI)) eqn:En; [by left|].
        right. pose proof (proj1 S1 eq_refl) as Hfit.
        destruct (Hparent P eq_refl) as (HMP & [HP0|HPle] & Hle); simpl in Hle; lia.
      + exists P. split; [done|]. by rewrite Hcum. }
  assert (getCumLocs RI1 = getCumLocs RI) as Hcum1.
  { unfold getCumLocs. by rewrite HN1, HC1. }
  (* the children *)
  assert (Forall (okTree (MaxRegs RI) (Some RI1)) cs ∧ maxCum cs = maxCum children)
    as [Hcs_ok Hcs_max].
  { apply mapAccumM_Ok in Hcs.
    assert (∀ c, c ∈ children → NumLocs RI1 + getCumLocs (rootRI c) ≤ getCumLocs RI1) as Hle.
    { intros c Hc. apply maxCum_ge in Hc. unfold getCumLocs at 2. rewrite HC1, HC. lia. }
    clear -IH Hchildren Hcs Hle HM1 Hfirst.
    induction Hcs as [|c c' l l' (a & b & Hc) _ IHl].
    - split; [constructor|done].
    - apply Forall_cons in IH as [IHc IH]. apply Forall_cons in Hchildren as [Hprec Hpre].
      destruct (IHc Hprec _ _ _ _ Hc) as [Hok Hcum].
      { intros P [= <-]. split; [done|]. split; [done|]. apply Hle, list_elem_of_here. }
      destruct (IHl IH Hpre) as [Hoks Hmax].
      { intros d Hd. by apply Hle, list_elem_of_further. }
      split; [by constructor|]. unfold maxCum in *. simpl. rewrite Hcum, Hmax. done. }
  split; [|done].
  constructor; [done|by apply (validUseLocs_same RI)|congruence|done|done|done].
Qed.

(** Every tree that [computeRegAlloc] returns has the shape [okTree]. *)
Lemma computeRegAlloc_ok root t :
  computeRegAlloc sortFurthestNextUse Avail root = Ok t → okTree Avail None t.
Proof.
  unfold computeRegAlloc. intros H.
  apply bind_Ok in H as (t0 & H0 & H). apply bind_Ok in H as ([t' cnt] & H1 & [= <-]).
  apply allocPostOrder_pre in H0.
  by destruct (unifyPreOrder_ok _ H0 _ _ _ _ H1) as [Hok _].
Qed.

End TreeInvariant.

Lemma okTree_nodes Avail parent t scope RI :
  okTree Avail parent t → (scope, RI) ∈ nodes t →
  MaxRegs RI = Avail ∧ validUseLocs RI ∧ firstOK Avail RI
  ∧ (isTopLevel scope = true → NeedsScopeSpill RI = true).
Proof.
  revert parent. induction t as [sc I cs IH] using RATree_ind'. intros parent Hok Hin.
  inversion Hok as [? ? ? ? HM Hv HC HF HS Hcs]; subst.
  simpl in Hin. apply elem_of_cons in Hin as [[= -> ->]|Hin].
  - split; [done|]. split; [done|]. split; [done|]. intros Htop. by rewrite Htop in HS.
  - apply list_elem_of_In, in_flat_map in Hin as (c & Hc & Hin).
    apply list_elem_of_In in Hc, Hin.
    rewrite Forall_forall in IH, Hcs. eapply IH; eauto.
Qed.

Lemma okTree_edges Avail parent t P c :
  okTree Avail parent t → (P, c) ∈ edges t →
  isTopLevel (rootScope c) = false →
  (NeedsScopeSpill (rootRI c) = false ↔ NumLocs P + getCumLocs (rootRI c) ≤ Avail)
  ∧ ChildrenMaxCumLocs (rootRI c) = maxCum (subtrees c).
Proof.
  revert parent. induction t as [sc I cs IH] using RATree_ind'. intros parent Hok Hin Htop.
  inversion Hok as [? ? ? ? HM Hv HC HF HS Hcs]; subst.
  simpl in Hin. apply list_elem_of_In, in_flat_map in Hin as (d & Hd & Hin).
  apply list_elem_of_In in Hd. rewrite Forall_forall in IH, Hcs.
  destruct Hin as [[= <- <-]|Hin].
  - specialize (Hcs _ Hd). inversion Hcs as [? ? ? ? _ _ HC' _ HS' _]; subst.
    simpl in *. rewrite Htop in HS'. destruct HS' as (P' & [= <-] & HS'). done.
  - apply list_elem_of_In in Hin. eapply IH; eauto.
Qed.

(* --------------------------------------------------------------------- *)
(** *** The queries on the result *)

(** [getUseLocs] succeeds when every unified location is below the
    budget, and then returns all of them. *)
Lemma getUseLocs_Ok I MBB :
  (∀ pred u, useLocsOf I MBB !! pred = Some u → unifyRegister I (loc u) < MaxRegs I) →
  getUseLocs I MBB = Ok ((fun u => unifyRegister I (loc u)) <$> useLocsOf I MBB).
Proof.
  unfold getUseLocs.
  apply (map_fold_weak_ind
    (fun r m => (∀ pred u, m !! pred = Some u → unifyRegister I (loc u) < MaxRegs I) →
                r = Ok ((fun u => unifyRegister I (loc u)) <$> m))).
  - intros _. by rewrite fmap_empty.
  - intros pred u m r Hnone IH Hall.
    rewrite IH.
    2:{ intros q v Hq. apply (Hall q v). rewrite lookup_insert_ne; [done|]. congruence. }
    simpl. specialize (Hall pred u (lookup_insert_eq _ _ _)).
    apply Nat.ltb_lt in Hall. rewrite Hall. simpl. by rewrite fmap_insert.
Qed.

Lemma getAnyLoc_lookup I MBB f pred :
  getAnyLoc I MBB f !! pred = useLocsOf I MBB !! pred ≫= (fun ul => unifyRegister I <$> f ul).
Proof. unfold getAnyLoc. by rewrite lookup_omap. Qed.

Lemma useLocsOf_valid I MBB pred u :
  validUseLocs I → useLocsOf I MBB !! pred = Some u → validUseLoc I u.
Proof.
  unfold useLocsOf. intros Hv. destruct (UseLocs I !! MBB) as [m|] eqn:E; simpl.
  - intros Hp. exact (Hv _ _ _ _ E Hp).
  - by rewrite lookup_empty.
Qed.

Section Results.

Variable sortFurthestNextUse : gmap nat LiveRange → nat → list nat → list nat.
Variable AvailPredRegs : nat.

(** C2.  In a result of [computeRegAlloc] the root is top-level, and for
    every other scope that is not top-level, with [P] the [RAInfo] of its
    parent: the scope needs no scope spill exactly when the locations of the
    parent plus the cumulative locations of the scope fit into the available
    registers, where the cumulative locations are the scope's own plus the
    largest cumulative count among its children. *)
Theorem C2_scope_spill_decision root t :
  computeRegAlloc sortFurthestNextUse AvailPredRegs root = Ok t →
  isTopLevel (rootScope t) = true
  ∧ ∀ P c, (P, c) ∈ edges t → isTopLevel (rootScope c) = false →
      (needsScopeSpill (rootRI c) = false
       ↔ NumLocs P + getCumLocs (rootRI c) ≤ AvailPredRegs)
      ∧ getCumLocs (rootRI c) = NumLocs (rootRI c) + maxCum (subtrees c).
Proof.
  intros H. apply computeRegAlloc_ok in H. split.
  - inversion H as [? ? ? ? _ _ _ _ HS _]; subst. simpl.
    destruct (isTopLevel scope); [done|]. by destruct HS as (? & [=] & _).
  - intros P c Hin Htop.
    destruct (okTree_edges _ _ _ _ _ H Hin Htop) as [Hiff HC].
    split; [done|]. unfold getCumLocs. by rewrite HC.
Qed.

(** C9.  In a result of [computeRegAlloc], whenever a predicate has a spill
    location at a block, it has a load location at that block. *)
Theorem C9_spill_implies_load root t scope RI MBB pred :
  computeRegAlloc sortFurthestNextUse AvailPredRegs root = Ok t →
  (scope, RI) ∈ nodes t →
  is_Some (getSpillLocs RI MBB !! pred) →
  is_Some (getLoadLocs RI MBB !! pred).
Proof.
  intros H Hin. apply computeRegAlloc_ok in H.
  destruct (okTree_nodes _ _ _ _ _ H Hin) as (_ & Hv & _).
  unfold getSpillLocs, getLoadLocs. rewrite !getAnyLoc_lookup.
  destruct (useLocsOf RI MBB !! pred) as [u|] eqn:E; simpl; [|by intros [? [=]]].
  destruct (useLocsOf_valid _ _ _ _ Hv E) as [Hsl _].
  destruct (spill u); simpl; [|by intros [? [=]]].
  intros _. destruct Hsl as [l ->]; [done|]. simpl. eauto.
Qed.

(** With at least one register available, [getUseLocs] never fails on a
    result of [computeRegAlloc], and every register it returns is below the
    number of available registers. *)
Lemma getUseLocs_in_bounds root t scope RI MBB :
  computeRegAlloc sortFurthestNextUse AvailPredRegs root = Ok t →
  0 < AvailPredRegs →
  (scope, RI) ∈ nodes t →
  ∃ m, getUseLocs RI MBB = Ok m ∧ ∀ pred l, m !! pred = Some l → l < AvailPredRegs.
Proof.
  intros H Hpos Hin. apply computeRegAlloc_ok in H.
  destruct (okTree_nodes _ _ _ _ _ H Hin) as (HM & Hv & Hfirst & _).
  assert (∀ pred u, useLocsOf RI MBB !! pred = Some u →
                    unifyRegister RI (loc u) < MaxRegs RI) as Hall.
  { intros pred u Hu. destruct (useLocsOf_valid _ _ _ _ Hv Hu) as [_ Hb].
    rewrite HM in *. destruct (Hb Hpos) as [H1 H2]. unfold unifyRegister.
    destruct Hfirst as [->|Hle]; [lia|]. unfold getCumLocs in Hle. lia. }
  eexists. split; [by apply getUseLocs_Ok|].
  intros pred l. rewrite lookup_fmap.
  destruct (useLocsOf RI MBB !! pred) as [u|] eqn:E; simpl; [|done].
  intros [= <-]. rewrite <- HM. by eapply Hall.
Qed.

End Results.

(* --------------------------------------------------------------------- *)
(** *** Concrete results *)

Definition exRoot : SPScope :=
  mkScope (mkBlock 0 [0] [1]) [mkBlock 1 [1] [2]] true true 0 false.
Definition exLoop : SPScope :=
  mkScope (mkBlock 1 [1] [2]) [mkBlock 2 [2] []] false false 1 true.
Definition exTree : ScopeTree := ScopeNode exRoot [ScopeNode exLoop []].

(** The results for one and for three available registers. *)
Definition exResult (avail : nat) : RATree :=
  match computeRegAlloc insertionSort avail exTree with
  | Ok t => t
  | _ => RANode exRoot (initialImpl exRoot avail) []
  end.

Definition exLoopRI (avail : nat) : Impl :=
  match subtrees (exResult avail) with
  | c :: _ => rootRI c
  | [] => initialImpl exLoop avail
  end.

Lemma exResult_Ok avail :
  avail = 1 ∨ avail = 3 →
  computeRegAlloc insertionSort avail exTree = Ok (exResult avail).
Proof. intros [->| ->]; by vm_compute. Qed.

Lemma C2_witness :
  needsScopeSpill (exLoopRI 3) = false
  ↔ NumLocs (rootRI (exResult 3)) + getCumLocs (exLoopRI 3) ≤ 3.
Proof.
  pose proof (C2_scope_spill_decision insertionSort 3 exTree (exResult 3)
                (exResult_Ok 3 (or_intror eq_refl))) as [_ H].
  destruct (subtrees (exResult 3)) as [|c cs] eqn:E; [by vm_compute in E|].
  assert ((rootRI (exResult 3), c) ∈ edges (exResult 3)) as Hin.
  { destruct (exResult 3) as [sc RI children]. simpl in *. subst children.
    simpl. apply list_elem_of_here. }
  assert (rootRI c = exLoopRI 3) as HRI by (unfold exLoopRI; by rewrite E).
  assert (isTopLevel (rootScope c) = false) as Htop.
  { assert (rootScope <$> subtrees (exResult 3) = [exLoop]) as Hs by (by vm_compute).
    rewrite E in Hs. by injection Hs as ->. }
  rewrite <- HRI. exact (proj1 (H _ _ Hin Htop)).
Defined.

Lemma C9_witness :
  is_Some (getSpillLocs (exLoopRI 1) 2 !! 2) ∧ is_Some (getLoadLocs (exLoopRI 1) 2 !! 2).
Proof.
  assert (is_Some (getSpillLocs (exLoopRI 1) 2 !! 2)) as Hs.
  { exists 1. by vm_compute. }
  split; [exact Hs|].
  refine (C9_spill_implies_load insertionSort 1 exTree (exResult 1) exLoop (exLoopRI 1) 2 2
            (exResult_Ok 1 (or_introl eq_refl)) _ Hs).
  assert (nodes (exResult 1) = [(exRoot, rootRI (exResult 1)); (exLoop, exLoopRI 1)]) as ->
    by (by vm_compute).
  apply list_elem_of_further, list_elem_of_here.
Defined.

(** C10.  With no register available the header predicate of a top-level
    scope that is not a single-path root is handed stack slot 0; its index is
    recorded as the register to use, and the bounds assertion of
    [getUseLocs] fails on the result of [computeRegAlloc]. *)
Theorem C10_no_register_available :
  ∃ t, computeRegAlloc insertionSort 0 (ScopeNode topScope1 []) = Ok t
       ∧ DefLocs (rootRI t) !! 0 = Some (mkLocation Stack 0)
       ∧ (loc <$> useLocsOf (rootRI t) 0 !! 0) = Some 0
       ∧ getUseLocs (rootRI t) 0 = AssertFail.
Proof.
  eexists. split; [by vm_compute|]. split; [by vm_compute|]. split; by vm_compute.
Qed.

(* ===================================================================== *)
(** ** The redundant load eliminator *)

Definition isLoadOpcode (MI : MachineInstr) : bool :=
  match getOpcode MI with
  | LBC | LWC => true
  | _ => false
  end.

Definition isStoreOpcode (MI : MachineInstr) : bool :=
  match getOpcode MI with
  | SBC | SWC => true
  | _ => false
  end.

Section EliminatorFacts.

Variable MF : MachineFunction.
Variable TgtReg : Reg.
Variable NumFIs : nat.
Variable OffsetFIs : nat.
Variable RPOT : list nat.

Lemma isUncondLoad_opcode MI fi :
  isUncondLoad TgtReg MI = Some fi → isLoadOpcode MI = true.
Proof.
  unfold isUncondLoad, isLoadOpcode. destruct (getOpcode MI); try discriminate; done.
Qed.

Lemma store_not_load MI : isStoreOpcode MI = true → isUncondLoad TgtReg MI = None.
Proof.
  unfold isStoreOpcode, isUncondLoad. destruct (getOpcode MI); try discriminate; done.
Qed.

(** The load that [markLoad] looks at, and the bit it tests. *)
Definition markedBy (r : InstrRef) (bv : BitVector) : Prop :=
  ∃ MI fi n, instrAt MF r = Some MI ∧ isUncondLoad TgtReg MI = Some fi
             ∧ normalizeFI NumFIs OffsetFIs fi = Ok n ∧ bv_test n bv = true.

Lemma markLoad_Ok r bv acc R1 :
  markLoad MF TgtReg NumFIs OffsetFIs r bv acc = Ok R1 →
  ∃ R0, acc = Ok R0 ∧ ∀ x, x ∈ R1 ↔ x ∈ R0 ∨ (x = r ∧ markedBy r bv).
Proof.
  unfold markLoad. intros H. apply bind_Ok in H as (R0 & -> & H).
  exists R0. split; [done|].
  destruct (instrAt MF r) as [MI|] eqn:EMI; simpl in H; [|discriminate].
  destruct (isUncondLoad TgtReg MI) as [fi|] eqn:Efi; [|discriminate].
  apply bind_Ok in H as (n & Hn & [= <-]).
  intros x. destruct (bv_test n bv) eqn:Et.
  - rewrite elem_of_union, elem_of_singleton. split.
    + intros [->|?]; [right|by left]. split; [done|]. by exists MI, fi, n.
    + intros [?|[-> _]]; [by right|by left].
  - split; [by left|]. intros [?|[_ (MI' & fi' & n' & H1 & H2 & H3 & H4)]]; [done|].
    congruence.
Qed.

Lemma markLoads_Ok (coll : gmap InstrRef BitVector) R0 R1 :
  map_fold (markLoad MF TgtReg NumFIs OffsetFIs) (Ok R0) coll = Ok R1 →
  ∀ x, x ∈ R1 ↔ x ∈ R0 ∨ ∃ bv, coll !! x = Some bv ∧ markedBy x bv.
Proof.
  revert R1.
  apply (map_fold_weak_ind
    (fun acc m => ∀ R1, acc = Ok R1 →
       ∀ x, x ∈ R1 ↔ x ∈ R0 ∨ ∃ bv, m !! x = Some bv ∧ markedBy x bv)).
  - intros R1 [= <-] x. split; [by left|]. intros [?|(bv & Hbv & _)]; [done|].
    by rewrite lookup_empty in Hbv.
  - intros r bv m acc Hnone IH R1 H.
    apply markLoad_Ok in H as (R & -> & HR1). intros x. rewrite HR1, (IH R eq_refl).
    split.
    + intros [[?|(bv' & Hbv' & Hm)]|[-> Hm]]; [by left| |].
      * right. exists bv'. split; [|done]. rewrite lookup_insert_ne; [done|]. congruence.
      * right. exists bv. by rewrite lookup_insert_eq.
    + intros [?|(bv' & Hbv' & Hm)]; [by left; left|].
      destruct (decide (r = x)) as [->|Hne].
      * rewrite lookup_insert_eq in Hbv'. injection Hbv' as <-. by right.
      * rewrite lookup_insert_ne in Hbv' by done. left; right. eauto.
Qed.

(** Everything [findRedundantLoads] adds to the removable instructions is
    an unconditional load of the tracked register. *)
Lemma findRedundantLoads_loads fuel BIs R0 R1 BIs' x :
  findRedundantLoads MF TgtReg NumFIs OffsetFIs RPOT fuel BIs R0 = Some (Ok (R1, BIs')) →
  x ∈ R1 →
  x ∈ R0 ∨ ∃ MI fi, instrAt MF x = Some MI ∧ isUncondLoad TgtReg MI = Some fi.
Proof.
  unfold findRedundantLoads. destruct (iterate _ _ _ _ _ _ _) as [r|]; [|discriminate].
  intros [= H] Hx. apply bind_Ok in H as (st & _ & H).
  apply bind_Ok in H as (R & HR & [= <- <-]).
  apply (markLoads_Ok _ _ _ HR) in Hx as [?|(bv & _ & MI & fi & n & H1 & H2 & _)];
    [by left|right; eauto].
Qed.

(** The instructions that [remove] leaves in a block. *)
Lemma eraseFrom_instrs Removables b MBB MI :
  MI ∈ instrs (eraseFrom Removables b MBB)
  ↔ ∃ k, instrs MBB !! k = Some MI ∧ (b, k) ∉ Removables.
Proof.
  unfold eraseFrom. simpl. rewrite list_elem_of_omap. split.
  - intros (o & Ho & Hid). simpl in Hid. subst o.
    apply list_elem_of_lookup in Ho as (k & Hk).
    rewrite list_lookup_imap in Hk.
    destruct (instrs MBB !! k) as [MI'|] eqn:E; simpl in Hk; [|discriminate].
    destruct (bool_decide ((b, k) ∈ Removables)) eqn:Ed; [discriminate|].
    injection Hk as ->. exists k. split; [done|]. by apply bool_decide_eq_false in Ed.
  - intros (k & Hk & Hnin). exists (Some MI). split; [|done].
    apply list_elem_of_lookup. exists k. rewrite list_lookup_imap, Hk. simpl.
    by rewrite bool_decide_eq_false_2.
Qed.

Lemma eraseFrom_empty b MBB : eraseFrom ∅ b MBB = MBB.
Proof.
  unfold eraseFrom. destruct MBB as [mis ps ss]. cbn [instrs predecessors successors].
  f_equal.
  rewrite (imap_ext _ (fun _ MI => Some MI)).
  2:{ intros k MI _. by rewrite bool_decide_eq_false_2 by apply not_elem_of_empty. }
  induction mis as [|MI mis IH]; simpl; [done|]. f_equal. exact IH.
Qed.

Lemma remove_empty F : (remove F ∅).2 = F.
Proof.
  unfold remove. simpl. rewrite <- (list_fmap_id F) at 2.
  rewrite <- (imap_const id F).
  apply imap_ext. intros b MBB _. apply eraseFrom_empty.
Qed.

(** C7.  A run of [process] removes exactly the instructions of a set
    [Removed] that holds, besides the instructions registered beforehand,
    only unconditional loads of the tracked register.  So every instruction
    that is not a load and was not registered, in particular every such
    store, keeps its place in [Removed]'s complement and is still in its
    block afterwards. *)
Theorem C7_process_keeps_stores fuel Removables cnt F' :
  process MF TgtReg NumFIs OffsetFIs RPOT fuel Removables = Some (Ok (cnt, F')) →
  ∃ Removed : gset InstrRef,
    F' = imap (eraseFrom Removed) MF
    ∧ (∀ r, r ∈ Removed →
         (r ∈ Removables)
         ∨ (∃ MI, instrAt MF r = Some MI ∧ isLoadOpcode MI = true
                  ∧ is_Some (isUncondLoad TgtReg MI)))
    ∧ (∀ b k MBB MI,
         MF !! b = Some MBB → instrs MBB !! k = Some MI →
         isStoreOpcode MI = true → (b, k) ∉ Removables →
         ((b, k) ∉ Removed)
         ∧ (∃ MBB', F' !! b = Some MBB' ∧ MI ∈ instrs MBB')).
Proof.
  unfold process. destruct (findRedundantLoads _ _ _ _ _ _ _ _) as [r|] eqn:Efind;
    [|discriminate].
  intros [= H]. apply bind_Ok in H as ([Removed BIs] & -> & H).
  simpl in H. injection H as _ <-.
  exists Removed.
  assert (∀ r, r ∈ Removed →
            (r ∈ Removables)
            ∨ (∃ MI, instrAt MF r = Some MI ∧ isLoadOpcode MI = true
                     ∧ is_Some (isUncondLoad TgtReg MI))) as Hloads.
  { intros r Hr.
    destruct (findRedundantLoads_loads _ _ _ _ _ _ Efind Hr) as [?|(MI & fi & H1 & H2)];
      [by left|right].
    exists MI. split; [done|]. split; [by eapply isUncondLoad_opcode|eauto]. }
  pose proof (remove_empty (imap (eraseFrom Removed) MF)) as Hrem. simpl in Hrem.
  split; [exact Hrem|]. split; [exact Hloads|].
  intros b k MBB MI Hb Hk Hstore Hnreg.
  assert ((b, k) ∉ Removed) as Hnin.
  { intros Hin. destruct (Hloads _ Hin) as [?|(MI' & HMI' & _ & [fi Hfi])]; [done|].
    unfold instrAt in HMI'. simpl in HMI'. rewrite Hb in HMI'. simpl in HMI'.
    rewrite Hk in HMI'. injection HMI' as <-.
    by rewrite store_not_load in Hfi. }
  split; [done|]. exists (eraseFrom Removed b MBB). split.
  - rewrite Hrem, list_lookup_imap, Hb. done.
  - apply eraseFrom_instrs. eauto.
Qed.


(** *** The fixed point of the load analysis *)

(** The live set after a run of instructions: the transfer function of the
    analysis, without the bookkeeping of [transfer]. *)
Fixpoint liveThrough (mis : list MachineInstr) (livefi : BitVector) : res BitVector :=
  match mis with
  | [] => Ok livefi
  | MI :: mis' =>
      match isUncondLoad TgtReg MI with
      | Some fi =>
          n ← normalizeFI NumFIs OffsetFIs fi;
          liveThrough mis' (bv_set n (replicate NumFIs false))
      | None => liveThrough mis' livefi
      end
  end.

Lemma liveThrough_app mis1 mis2 livefi :
  liveThrough (mis1 ++ mis2) livefi = (liveThrough mis1 livefi ≫= liveThrough mis2).
Proof.
  revert livefi. induction mis1 as [|MI mis1 IH]; intros livefi; simpl; [done|].
  destruct (isUncondLoad TgtReg MI) as [fi|]; [|apply IH].
  destruct (normalizeFI NumFIs OffsetFIs fi); simpl; [apply IH|done|done].
Qed.

(** The reference [r] is a tracked load of block [b], at or after
    instruction [k], when [mis] are the instructions from [k] on. *)
Definition loadAt (b k : nat) (mis : list MachineInstr) (r : InstrRef) (j : nat) : Prop :=
  r = (b, k + j) ∧ ∃ MI, mis !! j = Some MI ∧ is_Some (isUncondLoad TgtReg MI).

Lemma transfer_spec b mis : ∀ k coll livefi coll' out,
  transfer TgtReg NumFIs OffsetFIs b k mis coll livefi = Ok (coll', out) →
  liveThrough mis livefi = Ok out
  ∧ (∀ r j, loadAt b k mis r j →
       ∃ bv, coll' !! r = Some bv ∧ liveThrough (take j mis) livefi = Ok bv)
  ∧ (∀ r, (∀ j, ¬ loadAt b k mis r j) → coll' !! r = coll !! r).
Proof.
  induction mis as [|MI mis IH]; intros k coll livefi coll' out H; simpl in H.
  - injection H as <- <-. split; [done|]. split; [|done].
    intros r j (_ & MI & HMI & _). by rewrite lookup_nil in HMI.
  - destruct (isUncondLoad TgtReg MI) as [fi|] eqn:Efi.
    + apply bind_Ok in H as (n & Hn & H).
      destruct (IH _ _ _ _ _ H) as (Hout & Hin & Hnot).
      split; [simpl; by rewrite Efi, Hn|]. split.
      * intros r j (-> & MI' & HMI' & Hl). destruct j as [|j].
        -- exists livefi. split; [|done].
           rewrite Hnot.
           ++ rewrite Nat.add_0_r. by rewrite lookup_insert_eq.
           ++ intros j' ([= Hj] & _). lia.
        -- destruct (Hin (b, k + S j) j) as (bv & Hbv & Hlt).
           { split; [f_equal; lia|]. exists MI'. by simpl in HMI'. }
           exists bv. split; [done|]. simpl. by rewrite Efi, Hn.
      * intros r Hr. rewrite Hnot.
        -- rewrite lookup_insert_ne; [done|]. intros <-. apply (Hr 0).
           split; [f_equal; lia|]. exists MI. simpl. split; [done|]. by rewrite Efi.
        -- intros j (-> & MI' & HMI' & Hl). apply (Hr (S j)).
           split; [f_equal; lia|]. exists MI'. by simpl.
    + destruct (IH _ _ _ _ _ H) as (Hout & Hin & Hnot).
      split; [simpl; by rewrite Efi|]. split.
      * intros r j (-> & MI' & HMI' & Hl). destruct j as [|j].
        -- simpl in HMI'. injection HMI' as <-. rewrite Efi in Hl. by destruct Hl.
        -- destruct (Hin (b, k + S j) j) as (bv & Hbv & Hlt).
           { split; [f_equal; lia|]. exists MI'. by simpl in HMI'. }
           exists bv. split; [done|]. simpl. by rewrite Efi.
      * intros r Hr. apply Hnot.
        intros j (-> & MI' & HMI' & Hl). apply (Hr (S j)).
        split; [f_equal; lia|]. exists MI'. by simpl.
Qed.

(** The tracked loads of the blocks in a list. *)
Definition loadOf (bs : list nat) (r : InstrRef) : Prop :=
  r.1 ∈ bs ∧ ∃ MI, instrAt MF r = Some MI ∧ is_Some (isUncondLoad TgtReg MI).

(** The data-flow equations at block [b]. *)
Definition solves (BIs : list Blockinfo) (b : nat) : Prop :=
  ∃ MBB BI, MF !! b = Some MBB ∧ BIs !! b = Some BI
            ∧ liveIn NumFIs BIs MBB = Ok (LiveFIEntry BI)
            ∧ liveThrough (instrs MBB) (LiveFIEntry BI) = Ok (LiveFIExit BI).

(** The live set recorded for a tracked load. *)
Definition liveAt (BIs : list Blockinfo) (r : InstrRef) (bv : BitVector) : Prop :=
  ∃ MBB BI, MF !! r.1 = Some MBB ∧ BIs !! r.1 = Some BI
            ∧ liveThrough (take r.2 (instrs MBB)) (LiveFIEntry BI) = Ok bv.

Lemma bv_eqb_true a b : negb (bv_eqb a b) = false → a = b.
Proof. unfold bv_eqb. intros H. apply negb_false_iff in H. by apply bool_decide_eq_true in H. Qed.

Lemma visitBlock_changed b st st' :
  visitBlock MF TgtReg NumFIs OffsetFIs b st = Ok st' →
  changed st = true → changed st' = true.
Proof.
  unfold visitBlock. intros H Hc.
  destruct (MF !! b) as [MBB|]; [|discriminate].
  destruct (BlockInfos st !! b) as [BI|]; [|discriminate].
  apply bind_Ok in H as (livein & _ & H).
  destruct (negb (bv_eqb (LiveFIEntry BI) livein));
    apply bind_Ok in H as ([coll livefi] & _ & H);
    destruct (negb (bv_eqb _ livefi)); by injection H as <-.
Qed.

(** A visit that reports no change leaves the block information as it is,
    and the block solves its equations. *)
Lemma visitBlock_stable b st st' :
  visitBlock MF TgtReg NumFIs OffsetFIs b st = Ok st' →
  changed st' = false →
  changed st = false
  ∧ BlockInfos st' = BlockInfos st
  ∧ solves (BlockInfos st) b
  ∧ (∀ r, loadOf [b] r →
       ∃ bv, collected st' !! r = Some bv ∧ liveAt (BlockInfos st) r bv)
  ∧ (∀ r, ¬ loadOf [b] r → collected st' !! r = collected st !! r).
Proof.
  unfold visitBlock. intros H Hc.
  destruct (MF !! b) as [MBB|] eqn:EMBB; [|discriminate].
  destruct (BlockInfos st !! b) as [BI|] eqn:EBI; [|discriminate].
  apply bind_Ok in H as (livein & Hlivein & H).
  destruct (negb (bv_eqb (LiveFIEntry BI) livein)) eqn:E1.
  { apply bind_Ok in H as ([coll livefi] & _ & H).
    destruct (negb (bv_eqb _ livefi)); injection H as <-; simpl in Hc; discriminate. }
  apply bv_eqb_true in E1. subst livein.
  apply bind_Ok in H as ([coll livefi] & Ht & H).
  destruct (negb (bv_eqb (LiveFIExit BI) livefi)) eqn:E2.
  { injection H as <-. simpl in Hc. discriminate. }
  apply bv_eqb_true in E2. subst livefi. injection H as <-. simpl in *.
  destruct (transfer_spec _ _ _ _ _ _ _ Ht) as (Hout & Hin & Hnot).
  split; [done|]. split; [by apply list_insert_id|].
  split; [by exists MBB, BI|]. split.
  - intros [b' k] (Hb & MI & HMI & Hl). simpl in Hb.
    apply list_elem_of_singleton in Hb as ->.
    unfold instrAt in HMI. simpl in HMI. rewrite EMBB in HMI. simpl in HMI.
    destruct (Hin (b, k) k) as (bv & Hbv & Hlt).
    { split; [done|]. by exists MI. }
    exists bv. split; [done|]. exists MBB, BI. by simpl.
  - intros r Hr. apply Hnot. intros j (-> & MI & HMI & Hl). apply Hr.
    split; [apply list_elem_of_here|]. exists MI. split; [|done].
    unfold instrAt. simpl. by rewrite EMBB.
Qed.

Lemma sweep_changed bs st st' :
  sweep MF TgtReg NumFIs OffsetFIs bs st = Ok st' →
  changed st = true → changed st' = true.
Proof.
  revert st. induction bs as [|b bs IH]; simpl; intros st H Hc.
  - by injection H as <-.
  - apply bind_Ok in H as (st1 & H1 & H). eauto using visitBlock_changed.
Qed.

Lemma sweep_stable bs st st' :
  sweep MF TgtReg NumFIs OffsetFIs bs st = Ok st' →
  changed st' = false →
  BlockInfos st' = BlockInfos st
  ∧ (∀ b, b ∈ bs → solves (BlockInfos st) b)
  ∧ (∀ r, loadOf bs r →
       ∃ bv, collected st' !! r = Some bv ∧ liveAt (BlockInfos st) r bv)
  ∧ (∀ r, ¬ loadOf bs r → collected st' !! r = collected st !! r).
Proof.
  revert st. induction bs as [|b bs IH]; simpl; intros st H Hc.
  - injection H as <-. split; [done|]. split; [by intros b ?%elem_of_nil|].
    split; [|done]. intros r [Hr _]. by apply elem_of_nil in Hr.
  - apply bind_Ok in H as (st1 & H1 & H).
    destruct (IH _ H Hc) as (HB2 & Hs2 & Hin2 & Hnot2).
    assert (changed st1 = false) as Hc1.
    { destruct (changed st1) eqn:E; [|done].
      by rewrite (sweep_changed _ _ _ H E) in Hc. }
    destruct (visitBlock_stable _ _ _ H1 Hc1) as (_ & HB1 & Hs1 & Hin1 & Hnot1).
    rewrite HB1 in *.
    split; [done|]. split; [|split].
    + intros b' [->|Hb']%elem_of_cons; auto.
    + intros r Hr.
      destruct (decide (r.1 ∈ bs)) as [Hbs|Hnbs].
      * apply Hin2. split; [done|]. apply Hr.
      * rewrite Hnot2 by (intros [? _]; done).
        apply Hin1. destruct Hr as [Hrb Hl]. apply elem_of_cons in Hrb as [Heq|?]; [|done].
        split; [rewrite Heq; apply list_elem_of_here|done].
    + intros r Hr. rewrite Hnot2, Hnot1; [done| |].
      * intros [Hrb Hl]. apply list_elem_of_singleton in Hrb.
        apply Hr. split; [rewrite Hrb; apply list_elem_of_here|done].
      * intros [Hb Hl]. apply Hr. split; [by apply list_elem_of_further|done].
Qed.

Lemma visitBlock_frame b st st' r :
  visitBlock MF TgtReg NumFIs OffsetFIs b st = Ok st' →
  ¬ loadOf [b] r → collected st' !! r = collected st !! r.
Proof.
  unfold visitBlock. intros H Hr.
  destruct (MF !! b) as [MBB|] eqn:EMBB; [|discriminate].
  destruct (BlockInfos st !! b) as [BI|] eqn:EBI; [|discriminate].
  apply bind_Ok in H as (livein & Hlivein & H).
  assert (∀ coll, (∃ livefi, transfer TgtReg NumFIs OffsetFIs b 0 (instrs MBB)
                               (collected st) livein = Ok (coll, livefi)) →
                  coll !! r = collected st !! r) as Hcoll.
  { intros coll (livefi & Ht).
    destruct (transfer_spec _ _ _ _ _ _ _ Ht) as (_ & _ & Hnot). apply Hnot.
    intros j (-> & MI & HMI & Hl). apply Hr.
    split; [apply list_elem_of_here|]. exists MI. split; [|done].
    unfold instrAt. simpl. by rewrite EMBB. }
  destruct (negb (bv_eqb (LiveFIEntry BI) livein));
    apply bind_Ok in H as ([coll livefi] & Ht & H);
    destruct (negb (bv_eqb _ livefi)); injection H as <-; simpl; eauto.
Qed.

Lemma sweep_frame bs st st' r :
  sweep MF TgtReg NumFIs OffsetFIs bs st = Ok st' →
  ¬ loadOf bs r → collected st' !! r = collected st !! r.
Proof.
  revert st. induction bs as [|b bs IH]; simpl; intros st H Hr.
  - by injection H as <-.
  - apply bind_Ok in H as (st1 & H1 & H).
    rewrite (IH _ H), (visitBlock_frame _ _ _ _ H1); [done| |].
    + intros [Hrb Hl]. apply list_elem_of_singleton in Hrb.
      apply Hr. split; [rewrite Hrb; apply list_elem_of_here|done].
    + intros [Hb Hl]. apply Hr. split; [by apply list_elem_of_further|done].
Qed.

Lemma liveAt_functional BIs r bv bv' : liveAt BIs r bv → liveAt BIs r bv' → bv = bv'.
Proof. intros (MBB & BI & H1 & H2 & H3) (MBB' & BI' & H1' & H2' & H3'). congruence. Qed.

Lemma classic_loadOf r : loadOf RPOT r ∨ ¬ loadOf RPOT r.
Proof.
  unfold loadOf. destruct (decide (r.1 ∈ RPOT)) as [Hin|Hnin]; [|right; by intros [? _]].
  destruct (instrAt MF r) as [MI|]; [|right; by intros (_ & ? & [=] & _)].
  destruct (isUncondLoad TgtReg MI) as [fi|] eqn:E.
  - left. split; [done|]. exists MI. split; [done|]. by rewrite E.
  - right. intros (_ & MI' & [= <-] & Hl). rewrite E in Hl. by destruct Hl.
Qed.

(** When the loop ends, the block information solves the equations at
    every visited block, and the live set collected for a load is the one
    that the solution gives at that load. *)
Lemma iterate_fixed_point fuel st st' :
  iterate MF TgtReg NumFIs OffsetFIs RPOT fuel st = Some (Ok st') →
  (∀ r, is_Some (collected st !! r) → loadOf RPOT r) →
  (∀ b, b ∈ RPOT → solves (BlockInfos st') b)
  ∧ (∀ r bv, collected st' !! r = Some bv ↔ loadOf RPOT r ∧ liveAt (BlockInfos st') r bv).
Proof.
  revert st. induction fuel as [|fuel IH]; intros st H Hkeys; simpl in H; [discriminate|].
  destruct (sweep _ _ _ _ _ _) as [st1| |] eqn:Esw; [|discriminate..].
  assert (∀ r, is_Some (collected st1 !! r) → loadOf RPOT r) as Hkeys1.
  { intros r Hr. destruct (classic_loadOf r) as [?|Hn]; [done|].
    rewrite (sweep_frame _ _ _ _ Esw Hn) in Hr. simpl in Hr. auto. }
  destruct (changed st1) eqn:Ec; [by apply (IH st1)|].
  injection H as <-.
  destruct (sweep_stable _ _ _ Esw Ec) as (HB & Hs & Hin & _). simpl in *.
  rewrite HB. split; [done|].
  intros r bv. split.
  - intros Hr. assert (loadOf RPOT r) as Hl by (apply Hkeys1; eauto).
    split; [done|]. destruct (Hin r Hl) as (bv' & Hbv' & Hlive). congruence.
  - intros [Hl Hlive]. destruct (Hin r Hl) as (bv' & Hbv' & Hlive').
    by rewrite (liveAt_functional _ _ _ _ Hlive Hlive').
Qed.

(** *** The join *)

Lemma bv_test_and n a b : bv_test n (bv_and a b) = bv_test n a && bv_test n b.
Proof.
  unfold bv_test, bv_and. rewrite lookup_zip_with.
  destruct (a !! n) as [x|]; simpl; [|done].
  destruct (b !! n) as [y|]; simpl; [done|]. by rewrite andb_false_r.
Qed.

Lemma bv_test_replicate n m x : bv_test n (replicate m x) = true ↔ n < m ∧ x = true.
Proof.
  unfold bv_test. destruct (replicate m x !! n) as [y|] eqn:E; simpl.
  - apply lookup_replicate in E as [-> ?]. tauto.
  - apply lookup_replicate_None in E. split; [discriminate|]. lia.
Qed.

Lemma joinPreds_test BIs ps acc r n :
  joinPreds BIs ps acc = Ok r →
  bv_test n r = true ↔
    bv_test n acc = true
    ∧ ∀ p, p ∈ ps → ∃ BI, BIs !! p = Some BI ∧ bv_test n (LiveFIExit BI) = true.
Proof.
  revert acc. induction ps as [|p ps IH]; simpl; intros acc H.
  - injection H as <-. split; [|tauto]. intros ?. split; [done|]. by intros p ?%elem_of_nil.
  - destruct (BIs !! p) as [BI|] eqn:E; [|discriminate].
    rewrite (IH _ H), bv_test_and, andb_true_iff. split.
    + intros [[Ha Hb] Hps]. split; [done|].
      intros q [->|Hq]%elem_of_cons; [eauto|auto].
    + intros [Ha Hps]. split; [split; [done|]|].
      * destruct (Hps p (list_elem_of_here _ _)) as (BI' & HBI' & Ht). congruence.
      * intros q Hq. by apply Hps, list_elem_of_further.
Qed.

(** The join is the intersection of the exit sets of the predecessors; a
    block without predecessors starts with no known value. *)
Lemma liveIn_test BIs MBB livein n :
  liveIn NumFIs BIs MBB = Ok livein →
  bv_test n livein = true ↔
    n < NumFIs ∧ predecessors MBB ≠ []
    ∧ ∀ p, p ∈ predecessors MBB →
        ∃ BI, BIs !! p = Some BI ∧ bv_test n (LiveFIExit BI) = true.
Proof.
  unfold liveIn. destruct (predecessors MBB) as [|p ps] eqn:E.
  - simpl. intros [= <-]. rewrite bv_test_replicate. split; [by intros [_ ?]|].
    by intros (_ & ? & _).
  - cbn [length Nat.ltb Nat.leb]. intros H.
    rewrite (joinPreds_test _ _ _ _ n H), bv_test_replicate. split.
    + intros [[? _] ?]. done.
    + intros (? & _ & ?). done.
Qed.

(** What the analysis has computed when it returns: a solution of its
    equations at every block of the traversal, and the marks that go with
    it. *)
Lemma findRedundantLoads_fixed_point fuel BIs0 R0 R1 BIs :
  findRedundantLoads MF TgtReg NumFIs OffsetFIs RPOT fuel BIs0 R0 = Some (Ok (R1, BIs)) →
  (∀ b, b ∈ RPOT →
     ∃ MBB BI, MF !! b = Some MBB ∧ BIs !! b = Some BI
       ∧ (∀ n, bv_test n (LiveFIEntry BI) = true ↔
            n < NumFIs ∧ predecessors MBB ≠ []
            ∧ ∀ p, p ∈ predecessors MBB →
                ∃ BIp, BIs !! p = Some BIp ∧ bv_test n (LiveFIExit BIp) = true)
       ∧ liveThrough (instrs MBB) (LiveFIEntry BI) = Ok (LiveFIExit BI))
  ∧ (∀ b k, (b, k) ∈ R1 ↔
       (b, k) ∈ R0
       ∨ (b ∈ RPOT
          ∧ ∃ MBB BI MI fi n bv,
              MF !! b = Some MBB ∧ BIs !! b = Some BI
              ∧ instrs MBB !! k = Some MI
              ∧ isUncondLoad TgtReg MI = Some fi
              ∧ normalizeFI NumFIs OffsetFIs fi = Ok n
              ∧ liveThrough (take k (instrs MBB)) (LiveFIEntry BI) = Ok bv
              ∧ bv_test n bv = true)).
Proof.
  unfold findRedundantLoads.
  destruct (iterate _ _ _ _ _ _ _) as [r|] eqn:Eit; [|discriminate].
  intros [= H]. apply bind_Ok in H as (st & -> & H).
  apply bind_Ok in H as (R & HR & [= <- <-]).
  destruct (iterate_fixed_point _ _ _ Eit) as [Hsolves Hcoll].
  { simpl. intros r. rewrite lookup_empty. by intros [? [=]]. }
  split.
  - intros b Hb. destruct (Hsolves b Hb) as (MBB & BI & H1 & H2 & H3 & H4).
    exists MBB, BI. split; [done|]. split; [done|]. split; [|done].
    intros n. by apply liveIn_test.
  - intros b k. rewrite (markLoads_Ok _ _ _ HR (b, k)). split.
    + intros [?|(bv & Hbv & MI & fi & n & HMI & Hfi & Hn & Ht)]; [by left|right].
      apply Hcoll in Hbv as [[Hb _] (MBB & BI & H1 & H2 & H3)]. simpl in *.
      split; [done|]. exists MBB, BI, MI, fi, n, bv.
      unfold instrAt in HMI. simpl in HMI. rewrite H1 in HMI. simpl in HMI. done.
    + intros [?|(Hb & MBB & BI & MI & fi & n & bv & H1 & H2 & H3 & H4 & H5 & H6 & H7)];
        [by left|right].
      assert (instrAt MF (b, k) = Some MI) as HMI.
      { unfold instrAt. simpl. by rewrite H1. }
      exists bv. split.
      * apply Hcoll. split.
        -- split; [done|]. exists MI. split; [done|]. by rewrite H4.
        -- by exists MBB, BI.
      * by exists MI, fi, n.
Qed.

(** *** Termination of the iteration

    The analysis starts from empty sets and its equations are monotone, so
    every visit can only add slots to the sets of a block.  The number of
    slots in all sets together is bounded, and a sweep that reports a change
    has added at least one. *)

Definition bv_le (a b : BitVector) : Prop :=
  Forall2 (fun x y : bool => x = true → y = true) a b.

Definition bi_le (BI BI' : Blockinfo) : Prop :=
  bv_le (LiveFIEntry BI) (LiveFIEntry BI') ∧ bv_le (LiveFIExit BI) (LiveFIExit BI').

Definition bis_le (BIs BIs' : list Blockinfo) : Prop := Forall2 bi_le BIs BIs'.

Definition count (bv : BitVector) : nat := length (filter (fun x => x = true) bv).

Fixpoint weight (BIs : list Blockinfo) : nat :=
  match BIs with
  | [] => 0
  | BI :: BIs' => count (LiveFIEntry BI) + count (LiveFIExit BI) + weight BIs'
  end.

Definition sized (BIs : list Blockinfo) : Prop :=
  Forall (fun BI => length (LiveFIEntry BI) = NumFIs ∧ length (LiveFIExit BI) = NumFIs) BIs.

Lemma bv_le_refl a : bv_le a a.
Proof. induction a; constructor; auto. Qed.

Lemma bv_le_trans a b c : bv_le a b → bv_le b c → bv_le a c.
Proof.
  intros H1 H2. eapply Forall2_trans; [|exact H1|exact H2]. simpl. auto.
Qed.

Lemma bi_le_refl BI : bi_le BI BI.
Proof. split; apply bv_le_refl. Qed.

Lemma bis_le_refl BIs : bis_le BIs BIs.
Proof. induction BIs; constructor; auto using bi_le_refl. Qed.

Lemma bv_le_count a b : bv_le a b → count a ≤ count b ∧ (a ≠ b → count a < count b).
Proof.
  unfold count. induction 1 as [|x y a b Hxy _ [IH1 IH2]]; simpl.
  - split; [done|]. by intros [].
  - destruct x, y; simpl; rewrite ?filter_cons_True, ?filter_cons_False by done; simpl.
    + split; [lia|]. intros Hne. assert (a ≠ b) as Hab by congruence.
      specialize (IH2 Hab). lia.
    + by specialize (Hxy eq_refl).
    + split; lia.
    + split; [lia|]. intros Hne. assert (a ≠ b) as Hab by congruence.
      specialize (IH2 Hab). lia.
Qed.

Lemma count_le_length bv : count bv ≤ length bv.
Proof. unfold count. apply length_filter. Qed.

Lemma bv_le_and a a' b b' : bv_le a a' → bv_le b b' → bv_le (bv_and a b) (bv_and a' b').
Proof.
  unfold bv_and. intros Ha. revert b b'.
  induction Ha as [|x x' a a' Hx _ IH]; intros b b' Hb; [constructor|].
  destruct Hb as [|y y' b b' Hy Hb]; simpl; [constructor|].
  constructor; [|by apply IH].
  intros [Hx1 Hy1]%andb_true_iff. by rewrite Hx, Hy.
Qed.

Lemma bis_le_lookup BIs BIs' p BI :
  bis_le BIs BIs' → BIs !! p = Some BI → ∃ BI', BIs' !! p = Some BI' ∧ bi_le BI BI'.
Proof. intros H Hp. by eapply Forall2_lookup_l. Qed.

Lemma bis_le_lookup_r BIs BIs' p BI' :
  bis_le BIs BIs' → BIs' !! p = Some BI' → ∃ BI, BIs !! p = Some BI ∧ bi_le BI BI'.
Proof. intros H Hp. by eapply Forall2_lookup_r. Qed.

Lemma joinPreds_mono BIs BIs' ps acc acc' r r' :
  bis_le BIs BIs' → bv_le acc acc' →
  joinPreds BIs ps acc = Ok r → joinPreds BIs' ps acc' = Ok r' → bv_le r r'.
Proof.
  intros Hle. revert acc acc'. induction ps as [|p ps IH]; simpl; intros acc acc' Hacc H H'.
  - congruence.
  - destruct (BIs !! p) as [BI|] eqn:E; [|discriminate].
    destruct (bis_le_lookup _ _ _ _ Hle E) as (BI' & E' & _ & Hexit).
    rewrite E' in H'. eapply IH; [|done|done]. by apply bv_le_and.
Qed.

Lemma joinPreds_success BIs BIs' ps acc acc' r' :
  bis_le BIs BIs' → joinPreds BIs' ps acc' = Ok r' → ∃ r, joinPreds BIs ps acc = Ok r.
Proof.
  intros Hle. revert acc acc'. induction ps as [|p ps IH]; simpl; intros acc acc' H'.
  - eauto.
  - destruct (BIs' !! p) as [BI'|] eqn:E'; [|discriminate].
    destruct (bis_le_lookup_r _ _ _ _ Hle E') as (BI & -> & _). eauto.
Qed.

Lemma liveIn_mono BIs BIs' MBB r r' :
  bis_le BIs BIs' →
  liveIn NumFIs BIs MBB = Ok r → liveIn NumFIs BIs' MBB = Ok r' → bv_le r r'.
Proof.
  unfold liveIn. intros Hle. destruct (0 <? length (predecessors MBB)).
  - apply joinPreds_mono; [done|apply bv_le_refl].
  - intros [= <-] [= <-]. apply bv_le_refl.
Qed.

Lemma liveIn_success BIs BIs' MBB r' :
  bis_le BIs BIs' → liveIn NumFIs BIs' MBB = Ok r' → ∃ r, liveIn NumFIs BIs MBB = Ok r.
Proof.
  unfold liveIn. intros Hle. destruct (0 <? length (predecessors MBB)); [|eauto].
  by apply joinPreds_success.
Qed.

Lemma liveThrough_mono mis a a' o o' :
  bv_le a a' → liveThrough mis a = Ok o → liveThrough mis a' = Ok o' → bv_le o o'.
Proof.
  revert a a'. induction mis as [|MI mis IH]; simpl; intros a a' Ha H H'.
  - congruence.
  - destruct (isUncondLoad TgtReg MI) as [fi|]; [|eauto].
    apply bind_Ok in H as (n & Hn & H). apply bind_Ok in H' as (n' & Hn' & H').
    assert (n' = n) as -> by congruence. eapply IH; [apply bv_le_refl|done|done].
Qed.

Lemma liveThrough_success mis a a' o' :
  liveThrough mis a' = Ok o' → ∃ o, liveThrough mis a = Ok o.
Proof.
  revert a a'. induction mis as [|MI mis IH]; simpl; intros a a' H'.
  - eauto.
  - destruct (isUncondLoad TgtReg MI) as [fi|]; [|eauto].
    apply bind_Ok in H' as (n' & Hn' & H'). rewrite Hn'. simpl. eauto.
Qed.

Lemma joinPreds_length BIs ps acc r :
  sized BIs → length acc = NumFIs → joinPreds BIs ps acc = Ok r → length r = NumFIs.
Proof.
  intros Hs. revert acc. induction ps as [|p ps IH]; simpl; intros acc Hacc H.
  - congruence.
  - destruct (BIs !! p) as [BI|] eqn:E; [|discriminate].
    apply (IH (bv_and acc (LiveFIExit BI))); [|done].
    unfold bv_and. rewrite length_zip_with.
    destruct (Forall_lookup_1 _ _ _ _ Hs E) as [_ ->]. lia.
Qed.

Lemma liveIn_length BIs MBB r :
  sized BIs → liveIn NumFIs BIs MBB = Ok r → length r = NumFIs.
Proof.
  unfold liveIn. intros Hs. destruct (0 <? length (predecessors MBB)).
  - apply joinPreds_length; [done|apply length_replicate].
  - intros [= <-]. apply length_replicate.
Qed.

Lemma liveThrough_length mis a o :
  length a = NumFIs → liveThrough mis a = Ok o → length o = NumFIs.
Proof.
  revert a. induction mis as [|MI mis IH]; simpl; intros a Ha H.
  - congruence.
  - destruct (isUncondLoad TgtReg MI) as [fi|]; [|eauto].
    apply bind_Ok in H as (n & Hn & H).
    apply (IH (bv_set n (replicate NumFIs false))); [|done].
    unfold bv_set. by rewrite length_insert, length_replicate.
Qed.

(** The sets of every block are below what a visit of the block computes. *)
Definition inflationary (BIs : list Blockinfo) : Prop :=
  ∀ b MBB BI livein out,
    MF !! b = Some MBB → BIs !! b = Some BI →
    liveIn NumFIs BIs MBB = Ok livein → liveThrough (instrs MBB) livein = Ok out →
    bv_le (LiveFIEntry BI) livein ∧ bv_le (LiveFIExit BI) out.

Lemma bis_le_insert BIs b BI BI' :
  BIs !! b = Some BI → bi_le BI BI' → bis_le BIs (<[b := BI']> BIs).
Proof.
  revert b. induction BIs as [|X BIs IH]; intros b Hb Hle; [by rewrite lookup_nil in Hb|].
  destruct b as [|b]; simpl in *.
  - injection Hb as ->. constructor; [done|apply bis_le_refl].
  - constructor; [apply bi_le_refl|by apply IH].
Qed.

Lemma weight_insert BIs b BI BI' :
  BIs !! b = Some BI → bi_le BI BI' →
  weight BIs ≤ weight (<[b := BI']> BIs)
  ∧ (BI ≠ BI' → weight BIs < weight (<[b := BI']> BIs)).
Proof.
  revert b. induction BIs as [|X BIs IH]; intros b Hb Hle;
    [by rewrite lookup_nil in Hb|].
  destruct b as [|b]; simpl in *.
  - injection Hb as ->. destruct Hle as [He Hx].
    destruct (bv_le_count _ _ He) as [He1 He2]. destruct (bv_le_count _ _ Hx) as [Hx1 Hx2].
    split; [lia|]. intros Hne.
    destruct (decide (LiveFIEntry BI = LiveFIEntry BI')) as [Heq|Hneq].
    + assert (LiveFIExit BI ≠ LiveFIExit BI') as Hneq.
      { intros Heq'. apply Hne. destruct BI, BI'; simpl in *; congruence. }
      specialize (Hx2 Hneq). lia.
    + specialize (He2 Hneq). lia.
  - destruct (IH b Hb Hle) as [H1 H2]. split; [lia|]. intros Hne. specialize (H2 Hne). lia.
Qed.

Lemma weight_bound BIs : sized BIs → weight BIs ≤ 2 * NumFIs * length BIs.
Proof.
  induction 1 as [|BI BIs [He Hx] _ IH]; simpl; [lia|].
  pose proof (count_le_length (LiveFIEntry BI)).
  pose proof (count_le_length (LiveFIExit BI)). lia.
Qed.

(** One visit keeps the sets growing. *)
Lemma visitBlock_grows b st st' :
  visitBlock MF TgtReg NumFIs OffsetFIs b st = Ok st' →
  sized (BlockInfos st) → inflationary (BlockInfos st) →
  sized (BlockInfos st') ∧ inflationary (BlockInfos st')
  ∧ length (BlockInfos st') = length (BlockInfos st)
  ∧ weight (BlockInfos st) ≤ weight (BlockInfos st')
  ∧ (changed st' = true →
       changed st = true ∨ weight (BlockInfos st) < weight (BlockInfos st')).
Proof.
  unfold visitBlock. intros H Hsized Hinf.
  destruct (MF !! b) as [MBB|] eqn:EMBB; [|discriminate].
  destruct (BlockInfos st !! b) as [BI|] eqn:EBI; [|discriminate].
  apply bind_Ok in H as (livein & Hlivein & H).
  assert (∃ coll livefi BI2,
            transfer TgtReg NumFIs OffsetFIs b 0 (instrs MBB) (collected st) livein
              = Ok (coll, livefi)
            ∧ BI2 = mkBI livefi livein
            ∧ BlockInfos st' = <[b := BI2]> (BlockInfos st)
            ∧ (changed st' = true → changed st = true ∨ BI ≠ BI2))
    as (coll & livefi & BI2 & Ht & HBI2 & HB & Hch).
  { assert (∀ a b : BitVector, negb (bv_eqb a b) = true → a ≠ b) as Hdiff.
    { intros a c Hn ->. unfold bv_eqb in Hn. by rewrite bool_decide_eq_true_2 in Hn. }
    destruct (negb (bv_eqb (LiveFIEntry BI) livein)) eqn:E1;
      apply bind_Ok in H as ([coll livefi] & Ht & H); simpl in H;
      destruct (negb (bv_eqb _ livefi)) eqn:E2; injection H as <-; simpl;
      exists coll, livefi, (mkBI livefi livein); (split; [done|]); (split; [done|]).
    - split; [done|]. intros _. right. intros Heq. apply (Hdiff _ _ E1). by rewrite Heq.
    - apply bv_eqb_true in E2. simpl in E2. subst livefi.
      split; [done|]. intros _. right. intros Heq. apply (Hdiff _ _ E1). by rewrite Heq.
    - apply bv_eqb_true in E1. subst livein.
      split; [done|]. intros _. right. intros Heq. apply (Hdiff _ _ E2). by rewrite Heq.
    - apply bv_eqb_true in E1. apply bv_eqb_true in E2. subst livein livefi.
      split; [by destruct BI|]. intros Hc. by left. }
  clear H. destruct (transfer_spec _ _ _ _ _ _ _ Ht) as (Hout & _ & _).
  destruct (Hinf _ _ _ _ _ EMBB EBI Hlivein Hout) as [Hle_e Hle_x].
  assert (bi_le BI BI2) as Hle by (subst BI2; by split).
  assert (bis_le (BlockInfos st) (BlockInfos st')) as Hbis
    by (rewrite HB; by apply (bis_le_insert _ _ BI)).
  assert (length livein = NumFIs) as Hlen_in by (by eapply liveIn_length).
  assert (length livefi = NumFIs) as Hlen_out by (by eapply liveThrough_length).
  destruct (weight_insert _ _ _ _ EBI Hle) as [Hw1 Hw2]. rewrite <- HB in Hw1, Hw2.
  split; [|split; [|split; [|split]]].
  - rewrite HB. apply Forall_insert; [done|]. by subst BI2.
  - intros b' MBB' BI' livein' out' HMBB' HBI' Hin' Hout'.
    destruct (liveIn_success _ _ _ _ Hbis Hin') as (livein0 & Hin0).
    destruct (liveThrough_success _ livein0 _ _ Hout') as (out0 & Hout0).
    pose proof (liveIn_mono _ _ _ _ _ Hbis Hin0 Hin') as Hm_in.
    pose proof (liveThrough_mono _ _ _ _ _ Hm_in Hout0 Hout') as Hm_out.
    rewrite HB in HBI'. destruct (decide (b' = b)) as [->|Hne].
    + rewrite list_lookup_insert_eq in HBI' by (by eapply lookup_lt_Some).
      injection HBI' as <-. subst BI2. simpl.
      assert (MBB' = MBB) as -> by congruence.
      assert (livein0 = livein) as -> by congruence.
      assert (out0 = livefi) as -> by congruence. done.
    + rewrite list_lookup_insert_ne in HBI' by done.
      destruct (Hinf _ _ _ _ _ HMBB' HBI' Hin0 Hout0) as [H1 H2].
      split; eapply bv_le_trans; eauto.
  - by rewrite HB, length_insert.
  - done.
  - intros Hc. destruct (Hch Hc) as [?|Hne]; [by left|right; auto].
Qed.

Lemma sweep_grows bs st st' :
  sweep MF TgtReg NumFIs OffsetFIs bs st = Ok st' →
  sized (BlockInfos st) → inflationary (BlockInfos st) →
  sized (BlockInfos st') ∧ inflationary (BlockInfos st')
  ∧ length (BlockInfos st') = length (BlockInfos st)
  ∧ weight (BlockInfos st) ≤ weight (BlockInfos st')
  ∧ (changed st' = true →
       changed st = true ∨ weight (BlockInfos st) < weight (BlockInfos st')).
Proof.
  revert st. induction bs as [|b bs IH]; simpl; intros st H Hs Hi.
  - injection H as <-. split; [done|]. split; [done|]. split; [done|]. split; [done|].
    by left.
  - apply bind_Ok in H as (st1 & H1 & H).
    destruct (visitBlock_grows _ _ _ H1 Hs Hi) as (Hs1 & Hi1 & Hl1 & Hw1 & Hc1).
    destruct (IH _ H Hs1 Hi1) as (Hs2 & Hi2 & Hl2 & Hw2 & Hc2).
    split; [done|]. split; [done|]. split; [congruence|]. split; [lia|].
    intros Hc. destruct (Hc2 Hc) as [Hc'|?]; [|right; lia].
    destruct (Hc1 Hc') as [?|?]; [by left|right; lia].
Qed.

(** The loop ends: with enough fuel [iterate] returns. *)
Lemma iterate_terminates fuel st :
  sized (BlockInfos st) → inflationary (BlockInfos st) →
  2 * NumFIs * length (BlockInfos st) < weight (BlockInfos st) + fuel →
  is_Some (iterate MF TgtReg NumFIs OffsetFIs RPOT fuel st).
Proof.
  revert st. induction fuel as [|fuel IH]; intros st Hs Hi Hfuel.
  - pose proof (weight_bound _ Hs). lia.
  - simpl. destruct (sweep _ _ _ _ _ _) as [st1| |] eqn:Esw; [|eauto..].
    destruct (sweep_grows _ _ _ Esw Hs Hi) as (Hs1 & Hi1 & Hl1 & Hw1 & Hc1).
    simpl in *. destruct (changed st1) eqn:Ec; [|eauto].
    apply IH; [done|done|]. destruct (Hc1 eq_refl) as [?|?]; [done|]. rewrite Hl1. lia.
Qed.

Lemma sized_initial n : sized (replicate n (newBlockinfo NumFIs)).
Proof.
  apply Forall_replicate. simpl. by rewrite length_replicate.
Qed.

Lemma bv_le_bottom a : length a = NumFIs → bv_le (replicate NumFIs false) a.
Proof.
  intros <-. induction a; simpl; constructor; [done|auto].
Qed.

Lemma inflationary_initial n : inflationary (replicate n (newBlockinfo NumFIs)).
Proof.
  intros b MBB BI livein out _ HBI Hin Hout.
  apply lookup_replicate in HBI as [-> _]. simpl.
  assert (length livein = NumFIs) as Hl by (eapply liveIn_length; [apply sized_initial|done]).
  split; apply bv_le_bottom; [done|by eapply liveThrough_length].
Qed.

Lemma initial_blockinfos :
  map (fun _ => newBlockinfo NumFIs) MF = replicate (length MF) (newBlockinfo NumFIs).
Proof. induction MF as [|MBB F IH]; simpl; [done|by f_equal]. Qed.


End EliminatorFacts.

(* --------------------------------------------------------------------- *)
(** *** Concrete functions *)

Definition loadSlot (fi : Z) : MachineInstr :=
  mkMI LWC [MO_Reg R26; MO_Reg NoRegister; MO_Imm 0; MO_FI fi; MO_Imm 0].
Definition storeSlot (fi : Z) : MachineInstr :=
  mkMI SWC [MO_Reg NoRegister; MO_Imm 0; MO_FI fi; MO_Imm 0; MO_Reg R26].

(** Two blocks in a row, each loading slot 0. *)
Definition twoBlocks : MachineFunction :=
  [ mkMBB [loadSlot 0] [] [1]; mkMBB [loadSlot 0] [0] [] ].

(** One block: load, store, load of slot 0. *)
Definition loadStoreLoad : MachineFunction :=
  [ mkMBB [loadSlot 0; storeSlot 0; loadSlot 0] [] [] ].

(** The join in the words of the claim: the intersection of the sets of
    the successors, for either of the two sets a block has. *)
Definition joinOverSuccessors (sel : Blockinfo → BitVector) (NumFIs : nat)
    (BIs : list Blockinfo) (MBB : MachineBasicBlock) (n : nat) : Prop :=
  n < NumFIs ∧ successors MBB ≠ []
  ∧ ∀ s, s ∈ successors MBB → ∃ BI, BIs !! s = Some BI ∧ bv_test n (sel BI) = true.

Definition entryIsJoinOverSuccessors (sel : Blockinfo → BitVector) : Prop :=
  ∀ MF TgtReg NumFIs OffsetFIs RPOT fuel R0 R1 BIs,
    findRedundantLoads MF TgtReg NumFIs OffsetFIs RPOT fuel
      (map (fun _ => newBlockinfo NumFIs) MF) R0 = Some (Ok (R1, BIs)) →
    ∀ b MBB BI n, b ∈ RPOT → MF !! b = Some MBB → BIs !! b = Some BI →
      bv_test n (LiveFIEntry BI) = true ↔ joinOverSuccessors sel NumFIs BIs MBB n.



Lemma C7_witness :
  ∃ cnt F' Removed,
    process loadStoreLoad R26 1 0 [0] 3 ∅ = Some (Ok (cnt, F'))
    ∧ F' = imap (eraseFrom Removed) loadStoreLoad
    ∧ ((0, 1) ∉ Removed)
    ∧ ∃ MBB', F' !! 0 = Some MBB' ∧ storeSlot 0 ∈ instrs MBB'.
Proof.
  destruct (process loadStoreLoad R26 1 0 [0] 3 ∅) as [[[cnt F']| |]|] eqn:E;
    [|vm_compute in E; discriminate..].
  destruct (C7_process_keeps_stores loadStoreLoad R26 1 0 [0] 3 ∅ cnt F' E)
    as (Removed & HF & _ & Hstore).
  exists cnt, F', Removed. split; [reflexivity|]. split; [exact HF|].
  apply (Hstore 0 1 (mkMBB [loadSlot 0; storeSlot 0; loadSlot 0] [] []) (storeSlot 0));
    [reflexivity|reflexivity|reflexivity|apply not_elem_of_empty].
Defined.

(* ===================================================================== *)
(** ** Leaving a loop scope *)

(** The instructions and the successors of a block of the function. *)
Definition blk (m : gmap nat MachineBasicBlock) (x : nat)
    : option (list MachineInstr * list nat) :=
  (fun B => (instrs B, successors B)) <$> m !! x.

Lemma blk_addSuccessor a b m x :
  blk (addSuccessor a b m) x =
    if decide (x = a) then (fun p => (p.1, p.2 ++ [b])) <$> blk m x else blk m x.
Proof.
  unfold blk, addSuccessor.
  rewrite (lookup_alter _ _ b x).
  assert (∀ m' : gmap nat MachineBasicBlock,
            (fun B => (instrs B, successors B)) <$>
              (if decide (b = x)
               then (fun B => mkMBB (instrs B) (predecessors B ++ [a]) (successors B))
                      <$> m' !! b
               else m' !! x)
            = (fun B => (instrs B, successors B)) <$> m' !! x) as ->.
  { intros m'. destruct (decide (b = x)) as [->|]; [|done]. by destruct (m' !! x). }
  rewrite lookup_alter. destruct (decide (a = x)) as [->|Hne].
  - rewrite decide_True by done. by destruct (m !! x).
  - by rewrite decide_False by congruence.
Qed.

Lemma dom_addSuccessor a b m : dom (addSuccessor a b m) = dom m.
Proof. unfold addSuccessor. by rewrite !dom_alter_L. Qed.

Section LinearizeFacts.

Variable AvailPredRegs : list Reg.
Variable GuardsReg : Reg.
Variable PRTmp : Reg.
Variable defaultPred : list MachineOperand.
Variable getSinglePathLoopCntFI : Z → Z.
Variable getSinglePathS0SpillFI : Z → Z.
Variable getSinglePathExcessSpillFI : nat → Z.
Variable getS0Index : Reg → Z.
Variable copyPhysReg : Reg → Reg → bool → list MachineInstr.
Variable removeBranch : list MachineInstr → list MachineInstr.

(** A block without instructions has no branch to remove. *)
Hypothesis removeBranch_nil : removeBranch [] = [].

Lemma blk_emit y mis w x :
  blk (mbbs (emit y mis w)) x =
    if decide (x = y) then (fun p => (p.1 ++ mis, p.2)) <$> blk (mbbs w) x
    else blk (mbbs w) x.
Proof.
  unfold blk, emit. simpl. rewrite lookup_alter.
  destruct (decide (y = x)) as [Heq|Hne].
  - subst y. rewrite decide_True by done. by destruct (mbbs w !! x).
  - by rewrite decide_False by congruence.
Qed.

Lemma blk_createMBB w n w1 x :
  createMBB w = (n, w1) →
  n = fresh (dom (mbbs w)) ∧ (n ∉ dom (mbbs w))
  ∧ dom (mbbs w1) = {[ n ]} ∪ dom (mbbs w)
  ∧ LastMBB w1 = LastMBB w
  ∧ blk (mbbs w1) x = if decide (x = n) then Some ([], []) else blk (mbbs w) x.
Proof.
  unfold createMBB. intros [= <- <-]. simpl.
  split; [done|]. split; [apply is_fresh|]. split; [by rewrite dom_insert_L|].
  split; [done|]. unfold blk. rewrite lookup_insert.
  destruct (decide (fresh (dom (mbbs w)) = x)) as [<-|Hne].
  - by rewrite decide_True.
  - by rewrite decide_False by congruence.
Qed.

(** [nextMBB] on a block that has no successors yet. *)
Lemma blk_nextMBB MBB w mis x :
  blk (mbbs w) MBB = Some (mis, []) →
  (∀ last, LastMBB w = Some last → last ≠ MBB) →
  LastMBB (nextMBB removeBranch MBB w) = Some MBB
  ∧ dom (mbbs (nextMBB removeBranch MBB w)) = dom (mbbs w)
  ∧ blk (mbbs (nextMBB removeBranch MBB w)) x =
      if decide (x = MBB) then Some (removeBranch mis, [])
      else if decide (Some x = LastMBB w)
           then (fun p => (p.1, p.2 ++ [MBB])) <$> blk (mbbs w) x
           else blk (mbbs w) x.
Proof.
  intros HMBB Hlast. unfold nextMBB.
  assert (default [] (successors <$> mbbs w !! MBB) = []) as ->.
  { unfold blk in HMBB. destruct (mbbs w !! MBB) as [B|]; simpl in *; [|done].
    by injection HMBB as _ ->. }
  simpl.
  assert (∀ y, blk (alter (fun B => mkMBB (removeBranch (instrs B)) (predecessors B)
                                          (successors B)) MBB (mbbs w)) y
               = if decide (y = MBB) then Some (removeBranch mis, []) else blk (mbbs w) y)
    as Hm2.
  { intros y. unfold blk in *. rewrite lookup_alter.
    destruct (decide (MBB = y)) as [<-|Hne].
    - rewrite decide_True by done. destruct (mbbs w !! MBB) as [B|]; simpl in *; [|done].
      by injection HMBB as -> ->.
    - by rewrite decide_False by congruence. }
  destruct (LastMBB w) as [last|] eqn:El; simpl.
  - specialize (Hlast last eq_refl).
    split; [done|]. split; [by rewrite dom_addSuccessor, dom_alter_L|].
    rewrite blk_addSuccessor, Hm2.
    destruct (decide (x = MBB)) as [->|Hx].
    + destruct (decide (MBB = last)) as [Heq|_]; [by subst|done].
    + destruct (decide (x = last)) as [->|Hxl].
      * by rewrite decide_True.
      * by rewrite decide_False by congruence.
  - split; [done|]. split; [by rewrite dom_alter_L|]. rewrite Hm2.
    destruct (decide (x = MBB)); done.
Qed.

(** The loads of the header predicates, instruction by instruction. *)
Lemma headerLoads_spec predRegs l loads :
  headerLoads GuardsReg defaultPred getSinglePathExcessSpillFI predRegs l = Ok loads →
  loads = flat_map
            (fun pl =>
               match predRegs !! pl.1 with
               | Some r =>
                   [ mkMI LWC ([MO_Reg GuardsReg] ++ defaultPred
                               ++ [MO_FI (getSinglePathExcessSpillFI (pl.2 / 32)); MO_Imm 0]);
                     mkMI BTESTI ([MO_Reg r] ++ defaultPred
                                  ++ [MO_Reg GuardsReg; MO_Imm (Z.of_nat (pl.2 mod 32))]) ]
               | None => []
               end) l
  ∧ ∀ pl, pl ∈ l → is_Some (predRegs !! pl.1).
Proof.
  revert loads. induction l as [|[pred loc] l IH]; simpl; intros loads H.
  - injection H as <-. split; [done|]. intros pl Hpl. by apply elem_of_nil in Hpl.
  - destruct (predRegs !! pred) as [r|] eqn:Er; [|discriminate].
    apply bind_Ok in H as (mis & Hmis & [= <-]).
    destruct (IH mis Hmis) as [-> Hall]. split; [done|].
    intros pl [->|Hpl]%elem_of_cons; [simpl; by rewrite Er|by apply Hall].
Qed.

(** C8.  Leaving a loop scope that is not top-level appends a back-edge
    block: after the loads of the header predicates that have a load
    location (for each one the load of its stack slot and the test of its
    bit into the predicate's register), it loads the loop counter from the slot of the scope's depth, decrements it by one,
    compares it with zero into the branch predicate, stores it back to the
    same slot, and branches on that predicate, which is a register, to the
    loop header, which is a successor of the block.  A post-loop block is
    appended after it exactly when the scope needs a scope spill; otherwise
    the back-edge block is the only new block.  The post-loop block holds
    what [removeBranch] leaves of the restoring code: the load of the slot
    that holds the spilled predicate registers for the scope's depth, one bit
    copy for each live-out predicate register, and the copy of the loaded
    value to S0.  When [removeBranch] takes nothing from code that does not
    end with a branch, and the register copy ends with an instruction that is
    no branch, the block holds exactly this code. *)
Theorem C8_back_edge_block Sc RI succLiveIn UnavailPredRegs w w' :
  isTopLevel Sc = false →
  (∀ last, LastMBB w = Some last → last ∈ dom (mbbs w)) →
  exitSubscope AvailPredRegs GuardsReg PRTmp defaultPred getSinglePathLoopCntFI
    getSinglePathS0SpillFI getSinglePathExcessSpillFI getS0Index copyPhysReg removeBranch
    Sc RI succLiveIn UnavailPredRegs w = Ok w' →
  let BranchMBB := fresh (dom (mbbs w)) in
  let HeaderMBB := getMBB (getHeader Sc) in
  let fi := getSinglePathLoopCntFI ((Z.of_nat (getDepth Sc) - 1) mod 2 ^ 32)%Z in
  let backEdge :=
    [ mkMI LWC ([MO_Reg GuardsReg] ++ defaultPred ++ [MO_FI fi; MO_Imm 0]);
      mkMI SUBi ([MO_Reg GuardsReg] ++ defaultPred ++ [MO_Reg GuardsReg; MO_Imm 1]);
      mkMI CMPLT ([MO_Reg PRTmp] ++ defaultPred ++ [MO_Reg R0; MO_Reg GuardsReg]);
      mkMI SWC ([] ++ defaultPred ++ [MO_FI fi; MO_Imm 0; MO_Reg GuardsReg]);
      mkMI BR [MO_Reg PRTmp; MO_Imm 0; MO_MBB HeaderMBB] ] in
  let spillFI := getSinglePathS0SpillFI ((Z.of_nat (getDepth Sc) - 1) mod 2 ^ 32)%Z in
  let restore :=
    [ mkMI LBC ([MO_Reg GuardsReg] ++ defaultPred ++ [MO_FI spillFI; MO_Imm 0]) ]
    ++ map (fun r => mkMI BCOPY ([MO_Reg GuardsReg] ++ defaultPred
                                 ++ [MO_Reg GuardsReg; MO_Imm (getS0Index r);
                                     MO_Reg r; MO_Imm 0]))
           (getLoopLiveOutPRegs succLiveIn UnavailPredRegs)
    ++ copyPhysReg S0 GuardsReg true in
  let PostMBB := fresh ({[ BranchMBB ]} ∪ dom (mbbs w)) in
  ∃ predRegs loads,
    getPredicateRegisters AvailPredRegs RI (getHeader Sc) = Ok predRegs
    ∧ headerLoads GuardsReg defaultPred getSinglePathExcessSpillFI predRegs
        (bindings (getLoadLocs RI HeaderMBB)) = Ok loads
    ∧ loads = flat_map
                (fun pl =>
                   match predRegs !! pl.1 with
                   | Some r =>
                       [ mkMI LWC ([MO_Reg GuardsReg] ++ defaultPred
                                   ++ [MO_FI (getSinglePathExcessSpillFI (pl.2 / 32));
                                       MO_Imm 0]);
                         mkMI BTESTI ([MO_Reg r] ++ defaultPred
                                      ++ [MO_Reg GuardsReg;
                                          MO_Imm (Z.of_nat (pl.2 mod 32))]) ]
                   | None => []
                   end) (bindings (getLoadLocs RI HeaderMBB))
    ∧ (∀ pl, pl ∈ bindings (getLoadLocs RI HeaderMBB) → is_Some (predRegs !! pl.1))
    ∧ hasLoopBound Sc = true
    ∧ PRTmp ≠ NoRegister
    ∧ (BranchMBB ∉ dom (mbbs w))
    ∧ if needsScopeSpill RI then
        (PostMBB ∉ dom (mbbs w)) ∧ PostMBB ≠ BranchMBB
        ∧ dom (mbbs w') = {[ PostMBB ]} ∪ ({[ BranchMBB ]} ∪ dom (mbbs w))
        ∧ blk (mbbs w') BranchMBB = Some (loads ++ backEdge, [HeaderMBB; PostMBB])
        ∧ blk (mbbs w') PostMBB = Some (removeBranch restore, [])
        ∧ (∀ isBranch : MachineInstr → bool,
             (∀ mis mi, isBranch mi = false → removeBranch (mis ++ [mi]) = mis ++ [mi]) →
             (∃ mis mi, copyPhysReg S0 GuardsReg true = mis ++ [mi]
                        ∧ isBranch mi = false) →
             blk (mbbs w') PostMBB = Some (restore, []))
        ∧ LastMBB w' = Some PostMBB
      else
        dom (mbbs w') = {[ BranchMBB ]} ∪ dom (mbbs w)
        ∧ blk (mbbs w') BranchMBB = Some (loads ++ backEdge, [HeaderMBB])
        ∧ LastMBB w' = Some BranchMBB.
Proof using removeBranch_nil.
  intros Htop Hwf H BranchMBB HeaderMBB fi backEdge spillFI restore PostMBB.
  unfold exitSubscope in H. rewrite Htop in H.
  cbv zeta in H. fold HeaderMBB in H.
  change (getSinglePathLoopCntFI (depthSlot Sc)) with fi in H.
  change (getSinglePathS0SpillFI (depthSlot Sc)) with spillFI in H.
  change (postLoop GuardsReg defaultPred getS0Index copyPhysReg spillFI
            (getLoopLiveOutPRegs succLiveIn UnavailPredRegs)) with restore in H.
  destruct (createMBB w) as [B0 w1] eqn:Ecreate.
  destruct (blk_createMBB _ _ _ B0 Ecreate) as (HB0 & Hfresh & Hdom1 & Hlast1 & Hblk1).
  rewrite decide_True in Hblk1 by done.
  assert (B0 = BranchMBB) as -> by done.
  assert (∀ last, LastMBB w1 = Some last → last ≠ BranchMBB) as Hlast_ne.
  { intros last Hl ->. rewrite Hlast1 in Hl. by apply Hfresh, Hwf. }
  destruct (blk_nextMBB BranchMBB w1 [] BranchMBB Hblk1 Hlast_ne) as (Hlast2 & Hdom2 & Hblk2).
  rewrite decide_True, removeBranch_nil in Hblk2 by done.
  set (w2 := nextMBB removeBranch BranchMBB w1) in *.
  apply bind_Ok in H as (predRegs & HpredRegs & H).
  apply bind_Ok in H as (loads & Hloads & H).
  apply assert_Ok in H as [_ H]. apply assert_Ok in H as [Hbound H].
  apply assert_Ok in H as [Hpreg H].
  apply negb_true_iff, bool_decide_eq_false in Hpreg.
  exists predRegs, loads.
  split; [done|]. split; [done|].
  split; [exact (proj1 (headerLoads_spec _ _ _ Hloads))|].
  split; [exact (proj2 (headerLoads_spec _ _ _ Hloads))|].
  split; [done|]. split; [done|]. split; [done|].
  set (w3 := emit BranchMBB loads w2) in *.
  set (w4 := emit BranchMBB (counterUpdate GuardsReg PRTmp defaultPred fi) w3) in *.
  set (w4' := emit BranchMBB [backBranch PRTmp HeaderMBB] w4) in *.
  set (w5 := mkWalker (addSuccessor BranchMBB HeaderMBB (mbbs w4')) (layout w4')
                      (LastMBB w4')) in *.
  assert (blk (mbbs w5) BranchMBB = Some (loads ++ backEdge, [HeaderMBB])) as Hblk5.
  { unfold w5. cbn [mbbs]. rewrite blk_addSuccessor, decide_True by done.
    unfold w4'. rewrite blk_emit, decide_True by done.
    unfold w4. rewrite blk_emit, decide_True by done.
    unfold w3. rewrite blk_emit, decide_True by done.
    rewrite Hblk2. simpl. by rewrite <- app_assoc. }
  assert (dom (mbbs w5) = {[ BranchMBB ]} ∪ dom (mbbs w)) as Hdom5.
  { unfold w5. cbn [mbbs]. rewrite dom_addSuccessor. unfold w4', w4, w3, emit. cbn [mbbs].
    by rewrite !dom_alter_L, Hdom2, Hdom1. }
  assert (LastMBB w5 = Some BranchMBB) as Hlast5 by done.
  destruct (needsScopeSpill RI).
  - destruct (createMBB w5) as [P0 w6] eqn:Ecreate6.
    injection H as <-.
    destruct (blk_createMBB _ _ _ P0 Ecreate6) as (HP0 & Hfresh6 & Hdom6 & Hlast6 & HblkP).
    assert (P0 = PostMBB) as -> by (by rewrite HP0, Hdom5).
    rewrite decide_True in HblkP by done.
    destruct (blk_createMBB _ _ _ BranchMBB Ecreate6) as (? & ? & ? & ? & HblkB).
    assert (PostMBB ≠ BranchMBB) as Hne.
    { intros ->. apply Hfresh6. rewrite Hdom5. by apply elem_of_union_l, elem_of_singleton_2. }
    rewrite decide_False in HblkB by done.
    set (w7 := emit PostMBB restore w6) in *.
    assert (blk (mbbs w7) PostMBB = Some (restore, [])) as HblkP7.
    { unfold w7. rewrite blk_emit, decide_True by done. by rewrite HblkP. }
    assert (LastMBB w7 = Some BranchMBB) as Hlast7 by (unfold w7; simpl; congruence).
    assert (∀ last, LastMBB w7 = Some last → last ≠ PostMBB) as Hlast7_ne.
    { intros last Hl. rewrite Hlast7 in Hl. injection Hl as <-. done. }
    destruct (blk_nextMBB PostMBB w7 restore PostMBB HblkP7 Hlast7_ne)
      as (HlastE & HdomE & HblkEP).
    destruct (blk_nextMBB PostMBB w7 restore BranchMBB HblkP7 Hlast7_ne) as (? & ? & HblkEB).
    rewrite decide_True in HblkEP by done.
    rewrite decide_False in HblkEB by done.
    rewrite Hlast7, decide_True in HblkEB by done.
    split; [|split; [done|split; [|split; [|split; [done|split; [|done]]]]]].
    + intros Hin. apply Hfresh6. rewrite Hdom5. by apply elem_of_union_r.
    + rewrite HdomE. unfold w7, emit. cbn [mbbs]. by rewrite dom_alter_L, Hdom6, Hdom5.
    + rewrite HblkEB. unfold w7. rewrite blk_emit, decide_False by done.
      rewrite HblkB, Hblk5. done.
    + intros isBranch Hhook (mis & mi & Hcopy & Hmi). rewrite HblkEP.
      unfold restore. rewrite Hcopy, !app_assoc. by rewrite (Hhook _ _ Hmi).
  - injection H as <-. done.
Qed.

End LinearizeFacts.

(* --------------------------------------------------------------------- *)
(** *** A concrete walk *)

Definition exWalker : Walker :=
  mkWalker (<[0 := emptyMBB]> (<[1 := emptyMBB]> (<[2 := emptyMBB]> ∅))) [0; 1; 2] (Some 2).

Definition exDefaultPred : list MachineOperand := [MO_Reg NoRegister; MO_Imm 0].

(** Hooks for the walk: a register copy of one instruction, and a
    [removeBranch] that takes the branches at the end of the code. *)
Definition exCopy (d s : Reg) (kill : bool) : list MachineInstr :=
  [mkMI (OtherOpcode 0) [MO_Reg d; MO_Reg s]].

Definition exIsBranch (mi : MachineInstr) : bool := bool_decide (getOpcode mi = BR).

Fixpoint exRemoveBranch (mis : list MachineInstr) : list MachineInstr :=
  match mis with
  | [] => []
  | mi :: rest =>
      match exRemoveBranch rest with
      | [] => if exIsBranch mi then [] else [mi]
      | rest' => mi :: rest'
      end
  end.

Lemma exRemoveBranch_keeps mis mi :
  exIsBranch mi = false → exRemoveBranch (mis ++ [mi]) = mis ++ [mi].
Proof.
  intros Hmi. induction mis as [|x mis IH]; simpl.
  - by rewrite Hmi.
  - rewrite IH. by destruct mis.
Qed.

Definition exExit (avail : nat) (regs : list Reg) : res Walker :=
  exitSubscope regs R26 (PRED 7) exDefaultPred (fun d => (d + 20)%Z) (fun d => (d + 10)%Z)
    Z.of_nat (fun _ => 5%Z) exCopy exRemoveBranch
    exLoop (exLoopRI avail) [fun r => bool_decide (r = PRED 5)] [PRED 5; PRED 6] exWalker.

Lemma C8_witness :
  isTopLevel exLoop = false
  ∧ needsScopeSpill (exLoopRI 1) = true
  ∧ ∃ w', exExit 1 [PRED 1] = Ok w'
      ∧ blk (mbbs w') 3
        = Some ([ mkMI LWC [MO_Reg R26; MO_Reg NoRegister; MO_Imm 0; MO_FI 0; MO_Imm 0];
                  mkMI BTESTI [MO_Reg (PRED 1); MO_Reg NoRegister; MO_Imm 0;
                               MO_Reg R26; MO_Imm 1];
                  mkMI LWC [MO_Reg R26; MO_Reg NoRegister; MO_Imm 0; MO_FI 20; MO_Imm 0];
                  mkMI SUBi [MO_Reg R26; MO_Reg NoRegister; MO_Imm 0; MO_Reg R26; MO_Imm 1];
                  mkMI CMPLT [MO_Reg (PRED 7); MO_Reg NoRegister; MO_Imm 0;
                              MO_Reg R0; MO_Reg R26];
                  mkMI SWC [MO_Reg NoRegister; MO_Imm 0; MO_FI 20; MO_Imm 0; MO_Reg R26];
                  mkMI BR [MO_Reg (PRED 7); MO_Imm 0; MO_MBB 1] ],
                [1; 4])
      ∧ blk (mbbs w') 4
        = Some ([ mkMI LBC [MO_Reg R26; MO_Reg NoRegister; MO_Imm 0; MO_FI 10; MO_Imm 0];
                  mkMI BCOPY [MO_Reg R26; MO_Reg NoRegister; MO_Imm 0; MO_Reg R26;
                              MO_Imm 5; MO_Reg (PRED 5); MO_Imm 0];
                  mkMI (OtherOpcode 0) [MO_Reg S0; MO_Reg R26] ],
                [])
      ∧ LastMBB w' = Some 4.
Proof.
  assert (needsScopeSpill (exLoopRI 1) = true) as Hns by (by vm_compute).
  split; [reflexivity|]. split; [exact Hns|].
  destruct (exExit 1 [PRED 1]) as [w'| |] eqn:E; [|vm_compute in E; discriminate..].
  exists w'. split; [reflexivity|].
  assert (∀ last, LastMBB exWalker = Some last → last ∈ dom (mbbs exWalker)) as Hwf.
  { intros last [= <-]. by vm_compute. }
  unfold exExit in E.
  pose proof (C8_back_edge_block [PRED 1] R26 (PRED 7) exDefaultPred
                (fun d => (d + 20)%Z) (fun d => (d + 10)%Z) Z.of_nat (fun _ => 5%Z)
                exCopy exRemoveBranch eq_refl exLoop (exLoopRI 1)
                [fun r => bool_decide (r = PRED 5)] [PRED 5; PRED 6] exWalker w'
                eq_refl Hwf E) as H.
  cbv zeta in H.
  destruct H as (predRegs & loads & HpredRegs & Hloads & _ & _ & _ & _ & _ & Hshape).
  rewrite Hns in Hshape. destruct Hshape as (_ & _ & _ & Hblk & _ & Hpost & Hlast).
  vm_compute in HpredRegs. injection HpredRegs as <-.
  vm_compute in Hloads. injection Hloads as <-.
  assert (fresh (dom (mbbs exWalker)) = 3) as Hfresh by (by vm_compute).
  rewrite Hfresh in Hblk, Hpost, Hlast.
  assert (fresh ({[ 3 ]} ∪ dom (mbbs exWalker)) = 4) as Hfresh' by (by vm_compute).
  rewrite Hfresh' in Hblk, Hpost, Hlast.
  split; [exact Hblk|]. split; [|exact Hlast].
  apply (Hpost exIsBranch exRemoveBranch_keeps).
  exists [], (mkMI (OtherOpcode 0) [MO_Reg S0; MO_Reg R26]).
  split; reflexivity.
Defined.

(* ===================================================================== *)
(* ===================================================================== *)
(** * Further properties

    The comparator and the live ranges of the allocator, the invariants of
    its scan, what a result of [computeRegAlloc] guarantees to the code that
    queries it, and the code of the reduction pass around the claims
    above. *)

(* ===================================================================== *)
(** ** The comparator of [sortFurthestNextUse] *)

Lemma nextUseBefore_irrefl us : nextUseBefore us us = false.
Proof. induction us as [|u us IH]; simpl; [done|]. by destruct u. Qed.

Lemma nextUseBefore_trans us vs ws :
  nextUseBefore us vs = true → nextUseBefore vs ws = true → nextUseBefore us ws = true.
Proof.
  revert vs ws. induction us as [|u us IH]; intros [|v vs] [|w ws]; simpl; try done.
  destruct v; [done|]. destruct w; [done|].
  destruct u; [done|]. apply IH.
Qed.

Lemma nextUseBefore_between us vs ws :
  length us = length vs →
  nextUseBefore us ws = true →
  nextUseBefore us vs = true ∨ nextUseBefore vs ws = true.
Proof.
  revert vs ws. induction us as [|u us IH]; intros [|v vs] [|w ws]; simpl; try done.
  intros [= Hlen]. destruct w; [done|]. destruct v; [by right|].
  destruct u; [by left|]. by apply IH.
Qed.

(** X1.  The comparison handed to [std::sort] by [sortFurthestNextUse] is
    a strict weak ordering on live ranges of the same size: no range comes
    before itself, the comparison is transitive, and whenever one range comes
    before another, every third range comes after the first or before the
    second (so being incomparable is transitive). *)
Theorem hasNextUseBefore_strict_weak_order (pos : nat) (a b c : LiveRange) :
  length (uses a) = length (uses b) →
  hasNextUseBefore a pos a = false
  ∧ (hasNextUseBefore a pos b = true → hasNextUseBefore b pos c = true →
     hasNextUseBefore a pos c = true)
  ∧ (hasNextUseBefore a pos c = true →
     hasNextUseBefore a pos b = true ∨ hasNextUseBefore b pos c = true).
Proof.
  intros Hab. unfold hasNextUseBefore. split; [apply nextUseBefore_irrefl|]. split.
  - apply nextUseBefore_trans.
  - apply nextUseBefore_between. rewrite !length_drop. lia.
Qed.

Lemma hasNextUseBefore_strict_weak_order_witness :
  let a := addUse 1 (newLiveRange 3) in
  let b := addUse 2 (newLiveRange 3) in
  let c := addUse 3 (newLiveRange 3) in
  hasNextUseBefore a 0 b = true ∧ hasNextUseBefore b 0 c = true
  ∧ hasNextUseBefore a 0 c = true ∧ hasNextUseBefore a 0 a = false.
Proof.
  intros a b c.
  destruct (hasNextUseBefore_strict_weak_order 0 a b c eq_refl) as (Hirr & Htr & _).
  assert (hasNextUseBefore a 0 b = true) as Hab by reflexivity.
  assert (hasNextUseBefore b 0 c = true) as Hbc by reflexivity.
  exact (conj Hab (conj Hbc (conj (Htr Hab Hbc) Hirr))).
Defined.

(* ===================================================================== *)
(** ** What the live ranges record *)

Section LiveRangesExact.

Variable Sc : SPScope.

Local Abbreviation n := (getNumberOfFcfgBlocks Sc).

(** A use, or a definition, of predicate [p] at position [k] in a map of
    live ranges. *)
Definition usedAt (m : LRmap) (p k : nat) : Prop :=
  ∃ lr, m !! p = Some lr ∧ isUse lr k = true.
Definition definedAt (m : LRmap) (p k : nat) : Prop :=
  ∃ lr, m !! p = Some lr ∧ isDef lr k = true.

Lemma bv_test_set pos k bv :
  pos < length bv →
  bv_test k (bv_set pos bv) = true ↔ k = pos ∨ bv_test k bv = true.
Proof.
  intros Hlen. unfold bv_test, bv_set. destruct (decide (pos = k)) as [->|Hne].
  - rewrite list_lookup_insert_eq by done. simpl. split; [by left|done].
  - rewrite list_lookup_insert_ne by done. split; [by right|]. intros [->|H]; done.
Qed.

Lemma bv_test_new k m : bv_test k (replicate m false) = false.
Proof.
  unfold bv_test. destruct (replicate m false !! k) as [b|] eqn:E; [|done].
  apply lookup_replicate in E as [-> _]. done.
Qed.

Lemma updLR_addUse_usedAt pos p m q k :
  sizedLRs Sc m → pos ≤ n →
  usedAt (updLR Sc (addUse pos) p m) q k ↔ (q = p ∧ k = pos) ∨ usedAt m q k.
Proof.
  intros Hm Hpos. unfold usedAt. rewrite updLR_lookup.
  destruct (decide (p = q)) as [->|Hne].
  - assert (pos < length (uses (default (newLiveRange n) (m !! q)))) as Hlt.
    { destruct (m !! q) eqn:E; simpl.
      - destruct (Hm _ _ E) as [-> _]. lia.
      - rewrite length_replicate. unfold getNumberOfFcfgBlocks in Hpos. simpl in Hpos. lia. }
    split.
    + intros (lr & [= <-] & Hu). unfold isUse in Hu. cbn [uses addUse] in Hu.
      apply bv_test_set in Hu as [->|Hu]; [by left| |done]. right.
      destruct (m !! q) eqn:E; cbn [default uses newLiveRange] in Hu; [eauto|].
      by rewrite bv_test_new in Hu.
    + intros [[_ ->]|(lr & Hlr & Hu)].
      * eexists; split; [done|]. unfold isUse; cbn [uses addUse]. apply bv_test_set; [done|by left].
      * eexists; split; [done|]. unfold isUse; cbn [uses addUse]. apply bv_test_set; [done|right].
        by rewrite Hlr.
  - split; [intros H; by right|]. intros [[-> _]|H]; done.
Qed.

Lemma updLR_addUse_definedAt pos p m q k :
  definedAt (updLR Sc (addUse pos) p m) q k ↔ definedAt m q k.
Proof.
  unfold definedAt. rewrite updLR_lookup. destruct (decide (p = q)) as [->|Hne]; [|done].
  split.
  - intros (lr & [= <-] & Hd). unfold isDef in Hd. cbn [defs addUse] in Hd.
    destruct (m !! q) eqn:E; cbn [default defs newLiveRange] in Hd; [eauto|].
    by rewrite bv_test_new in Hd.
  - intros (lr & Hlr & Hd). eexists; split; [done|]. by rewrite Hlr.
Qed.

Lemma updLR_addDef_definedAt pos p m q k :
  sizedLRs Sc m → pos ≤ n →
  definedAt (updLR Sc (addDef pos) p m) q k ↔ (q = p ∧ k = pos) ∨ definedAt m q k.
Proof.
  intros Hm Hpos. unfold definedAt. rewrite updLR_lookup.
  destruct (decide (p = q)) as [->|Hne].
  - assert (pos < length (defs (default (newLiveRange n) (m !! q)))) as Hlt.
    { destruct (m !! q) eqn:E; simpl.
      - destruct (Hm _ _ E) as [_ ->]. lia.
      - rewrite length_replicate. unfold getNumberOfFcfgBlocks in Hpos. simpl in Hpos. lia. }
    split.
    + intros (lr & [= <-] & Hu). unfold isDef in Hu. cbn [defs addDef] in Hu.
      apply bv_test_set in Hu as [->|Hu]; [by left| |done]. right.
      destruct (m !! q) eqn:E; cbn [default defs newLiveRange] in Hu; [eauto|].
      by rewrite bv_test_new in Hu.
    + intros [[_ ->]|(lr & Hlr & Hu)].
      * eexists; split; [done|]. unfold isDef; cbn [defs addDef]. apply bv_test_set; [done|by left].
      * eexists; split; [done|]. unfold isDef; cbn [defs addDef]. apply bv_test_set; [done|right].
        by rewrite Hlr.
  - split; [intros H; by right|]. intros [[-> _]|H]; done.
Qed.

Lemma updLR_addDef_usedAt pos p m q k :
  usedAt (updLR Sc (addDef pos) p m) q k ↔ usedAt m q k.
Proof.
  unfold usedAt. rewrite updLR_lookup. destruct (decide (p = q)) as [->|Hne]; [|done].
  split.
  - intros (lr & [= <-] & Hd). unfold isUse in Hd. cbn [uses addDef] in Hd.
    destruct (m !! q) eqn:E; cbn [default uses newLiveRange] in Hd; [eauto|].
    by rewrite bv_test_new in Hd.
  - intros (lr & Hlr & Hd). eexists; split; [done|]. by rewrite Hlr.
Qed.

Lemma addUses_usedAt pos ps m q k :
  sizedLRs Sc m → pos ≤ n →
  usedAt (addUses Sc pos ps m) q k ↔ (q ∈ ps ∧ k = pos) ∨ usedAt m q k.
Proof.
  unfold addUses. revert m. induction ps as [|p ps IH]; intros m Hm Hpos; simpl.
  - split; [by right|]. intros [[H _]|H]; [by apply elem_of_nil in H|done].
  - rewrite IH by (try apply updLR_addUse_sized; done).
    rewrite updLR_addUse_usedAt by done. rewrite elem_of_cons. tauto.
Qed.

Lemma addUses_definedAt pos ps m q k :
  definedAt (addUses Sc pos ps m) q k ↔ definedAt m q k.
Proof.
  unfold addUses. revert m. induction ps as [|p ps IH]; intros m; simpl; [done|].
  by rewrite IH, updLR_addUse_definedAt.
Qed.

Lemma addDefs_definedAt pos ps m q k :
  sizedLRs Sc m → pos ≤ n →
  definedAt (addDefs Sc pos ps m) q k ↔ (q ∈ ps ∧ k = pos) ∨ definedAt m q k.
Proof.
  unfold addDefs. revert m. induction ps as [|p ps IH]; intros m Hm Hpos; simpl.
  - split; [by right|]. intros [[H _]|H]; [by apply elem_of_nil in H|done].
  - rewrite IH by (try apply updLR_addDef_sized; done).
    rewrite updLR_addDef_definedAt by done. rewrite elem_of_cons. tauto.
Qed.

Lemma addDefs_usedAt pos ps m q k :
  usedAt (addDefs Sc pos ps m) q k ↔ usedAt m q k.
Proof.
  unfold addDefs. revert m. induction ps as [|p ps IH]; intros m; simpl; [done|].
  by rewrite IH, updLR_addDef_usedAt.
Qed.

Lemma liveRangesFrom_usedAt i bs m q k :
  sizedLRs Sc m → i + length bs ≤ n →
  usedAt (liveRangesFrom Sc i bs m) q k
  ↔ (∃ j block, bs !! j = Some block ∧ k = i + j ∧ q ∈ getBlockPredicates block)
    ∨ usedAt m q k.
Proof.
  revert i m. induction bs as [|b bs IH]; intros i m Hm Hlen; simpl in *.
  - split; [by right|]. intros [(j & block & H & _)|H]; [|done].
    by rewrite lookup_nil in H.
  - rewrite IH by (try apply addDefs_sized, addUses_sized; try done; lia).
    rewrite addDefs_usedAt, addUses_usedAt by (try done; lia). split.
    + intros [(j & block & Hj & -> & Hq)|[[Hq ->]|H]].
      * left. exists (S j), block. split; [done|]. split; [lia|done].
      * left. exists 0, b. split; [done|]. split; [lia|done].
      * by right.
    + intros [(j & block & Hj & -> & Hq)|H]; [|by right; right].
      destruct j as [|j]; simpl in Hj.
      * injection Hj as ->. right; left. split; [done|lia].
      * left. exists j, block. split; [done|]. split; [lia|done].
Qed.

Lemma liveRangesFrom_definedAt i bs m q k :
  sizedLRs Sc m → i + length bs ≤ n →
  definedAt (liveRangesFrom Sc i bs m) q k
  ↔ (∃ j block, bs !! j = Some block ∧ k = i + j ∧ q ∈ getDefinitions block)
    ∨ definedAt m q k.
Proof.
  revert i m. induction bs as [|b bs IH]; intros i m Hm Hlen; simpl in *.
  - split; [by right|]. intros [(j & block & H & _)|H]; [|done].
    by rewrite lookup_nil in H.
  - rewrite IH by (try apply addDefs_sized, addUses_sized; try done; lia).
    rewrite addDefs_definedAt by (try apply addUses_sized; try done; lia).
    rewrite addUses_definedAt. split.
    + intros [(j & block & Hj & -> & Hq)|[[Hq ->]|H]].
      * left. exists (S j), block. split; [done|]. split; [lia|done].
      * left. exists 0, b. split; [done|]. split; [lia|done].
      * by right.
    + intros [(j & block & Hj & -> & Hq)|H]; [|by right; right].
      destruct j as [|j]; simpl in Hj.
      * injection Hj as ->. right; left. split; [done|lia].
      * left. exists j, block. split; [done|]. split; [lia|done].
Qed.

Lemma usedAt_empty q k : ¬ usedAt ∅ q k.
Proof. intros (lr & H & _). by rewrite lookup_empty in H. Qed.

Lemma definedAt_empty q k : ¬ definedAt ∅ q k.
Proof. intros (lr & H & _). by rewrite lookup_empty in H. Qed.

(** X2.  The live ranges that [createLiveRanges] builds record exactly the
    scope: predicate [p] has a use at position [k] if and only if the block
    at position [k] has [p] among its block predicates, or [k] is the
    position past the last block, the scope is not top-level and [p] is a
    block predicate of the header; and it has a definition at position [k]
    if and only if the block at position [k] defines [p]. *)
Theorem createLiveRanges_exact (p k : nat) :
  (usedAt (createLiveRanges Sc) p k
   ↔ (∃ block, getBlocksTopoOrd Sc !! k = Some block ∧ p ∈ getBlockPredicates block)
     ∨ (k = length (getBlocksTopoOrd Sc) ∧ isTopLevel Sc = false
        ∧ p ∈ getBlockPredicates (getHeader Sc)))
  ∧ (definedAt (createLiveRanges Sc) p k
     ↔ ∃ block, getBlocksTopoOrd Sc !! k = Some block ∧ p ∈ getDefinitions block).
Proof.
  pose proof (liveRangesFrom_usedAt 0 (getBlocksTopoOrd Sc) ∅ p k (sized_empty Sc)) as HU.
  pose proof (liveRangesFrom_definedAt 0 (getBlocksTopoOrd Sc) ∅ p k (sized_empty Sc)) as HD.
  unfold createLiveRanges. cbv zeta. destruct (isTopLevel Sc); simpl negb; cbv iota.
  - rewrite HU, HD by done. split.
    + split.
      * intros [(j & block & Hj & -> & Hp)|H]; [left; eauto|by apply usedAt_empty in H].
      * intros [(block & Hk & Hp)|(_ & [=] & _)]. left. eauto.
    + split.
      * intros [(j & block & Hj & -> & Hp)|H]; [eauto|by apply definedAt_empty in H].
      * intros (block & Hk & Hp). left. eauto.
  - rewrite addUses_usedAt, addUses_definedAt, HU, HD
      by (try apply liveRangesFrom_sized, sized_empty; done). split.
    + split.
      * intros [[Hp ->]|[(j & block & Hj & -> & Hp)|H]];
          [by right|left; eauto|by apply usedAt_empty in H].
      * intros [(block & Hk & Hp)|(-> & _ & Hp)]; [right; left; eauto|by left].
    + split.
      * intros [(j & block & Hj & -> & Hp)|H]; [eauto|by apply definedAt_empty in H].
      * intros (block & Hk & Hp). left. eauto.
Qed.

End LiveRangesExact.

(* ===================================================================== *)
(** ** First definitions *)

Lemma hasDefBefore_iff lr pos :
  hasDefBefore lr pos = true ↔ ∃ j, j < pos ∧ isDef lr j = true.
Proof.
  unfold hasDefBefore, isDef, bv_test. rewrite existsb_exists. split.
  - intros (b & Hin & Hb). unfold id in Hb. subst b.
    apply list_elem_of_In, list_elem_of_lookup in Hin as (j & Hj).
    apply lookup_take_Some in Hj as [Hj Hlt]. exists j. split; [done|]. by rewrite Hj.
  - intros (j & Hlt & Hj). destruct (defs lr !! j) as [b|] eqn:E; [|done].
    simpl in Hj. subst b. exists true. split; [|done].
    apply list_elem_of_In, list_elem_of_lookup. exists j.
    apply lookup_take_Some. done.
Qed.

Lemma isFirstDefFrom_found I MBB pred i0 bs k block :
  bs !! k = Some block → getMBB block = MBB →
  (∀ j b, j < k → bs !! j = Some b → getMBB b ≠ MBB) →
  isFirstDefFrom I MBB pred i0 bs =
    match LRs I !! pred with
    | None => Undef
    | Some lr => Ok (negb (hasDefBefore lr (i0 + k)))
    end.
Proof.
  revert i0 k. induction bs as [|b bs IH]; intros i0 k Hk HM Hbefore; simpl.
  - by rewrite lookup_nil in Hk.
  - destruct k as [|k]; simpl in Hk.
    + injection Hk as ->. rewrite HM, Nat.eqb_refl, Nat.add_0_r. done.
    + destruct (getMBB b =? MBB) eqn:E.
      * apply Nat.eqb_eq in E. by destruct (Hbefore 0 b ltac:(lia) eq_refl).
      * rewrite (IH (S i0) k Hk HM).
        { by replace (S i0 + k) with (i0 + S k) by lia. }
        intros j b' Hj Hb'. apply (Hbefore (S j) b'); [lia|done].
Qed.

Lemma isFirstDefFrom_absent I MBB pred i0 bs :
  MBB ∉ map getMBB bs → isFirstDefFrom I MBB pred i0 bs = Ok false.
Proof.
  revert i0. induction bs as [|b bs IH]; intros i0 Hnot; simpl; [done|].
  simpl in Hnot. apply not_elem_of_cons in Hnot as [Hne Hnot].
  destruct (getMBB b =? MBB) eqn:E; [apply Nat.eqb_eq in E; congruence|].
  by apply IH.
Qed.

(** X3.  On the [RAInfo] of a scope whose blocks stand for pairwise
    different machine basic blocks, [isFirstDef] answers true for a block
    and a predicate that the block defines exactly when no block at an
    earlier position of the scope defines that predicate; for a machine
    basic block that is not in the scope it answers false. *)
Theorem isFirstDef_first_definition
    (sortFurthestNextUse : gmap nat LiveRange → nat → list nat → list nat)
    (Sc : SPScope) (availRegs : nat) (I : Impl) :
  newImpl sortFurthestNextUse Sc availRegs = Ok I →
  NoDup (map getMBB (getBlocksTopoOrd Sc)) →
  (∀ i block p,
     getBlocksTopoOrd Sc !! i = Some block → p ∈ getDefinitions block →
     ∃ b, isFirstDef Sc I (getMBB block) p = Ok b
          ∧ (b = true ↔ ∀ j block', j < i → getBlocksTopoOrd Sc !! j = Some block' →
                          p ∉ getDefinitions block'))
  ∧ (∀ MBB p, MBB ∉ map getMBB (getBlocksTopoOrd Sc) →
       isFirstDef Sc I MBB p = Ok false).
Proof.
  intros HI Hnd.
  destruct (newImpl_inv _ _ _ _ HI) as (_ & _ & HL & _).
  split; [|intros MBB p Hnot; by apply isFirstDefFrom_absent].
  intros i block p Hi Hp. unfold isFirstDef.
  rewrite (isFirstDefFrom_found I (getMBB block) p 0 _ i block Hi eq_refl).
  2:{ intros j b Hj Hb Heq.
      assert (map getMBB (getBlocksTopoOrd Sc) !! j = Some (getMBB block)) as H1.
      { by rewrite list_lookup_fmap, Hb, <- Heq. }
      assert (map getMBB (getBlocksTopoOrd Sc) !! i = Some (getMBB block)) as H2.
      { by rewrite list_lookup_fmap, Hi. }
      pose proof (NoDup_lookup _ _ _ _ Hnd H1 H2). lia. }
  destruct (proj2 (createLiveRanges_exact Sc p i)) as [_ Hdef].
  destruct Hdef as (lr & Hlr & _); [by exists block|].
  rewrite HL, Hlr. simpl. eexists; split; [done|].
  rewrite negb_true_iff, <- not_true_iff_false, hasDefBefore_iff. split.
  - intros Hno j block' Hj Hb' Hin. apply Hno. exists j. split; [done|].
    destruct (proj2 (createLiveRanges_exact Sc p j)) as [_ Hd].
    destruct Hd as (lr' & Hlr' & Hd); [by exists block'|]. congruence.
  - intros Hno (j & Hj & Hd).
    destruct (proj2 (createLiveRanges_exact Sc p j)) as [Hd' _].
    destruct Hd' as (block' & Hb' & Hin); [by exists lr|].
    by apply (Hno j block').
Qed.

Lemma isFirstDef_first_definition_witness :
  ∃ I, newImpl insertionSort exLoop 2 = Ok I ∧ isFirstDef exLoop I 1 2 = Ok true.
Proof.
  destruct (newImpl insertionSort exLoop 2) as [I| |] eqn:E;
    [|vm_compute in E; discriminate..].
  exists I. split; [done|].
  assert (NoDup (map getMBB (getBlocksTopoOrd exLoop))) as Hnd.
  { apply (bool_decide_unpack _). by vm_compute. }
  destruct (isFirstDef_first_definition insertionSort exLoop 2 I E Hnd) as [H _].
  destruct (H 0 (mkBlock 1 [1] [2]) 2 eq_refl) as (b & Hb & Hiff).
  { apply list_elem_of_here. }
  simpl in Hb. rewrite Hb. f_equal. apply Hiff. intros j block' Hj. lia.
Defined.

(* ===================================================================== *)
(** ** Live predicates never share a location *)

(** No two predicates have the same current location, no current location
    is in the free set, and the free set holds no location twice. *)
Record Distinct (st : Scan) : Prop := mkDistinct {
  dist_cur : ∀ p q l, curLocs st !! p = Some l → curLocs st !! q = Some l → p = q;
  dist_free : ∀ p l, curLocs st !! p = Some l → l ∉ FreeLocs st;
  dist_nodup : NoDup (FreeLocs st)
}.

(** A location that neither a predicate nor the free set holds. *)
Definition unused (st : Scan) (l : Location) : Prop :=
  (∀ p, curLocs st !! p ≠ Some l) ∧ l ∉ FreeLocs st.

Lemma set_insert_NoDup x s : NoDup s → x ∉ s → NoDup (set_insert x s).
Proof.
  induction s as [|y s IH]; simpl; intros Hnd Hx.
  - apply NoDup_singleton.
  - apply NoDup_cons in Hnd as [Hy Hnd]. apply not_elem_of_cons in Hx as [Hxy Hx].
    destruct (Location_lt x y); [|destruct (Location_lt y x)].
    + apply NoDup_cons. split; [|by apply NoDup_cons].
      apply not_elem_of_cons. done.
    + apply NoDup_cons. split; [|by apply IH].
      intros [->|H]%set_insert_elem; done.
    + by apply NoDup_cons.
Qed.

Lemma Distinct_impl st I : Distinct st → Distinct (set_impl I st).
Proof. intros [H1 H2 H3]. by split. Qed.

Lemma Distinct_assign st p l :
  Distinct st → unused st l → Distinct (set_curLocs (<[p := l]> (curLocs st)) st).
Proof.
  intros [H1 H2 H3] [Hc Hf]. split; simpl; [| |done].
  - intros a b l'. destruct (decide (a = p)) as [->|Ha], (decide (b = p)) as [->|Hb];
      rewrite ?lookup_insert_eq, ?lookup_insert_ne by done; try done.
    + intros [= <-] Hb'. by destruct (Hc b).
    + intros Ha' [= <-]. by destruct (Hc a).
    + apply H1.
  - intros a l'. destruct (decide (a = p)) as [->|Ha];
      rewrite ?lookup_insert_eq, ?lookup_insert_ne by done.
    + by intros [= <-].
    + apply H2.
Qed.

Lemma getAvailLoc_unused st l st' :
  getAvailLoc st = (l, st') → ScanInv st → Distinct st →
  Distinct st' ∧ unused st' l.
Proof.
  unfold getAvailLoc. intros Hg [Hf _ Hc _] [H1 H2 H3].
  destruct (FreeLocs st) as [|x rest] eqn:EF.
  - injection Hg as <- <-. split; [split; simpl; [done| |by rewrite EF; constructor]|].
    + intros p l Hl. rewrite EF. apply not_elem_of_nil.
    + split; simpl; [|rewrite EF; apply not_elem_of_nil].
      intros p Hp. specialize (Hc _ _ Hp). unfold validLoc in Hc.
      destruct (NumLocs (impl st) <? MaxRegs (impl st)) eqn:E; simpl in Hc.
      * lia.
      * apply Nat.ltb_ge in E. lia.
  - injection Hg as <- <-. apply NoDup_cons in H3 as [Hx H3].
    split; [split; simpl; [done| |done]|split; simpl; [|done]].
    + intros p l Hl Hin. apply (H2 p l Hl). by apply list_elem_of_further.
    + intros p Hp. apply (H2 p x Hp). apply list_elem_of_here.
Qed.

Section DistinctLocations.

Variable sortFurthestNextUse : gmap nat LiveRange → nat → list nat → list nat.
Variable Sc : SPScope.

Lemma handleIfNotInRegister_distinct blockIndex stackLoc st UL newLoc st' :
  handleIfNotInRegister sortFurthestNextUse blockIndex stackLoc st = Ok (UL, newLoc, st') →
  ScanInv st → Distinct st → Distinct st' ∧ unused st' newLoc.
Proof.
  unfold handleIfNotInRegister. intros H Hinv Hd.
  destruct (hasFreeRegister st).
  - destruct (getAvailLoc st) as [l st1] eqn:Eg.
    apply assert_Ok in H as [_ [= <- <- <-]]. by eapply getAvailLoc_unused.
  - destruct (last _) as [furthestPred|]; [|discriminate].
    destruct (getAvailLoc st) as [newStackLoc st1] eqn:Eg.
    destruct (getAvailLoc_unused _ _ _ Eg Hinv Hd) as [Hd1 [Hu1 Hu2]].
    apply assert_Ok in H as [_ H].
    destruct (curLocs st1 !! furthestPred) as [replacement|] eqn:Erep; [|discriminate].
    destruct (LRs (impl st1) !! furthestPred) as [lr|]; [|discriminate].
    apply bind_Ok in H as ([UL2 st2] & H2 & H).
    apply assert_Ok in H as [_ [= <- <- <-]].
    assert (curLocs st2 = curLocs st1 ∧ FreeLocs st2 = FreeLocs st1) as [Hc2 Hf2].
    { destruct (anyUseBefore lr blockIndex).
      - by injection H2 as <- <-.
      - apply assert_Ok in H2 as [_ [= <- <-]]. done. }
    assert (Distinct st2) as Hd2.
    { destruct Hd1 as [A B C]. split; rewrite ?Hc2, ?Hf2; done. }
    split.
    + apply Distinct_assign; [done|]. split; rewrite ?Hc2, ?Hf2; done.
    + split; simpl; rewrite ?Hc2, ?Hf2.
      * intros p. destruct (decide (p = furthestPred)) as [->|Hne].
        -- rewrite lookup_insert_eq. intros [= ->]. by destruct (Hu1 furthestPred).
        -- rewrite lookup_insert_ne by done. intros Hp.
           by destruct Hne, (dist_cur _ Hd1 _ _ _ Hp Erep).
      * by apply (dist_free _ Hd1 furthestPred).
Qed.

Lemma calculateNotHeaderUseLoc_distinct blockIndex usePred st UL st' :
  calculateNotHeaderUseLoc sortFurthestNextUse blockIndex usePred st = Ok (UL, st') →
  ScanInv st → Distinct st → Distinct st'.
Proof.
  unfold calculateNotHeaderUseLoc. intros H Hinv Hd.
  destruct (curLocs st !! usePred) as [curUseLoc|]; [|discriminate].
  destruct (isStack curUseLoc).
  - apply bind_Ok in H as ([[UL1 newLoc] st1] & H1 & [= <- <-]).
    destruct (handleIfNotInRegister_distinct _ _ _ _ _ _ H1 Hinv Hd) as [Hd1 Hu].
    by apply Distinct_assign.
  - by injection H as <- <-.
Qed.

Lemma calculateHeaderUseLoc_distinct st UL st' :
  calculateHeaderUseLoc Sc st = Ok (UL, st') →
  ScanInv st → Distinct st → Distinct st'.
Proof.
  unfold calculateHeaderUseLoc. intros H Hinv Hd.
  destruct (getAvailLoc st) as [l st1] eqn:Eg.
  destruct (getAvailLoc_unused _ _ _ Eg Hinv Hd) as [Hd1 Hu].
  apply bind_Ok in H as (headerPred & _ & H).
  apply assert_Ok in H as [_ H]. apply assert_Ok in H as [_ H].
  apply assert_Ok in H as [_ [= <- <-]].
  apply (Distinct_assign (set_impl _ st1)); [by apply Distinct_impl|done].
Qed.

Lemma assignUse_distinct i block usePred st st' :
  assignUse sortFurthestNextUse Sc i block usePred st = Ok st' →
  ScanInv st → Distinct st → Distinct st'.
Proof.
  unfold assignUse. intros H Hinv Hd.
  apply bind_Ok in H as (p0 & _ & H). destruct (negb p0); [|by injection H as <-].
  apply assert_Ok in H as [_ H]. apply assert_Ok in H as [_ H].
  apply bind_Ok in H as ([useLoc st1] & H1 & H).
  apply assert_Ok in H as [_ [= <-]]. apply Distinct_impl.
  destruct (isHeader i).
  - by eapply calculateHeaderUseLoc_distinct.
  - by eapply calculateNotHeaderUseLoc_distinct.
Qed.

Lemma retire_distinct i usePred st st' :
  retire Sc i usePred st = Ok st' → Distinct st → Distinct st'.
Proof.
  unfold retire. intros H [H1 H2 H3].
  apply bind_Ok in H as (p0 & _ & H). destruct (negb p0); [|by injection H as <-].
  apply assert_Ok in H as [_ H].
  destruct (LRs (impl st) !! usePred) as [lr|]; [|discriminate].
  destruct (lastUse lr i); [|by injection H as <-].
  destruct (curLocs st !! usePred) as [curUseLoc|] eqn:Ecur; [|discriminate].
  apply assert_Ok in H as [_ [= <-]]. split; simpl.
  - intros p q l [_ Hp]%lookup_delete_Some [_ Hq]%lookup_delete_Some. by eapply H1.
  - intros p l [Hne Hp]%lookup_delete_Some [->|Hin]%set_insert_elem.
    + by destruct Hne, (H1 _ _ _ Hp Ecur).
    + by apply (H2 p l).
  - apply set_insert_NoDup; [done|]. by apply (H2 usePred).
Qed.

Lemma assignDef_distinct pred st st' :
  assignDef pred st = Ok st' → ScanInv st → Distinct st → Distinct st'.
Proof.
  unfold assignDef. intros H Hinv Hd.
  destruct (getAvailLoc st) as [l st1] eqn:Eg.
  destruct (getAvailLoc_unused _ _ _ Eg Hinv Hd) as [Hd1 Hu].
  simpl in H. rewrite !lookup_insert_eq in H.
  apply assert_Ok in H as [_ [= <-]].
  apply Distinct_impl. by apply Distinct_assign.
Qed.

(** X4.  In every state of the scan of [assignLocations], two different
    predicates never have the same current location, a location that a
    predicate currently has is not in the free set, and the free set holds
    no location twice: a location is handed to one live predicate at a
    time. *)
Theorem scan_locations_distinct st :
  scanState sortFurthestNextUse Sc st →
  (∀ p q l, curLocs st !! p = Some l → curLocs st !! q = Some l → p = q)
  ∧ (∀ p l, curLocs st !! p = Some l → l ∉ FreeLocs st)
  ∧ NoDup (FreeLocs st).
Proof.
  intros Hst. enough (Distinct st) as [H1 H2 H3] by done.
  induction Hst as [I HU|i block usePred st st' Hst IH H|i usePred st st' Hst IH H
                    |pred st st' Hst IH H].
  - split; simpl; [intros p q l|intros p l|constructor]; by rewrite lookup_empty.
  - eapply assignUse_distinct; eauto using scanState_inv.
  - by eapply retire_distinct.
  - eapply assignDef_distinct; eauto using scanState_inv.
Qed.

End DistinctLocations.

(** A scope in which a predicate is evicted from the only register: the
    header defines predicates 1 and 2, which guard the blocks 1, 2 and 3. *)
Definition exEvict : SPScope :=
  mkScope (mkBlock 0 [0] [1; 2])
          [mkBlock 1 [1] []; mkBlock 2 [2] []; mkBlock 3 [1] []]
          true false 0 false.

Lemma scan_locations_distinct_witness :
  ∃ st, scanFrom insertionSort exEvict 0 [mkBlock 0 [0] [1; 2]; mkBlock 1 [1] []; mkBlock 2 [2] []]
          (initialScan exEvict 1) = Ok st
        ∧ curLocs st !! 1 = Some (mkLocation Stack 1)
        ∧ curLocs st !! 2 = None
        ∧ mkLocation Stack 1 ∉ FreeLocs st.
Proof.
  destruct (scanFrom insertionSort exEvict 0
              [mkBlock 0 [0] [1; 2]; mkBlock 1 [1] []; mkBlock 2 [2] []]
              (initialScan exEvict 1)) as [st| |] eqn:E;
    [|vm_compute in E; discriminate..].
  exists st. split; [done|].
  assert (scanState insertionSort exEvict st) as Hst.
  { eapply scanFrom_scanState; [exact E|]. apply scan_start. reflexivity. }
  assert (curLocs st !! 1 = Some (mkLocation Stack 1)) as H1.
  { vm_compute in E. injection E as <-. reflexivity. }
  assert (curLocs st !! 2 = None) as H2.
  { vm_compute in E. injection E as <-. reflexivity. }
  split; [done|]. split; [done|].
  exact (proj1 (proj2 (scan_locations_distinct insertionSort exEvict st Hst)) 1 _ H1).
Defined.

(* ===================================================================== *)
(** ** What the allocation of a scope covers *)

(** The use descriptors and definition locations of [I] are still there
    in [I']. *)
Definition extends (I I' : Impl) : Prop :=
  (∀ MBB p, is_Some (useLocsOf I MBB !! p) → is_Some (useLocsOf I' MBB !! p))
  ∧ (∀ p, is_Some (DefLocs I !! p) → is_Some (DefLocs I' !! p)).

(** Every predicate with a current location has a definition location. *)
Definition defsCover (st : Scan) : Prop :=
  ∀ p, is_Some (curLocs st !! p) → is_Some (DefLocs (impl st) !! p).

Lemma extends_refl I : extends I I.
Proof. by split. Qed.

Lemma extends_trans I1 I2 I3 : extends I1 I2 → extends I2 I3 → extends I1 I3.
Proof. intros [A B] [C D]. split; eauto. Qed.

Lemma extends_same I I' :
  UseLocs I' = UseLocs I → DefLocs I' = DefLocs I → extends I I'.
Proof. intros HU HD. unfold extends, useLocsOf. by rewrite HU, HD. Qed.

Lemma getAvailLoc_same st l st' :
  getAvailLoc st = (l, st') →
  curLocs st' = curLocs st ∧ UseLocs (impl st') = UseLocs (impl st)
  ∧ DefLocs (impl st') = DefLocs (impl st) ∧ LRs (impl st') = LRs (impl st).
Proof.
  unfold getAvailLoc. destruct (FreeLocs st); intros [= <- <-]; done.
Qed.

Lemma useLocsOf_insert I MBB pred u MBB' :
  useLocsOf (set_UseLocs (<[MBB := <[pred := u]> (useLocsOf I MBB)]> (UseLocs I)) I) MBB'
  = if decide (MBB' = MBB) then <[pred := u]> (useLocsOf I MBB) else useLocsOf I MBB'.
Proof.
  unfold useLocsOf at 1. simpl. destruct (decide (MBB' = MBB)) as [->|Hne].
  - by rewrite lookup_insert_eq.
  - by rewrite lookup_insert_ne.
Qed.

Section Coverage.

Variable sortFurthestNextUse : gmap nat LiveRange → nat → list nat → list nat.
Variable Sc : SPScope.

Lemma handleIfNotInRegister_cover blockIndex stackLoc st UL newLoc st' :
  handleIfNotInRegister sortFurthestNextUse blockIndex stackLoc st = Ok (UL, newLoc, st') →
  defsCover st →
  defsCover st' ∧ extends (impl st) (impl st')
  ∧ (∀ p, is_Some (curLocs st !! p) → is_Some (curLocs st' !! p)).
Proof.
  unfold handleIfNotInRegister. intros H Hc.
  destruct (hasFreeRegister st).
  - destruct (getAvailLoc st) as [l st1] eqn:Eg.
    destruct (getAvailLoc_same _ _ _ Eg) as (Hcur & HU & HD & _).
    apply assert_Ok in H as [_ [= <- <- <-]].
    split; [|split; [by apply extends_same|by rewrite Hcur]].
    intros p. rewrite Hcur, HD. apply Hc.
  - destruct (last _) as [furthestPred|]; [|discriminate].
    destruct (getAvailLoc st) as [newStackLoc st1] eqn:Eg.
    destruct (getAvailLoc_same _ _ _ Eg) as (Hcur & HU & HD & _).
    apply assert_Ok in H as [_ H].
    destruct (curLocs st1 !! furthestPred) as [replacement|] eqn:Erep; [|discriminate].
    destruct (LRs (impl st1) !! furthestPred) as [lr|]; [|discriminate].
    apply bind_Ok in H as ([UL2 st2] & H2 & H).
    apply assert_Ok in H as [_ [= <- <- <-]].
    assert (curLocs st2 = curLocs st1 ∧ UseLocs (impl st2) = UseLocs (impl st1)
            ∧ ∀ p, is_Some (DefLocs (impl st1) !! p) → is_Some (DefLocs (impl st2) !! p))
      as (Hc2 & HU2 & HD2).
    { destruct (anyUseBefore lr blockIndex).
      - by injection H2 as <- <-.
      - apply assert_Ok in H2 as [_ [= <- <-]]. simpl. split; [done|]. split; [done|].
        intros p Hp. destruct (decide (p = furthestPred)) as [->|Hne].
        + by rewrite lookup_insert_eq.
        + by rewrite lookup_insert_ne. }
    split; [|split].
    + intros p. simpl. rewrite Hc2. destruct (decide (p = furthestPred)) as [->|Hne].
      * intros _. apply HD2. rewrite HD. apply Hc. rewrite <- Hcur. by rewrite Erep.
      * rewrite lookup_insert_ne by done. rewrite Hcur. intros Hp.
        apply HD2. rewrite HD. by apply Hc.
    + split; simpl.
      * unfold useLocsOf. by rewrite HU2, HU.
      * intros p Hp. apply HD2. by rewrite HD.
    + intros p Hp. simpl. rewrite Hc2. destruct (decide (p = furthestPred)) as [->|Hne].
      * by rewrite lookup_insert_eq.
      * rewrite lookup_insert_ne by done. by rewrite Hcur.
Qed.

Lemma calculateNotHeaderUseLoc_cover blockIndex usePred st UL st' :
  calculateNotHeaderUseLoc sortFurthestNextUse blockIndex usePred st = Ok (UL, st') →
  defsCover st → defsCover st' ∧ extends (impl st) (impl st').
Proof.
  unfold calculateNotHeaderUseLoc. intros H Hc.
  destruct (curLocs st !! usePred) as [curUseLoc|] eqn:Ecur; [|discriminate].
  destruct (isStack curUseLoc).
  - apply bind_Ok in H as ([[UL1 newLoc] st1] & H1 & [= <- <-]).
    destruct (handleIfNotInRegister_cover _ _ _ _ _ _ H1 Hc) as (Hc1 & He & Hk).
    split; [|done]. intros p. simpl. destruct (decide (p = usePred)) as [->|Hne].
    + intros _. apply Hc1, Hk. by rewrite Ecur.
    + rewrite lookup_insert_ne by done. apply Hc1.
  - injection H as <- <-. split; [done|apply extends_refl].
Qed.

Lemma calculateHeaderUseLoc_cover st UL st' :
  calculateHeaderUseLoc Sc st = Ok (UL, st') →
  defsCover st → defsCover st' ∧ extends (impl st) (impl st').
Proof.
  unfold calculateHeaderUseLoc. intros H Hc.
  destruct (getAvailLoc st) as [l st1] eqn:Eg.
  destruct (getAvailLoc_same _ _ _ Eg) as (Hcur & HU & HD & _).
  apply bind_Ok in H as (headerPred & _ & H).
  apply assert_Ok in H as [_ H]. apply assert_Ok in H as [_ H].
  apply assert_Ok in H as [_ [= <- <-]]. split.
  - intros p. simpl. destruct (decide (p = headerPred)) as [->|Hne].
    + by rewrite !lookup_insert_eq.
    + rewrite !lookup_insert_ne by done. rewrite Hcur, HD. apply Hc.
  - split; simpl.
    + unfold useLocsOf. simpl. by rewrite HU.
    + intros p. rewrite HD. destruct (decide (p = headerPred)) as [->|Hne].
      * by rewrite lookup_insert_eq.
      * by rewrite lookup_insert_ne.
Qed.

Lemma assignUse_cover i block usePred st st' :
  assignUse sortFurthestNextUse Sc i block usePred st = Ok st' →
  defsCover st →
  defsCover st' ∧ extends (impl st) (impl st')
  ∧ (usesP0 Sc usePred ≠ Ok true →
     is_Some (useLocsOf (impl st') (getMBB block) !! usePred)).
Proof.
  unfold assignUse. intros H Hc.
  apply bind_Ok in H as (p0 & Hp0 & H). destruct p0; simpl in H.
  { injection H as <-. split; [done|]. split; [apply extends_refl|]. by intros []. }
  apply assert_Ok in H as [_ H]. apply assert_Ok in H as [_ H].
  apply bind_Ok in H as ([useLoc st1] & H1 & H).
  apply assert_Ok in H as [_ [= <-]].
  assert (defsCover st1 ∧ extends (impl st) (impl st1)) as [Hc1 [He1 He2]].
  { destruct (isHeader i).
    - by eapply calculateHeaderUseLoc_cover.
    - by eapply calculateNotHeaderUseLoc_cover. }
  split; [done|]. split; [split|].
  - intros MBB p Hp. simpl. rewrite useLocsOf_insert.
    destruct (decide (MBB = getMBB block)) as [->|Hne]; [|by apply He1].
    destruct (decide (p = usePred)) as [->|Hnp].
    + by rewrite lookup_insert_eq.
    + rewrite lookup_insert_ne by done. by apply He1.
  - done.
  - intros _. simpl. rewrite useLocsOf_insert, decide_True by done.
    by rewrite lookup_insert_eq.
Qed.

Lemma retire_cover i usePred st st' :
  retire Sc i usePred st = Ok st' →
  defsCover st → defsCover st' ∧ extends (impl st) (impl st').
Proof.
  unfold retire. intros H Hc.
  apply bind_Ok in H as (p0 & _ & H).
  destruct (negb p0); [|injection H as <-; split; [done|apply extends_refl]].
  apply assert_Ok in H as [_ H].
  destruct (LRs (impl st) !! usePred) as [lr|]; [|discriminate].
  destruct (lastUse lr i); [|injection H as <-; split; [done|apply extends_refl]].
  destruct (curLocs st !! usePred) as [curUseLoc|]; [|discriminate].
  apply assert_Ok in H as [_ [= <-]]. split; [|apply extends_refl].
  intros p. simpl. intros [l [_ Hl]%lookup_delete_Some]. apply Hc. by rewrite Hl.
Qed.

Lemma assignDef_cover pred st st' :
  assignDef pred st = Ok st' →
  defsCover st →
  defsCover st' ∧ extends (impl st) (impl st') ∧ is_Some (DefLocs (impl st') !! pred).
Proof.
  unfold assignDef. intros H Hc.
  destruct (getAvailLoc st) as [l st1] eqn:Eg.
  destruct (getAvailLoc_same _ _ _ Eg) as (Hcur & HU & HD & _).
  simpl in H. rewrite !lookup_insert_eq in H.
  apply assert_Ok in H as [_ [= <-]]. simpl. split; [|split].
  - intros p. simpl. destruct (decide (p = pred)) as [->|Hne].
    + by rewrite !lookup_insert_eq.
    + rewrite !lookup_insert_ne by done. rewrite Hcur, HD. apply Hc.
  - split; simpl.
    + unfold useLocsOf. simpl. by rewrite HU.
    + intros p. rewrite HD. destruct (decide (p = pred)) as [->|Hne].
      * by rewrite lookup_insert_eq.
      * by rewrite lookup_insert_ne.
  - by rewrite lookup_insert_eq.
Qed.

Lemma forEach_cover {A} (f : A → Scan → res Scan) (Q : A → Impl → Prop) l st st' :
  (∀ x s s', f x s = Ok s' → defsCover s →
     defsCover s' ∧ extends (impl s) (impl s') ∧ Q x (impl s')) →
  (∀ x I I', extends I I' → Q x I → Q x I') →
  forEach f l st = Ok st' → defsCover st →
  defsCover st' ∧ extends (impl st) (impl st') ∧ ∀ x, x ∈ l → Q x (impl st').
Proof.
  intros Hf HQ. revert st. induction l as [|x l IH]; simpl; intros st H Hc.
  - injection H as <-. split; [done|]. split; [apply extends_refl|].
    intros x Hx. by apply elem_of_nil in Hx.
  - apply bind_Ok in H as (st1 & H1 & H).
    destruct (Hf _ _ _ H1 Hc) as (Hc1 & He1 & Hq1).
    destruct (IH _ H Hc1) as (Hc2 & He2 & Hq2).
    split; [done|]. split; [by eapply extends_trans|].
    intros y [->|Hy]%elem_of_cons; [by eapply HQ|by apply Hq2].
Qed.

(** The sort loses no element of the vector it is given. *)
Definition keepsAll : Prop :=
  ∀ m pos l x, x ∈ l → x ∈ sortFurthestNextUse m pos l.

Lemma scanBlock_cover i block st st' :
  scanBlock sortFurthestNextUse Sc i block st = Ok st' →
  defsCover st →
  defsCover st' ∧ extends (impl st) (impl st')
  ∧ (∀ p, p ∈ getBlockPredicates block → usesP0 Sc p ≠ Ok true →
       is_Some (useLocsOf (impl st') (getMBB block) !! p))
  ∧ (keepsAll → ∀ d, d ∈ getDefinitions block → is_Some (DefLocs (impl st') !! d)).
Proof.
  unfold scanBlock, handlePredUse. intros H Hc.
  apply bind_Ok in H as (st2 & H2 & H). apply bind_Ok in H2 as (st1 & H1 & H2).
  destruct (forEach_cover (assignUse sortFurthestNextUse Sc i block)
              (fun p I => usesP0 Sc p ≠ Ok true → is_Some (useLocsOf I (getMBB block) !! p))
              (getBlockPredicates block) st st1) as (Hc1 & He1 & Hq1);
    [apply assignUse_cover| |exact H1|exact Hc|].
  { intros x I I' [He _] Hx Hp. by apply He, Hx. }
  destruct (forEach_cover (retire Sc i) (fun _ _ => True)
              (getBlockPredicates block) st1 st2) as (Hc2 & He2 & _);
    [|done|exact H2|exact Hc1|].
  { intros x s s' Hr Hs. destruct (retire_cover _ _ _ _ Hr Hs). done. }
  destruct (forEach_cover assignDef (fun d I => is_Some (DefLocs I !! d))
              (sortFurthestNextUse (LRs (impl st2)) i
                 (filter (fun pred => curLocs st2 !! pred = None) (getDefinitions block)))
              st2 st' assignDef_cover) as (Hc3 & He3 & Hq3);
    [|exact H|exact Hc2|].
  { intros x I I' [_ He] Hx. by apply He. }
  split; [done|]. split; [eauto using extends_trans|]. split.
  - intros p Hp Hp0. apply He3, He2. by apply Hq1.
  - intros Hkeep d Hd. destruct (curLocs st2 !! d) as [l|] eqn:Ed.
    + apply He3, Hc2. by rewrite Ed.
    + apply Hq3, Hkeep. apply list_elem_of_filter. done.
Qed.

Lemma scanFrom_cover bs i st st' :
  scanFrom sortFurthestNextUse Sc i bs st = Ok st' →
  defsCover st →
  defsCover st' ∧ extends (impl st) (impl st')
  ∧ ∀ block, block ∈ bs →
      (∀ p, p ∈ getBlockPredicates block → usesP0 Sc p ≠ Ok true →
         is_Some (useLocsOf (impl st') (getMBB block) !! p))
      ∧ (keepsAll → ∀ d, d ∈ getDefinitions block → is_Some (DefLocs (impl st') !! d)).
Proof.
  revert i st. induction bs as [|b bs IH]; simpl; intros i st H Hc.
  - injection H as <-. split; [done|]. split; [apply extends_refl|].
    intros block Hb. by apply elem_of_nil in Hb.
  - apply bind_Ok in H as (st1 & H1 & H).
    destruct (scanBlock_cover _ _ _ _ H1 Hc) as (Hc1 & He1 & Hu1 & Hd1).
    destruct (IH _ _ H Hc1) as (Hc2 & He2 & Hrest).
    split; [done|]. split; [by eapply extends_trans|].
    intros block [->|Hb]%elem_of_cons; [|by apply Hrest].
    destruct He2 as [A B]. split; [intros p Hp Hp0; by apply A, Hu1|].
    intros Hkeep d Hd. by apply B, Hd1.
Qed.

Lemma fixHeaderLoad_cover headerPred st st' :
  fixHeaderLoad Sc headerPred st = Ok st' → extends (impl st) (impl st').
Proof.
  unfold fixHeaderLoad. intros H.
  destruct (UseLocs (impl st) !! getMBB (getHeader Sc)) as [headerUseLocs|] eqn:EU;
    [|discriminate].
  destruct (headerUseLocs !! headerPred) as [predUseLoc|] eqn:EP; [|discriminate].
  destruct (curLocs st !! headerPred) as [cur|]; [|discriminate].
  destruct (negb _); [|injection H as <-; apply extends_refl].
  injection H as <-. split; simpl; [|done].
  intros MBB p. unfold useLocsOf. simpl.
  destruct (decide (MBB = getMBB (getHeader Sc))) as [->|Hne].
  - rewrite lookup_insert_eq, EU. simpl. destruct (decide (p = headerPred)) as [->|Hnp].
    + by rewrite lookup_insert_eq.
    + by rewrite lookup_insert_ne.
  - by rewrite lookup_insert_ne.
Qed.

Lemma forEach_extends {A} (f : A → Scan → res Scan) l st st' :
  (∀ x s s', f x s = Ok s' → extends (impl s) (impl s')) →
  forEach f l st = Ok st' → extends (impl st) (impl st').
Proof.
  intros Hf. revert st. induction l as [|x l IH]; simpl; intros st H.
  - injection H as <-. apply extends_refl.
  - apply bind_Ok in H as (st1 & H1 & H). eapply extends_trans; eauto.
Qed.

(** The allocation of one scope covers its blocks. *)
Lemma newImpl_cover availRegs I block :
  newImpl sortFurthestNextUse Sc availRegs = Ok I →
  block ∈ getBlocksTopoOrd Sc →
  (∀ p, p ∈ getBlockPredicates block → usesP0 Sc p ≠ Ok true →
     is_Some (useLocsOf I (getMBB block) !! p))
  ∧ (keepsAll → ∀ d, d ∈ getDefinitions block → is_Some (DefLocs I !! d)).
Proof.
  unfold newImpl, assignLocations. intros H Hb.
  apply bind_Ok in H as (st & H & [= <-]).
  apply bind_Ok in H as (st1 & H1 & H).
  destruct (scanFrom_cover _ _ _ _ H1) as (_ & _ & Hcov).
  { intros p. simpl. rewrite lookup_empty. by intros [? [=]]. }
  destruct (Hcov _ Hb) as [Hu Hd].
  assert (extends (impl st1) (impl st)) as [A B].
  { destruct (negb (isTopLevel Sc)); [|injection H as <-; apply extends_refl].
    apply assert_Ok in H as [_ H]. eapply forEach_extends; [|exact H].
    intros x s s'. apply fixHeaderLoad_cover. }
  split; [intros p Hp Hp0; by apply A, Hu|intros Hkeep d Hd'; by apply B, Hd].
Qed.

End Coverage.

(* --------------------------------------------------------------------- *)
(** *** Definition locations are locations that were handed out *)

Definition defsValid (I : Impl) : Prop :=
  ∀ p l, DefLocs I !! p = Some l → validLoc I l.

Lemma defsValid_grows I I' :
  grows I I' → DefLocs I' = DefLocs I → defsValid I → defsValid I'.
Proof. intros Hg HD H p l. rewrite HD. intros Hl. eapply validLoc_grows; eauto. Qed.

Lemma defsValid_insert I p l :
  defsValid I → validLoc I l → defsValid (set_DefLocs (<[p := l]> (DefLocs I)) I).
Proof.
  intros H Hl q l'. simpl. destruct (decide (q = p)) as [->|Hne].
  - rewrite lookup_insert_eq. by intros [= <-].
  - rewrite lookup_insert_ne by done. apply H.
Qed.

Section DefinitionLocations.

Variable sortFurthestNextUse : gmap nat LiveRange → nat → list nat → list nat.
Variable Sc : SPScope.

Lemma handleIfNotInRegister_defsValid blockIndex stackLoc st UL newLoc st' :
  handleIfNotInRegister sortFurthestNextUse blockIndex stackLoc st = Ok (UL, newLoc, st') →
  ScanInv st → defsValid (impl st) → defsValid (impl st').
Proof.
  unfold handleIfNotInRegister. intros H Hinv Hd.
  destruct (hasFreeRegister st).
  - destruct (getAvailLoc st) as [l st1] eqn:Eg.
    destruct (getAvailLoc_inv _ _ _ Eg Hinv) as (_ & Hg & _ & _ & _ & HD).
    apply assert_Ok in H as [_ [= <- <- <-]]. by eapply defsValid_grows.
  - destruct (last _) as [furthestPred|]; [|discriminate].
    destruct (getAvailLoc st) as [newStackLoc st1] eqn:Eg.
    destruct (getAvailLoc_inv _ _ _ Eg Hinv) as (_ & Hg & Hv & _ & _ & HD).
    pose proof (defsValid_grows _ _ Hg HD Hd) as Hd1.
    apply assert_Ok in H as [_ H].
    destruct (curLocs st1 !! furthestPred) as [replacement|]; [|discriminate].
    destruct (LRs (impl st1) !! furthestPred) as [lr|]; [|discriminate].
    apply bind_Ok in H as ([UL2 st2] & H2 & H).
    apply assert_Ok in H as [_ [= <- <- <-]]. simpl.
    destruct (anyUseBefore lr blockIndex).
    + by injection H2 as <- <-.
    + apply assert_Ok in H2 as [_ [= <- <-]]. simpl. by apply defsValid_insert.
Qed.

Lemma assignUse_defsValid i block usePred st st' :
  assignUse sortFurthestNextUse Sc i block usePred st = Ok st' →
  ScanInv st → defsValid (impl st) → defsValid (impl st').
Proof.
  unfold assignUse. intros H Hinv Hd.
  apply bind_Ok in H as (p0 & _ & H). destruct (negb p0); [|by injection H as <-].
  apply assert_Ok in H as [_ H]. apply assert_Ok in H as [_ H].
  apply bind_Ok in H as ([useLoc st1] & H1 & H).
  apply assert_Ok in H as [_ [= <-]].
  enough (defsValid (impl st1)) as Hd1 by exact Hd1.
  destruct (isHeader i).
  - unfold calculateHeaderUseLoc in H1.
    destruct (getAvailLoc st) as [l st0] eqn:Eg.
    destruct (getAvailLoc_inv _ _ _ Eg Hinv) as (_ & Hg & Hv & _ & _ & HD).
    apply bind_Ok in H1 as (headerPred & _ & H1).
    apply assert_Ok in H1 as [_ H1]. apply assert_Ok in H1 as [_ H1].
    apply assert_Ok in H1 as [_ [= <- <-]]. simpl.
    apply defsValid_insert; [by eapply defsValid_grows|done].
  - unfold calculateNotHeaderUseLoc in H1.
    destruct (curLocs st !! usePred) as [curUseLoc|]; [|discriminate].
    destruct (isStack curUseLoc); [|by injection H1 as <- <-].
    apply bind_Ok in H1 as ([[UL1 newLoc] st0] & H0 & [= <- <-]). simpl.
    by eapply handleIfNotInRegister_defsValid.
Qed.

Lemma retire_impl i usePred st st' :
  retire Sc i usePred st = Ok st' → impl st' = impl st.
Proof.
  unfold retire. intros H.
  apply bind_Ok in H as (p0 & _ & H). destruct (negb p0); [|by injection H as <-].
  apply assert_Ok in H as [_ H].
  destruct (LRs (impl st) !! usePred) as [lr|]; [|discriminate].
  destruct (lastUse lr i); [|by injection H as <-].
  destruct (curLocs st !! usePred) as [curUseLoc|]; [|discriminate].
  by apply assert_Ok in H as [_ [= <-]].
Qed.

Lemma assignDef_defsValid pred st st' :
  assignDef pred st = Ok st' →
  ScanInv st → defsValid (impl st) → defsValid (impl st').
Proof.
  unfold assignDef. intros H Hinv Hd.
  destruct (getAvailLoc st) as [l st1] eqn:Eg.
  destruct (getAvailLoc_inv _ _ _ Eg Hinv) as (_ & Hg & Hv & _ & _ & HD).
  simpl in H. rewrite !lookup_insert_eq in H.
  apply assert_Ok in H as [_ [= <-]]. simpl.
  apply defsValid_insert; [by eapply defsValid_grows|done].
Qed.

Lemma forEach_defsValid {A} (f : A → Scan → res Scan) l st st' :
  (∀ x s s', f x s = Ok s' → ScanInv s → ScanInv s' ∧ grows (impl s) (impl s')) →
  (∀ x s s', f x s = Ok s' → ScanInv s → defsValid (impl s) → defsValid (impl s')) →
  forEach f l st = Ok st' → ScanInv st → defsValid (impl st) → defsValid (impl st').
Proof.
  intros Hinv Hf. revert st. induction l as [|x l IH]; simpl; intros st H Hi Hd.
  - by injection H as <-.
  - apply bind_Ok in H as (st1 & H1 & H).
    destruct (Hinv _ _ _ H1 Hi) as [Hi1 _]. eauto.
Qed.

Lemma scanFrom_defsValid bs i st st' :
  scanFrom sortFurthestNextUse Sc i bs st = Ok st' →
  ScanInv st → defsValid (impl st) → defsValid (impl st').
Proof.
  revert i st. induction bs as [|b bs IH]; simpl; intros i st H Hi Hd.
  - by injection H as <-.
  - apply bind_Ok in H as (st1 & H1 & H).
    destruct (scanBlock_inv _ _ _ _ _ _ H1 Hi) as [Hi1 _].
    apply (IH _ _ H Hi1).
    unfold scanBlock, handlePredUse in H1.
    apply bind_Ok in H1 as (st3 & H3 & H1). apply bind_Ok in H3 as (st2 & H2 & H3).
    destruct (forEach_inv _ _ _ _ (assignUse_inv sortFurthestNextUse Sc i b) H2 Hi)
      as [Hi2 _].
    destruct (forEach_inv _ _ _ _ (retire_inv Sc i) H3 Hi2) as [Hi3 _].
    eapply (forEach_defsValid assignDef); [apply assignDef_inv|apply assignDef_defsValid
                                           |exact H1|done|].
    eapply (forEach_defsValid (retire Sc i)); [apply retire_inv| |exact H3|done|].
    { intros x s s' Hr _ Hs. by rewrite (retire_impl _ _ _ _ Hr). }
    eapply (forEach_defsValid (assignUse sortFurthestNextUse Sc i b));
      [apply assignUse_inv|apply assignUse_defsValid|exact H2|done|done].
Qed.

Lemma fixHeaderLoad_DefLocs headerPred st st' :
  fixHeaderLoad Sc headerPred st = Ok st' →
  DefLocs (impl st') = DefLocs (impl st) ∧ NumLocs (impl st') = NumLocs (impl st)
  ∧ MaxRegs (impl st') = MaxRegs (impl st).
Proof.
  unfold fixHeaderLoad. intros H.
  destruct (UseLocs (impl st) !! getMBB (getHeader Sc)) as [headerUseLocs|]; [|discriminate].
  destruct (headerUseLocs !! headerPred) as [predUseLoc|]; [|discriminate].
  destruct (curLocs st !! headerPred) as [cur|]; [|discriminate].
  destruct (negb _); by injection H as <-.
Qed.

Lemma newImpl_defsValid availRegs I :
  newImpl sortFurthestNextUse Sc availRegs = Ok I → defsValid I.
Proof.
  unfold newImpl, assignLocations. intros H.
  apply bind_Ok in H as (st & H & [= <-]).
  apply bind_Ok in H as (st1 & H1 & H).
  assert (defsValid (impl st1)) as Hd1.
  { eapply scanFrom_defsValid; [exact H1|by apply ScanInv_init|].
    intros p l. simpl. by rewrite lookup_empty. }
  destruct (negb (isTopLevel Sc)); [|by injection H as <-].
  apply assert_Ok in H as [_ H].
  assert (DefLocs (impl st) = DefLocs (impl st1) ∧ NumLocs (impl st) = NumLocs (impl st1)
          ∧ MaxRegs (impl st) = MaxRegs (impl st1)) as (HD & HN & HM).
  { clear -H. revert st1 H.
    induction (getBlockPredicates (getHeader Sc)) as [|x l IH]; simpl; intros st1 H.
    - by injection H as <-.
    - apply bind_Ok in H as (st2 & H2 & H).
      destruct (fixHeaderLoad_DefLocs _ _ _ H2) as (A & B & C).
      destruct (IH _ H) as (A' & B' & C'). split; [congruence|split; congruence]. }
  intros p l. rewrite HD. intros Hl. specialize (Hd1 _ _ Hl).
  unfold validLoc in *. by rewrite HN, HM.
Qed.

End DefinitionLocations.

(* ===================================================================== *)
(** ** From the scopes to the result of [computeRegAlloc] *)

(** The scopes of a tree, a scope before its children. *)
Fixpoint scopes (t : ScopeTree) : list SPScope :=
  match t with
  | ScopeNode scope children => scope :: flat_map scopes children
  end.

(** What the unification passes leave as the allocation made it. *)
Definition sameAlloc (I0 RI : Impl) : Prop :=
  MaxRegs RI = MaxRegs I0 ∧ LRs RI = LRs I0 ∧ DefLocs RI = DefLocs I0
  ∧ NumLocs RI = NumLocs I0 ∧ UseLocs RI = UseLocs I0.

Lemma sameAlloc_refl I : sameAlloc I I.
Proof. by repeat split. Qed.

Lemma sameAlloc_trans I1 I2 I3 : sameAlloc I1 I2 → sameAlloc I2 I3 → sameAlloc I1 I3.
Proof. intros (?&?&?&?&?) (?&?&?&?&?). repeat split; congruence. Qed.

Lemma sameAlloc_unifyWithChildren cs I :
  sameAlloc I (foldl (fun ri c => unifyWithChild (rootRI c) ri) I cs).
Proof.
  revert I. induction cs as [|c cs IH]; intros I; simpl; [apply sameAlloc_refl|].
  eapply sameAlloc_trans; [|apply IH]. by repeat split.
Qed.

Lemma sameAlloc_unifyWithParent parent cnt top I :
  sameAlloc I (unifyWithParent parent cnt top I).
Proof.
  unfold unifyWithParent. destruct (negb top && _); destruct (_ <? _); by repeat split.
Qed.

Lemma Forall2_flat_map {A B C D} (R : C → D → Prop) (f : A → list C) (g : B → list D) l k :
  Forall2 (fun x y => Forall2 R (f x) (g y)) l k →
  Forall2 R (flat_map f l) (flat_map g k).
Proof. induction 1; simpl; [constructor|by apply Forall2_app]. Qed.

Section TreeNodes.

Variable sortFurthestNextUse : gmap nat LiveRange → nat → list nat → list nat.
Variable Avail : nat.

(** A node of a result: the scope it belongs to and the allocation that
    [newImpl] made for that scope. *)
Definition allocatedFor (scope : SPScope) (node : SPScope * Impl) : Prop :=
  node.1 = scope
  ∧ ∃ I0, newImpl sortFurthestNextUse scope Avail = Ok I0 ∧ sameAlloc I0 node.2.

Lemma allocPostOrder_nodes t r :
  allocPostOrder sortFurthestNextUse Avail t = Ok r →
  Forall2 allocatedFor (scopes t) (nodes r).
Proof.
  revert r. induction t as [scope children IH] using ScopeTree_ind'. intros r H.
  cbn [allocPostOrder] in H.
  apply bind_Ok in H as (cs & Hcs & H). apply bind_Ok in H as (RI & HRI & [= <-]).
  simpl. constructor.
  - split; [done|]. exists RI. split; [done|apply sameAlloc_unifyWithChildren].
  - apply Forall2_flat_map. apply mapM_Ok in Hcs. clear -IH Hcs.
    induction Hcs as [|c c' l l' Hc _ IHl]; [constructor|].
    apply Forall_cons in IH as [IHc IH]. constructor; [by apply IHc|by apply IHl].
Qed.

Lemma unifyPreOrder_nodes t0 :
  ∀ parent cnt t cnt',
    unifyPreOrder parent t0 cnt = Ok (t, cnt') →
    Forall2 (fun a b => b.1 = a.1 ∧ sameAlloc a.2 b.2) (nodes t0) (nodes t).
Proof.
  induction t0 as [scope RI children IH] using RATree_ind'.
  intros parent cnt t cnt' H. cbn [unifyPreOrder] in H.
  apply bind_Ok in H as (RI1 & HRI1 & H).
  apply bind_Ok in H as ([cs cnt2] & Hcs & [= <- <-]).
  simpl. constructor.
  - split; [done|]. simpl. destruct (negb (isTopLevel scope)).
    + destruct parent as [P|]; [|discriminate]. injection HRI1 as <-.
      apply sameAlloc_unifyWithParent.
    + injection HRI1 as <-. apply sameAlloc_refl.
  - apply Forall2_flat_map. apply mapAccumM_Ok in Hcs. clear -IH Hcs.
    induction Hcs as [|c c' l l' (a & b & Hc) _ IHl]; [constructor|].
    apply Forall_cons in IH as [IHc IH]. constructor; [by eapply IHc|by apply IHl].
Qed.

(** Every node of a result of [computeRegAlloc] carries the allocation of
    its scope, and the nodes are the scopes of the tree, in the same
    order. *)
Lemma computeRegAlloc_nodes root t :
  computeRegAlloc sortFurthestNextUse Avail root = Ok t →
  Forall2 allocatedFor (scopes root) (nodes t).
Proof.
  unfold computeRegAlloc. intros H.
  apply bind_Ok in H as (t0 & H0 & H). apply bind_Ok in H as ([t' cnt] & H1 & [= <-]).
  apply allocPostOrder_nodes in H0. apply unifyPreOrder_nodes in H1.
  clear -H0 H1. revert H1. generalize (nodes t'). 
  induction H0 as [|s a ss l [Hs (I0 & HI0 & Hsame)] _ IHl]; intros l' H1.
  - inversion H1. constructor.
  - inversion H1 as [|? b ? l2 [Hb Hsame'] Hrest]; subst. constructor; [|by apply IHl].
    split; [congruence|]. exists I0. split; [done|by eapply sameAlloc_trans].
Qed.

Lemma computeRegAlloc_node root t scope RI :
  computeRegAlloc sortFurthestNextUse Avail root = Ok t →
  (scope, RI) ∈ nodes t →
  ∃ I0, newImpl sortFurthestNextUse scope Avail = Ok I0 ∧ sameAlloc I0 RI.
Proof.
  intros H Hin. apply computeRegAlloc_nodes in H.
  apply list_elem_of_lookup in Hin as (i & Hi).
  destruct (Forall2_lookup_r _ _ _ _ _ H Hi) as (s & _ & Hs & HI). simpl in *.
  by subst s.
Qed.

End TreeNodes.

(* --------------------------------------------------------------------- *)
(** *** The queries on a result *)

(** When [getUseLocs] succeeds, it returns the unified location of every
    use descriptor of the block. *)
Lemma getUseLocs_inv I MBB m :
  getUseLocs I MBB = Ok m →
  m = (fun u => unifyRegister I (loc u)) <$> useLocsOf I MBB.
Proof.
  unfold getUseLocs. revert m.
  apply (map_fold_weak_ind
    (fun r mm => ∀ m, r = Ok m → m = (fun u => unifyRegister I (loc u)) <$> mm)).
  - intros m [= <-]. by rewrite fmap_empty.
  - intros pred u mm r Hnone IH m H.
    apply bind_Ok in H as (result & Hr & H). apply assert_Ok in H as [_ [= <-]].
    by rewrite (IH _ Hr), fmap_insert.
Qed.

Section ResultsCover.

Variable sortFurthestNextUse : gmap nat LiveRange → nat → list nat → list nat.
Variable AvailPredRegs : nat.

(** X5.  In a result of [computeRegAlloc], every block of every scope has
    a use location for each of its block predicates, except for the header
    predicate of a single-path root's top-level scope (which uses p0):
    whenever [getUseLocs] returns for the block, the map it returns has an
    entry for the predicate. *)
Theorem computeRegAlloc_use_locations root t scope RI block p m :
  computeRegAlloc sortFurthestNextUse AvailPredRegs root = Ok t →
  (scope, RI) ∈ nodes t →
  block ∈ getBlocksTopoOrd scope →
  p ∈ getBlockPredicates block →
  usesP0 scope p ≠ Ok true →
  getUseLocs RI (getMBB block) = Ok m →
  is_Some (m !! p).
Proof.
  intros H Hin Hb Hp Hp0 Hm.
  destruct (computeRegAlloc_node _ _ _ _ _ _ H Hin) as (I0 & HI0 & (_&_&_&_&HU)).
  destruct (newImpl_cover _ _ _ _ _ HI0 Hb) as [Hu _].
  specialize (Hu p Hp Hp0).
  rewrite (getUseLocs_inv _ _ _ Hm), lookup_fmap.
  unfold useLocsOf in *. rewrite HU. by apply fmap_is_Some.
Qed.

(** X6.  In a result of [computeRegAlloc] made with a sort that only
    rearranges its vector, [getDefLoc] succeeds on every predicate that a
    block of the scope defines.  A register it returns is below the number of
    available registers, and a stack slot it returns lies in the range of
    [neededSpillLocs] slots that starts at the scope's first usable stack
    slot. *)
Theorem computeRegAlloc_def_locations root t scope RI block d :
  (∀ m pos l, sortFurthestNextUse m pos l ≡ₚ l) →
  computeRegAlloc sortFurthestNextUse AvailPredRegs root = Ok t →
  (scope, RI) ∈ nodes t →
  block ∈ getBlocksTopoOrd scope →
  d ∈ getDefinitions block →
  ∃ ty l, getDefLoc RI d = Ok (ty, l)
          ∧ match ty with
            | Register => l < AvailPredRegs
            | Stack => FirstUsableStackSlot RI ≤ l
                       ∧ l < FirstUsableStackSlot RI + neededSpillLocs RI
            end.
Proof.
  intros Hperm H Hin Hb Hd.
  destruct (computeRegAlloc_node _ _ _ _ _ _ H Hin) as (I0 & HI0 & (HM&_&HD&HN&_)).
  destruct (newImpl_cover _ _ _ _ _ HI0 Hb) as [_ Hdef].
  destruct (Hdef ltac:(intros m pos l x Hx; by rewrite Hperm) d Hd) as [l Hl].
  pose proof (newImpl_defsValid _ _ _ _ HI0 _ _ Hl) as Hv.
  apply computeRegAlloc_ok in H.
  destruct (okTree_nodes _ _ _ _ _ H Hin) as (HMA & _ & Hfirst & _).
  unfold getDefLoc. rewrite HD, Hl. unfold validLoc in Hv. rewrite <- HM, <- HN in Hv.
  destruct (getType l) eqn:Ety.
  - eexists _, _. split; [done|]. simpl. unfold unifyRegister.
    destruct Hfirst as [->|Hle]; [lia|]. unfold getCumLocs in Hle. lia.
  - eexists _, _. split; [done|]. simpl. unfold unifyStack, neededSpillLocs.
    destruct (NumLocs RI <? MaxRegs RI) eqn:E.
    + apply Nat.ltb_lt in E. lia.
    + lia.
Qed.

(** X7.  [computeRegAlloc] returns one [RAInfo] for each scope of the tree,
    and the two unification passes change nothing of what the allocation of
    the scope computed: live ranges, definition locations, use descriptors,
    the number of locations and the register budget are those of a fresh
    [RAInfo] of the scope. *)
Theorem computeRegAlloc_keeps_allocations root t :
  computeRegAlloc sortFurthestNextUse AvailPredRegs root = Ok t →
  (nodes t).*1 = scopes root
  ∧ ∀ scope RI, (scope, RI) ∈ nodes t →
      ∃ I0, newImpl sortFurthestNextUse scope AvailPredRegs = Ok I0
            ∧ MaxRegs RI = MaxRegs I0 ∧ LRs RI = LRs I0 ∧ DefLocs RI = DefLocs I0
            ∧ NumLocs RI = NumLocs I0 ∧ UseLocs RI = UseLocs I0.
Proof.
  intros H. split.
  - apply computeRegAlloc_nodes in H. revert H.
    generalize (scopes root) (nodes t). intros ss l H.
    induction H as [|s a ss l [Hs _] _ IH]; [done|]. rewrite fmap_cons. by rewrite Hs, IH.
  - intros scope RI Hin. exact (computeRegAlloc_node _ _ _ _ _ _ H Hin).
Qed.

End ResultsCover.

Lemma exResult_nodes avail :
  avail = 1 ∨ avail = 3 →
  nodes (exResult avail) = [(exRoot, rootRI (exResult avail)); (exLoop, exLoopRI avail)].
Proof. intros [->| ->]; by vm_compute. Qed.

Lemma computeRegAlloc_use_locations_witness :
  ∃ m, getUseLocs (exLoopRI 3) 2 = Ok m ∧ is_Some (m !! 2).
Proof.
  destruct (getUseLocs (exLoopRI 3) 2) as [m| |] eqn:E; [|vm_compute in E; discriminate..].
  exists m. split; [done|].
  refine (computeRegAlloc_use_locations insertionSort 3 exTree (exResult 3) exLoop
            (exLoopRI 3) (mkBlock 2 [2] []) 2 m (exResult_Ok 3 (or_intror eq_refl))
            _ _ _ _ E).
  - rewrite exResult_nodes by (by right). apply list_elem_of_further, list_elem_of_here.
  - apply list_elem_of_further, list_elem_of_here.
  - apply list_elem_of_here.
  - by vm_compute.
Defined.

Lemma computeRegAlloc_def_locations_witness :
  ∃ l, getDefLoc (exLoopRI 1) 2 = Ok (Stack, l)
       ∧ FirstUsableStackSlot (exLoopRI 1) ≤ l
       ∧ l < FirstUsableStackSlot (exLoopRI 1) + neededSpillLocs (exLoopRI 1).
Proof.
  destruct (computeRegAlloc_def_locations insertionSort 1 exTree (exResult 1) exLoop
              (exLoopRI 1) (mkBlock 1 [1] [2]) 2 insertionSort_Permutation
              (exResult_Ok 1 (or_introl eq_refl))) as (ty & l & Hl & Hb).
  - rewrite exResult_nodes by (by left). apply list_elem_of_further, list_elem_of_here.
  - apply list_elem_of_here.
  - apply list_elem_of_here.
  - assert (getDefLoc (exLoopRI 1) 2 = Ok (Stack, 0)) as E by (by vm_compute).
    rewrite E in Hl. injection Hl as <- <-. exists 0. split; [done|exact Hb].
Defined.

Lemma computeRegAlloc_keeps_allocations_witness :
  (nodes (exResult 3)).*1 = [exRoot; exLoop].
Proof.
  exact (proj1 (computeRegAlloc_keeps_allocations insertionSort 3 exTree (exResult 3)
                  (exResult_Ok 3 (or_intror eq_refl)))).
Defined.

(* ===================================================================== *)
(** ** Stack slots of the scopes of a function *)

(** The spill slots that a list of [RAInfo]s needs, and the property that
    each one that has stack locations starts where its predecessors end,
    counting from [cnt]. *)
Definition sumNeeded (l : list (SPScope * Impl)) : nat :=
  foldr (fun a n => neededSpillLocs a.2 + n) 0 l.

Fixpoint slotsFrom (cnt : nat) (l : list (SPScope * Impl)) : Prop :=
  match l with
  | [] => True
  | a :: l' =>
      (MaxRegs a.2 < NumLocs a.2 → FirstUsableStackSlot a.2 = cnt)
      ∧ slotsFrom (cnt + neededSpillLocs a.2) l'
  end.

Lemma sumNeeded_app l1 l2 : sumNeeded (l1 ++ l2) = sumNeeded l1 + sumNeeded l2.
Proof. unfold sumNeeded. induction l1 as [|a l1 IH]; simpl; [done|]. rewrite IH. lia. Qed.

Lemma slotsFrom_app cnt l1 l2 :
  slotsFrom cnt (l1 ++ l2) ↔ slotsFrom cnt l1 ∧ slotsFrom (cnt + sumNeeded l1) l2.
Proof.
  revert cnt. induction l1 as [|a l1 IH]; intros cnt; simpl.
  - rewrite Nat.add_0_r. tauto.
  - rewrite IH. replace (cnt + neededSpillLocs a.2 + sumNeeded l1)
      with (cnt + (neededSpillLocs a.2 + sumNeeded l1)) by lia. tauto.
Qed.

Lemma neededSpillLocs_pos I : 0 < neededSpillLocs I ↔ MaxRegs I < NumLocs I.
Proof.
  unfold neededSpillLocs. destruct (NumLocs I <? MaxRegs I) eqn:E.
  - apply Nat.ltb_lt in E. lia.
  - apply Nat.ltb_ge in E. lia.
Qed.

Lemma slotsFrom_lookup cnt l k a :
  slotsFrom cnt l → l !! k = Some a → 0 < neededSpillLocs a.2 →
  FirstUsableStackSlot a.2 = cnt + sumNeeded (take k l).
Proof.
  revert cnt k. induction l as [|b l IH]; intros cnt k Hs Hk Hpos; [by rewrite lookup_nil in Hk|].
  destruct Hs as [Hb Hs]. destruct k as [|k]; simpl in *.
  - injection Hk as ->. rewrite Hb by (by apply neededSpillLocs_pos). lia.
  - rewrite (IH _ _ Hs Hk Hpos). lia.
Qed.

Lemma sumNeeded_take_le l i j a :
  i < j → l !! i = Some a →
  sumNeeded (take i l) + neededSpillLocs a.2 ≤ sumNeeded (take j l).
Proof.
  revert i j. induction l as [|b l IH]; intros i j Hij Hi; [by rewrite lookup_nil in Hi|].
  destruct j as [|j]; [lia|]. destruct i as [|i]; simpl in *.
  - injection Hi as ->. lia.
  - specialize (IH i j ltac:(lia) Hi). lia.
Qed.

Section StackSlots.

Variable sortFurthestNextUse : gmap nat LiveRange → nat → list nat → list nat.
Variable Avail : nat.

Lemma unifyPreOrder_slots t0 :
  ∀ parent cnt t cnt',
    unifyPreOrder parent t0 cnt = Ok (t, cnt') →
    Forall (fun a => isTopLevel a.1 = false) (flat_map nodes (subtrees t0)) →
    (isTopLevel (rootScope t0) = true →
     MaxRegs (rootRI t0) < NumLocs (rootRI t0) → FirstUsableStackSlot (rootRI t0) = cnt) →
    slotsFrom cnt (nodes t) ∧ cnt' = cnt + sumNeeded (nodes t).
Proof.
  induction t0 as [scope RI children IH] using RATree_ind'.
  intros parent cnt t cnt' H Hinner Hroot. cbn [unifyPreOrder] in H.
  apply bind_Ok in H as (RI1 & HRI1 & H).
  apply bind_Ok in H as ([cs cnt2] & Hcs & [= <- <-]).
  simpl in Hinner, Hroot.
  assert (MaxRegs RI1 = MaxRegs RI ∧ NumLocs RI1 = NumLocs RI
          ∧ (MaxRegs RI1 < NumLocs RI1 → FirstUsableStackSlot RI1 = cnt))
    as (HM & HN & HF).
  { destruct (isTopLevel scope) eqn:Etop; simpl in HRI1.
    - injection HRI1 as <-. split; [done|]. split; [done|]. by apply Hroot.
    - destruct parent as [P|]; [|discriminate]. injection HRI1 as <-.
      destruct (unifyWithParent_fields P cnt false RI) as (F1 & F2 & _).
      split; [done|]. split; [done|]. unfold unifyWithParent.
      set (I1 := if negb false && _ then _ else RI).
      assert (MaxRegs I1 = MaxRegs RI ∧ NumLocs I1 = NumLocs RI) as [E1 E2].
      { unfold I1. by destruct (negb false && _). }
      destruct (MaxRegs I1 <? NumLocs I1) eqn:E; [done|].
      apply Nat.ltb_ge in E. simpl. intros Hlt. rewrite E1, E2 in *. lia. }
  simpl. split; [split; [done|]|].
  - revert Hcs. generalize (cnt + neededSpillLocs RI1). clear -IH Hinner.
    revert cs cnt2. induction children as [|c children IHc]; intros cs cnt2 n Hcs.
    + simpl in Hcs. by injection Hcs as <- <-.
    + cbn [mapAccumM] in Hcs.
      apply bind_Ok in Hcs as ([c' n1] & Hc & Hcs).
      apply bind_Ok in Hcs as ([r n2] & Hr & [= <- <-]).
      apply Forall_cons in IH as [IH1 IH].
      simpl in Hinner. apply Forall_app in Hinner as [Hin1 Hinner].
      destruct c as [sc RIc csc]. simpl in Hin1. apply Forall_cons in Hin1 as [Htop Hin1].
      simpl in Htop.
      destruct (IH1 _ _ _ _ Hc Hin1) as [Hs1 Hn1].
      { simpl. congruence. }
      simpl. apply slotsFrom_app. split; [done|]. rewrite <- Hn1.
      exact (IHc IH Hinner _ _ _ Hr).
  - enough (cnt2 = cnt + neededSpillLocs RI1 + sumNeeded (flat_map nodes cs)) by lia.
    revert Hcs. generalize (cnt + neededSpillLocs RI1). clear -IH Hinner.
    revert cs cnt2. induction children as [|c children IHc]; intros cs cnt2 n Hcs.
    + simpl in Hcs. injection Hcs as <- <-. simpl. lia.
    + cbn [mapAccumM] in Hcs.
      apply bind_Ok in Hcs as ([c' n1] & Hc & Hcs).
      apply bind_Ok in Hcs as ([r n2] & Hr & [= <- <-]).
      apply Forall_cons in IH as [IH1 IH].
      simpl in Hinner. apply Forall_app in Hinner as [Hin1 Hinner].
      destruct c as [sc RIc csc]. simpl in Hin1. apply Forall_cons in Hin1 as [Htop Hin1].
      simpl in Htop.
      destruct (IH1 _ _ _ _ Hc Hin1) as [Hs1 Hn1].
      { simpl. congruence. }
      simpl. rewrite sumNeeded_app. rewrite (IHc IH Hinner _ _ _ Hr). lia.
Qed.

(** X8.  [computeRegAlloc] gives the scopes of a function disjoint ranges
    of stack spill slots, provided only the root scope is top-level: a scope
    that has stack locations starts at the sum of the slots needed by the
    scopes before it in depth-first order, so the range of an earlier scope
    ends at or before the first slot of a later one. *)
Theorem computeRegAlloc_stack_slots_disjoint root t :
  computeRegAlloc sortFurthestNextUse Avail root = Ok t →
  (∀ k a, nodes t !! S k = Some a → isTopLevel a.1 = false) →
  ∀ i j a b,
    i < j → nodes t !! i = Some a → nodes t !! j = Some b →
    0 < neededSpillLocs a.2 → 0 < neededSpillLocs b.2 →
    FirstUsableStackSlot a.2 = sumNeeded (take i (nodes t))
    ∧ FirstUsableStackSlot a.2 + neededSpillLocs a.2 ≤ FirstUsableStackSlot b.2.
Proof.
  unfold computeRegAlloc. intros H Hinner i j a b Hij Hi Hj Ha Hb.
  apply bind_Ok in H as (t0 & H0 & H). apply bind_Ok in H as ([t' cnt] & H1 & [= <-]).
  assert (FirstUsableStackSlot (rootRI t0) = 0) as Hroot.
  { destruct root as [scope children]. cbn [allocPostOrder] in H0.
    apply bind_Ok in H0 as (cs & _ & H0). apply bind_Ok in H0 as (RI & HRI & [= <-]).
    destruct (newImpl_inv _ _ _ _ HRI) as (_ & _ & _ & HO). injection HO as _ _ HF _.
    simpl. clear -HF. revert RI HF. induction cs as [|c cs IH]; intros RI HF; simpl; [done|].
    by apply IH. }
  pose proof (unifyPreOrder_nodes _ _ _ _ _ H1) as Hnodes.
  destruct (unifyPreOrder_slots _ _ _ _ _ H1) as [Hs _].
  { destruct t0 as [sc RI0 cs0], t' as [sc' RI' cs']. simpl in *.
    inversion Hnodes as [|? ? ? ? _ Hrest]; subst.
    apply Forall_lookup. intros k x Hx.
    destruct (Forall2_lookup_l _ _ _ _ _ Hrest Hx) as (y & Hy & Hxy & _).
    rewrite <- Hxy. by apply (Hinner k y). }
  { intros _ _. exact Hroot. }
  rewrite (slotsFrom_lookup _ _ _ _ Hs Hi Ha), (slotsFrom_lookup _ _ _ _ Hs Hj Hb).
  split; [done|]. pose proof (sumNeeded_take_le _ _ _ _ Hij Hi). lia.
Qed.

End StackSlots.

(** A function whose two scopes both need stack slots with one register. *)
Definition exRoot2 : SPScope :=
  mkScope (mkBlock 0 [0] [1; 2]) [mkBlock 1 [1] []; mkBlock 2 [2] []] true true 0 false.
Definition exLoop2 : SPScope :=
  mkScope (mkBlock 3 [3] [4]) [mkBlock 4 [4] []] false false 1 true.
Definition exTree2 : ScopeTree := ScopeNode exRoot2 [ScopeNode exLoop2 []].

Definition exResult2 : RATree :=
  match computeRegAlloc insertionSort 1 exTree2 with
  | Ok t => t
  | _ => RANode exRoot2 (initialImpl exRoot2 1) []
  end.

Definition exRootRI2 : Impl := rootRI exResult2.
Definition exLoopRI2 : Impl :=
  match subtrees exResult2 with
  | c :: _ => rootRI c
  | [] => initialImpl exLoop2 1
  end.

Lemma exResult2_Ok : computeRegAlloc insertionSort 1 exTree2 = Ok exResult2.
Proof. by vm_compute. Qed.

Lemma exResult2_nodes : nodes exResult2 = [(exRoot2, exRootRI2); (exLoop2, exLoopRI2)].
Proof. by vm_compute. Qed.

Lemma computeRegAlloc_stack_slots_disjoint_witness :
  FirstUsableStackSlot exRootRI2 = 0
  ∧ FirstUsableStackSlot exRootRI2 + neededSpillLocs exRootRI2
    ≤ FirstUsableStackSlot exLoopRI2.
Proof.
  refine (computeRegAlloc_stack_slots_disjoint insertionSort 1 exTree2 exResult2
            exResult2_Ok _ 0 1 (exRoot2, exRootRI2) (exLoop2, exLoopRI2) _ _ _ _ _).
  - intros k a. rewrite exResult2_nodes. destruct k as [|k]; simpl; [by intros [= <-]|].
    by rewrite lookup_nil.
  - lia.
  - by rewrite exResult2_nodes.
  - by rewrite exResult2_nodes.
  - vm_compute. lia.
  - vm_compute. lia.
Defined.

(* ===================================================================== *)
(** ** Registers of a scope and of its parent *)

Lemma edges_nodes t P c :
  (P, c) ∈ edges t →
  (∃ scope, (scope, P) ∈ nodes t) ∧ (rootScope c, rootRI c) ∈ nodes t.
Proof.
  induction t as [sc I cs IH] using RATree_ind'. simpl. intros Hin.
  apply list_elem_of_In, in_flat_map in Hin as (d & Hd & Hin).
  apply list_elem_of_In in Hd. rewrite Forall_forall in IH.
  assert (∀ x, x ∈ nodes d → x ∈ (sc, I) :: flat_map nodes cs) as Hsub.
  { intros x Hx. apply list_elem_of_further, list_elem_of_In, in_flat_map.
    exists d. by rewrite <- !list_elem_of_In. }
  destruct Hin as [[= <- <-]|Hin].
  - split; [exists sc; apply list_elem_of_here|].
    apply Hsub. destruct d; simpl. apply list_elem_of_here.
  - apply list_elem_of_In in Hin. destruct (IH _ Hd Hin) as [(s & Hs) Hc].
    split; [exists s|]; by apply Hsub.
Qed.

Lemma edges_subtree t P c d :
  (P, c) ∈ edges t → d ∈ subtrees c → (rootRI c, d) ∈ edges t.
Proof.
  induction t as [sc I cs IH] using RATree_ind'. simpl. intros Hin Hd.
  apply list_elem_of_In, in_flat_map in Hin as (e & He & Hin).
  apply list_elem_of_In in He. rewrite Forall_forall in IH.
  apply list_elem_of_In, in_flat_map. exists e. split; [by apply list_elem_of_In|].
  right. apply list_elem_of_In.
  destruct Hin as [[= <- <-]|Hin].
  - destruct e as [se Ie cse]. simpl in *.
    apply list_elem_of_In, in_flat_map. exists d. split; [by apply list_elem_of_In|].
    by left.
  - apply list_elem_of_In in Hin. by apply IH.
Qed.

Lemma getUseLocs_bound I MBB m p l :
  getUseLocs I MBB = Ok m → m !! p = Some l → l < MaxRegs I.
Proof.
  unfold getUseLocs. revert m.
  apply (map_fold_weak_ind
    (fun r (mm : gmap nat UseLoc) => ∀ m, r = Ok m → m !! p = Some l → l < MaxRegs I)).
  - intros m [= <-]. by rewrite lookup_empty.
  - intros pred u mm r Hnone IH m H.
    apply bind_Ok in H as (result & Hr & H). apply assert_Ok in H as [Hlt [= <-]].
    apply Nat.ltb_lt in Hlt. destruct (decide (p = pred)) as [->|Hne].
    + rewrite lookup_insert_eq. by intros [= <-].
    + rewrite lookup_insert_ne by done. by apply IH.
Qed.

Section Registers.

Variable sortFurthestNextUse : gmap nat LiveRange → nat → list nat → list nat.
Variable Avail : nat.

(** The first usable register of a scope that is not top-level: 0 when the
    scope spills around itself, else the first register that its parent does
    not use. *)
Definition firstRegOf (P RI : Impl) : Prop :=
  FirstUsableReg RI = if NeedsScopeSpill RI then 0 else FirstUsableReg P + NumLocs P.

Lemma unifyPreOrder_regs t0 :
  preTree Avail t0 →
  ∀ parent cnt t cnt',
    unifyPreOrder parent t0 cnt = Ok (t, cnt') →
    rootScope t = rootScope t0
    ∧ (isTopLevel (rootScope t0) = false → ∃ P, parent = Some P ∧ firstRegOf P (rootRI t))
    ∧ ∀ P c, (P, c) ∈ edges t → isTopLevel (rootScope c) = false →
        firstRegOf P (rootRI c).
Proof.
  induction t0 as [scope RI children IH] using RATree_ind'.
  intros Hpre parent cnt t cnt' H.
  inversion Hpre as [? ? ? HM Hv HF HN HC Hchildren]; subst.
  cbn [unifyPreOrder] in H.
  apply bind_Ok in H as (RI1 & HRI1 & H).
  apply bind_Ok in H as ([cs cnt2] & Hcs & [= <- <-]).
  simpl. split; [done|]. split.
  - intros Htop. rewrite Htop in HRI1. simpl in HRI1.
    destruct parent as [P|]; [|discriminate]. injection HRI1 as <-.
    exists P. split; [done|]. exact (proj2 (unifyWithParent_spill P cnt RI HN HF)).
  - apply mapAccumM_Ok in Hcs. clear -IH Hchildren Hcs.
    induction Hcs as [|c c' l l' (a & b & Hc) _ IHl]; intros P d Hin Htop.
    + simpl in Hin. by apply elem_of_nil in Hin.
    + apply Forall_cons in IH as [IHc IH]. apply Forall_cons in Hchildren as [Hprec Hpre].
      destruct (IHc Hprec _ _ _ _ Hc) as (Hsc & Hroot & Hedges).
      simpl in Hin. apply elem_of_cons in Hin as [[= -> ->]|Hin].
      * rewrite Hsc in Htop. by destruct (Hroot Htop) as (P' & [= <-] & HP').
      * apply elem_of_app in Hin as [Hin|Hin]; [by apply Hedges|by apply IHl].
Qed.

Lemma computeRegAlloc_regs root t P c :
  computeRegAlloc sortFurthestNextUse Avail root = Ok t →
  (P, c) ∈ edges t → isTopLevel (rootScope c) = false → firstRegOf P (rootRI c).
Proof.
  unfold computeRegAlloc. intros H.
  apply bind_Ok in H as (t0 & H0 & H). apply bind_Ok in H as ([t' cnt] & H1 & [= <-]).
  apply allocPostOrder_pre in H0.
  destruct (unifyPreOrder_regs _ H0 _ _ _ _ H1) as (_ & _ & He). apply He.
Qed.

(** X9.  In a result of [computeRegAlloc], a scope that needs no scope
    spill uses only registers above those of its parent: every register that
    [getUseLocs] returns for a block of the parent is below every register
    that it returns for a block of the scope. *)
Theorem no_spill_scope_registers_above_parent root t P c MBB MBB' mP mc p q rp rc :
  computeRegAlloc sortFurthestNextUse Avail root = Ok t →
  (P, c) ∈ edges t →
  isTopLevel (rootScope c) = false →
  needsScopeSpill (rootRI c) = false →
  getUseLocs P MBB = Ok mP → getUseLocs (rootRI c) MBB' = Ok mc →
  mP !! p = Some rp → mc !! q = Some rc →
  rp < rc.
Proof.
  intros H Hin Htop Hns HmP Hmc Hp Hq.
  pose proof (computeRegAlloc_regs _ _ _ _ H Hin Htop) as Hfirst.
  unfold firstRegOf in Hfirst. unfold needsScopeSpill in Hns. rewrite Hns in Hfirst.
  pose proof (getUseLocs_bound _ _ _ _ _ HmP Hp) as HltP.
  apply computeRegAlloc_ok in H.
  destruct (edges_nodes _ _ _ Hin) as [(scP & HP) _].
  destruct (okTree_nodes _ _ _ _ _ H HP) as (HMP & HvP & _).
  rewrite (getUseLocs_inv _ _ _ HmP), lookup_fmap in Hp.
  rewrite (getUseLocs_inv _ _ _ Hmc), lookup_fmap in Hq.
  destruct (useLocsOf P MBB !! p) as [u|] eqn:Eu; [|done].
  destruct (useLocsOf (rootRI c) MBB' !! q) as [v|] eqn:Ev; [|done].
  simpl in Hp, Hq. injection Hp as <-. injection Hq as <-.
  destruct (useLocsOf_valid _ _ _ _ HvP Eu) as [_ Hb].
  destruct Hb as [_ Hb]; [lia|]. unfold unifyRegister in *. lia.
Qed.

(** X10.  In a result of [computeRegAlloc], needing no scope spill is
    inherited: the scopes directly inside a scope that needs none need
    none either. *)
Theorem no_spill_is_inherited root t P c d :
  computeRegAlloc sortFurthestNextUse Avail root = Ok t →
  (P, c) ∈ edges t → d ∈ subtrees c →
  isTopLevel (rootScope c) = false → isTopLevel (rootScope d) = false →
  needsScopeSpill (rootRI c) = false →
  needsScopeSpill (rootRI d) = false.
Proof.
  intros H Hin Hd Htc Htd Hns. apply computeRegAlloc_ok in H.
  destruct (okTree_edges _ _ _ _ _ H Hin Htc) as [Hc HCc].
  destruct (okTree_edges _ _ _ _ _ H (edges_subtree _ _ _ _ Hin Hd) Htd) as [Hdd _].
  unfold needsScopeSpill in *. apply Hdd. apply Hc in Hns.
  pose proof (maxCum_ge _ _ Hd) as Hmax. unfold getCumLocs in Hns at 1.
  rewrite HCc in Hns. lia.
Qed.

End Registers.

(* --------------------------------------------------------------------- *)
(** *** Spills, loads and [hasSpillLoad] *)

(** X11.  [hasSpillLoad] answers true for a block exactly when
    [getLoadLocs] or [getSpillLocs] has an entry for some predicate at that
    block. *)
Theorem hasSpillLoad_iff (I : Impl) (MBB : nat) :
  hasSpillLoad I MBB = true
  ↔ ∃ pred, is_Some (getLoadLocs I MBB !! pred) ∨ is_Some (getSpillLocs I MBB !! pred).
Proof.
  unfold hasSpillLoad, getLoadLocs, getSpillLocs. rewrite existsb_exists. split.
  - intros ([pred ul] & Hin & H). apply list_elem_of_In, elem_of_map_to_list in Hin.
    exists pred. rewrite !getAnyLoc_lookup, Hin. simpl in *.
    apply orb_true_iff in H as [H|H]; apply bool_decide_eq_true in H as [x Hx];
      [right|left]; rewrite Hx; simpl; eauto.
  - intros (pred & H). rewrite !getAnyLoc_lookup in H.
    destruct (useLocsOf I MBB !! pred) as [ul|] eqn:E; simpl in H.
    2:{ destruct H as [[? [=]]|[? [=]]]. }
    exists (pred, ul). split; [by apply list_elem_of_In, elem_of_map_to_list|].
    simpl. apply orb_true_iff.
    destruct H as [H|H]; [right|left]; apply bool_decide_eq_true;
      [destruct (load ul)|destruct (spill ul)]; simpl in H; eauto; by destruct H.
Qed.

Lemma exResult3_edges :
  edges (exResult 3) = [(rootRI (exResult 3), RANode exLoop (exLoopRI 3) [])].
Proof. by vm_compute. Qed.

Lemma no_spill_scope_registers_above_parent_witness :
  ∃ mP mc, getUseLocs (rootRI (exResult 3)) 1 = Ok mP ∧ getUseLocs (exLoopRI 3) 2 = Ok mc
           ∧ mP !! 1 = Some 0 ∧ mc !! 2 = Some 2 ∧ 0 < 2.
Proof.
  destruct (getUseLocs (rootRI (exResult 3)) 1) as [mP| |] eqn:EP;
    [|vm_compute in EP; discriminate..].
  destruct (getUseLocs (exLoopRI 3) 2) as [mc| |] eqn:Ec;
    [|vm_compute in Ec; discriminate..].
  assert (mP !! 1 = Some 0) as Hp.
  { vm_compute in EP. injection EP as <-. reflexivity. }
  assert (mc !! 2 = Some 2) as Hq.
  { vm_compute in Ec. injection Ec as <-. reflexivity. }
  exists mP, mc. split; [done|]. split; [done|]. split; [done|]. split; [done|].
  refine (no_spill_scope_registers_above_parent insertionSort 3 exTree (exResult 3)
            (rootRI (exResult 3)) (RANode exLoop (exLoopRI 3) []) 1 2 mP mc 1 2 0 2
            (exResult_Ok 3 (or_intror eq_refl)) _ _ _ EP Ec Hp Hq).
  - rewrite exResult3_edges. apply list_elem_of_here.
  - reflexivity.
  - by vm_compute.
Defined.

(** Three nested scopes that fit into five registers. *)
Definition exInner : SPScope :=
  mkScope (mkBlock 5 [5] []) [] false false 2 true.
Definition exTree3 : ScopeTree :=
  ScopeNode exRoot [ScopeNode exLoop [ScopeNode exInner []]].

Lemma no_spill_is_inherited_witness :
  ∃ t P c d, computeRegAlloc insertionSort 5 exTree3 = Ok t
             ∧ (P, c) ∈ edges t ∧ d ∈ subtrees c
             ∧ needsScopeSpill (rootRI c) = false ∧ needsScopeSpill (rootRI d) = false.
Proof.
  destruct (computeRegAlloc insertionSort 5 exTree3) as [t| |] eqn:E;
    [|vm_compute in E; discriminate..].
  assert (∃ RI0 RI1 RI2,
            t = RANode exRoot RI0 [RANode exLoop RI1 [RANode exInner RI2 []]]
            ∧ NeedsScopeSpill RI1 = false) as (RI0 & RI1 & RI2 & -> & Hns).
  { vm_compute in E. injection E as <-. eexists _, _, _. split; reflexivity. }
  exists (RANode exRoot RI0 [RANode exLoop RI1 [RANode exInner RI2 []]]), RI0,
    (RANode exLoop RI1 [RANode exInner RI2 []]), (RANode exInner RI2 []).
  assert ((RI0, RANode exLoop RI1 [RANode exInner RI2 []])
          ∈ edges (RANode exRoot RI0 [RANode exLoop RI1 [RANode exInner RI2 []]])) as Hin.
  { simpl. apply list_elem_of_here. }
  assert (RANode exInner RI2 [] ∈ subtrees (RANode exLoop RI1 [RANode exInner RI2 []])) as Hd.
  { simpl. apply list_elem_of_here. }
  split; [done|]. split; [done|]. split; [done|]. split; [done|].
  exact (no_spill_is_inherited insertionSort 5 exTree3 _ _ _ _ E Hin Hd eq_refl eq_refl Hns).
Defined.

(* ===================================================================== *)
(** ** Frame indices of the eliminator *)

(** X12.  [normalizeFI] and [denormalizeFI] are inverse to each other on
    the frame indices of the eliminator: a frame index (an [int]) that
    [normalizeFI] accepts is given back by [denormalizeFI], and a
    non-negative frame index that [denormalizeFI] returns for a bit position
    is normalized to that position. *)
Theorem normalizeFI_denormalizeFI (NumFIs OffsetFIs : nat) (fi : Z) (n : nat) :
  (fi < 2 ^ 31)%Z → (Z.of_nat NumFIs ≤ 2 ^ 32)%Z →
  (normalizeFI NumFIs OffsetFIs fi = Ok n → denormalizeFI NumFIs OffsetFIs n = Ok fi)
  ∧ (denormalizeFI NumFIs OffsetFIs n = Ok fi → (0 ≤ fi)%Z →
     normalizeFI NumFIs OffsetFIs fi = Ok n).
Proof.
  intros Hfi HN. unfold normalizeFI, denormalizeFI. split.
  - intros H. apply assert_Ok in H as [Hc [= <-]].
    apply andb_true_iff in Hc as [H0 Hlt]. apply Z.leb_le in H0. apply Z.ltb_lt in Hlt.
    pose proof (Z.mod_pos_bound (fi - Z.of_nat OffsetFIs) (2 ^ 32) ltac:(lia)) as Hb.
    apply assert_Ok. split; [apply Nat.ltb_lt; lia|]. f_equal.
    rewrite Z2Nat.id by lia. rewrite Zplus_mod_idemp_l.
    replace (fi - Z.of_nat OffsetFIs + Z.of_nat OffsetFIs)%Z with fi by lia.
    rewrite Z.mod_small by lia.
    destruct (fi <? 2 ^ 31)%Z eqn:E; [done|]. apply Z.ltb_ge in E. lia.
  - intros H Hpos. apply assert_Ok in H as [Hlt H]. apply Nat.ltb_lt in Hlt.
    pose proof (Z.mod_pos_bound (Z.of_nat n + Z.of_nat OffsetFIs) (2 ^ 32) ltac:(lia)) as Hb.
    assert (fi = (Z.of_nat n + Z.of_nat OffsetFIs) mod 2 ^ 32)%Z as Hsum.
    { destruct ((Z.of_nat n + Z.of_nat OffsetFIs) mod 2 ^ 32 <? 2 ^ 31)%Z;
        injection H as <-; [done|lia]. }
    assert ((fi - Z.of_nat OffsetFIs) mod 2 ^ 32 = Z.of_nat n)%Z as Hnorm.
    { rewrite Hsum, Zminus_mod_idemp_l.
      replace (Z.of_nat n + Z.of_nat OffsetFIs - Z.of_nat OffsetFIs)%Z with (Z.of_nat n) by lia.
      apply Z.mod_small. lia. }
    apply assert_Ok. split.
    + apply andb_true_iff. split; [by apply Z.leb_le|]. apply Z.ltb_lt. lia.
    + f_equal. rewrite Hnorm. apply Nat2Z.id.
Qed.

Lemma normalizeFI_denormalizeFI_witness :
  normalizeFI 4 7 9 = Ok 2 ∧ denormalizeFI 4 7 2 = Ok 9%Z.
Proof.
  assert (normalizeFI 4 7 9 = Ok 2) as H by reflexivity.
  split; [exact H|].
  exact (proj1 (normalizeFI_denormalizeFI 4 7 9 2 ltac:(lia) ltac:(lia)) H).
Defined.
(* ===================================================================== *)
(** ** What a removable load means along the paths of the function *)

Section EliminatorPaths.

Variable MF : MachineFunction.
Variable TgtReg : Reg.
Variable NumFIs : nat.
Variable OffsetFIs : nat.
Variable RPOT : list nat.

(** The frame index of the last unconditional load of the tracked register
    in a sequence of instructions, [acc] when there is none. *)
Fixpoint lastLoadFrom (acc : option Z) (mis : list MachineInstr) : option Z :=
  match mis with
  | [] => acc
  | MI :: mis' =>
      lastLoadFrom (match isUncondLoad TgtReg MI with
                    | Some fi => Some fi
                    | None => acc
                    end) mis'
  end.

Definition lastLoad (mis : list MachineInstr) : option Z := lastLoadFrom None mis.

(** The instructions of a sequence of blocks, one block after the other. *)
Definition trace (path : list nat) : list MachineInstr :=
  flat_map (fun b => default [] (instrs <$> MF !! b)) path.

(** [reaches path b]: the blocks of [path], in this order, lead from a
    block without predecessors to block [b] along predecessor edges, and all
    of them are blocks of the traversal. *)
Inductive reaches : list nat → nat → Prop :=
| reaches_entry b MBB :
    b ∈ RPOT → MF !! b = Some MBB → predecessors MBB = [] → reaches [] b
| reaches_step path p b MBB :
    reaches path p → b ∈ RPOT → MF !! b = Some MBB → p ∈ predecessors MBB →
    reaches (path ++ [p]) b.

Lemma lastLoadFrom_app acc mis1 mis2 :
  lastLoadFrom acc (mis1 ++ mis2) = lastLoadFrom (lastLoadFrom acc mis1) mis2.
Proof. revert acc. induction mis1 as [|MI mis1 IH]; intros acc; simpl; [done|apply IH]. Qed.

Lemma lastLoadFrom_acc acc mis :
  lastLoadFrom acc mis =
    match lastLoad mis with
    | Some fi => Some fi
    | None => acc
    end.
Proof.
  unfold lastLoad. revert acc. induction mis as [|MI mis IH]; intros acc; simpl; [done|].
  rewrite IH. rewrite (IH (match isUncondLoad TgtReg MI with Some fi => Some fi | None => None end)).
  destruct (lastLoadFrom None mis); [done|]. by destruct (isUncondLoad TgtReg MI).
Qed.

Lemma lastLoad_app mis1 mis2 :
  lastLoad (mis1 ++ mis2) =
    match lastLoad mis2 with
    | Some fi => Some fi
    | None => lastLoad mis1
    end.
Proof. unfold lastLoad at 1. by rewrite lastLoadFrom_app, lastLoadFrom_acc. Qed.

(** The slot [n] is live after a sequence of instructions when its last
    load is a load of slot [n], or it has no load and [n] was live before. *)
Lemma liveThrough_last mis livefi out n :
  liveThrough TgtReg NumFIs OffsetFIs mis livefi = Ok out →
  bv_test n out = true →
  match lastLoad mis with
  | Some fi => normalizeFI NumFIs OffsetFIs fi = Ok n
  | None => bv_test n livefi = true
  end.
Proof.
  revert livefi. induction mis as [|MI mis IH]; intros livefi H Hn; simpl in H.
  - by injection H as <-.
  - unfold lastLoad. simpl. rewrite lastLoadFrom_acc.
    destruct (isUncondLoad TgtReg MI) as [fi|] eqn:Efi.
    + apply bind_Ok in H as (m & Hm & H). specialize (IH _ H Hn).
      destruct (lastLoad mis); [done|].
      unfold bv_test, bv_set in IH. destruct (decide (m = n)) as [->|Hne]; [done|].
      rewrite list_lookup_insert_ne in IH by done.
      destruct (replicate NumFIs false !! n) as [x|] eqn:E; [|done].
      apply lookup_replicate in E as [-> _]. done.
    + specialize (IH _ H Hn). by destruct (lastLoad mis).
Qed.

(** X13.  A load that [findRedundantLoads] marks as removable (and that
    was not registered beforehand) repeats the last load on every path to it:
    along every sequence of blocks of the traversal that leads from a block
    without predecessors to the block of the load by predecessor edges, the
    instructions before the load contain an unconditional load of the
    tracked register, and the last one of them loads the same (normalized)
    slot as the marked load. *)
Theorem removable_load_repeats_last_load fuel R0 R1 BIs b k path :
  findRedundantLoads MF TgtReg NumFIs OffsetFIs RPOT fuel
    (map (fun _ => newBlockinfo NumFIs) MF) R0 = Some (Ok (R1, BIs)) →
  (b, k) ∈ R1 → (b, k) ∉ R0 →
  reaches path b →
  ∃ MBB MI fi fi' n,
    MF !! b = Some MBB ∧ instrs MBB !! k = Some MI
    ∧ isUncondLoad TgtReg MI = Some fi
    ∧ normalizeFI NumFIs OffsetFIs fi = Ok n
    ∧ lastLoad (trace path ++ take k (instrs MBB)) = Some fi'
    ∧ normalizeFI NumFIs OffsetFIs fi' = Ok n.
Proof.
  intros H HR1 HR0 Hpath.
  destruct (findRedundantLoads_fixed_point _ _ _ _ _ _ _ _ _ _ H) as [Hfix Hmark].
  apply Hmark in HR1 as [HR1|(Hb & MBB & BI & MI & fi & n & bv & HMBB & HBI & HMI & Hfi & Hn
                                 & Hbv & Htest)]; [done|].
  exists MBB, MI, fi.
  (* along a path, a slot that is live at the entry of a block was loaded last *)
  assert (∀ path b, reaches path b →
            ∀ BI, BIs !! b = Some BI → bv_test n (LiveFIEntry BI) = true →
            ∃ fi', lastLoad (trace path) = Some fi'
                   ∧ normalizeFI NumFIs OffsetFIs fi' = Ok n) as Hentry.
  { clear -Hfix. intros path b Hp.
    induction Hp as [b MBB Hb HMBB Hnopred|path p b MBB Hp IH Hb HMBB Hpred];
      intros BI HBI Hn.
    - destruct (Hfix b Hb) as (MBB' & BI' & HMBB' & HBI' & Hin & _).
      assert (MBB' = MBB) as -> by congruence. assert (BI' = BI) as -> by congruence.
      apply Hin in Hn as (_ & Hne & _). done.
    - destruct (Hfix b Hb) as (MBB' & BI' & HMBB' & HBI' & Hin & _).
      assert (MBB' = MBB) as -> by congruence. assert (BI' = BI) as -> by congruence.
      apply Hin in Hn as (_ & _ & Hall). destruct (Hall p Hpred) as (BIp & HBIp & Hexit).
      assert (p ∈ RPOT) as HpR by (by inversion Hp).
      destruct (Hfix p HpR) as (MBBp & BIp' & HMBBp & HBIp' & _ & Hthrough).
      assert (BIp' = BIp) as -> by congruence.
      pose proof (liveThrough_last _ _ _ _ Hthrough Hexit) as Hlast.
      unfold trace. rewrite flat_map_app. simpl. rewrite app_nil_r, HMBBp. simpl.
      rewrite lastLoad_app. destruct (lastLoad (instrs MBBp)) as [fi'|]; [eauto|].
      by apply (IH BIp). }
  pose proof (liveThrough_last _ _ _ _ Hbv Htest) as Hlast.
  rewrite lastLoad_app. destruct (lastLoad (take k (instrs MBB))) as [fi'|].
  - exists fi', n. done.
  - destruct (Hentry path b Hpath BI HBI Hlast) as (fi' & Hl & Hn').
    exists fi', n. done.
Qed.

End EliminatorPaths.

Lemma removable_load_repeats_last_load_witness :
  reaches twoBlocks [0; 1] [0] 1
  ∧ ∃ MBB MI fi fi' n,
      twoBlocks !! 1 = Some MBB ∧ instrs MBB !! 0 = Some MI
      ∧ isUncondLoad R26 MI = Some fi
      ∧ normalizeFI 1 0 fi = Ok n
      ∧ lastLoad R26 (trace twoBlocks [0] ++ take 0 (instrs MBB)) = Some fi'
      ∧ normalizeFI 1 0 fi' = Ok n.
Proof.
  assert (findRedundantLoads twoBlocks R26 1 0 [0; 1] 3
            (map (fun _ => newBlockinfo 1) twoBlocks) ∅
          = Some (Ok ({[ (1, 0) ]}, [mkBI [true] [false]; mkBI [true] [true]]))) as Hrun
    by (by vm_compute).
  assert (reaches twoBlocks [0; 1] [0] 1) as Hreach.
  { apply (reaches_step twoBlocks [0; 1] [] 0 1 (mkMBB [loadSlot 0] [0] [])).
    - apply (reaches_entry twoBlocks [0; 1] 0 (mkMBB [loadSlot 0] [] [1]));
        [apply list_elem_of_here|reflexivity|reflexivity].
    - apply list_elem_of_further, list_elem_of_here.
    - reflexivity.
    - apply list_elem_of_here. }
  split; [exact Hreach|].
  apply (removable_load_repeats_last_load twoBlocks R26 1 0 [0; 1] 3 ∅ _ _ 1 0 [0] Hrun);
    [by apply elem_of_singleton|by apply not_elem_of_empty|exact Hreach].
Defined.
(* ===================================================================== *)
(** ** The number that [process] returns *)

(** The number of instructions of a function. *)
Definition numInstrs (F : MachineFunction) : nat :=
  foldr (fun MBB n => length (instrs MBB) + n) 0 F.

(** The instructions that stay when those at the positions marked by [g]
    are erased. *)
Definition keep (g : nat → bool) (mis : list MachineInstr) : list MachineInstr :=
  omap id (imap (fun k MI => if g k then None else Some MI) mis).

Lemma keep_cons g MI mis :
  keep g (MI :: mis) = (if g 0 then [] else [MI]) ++ keep (g ∘ S) mis.
Proof. unfold keep. simpl. by destruct (g 0). Qed.

Lemma keep_ext g g' mis :
  (∀ k, k < length mis → g k = g' k) → keep g mis = keep g' mis.
Proof.
  revert g g'. induction mis as [|MI mis IH]; intros g g' H; [done|].
  rewrite !keep_cons, (H 0) by (simpl; lia). f_equal.
  apply IH. intros k Hk. apply (H (S k)). simpl. lia.
Qed.

Lemma keep_one_more g g' mis k0 :
  k0 < length mis → g k0 = false → g' k0 = true →
  (∀ k, k ≠ k0 → g' k = g k) →
  length (keep g' mis) + 1 = length (keep g mis).
Proof.
  revert g g' k0. induction mis as [|MI mis IH]; intros g g' k0 Hk Hg Hg' Hother;
    [simpl in Hk; lia|].
  rewrite !keep_cons. destruct k0 as [|k0].
  - rewrite Hg, Hg'. rewrite (keep_ext (g' ∘ S) (g ∘ S)).
    + simpl. lia.
    + intros k _. apply Hother. lia.
  - rewrite (Hother 0) by lia. rewrite !length_app.
    rewrite <- (IH (g ∘ S) (g' ∘ S) k0); [lia|simpl in Hk; lia|done|done|].
    intros k Hne. apply Hother. lia.
Qed.

Lemma eraseFrom_keep R b MBB :
  instrs (eraseFrom R b MBB) = keep (fun k => bool_decide ((b, k) ∈ R)) (instrs MBB).
Proof. done. Qed.

Lemma numInstrs_imap_ext (f g : nat → MachineBasicBlock → MachineBasicBlock) F :
  (∀ b MBB, F !! b = Some MBB → length (instrs (f b MBB)) = length (instrs (g b MBB))) →
  numInstrs (imap f F) = numInstrs (imap g F).
Proof.
  revert f g. induction F as [|MBB F IH]; intros f g H; simpl; [done|].
  rewrite (H 0 MBB eq_refl). f_equal. apply IH. intros b M Hb. apply (H (S b)). done.
Qed.

Lemma numInstrs_imap_one_more (f g : nat → MachineBasicBlock → MachineBasicBlock) F b0 MBB0 :
  F !! b0 = Some MBB0 →
  length (instrs (f b0 MBB0)) + 1 = length (instrs (g b0 MBB0)) →
  (∀ b MBB, b ≠ b0 → F !! b = Some MBB →
     length (instrs (f b MBB)) = length (instrs (g b MBB))) →
  numInstrs (imap f F) + 1 = numInstrs (imap g F).
Proof.
  revert f g b0. induction F as [|MBB F IH]; intros f g b0 Hb0 Hone Hother;
    [by rewrite lookup_nil in Hb0|].
  simpl. destruct b0 as [|b0]; simpl in Hb0.
  - injection Hb0 as ->. rewrite (numInstrs_imap_ext (f ∘ S) (g ∘ S)); [lia|].
    intros b M Hb. apply (Hother (S b)); [lia|done].
  - rewrite (Hother 0 MBB) by (done || lia).
    rewrite <- (IH (f ∘ S) (g ∘ S) b0 Hb0 Hone); [lia|].
    intros b M Hne Hb. apply (Hother (S b)); [lia|done].
Qed.

Lemma numInstrs_remove (F : MachineFunction) (R : gset InstrRef) :
  (∀ r, r ∈ R → is_Some (instrAt F r)) →
  numInstrs (remove F R).2 + size R = numInstrs F.
Proof.
  unfold remove. simpl. induction R as [|r R Hr IH] using set_ind_L; intros Hvalid.
  - rewrite size_empty, Nat.add_0_r.
    pose proof (remove_empty F) as H. unfold remove in H. simpl in H. by rewrite H.
  - rewrite size_union, size_singleton by set_solver.
    rewrite <- IH by (intros x Hx; apply Hvalid; set_solver).
    destruct r as [b0 k0]. destruct (Hvalid (b0, k0)) as [MI HMI]; [set_solver|].
    unfold instrAt in HMI. simpl in HMI.
    destruct (F !! b0) as [MBB0|] eqn:Eb; [|done]. simpl in HMI.
    rewrite <- (numInstrs_imap_one_more (eraseFrom ({[(b0, k0)]} ∪ R)) (eraseFrom R) F b0 MBB0);
      [lia|done| |].
    + rewrite !eraseFrom_keep. apply (keep_one_more _ _ _ k0).
      * by eapply lookup_lt_Some.
      * by apply bool_decide_eq_false_2.
      * apply bool_decide_eq_true_2. set_solver.
      * intros k Hne. apply bool_decide_ext.
        rewrite elem_of_union, elem_of_singleton. split; [|by right].
        intros [[= ?]|?]; done.
    + intros b MBB Hne _. rewrite !eraseFrom_keep. f_equal. apply keep_ext.
      intros k _. apply bool_decide_ext.
      rewrite elem_of_union, elem_of_singleton. split; [|by right].
      intros [[= ? ?]|?]; done.
Qed.

Section ProcessCount.

Variable MF : MachineFunction.
Variable TgtReg : Reg.
Variable NumFIs : nat.
Variable OffsetFIs : nat.
Variable RPOT : list nat.

(** X14.  The number that [process] returns is the number of instructions
    it erased: when every instruction registered with [addRemovableInst] is
    an instruction of the function, the function has as many blocks as
    before and the returned count fewer instructions. *)
Theorem process_counts_erased fuel Removables cnt F' :
  process MF TgtReg NumFIs OffsetFIs RPOT fuel Removables = Some (Ok (cnt, F')) →
  (∀ r, r ∈ Removables → is_Some (instrAt MF r)) →
  length F' = length MF ∧ numInstrs F' + cnt = numInstrs MF.
Proof.
  unfold process. intros H Hvalid.
  destruct (findRedundantLoads _ _ _ _ _ _ _ _) as [r|] eqn:Efind; [|discriminate].
  injection H as H. apply bind_Ok in H as ([R1 BIs] & -> & H).
  unfold remove in H. cbn [fst snd] in H. injection H as <- <-.
  pose proof (remove_empty (imap (eraseFrom R1) MF)) as Hempty.
  unfold remove in Hempty. cbn [snd] in Hempty. rewrite Hempty. split.
  - by rewrite length_imap.
  - pose proof (numInstrs_remove MF R1) as Hcount.
    unfold remove in Hcount. cbn [snd] in Hcount.
    change (size (∅ : gset InstrRef)) with 0. rewrite Nat.add_0_r. apply Hcount.
    intros x Hx.
    destruct (findRedundantLoads_loads _ _ _ _ _ _ _ _ _ _ x Efind Hx)
      as [H0|(MI & fi & HMI & _)]; [by apply Hvalid|by rewrite HMI].
Qed.

End ProcessCount.

Lemma process_counts_erased_witness :
  ∃ F', process twoBlocks R26 1 0 [0; 1] 3 ∅ = Some (Ok (1, F'))
        ∧ numInstrs F' + 1 = numInstrs twoBlocks.
Proof.
  destruct (process twoBlocks R26 1 0 [0; 1] 3 ∅) as [[[cnt F']| |]|] eqn:E;
    [|vm_compute in E; discriminate..].
  assert (cnt = 1) as -> by (vm_compute in E; by injection E as <- _).
  exists F'. split; [done|].
  refine (proj2 (process_counts_erased twoBlocks R26 1 0 [0; 1] 3 ∅ 1 F' E _)).
  intros r Hr. by apply not_elem_of_empty in Hr.
Defined.
(* ===================================================================== *)
(** ** Stack locations and the spill and load code of a block *)

Lemma keys_elem {A} (m : gmap nat A) k : k ∈ keys m ↔ is_Some (m !! k).
Proof.
  unfold keys. rewrite merge_sort_Permutation, list_elem_of_fmap. split.
  - intros ([k' v] & -> & Hin). apply elem_of_map_to_list in Hin. by exists v.
  - intros [v Hv]. exists (k, v). split; [done|]. by apply elem_of_map_to_list.
Qed.

Lemma bindings_elem {A} (m : gmap nat A) k v : (k, v) ∈ bindings m ↔ m !! k = Some v.
Proof.
  unfold bindings. rewrite list_elem_of_omap. split.
  - intros (k' & _ & H). destruct (m !! k') as [v'|] eqn:E; simpl in H; [|done].
    by injection H as <- <-.
  - intros H. exists k. split; [apply keys_elem; by rewrite H|]. by rewrite H.
Qed.

Section SpillAndLoad.

Variable AvailPredRegs : list Reg.
Variable GuardsReg : Reg.
Variable defaultPred : list MachineOperand.
Variable getSinglePathExcessSpillFI : nat → Z.

(** X15.  [getStackLocPair] splits a stack location into a frame index
    and a bit position below 32, and loses nothing when the frame indices of
    the excess spill slots are pairwise different: two stack locations with
    the same pair are the same location. *)
Theorem getStackLocPair_injective (s1 s2 : nat) :
  (∀ i j, getSinglePathExcessSpillFI i = getSinglePathExcessSpillFI j → i = j) →
  (0 ≤ (getStackLocPair getSinglePathExcessSpillFI s1).2 < 32)%Z
  ∧ (getStackLocPair getSinglePathExcessSpillFI s1
     = getStackLocPair getSinglePathExcessSpillFI s2 → s1 = s2).
Proof.
  intros Hinj. unfold getStackLocPair. cbn [snd]. split.
  - pose proof (Nat.mod_upper_bound s1 32). lia.
  - intros [= Hfi Hbit]. apply Hinj in Hfi. apply Nat2Z.inj in Hbit.
    assert (s1 / 32 = s2 / 32) as Hdiv by exact Hfi.
    assert (s1 mod 32 = s2 mod 32) as Hmod by exact Hbit.
    pose proof (Nat.div_mod_eq s1 32) as E1. pose proof (Nat.div_mod_eq s2 32) as E2.
    rewrite Hdiv, Hmod in E1. by rewrite <- E2 in E1.
Qed.

Lemma getPredicateRegisters_Ok R block uls :
  getUseLocs R (getMBB block) = Ok uls →
  (∀ p l, uls !! p = Some l → l < length AvailPredRegs) →
  ∃ m, getPredicateRegisters AvailPredRegs R block = Ok m
       ∧ ∀ p, m !! p = uls !! p ≫= (fun l => AvailPredRegs !! l).
Proof.
  intros Hu. unfold getPredicateRegisters. rewrite Hu. simpl.
  apply (map_fold_weak_ind
    (fun r (uls : gmap nat nat) =>
       (∀ p l, uls !! p = Some l → l < length AvailPredRegs) →
       ∃ m, r = Ok m ∧ ∀ p, m !! p = uls !! p ≫= (fun l => AvailPredRegs !! l))).
  - intros _. exists ∅. split; [done|]. intros p. by rewrite !lookup_empty.
  - intros pred l uls' r Hnone IH Hall.
    destruct IH as (m & -> & Hm).
    { intros p l' Hp. apply (Hall p l'). rewrite lookup_insert_ne; [done|]. congruence. }
    destruct (lookup_lt_is_Some_2 AvailPredRegs l) as [reg Hreg].
    { apply (Hall pred l). by rewrite lookup_insert_eq. }
    simpl. rewrite Hreg. eexists. split; [done|]. intros p.
    destruct (decide (p = pred)) as [->|Hne].
    + by rewrite !lookup_insert_eq.
    + rewrite !lookup_insert_ne by done. apply Hm.
Qed.

Local Abbreviation insertLoad' :=
  (insertLoad GuardsReg defaultPred getSinglePathExcessSpillFI).
Local Abbreviation predicateLoad' :=
  (predicateLoad GuardsReg defaultPred getSinglePathExcessSpillFI).
Local Abbreviation useSpill' :=
  (useSpill GuardsReg defaultPred getSinglePathExcessSpillFI).

(** The code that [insertUseSpillLoad] inserts for one predicate. *)
Definition useCode (spillLocs : gmap nat nat) (pred l : nat) (r : Reg)
    : list MachineInstr :=
  match spillLocs !! pred with
  | Some s => useSpill' s r
  | None => []
  end ++ predicateLoad' l r.

Lemma foldl_insertLoad spillLocs useLocs l body :
  (∀ x, x ∈ l → is_Some (useLocs !! x.1)) →
  ∃ pre, foldl (insertLoad' spillLocs useLocs) (Ok body) l = Ok (pre ++ body)
         ∧ ∀ x r, x ∈ l → useLocs !! x.1 = Some r →
             ∃ a b, pre = a ++ useCode spillLocs x.1 x.2 r ++ b.
Proof.
  revert body. induction l as [|x l IH]; intros body Hall; cbn [foldl].
  - exists []. split; [done|]. intros x r Hx. by apply elem_of_nil in Hx.
  - destruct (Hall x (list_elem_of_here _ _)) as [rx Hrx].
    assert (insertLoad' spillLocs useLocs (Ok body) x
            = Ok (match spillLocs !! x.1 with
                  | Some s => useSpill' s rx
                  | None => []
                  end ++ predicateLoad' x.2 rx ++ body)) as ->.
    { unfold insertLoad. simpl. by rewrite Hrx. }
    destruct (IH (match spillLocs !! x.1 with
                  | Some s => useSpill' s rx
                  | None => []
                  end ++ predicateLoad' x.2 rx ++ body)) as (pre & -> & Hpre).
    { intros y Hy. apply Hall. by apply list_elem_of_further. }
    exists (pre ++ useCode spillLocs x.1 x.2 rx). split.
    + unfold useCode. by rewrite <- !app_assoc.
    + intros y r [->|Hy]%elem_of_cons Hr.
      * rewrite Hrx in Hr. injection Hr as <-. exists pre, []. by rewrite app_nil_r.
      * destruct (Hpre y r Hy Hr) as (a & b & ->).
        exists a, (b ++ useCode spillLocs x.1 x.2 rx). by rewrite <- !app_assoc.
Qed.

Variable sortFurthestNextUse : gmap nat LiveRange → nat → list nat → list nat.

(** X16.  On the [RAInfo] of a scope in a result of [computeRegAlloc] made
    for the available predicate registers (at least one), no assertion of
    [insertUseSpillLoad] fails.  It only puts code in front of the block: the
    instructions of the block follow unchanged.  For every predicate with a
    load location the code holds the load of that location into the
    predicate's register, directly preceded by the spill of the register to
    the predicate's spill location when there is one. *)
Theorem insertUseSpillLoad_prepends root t scope RI block body :
  computeRegAlloc sortFurthestNextUse (length AvailPredRegs) root = Ok t →
  0 < length AvailPredRegs →
  (scope, RI) ∈ nodes t →
  ∃ pre predRegs,
    getPredicateRegisters AvailPredRegs RI block = Ok predRegs
    ∧ insertUseSpillLoad AvailPredRegs GuardsReg defaultPred getSinglePathExcessSpillFI
        RI block body = Ok (pre ++ body)
    ∧ ∀ pred l, getLoadLocs RI (getMBB block) !! pred = Some l →
        ∃ r a b, predRegs !! pred = Some r
                 ∧ pre = a ++ useCode (getSpillLocs RI (getMBB block)) pred l r ++ b.
Proof.
  intros H Hpos Hin.
  destruct (getUseLocs_in_bounds _ _ _ _ _ _ (getMBB block) H Hpos Hin) as (uls & Huls & Hb).
  destruct (getPredicateRegisters_Ok _ _ _ Huls Hb) as (predRegs & Hregs & Hlook).
  assert (∀ pred, is_Some (getLoadLocs RI (getMBB block) !! pred) →
                  is_Some (predRegs !! pred)) as Hload.
  { intros pred [l Hl]. rewrite Hlook, (getUseLocs_inv _ _ _ Huls), lookup_fmap.
    unfold getLoadLocs in Hl. rewrite getAnyLoc_lookup in Hl.
    destruct (useLocsOf RI (getMBB block) !! pred) as [u|] eqn:Eu; [|done]. simpl.
    apply lookup_lt_is_Some_2, (Hb pred).
    by rewrite (getUseLocs_inv _ _ _ Huls), lookup_fmap, Eu. }
  apply computeRegAlloc_ok in H.
  destruct (okTree_nodes _ _ _ _ _ H Hin) as (_ & Hv & _).
  destruct (foldl_insertLoad (getSpillLocs RI (getMBB block)) predRegs
              (bindings (getLoadLocs RI (getMBB block))) body) as (pre & Hfold & Hpre).
  { intros [pred l] Hx. apply bindings_elem in Hx. apply Hload. simpl. by rewrite Hx. }
  exists pre, predRegs. split; [done|]. split.
  - unfold insertUseSpillLoad. rewrite Hregs. simpl. apply assert_Ok. split; [|done].
    apply forallb_forall. intros pred Hp. apply bool_decide_eq_true.
    apply list_elem_of_In, keys_elem in Hp.
    unfold getSpillLocs, getLoadLocs in *. rewrite getAnyLoc_lookup in Hp.
    rewrite getAnyLoc_lookup.
    destruct (useLocsOf RI (getMBB block) !! pred) as [u|] eqn:Eu; [|by destruct Hp].
    simpl in *. destruct (useLocsOf_valid _ _ _ _ Hv Eu) as [Hsl _].
    destruct (spill u); [|by destruct Hp]. destruct Hsl as [l ->]; [done|]. by eexists.
  - intros pred l Hl. destruct (Hload pred) as [r Hr]; [by rewrite Hl|].
    destruct (Hpre (pred, l) r) as (a & b & ->); [by apply bindings_elem|done|].
    by exists r, a, b.
Qed.

End SpillAndLoad.

Lemma getStackLocPair_injective_witness :
  getStackLocPair Z.of_nat 40 = (1%Z, 8%Z)
  ∧ (getStackLocPair Z.of_nat 40 = getStackLocPair Z.of_nat 40 → 40 = 40).
Proof.
  split; [reflexivity|].
  exact (proj2 (getStackLocPair_injective Z.of_nat 40 40 (fun i j => Nat2Z.inj i j))).
Defined.
Lemma insertUseSpillLoad_prepends_witness :
  0 < length [PRED 1]
  ∧ (exLoop, exLoopRI 1) ∈ nodes (exResult 1)
  ∧ getLoadLocs (exLoopRI 1) 2 !! 2 = Some 0
  ∧ ∃ pre predRegs,
      getPredicateRegisters [PRED 1] (exLoopRI 1) (mkBlock 2 [2] []) = Ok predRegs
      ∧ insertUseSpillLoad [PRED 1] R26 exDefaultPred Z.of_nat (exLoopRI 1)
          (mkBlock 2 [2] []) [] = Ok (pre ++ [])
      ∧ ∀ pred l, getLoadLocs (exLoopRI 1) 2 !! pred = Some l →
          ∃ r a b, predRegs !! pred = Some r
                   ∧ pre = a ++ useCode R26 exDefaultPred Z.of_nat
                                  (getSpillLocs (exLoopRI 1) 2) pred l r ++ b.
Proof.
  assert ((exLoop, exLoopRI 1) ∈ nodes (exResult 1)) as Hin.
  { rewrite exResult_nodes by (by left). apply list_elem_of_further, list_elem_of_here. }
  assert (0 < length [PRED 1]) as Hpos by (simpl; lia).
  split; [exact Hpos|]. split; [exact Hin|]. split; [by vm_compute|].
  exact (insertUseSpillLoad_prepends [PRED 1] R26 exDefaultPred Z.of_nat insertionSort
           exTree (exResult 1) exLoop (exLoopRI 1) (mkBlock 2 [2] []) []
           (exResult_Ok 1 (or_introl eq_refl)) Hpos Hin).
Defined.
(* ===================================================================== *)
(** ** The chain of blocks that the walker builds *)

Definition succsOf (m : gmap nat MachineBasicBlock) (x : nat) : option (list nat) :=
  successors <$> m !! x.

Lemma succsOf_removeSuccessor a b m x :
  succsOf (removeSuccessor a b m) x =
    if decide (x = a) then removeAll b <$> succsOf m x else succsOf m x.
Proof.
  unfold succsOf, removeSuccessor. rewrite (lookup_alter _ _ b x).
  assert (∀ m' : gmap nat MachineBasicBlock,
            successors <$>
              (if decide (b = x)
               then (fun B => mkMBB (instrs B) (removeAll a (predecessors B)) (successors B))
                      <$> m' !! b
               else m' !! x)
            = successors <$> m' !! x) as ->.
  { intros m'. destruct (decide (b = x)) as [->|]; [|done]. by destruct (m' !! x). }
  rewrite lookup_alter. destruct (decide (a = x)) as [->|Hne].
  - rewrite decide_True by done. by destruct (m !! x).
  - by rewrite decide_False by congruence.
Qed.

Lemma dom_removeSuccessor a b m : dom (removeSuccessor a b m) = dom m.
Proof. unfold removeSuccessor. by rewrite !dom_alter_L. Qed.

Lemma succsOf_addSuccessor a b m x :
  succsOf (addSuccessor a b m) x =
    if decide (x = a) then (fun l => l ++ [b]) <$> succsOf m x else succsOf m x.
Proof.
  pose proof (blk_addSuccessor a b m x) as H. unfold blk, succsOf in *.
  destruct (addSuccessor a b m !! x) as [B|], (m !! x) as [B'|], (decide (x = a));
    simpl in *; try done; by injection H as _ ->.
Qed.

Lemma filter_all {A} (P : A → Prop) `{∀ x, Decision (P x)} (l : list A) :
  (∀ y, y ∈ l → P y) → filter P l = l.
Proof.
  induction l as [|y l IH]; intros Hall; [done|].
  rewrite filter_cons_True by (apply Hall, list_elem_of_here). f_equal.
  apply IH. intros z Hz. by apply Hall, list_elem_of_further.
Qed.

Lemma filter_none {A} (P : A → Prop) `{∀ x, Decision (P x)} (l : list A) :
  (∀ y, y ∈ l → ¬ P y) → filter P l = [].
Proof.
  induction l as [|y l IH]; intros Hall; [done|].
  rewrite filter_cons_False by (apply Hall, list_elem_of_here).
  apply IH. intros z Hz. by apply Hall, list_elem_of_further.
Qed.

Lemma succsOf_removeAll MBB l m x :
  succsOf (foldl (fun m s => removeSuccessor MBB s m) m l) x =
    if decide (x = MBB) then filter (fun y => y ∉ l) <$> succsOf m x else succsOf m x.
Proof.
  revert m. induction l as [|s l IH]; intros m; simpl.
  - destruct (decide (x = MBB)); [|done]. destruct (succsOf m x) as [k|]; [|done].
    simpl. f_equal. symmetry. apply filter_all. intros y _. apply not_elem_of_nil.
  - rewrite IH, succsOf_removeSuccessor. destruct (decide (x = MBB)); [|done].
    destruct (succsOf m x) as [k|]; [|done]. simpl. f_equal.
    unfold removeAll. rewrite list_filter_filter. apply list_filter_iff.
    intros y. rewrite not_elem_of_cons. tauto.
Qed.

Lemma dom_removeAll MBB l m :
  dom (foldl (fun m s => removeSuccessor MBB s m) m l) = dom m.
Proof.
  revert m. induction l as [|s l IH]; intros m; simpl; [done|].
  by rewrite IH, dom_removeSuccessor.
Qed.

Lemma removeAll_notin x l : x ∉ l → removeAll x l = l.
Proof.
  intros H. unfold removeAll. apply filter_all. intros y Hy ->. done.
Qed.

Lemma removeAll_app x l1 l2 : removeAll x (l1 ++ l2) = removeAll x l1 ++ removeAll x l2.
Proof. unfold removeAll. apply filter_app. Qed.

Lemma insertAfter_app_l last x l1 l2 :
  last ∉ l1 → insertAfter last x (l1 ++ l2) = l1 ++ insertAfter last x l2.
Proof.
  induction l1 as [|y l1 IH]; simpl; [done|]. intros [Hne Hnin]%not_elem_of_cons.
  destruct (y =? last) eqn:E; [apply Nat.eqb_eq in E; congruence|]. by rewrite IH.
Qed.

Lemma insertAfter_here last x l : insertAfter last x (last :: l) = last :: x :: l.
Proof. simpl. by rewrite Nat.eqb_refl. Qed.

Lemma insertAfter_perm last x l : last ∈ l → insertAfter last x l ≡ₚ x :: l.
Proof.
  induction l as [|y l IH]; [by intros ?%elem_of_nil|]. simpl.
  destruct (y =? last) eqn:E.
  - intros _. apply Permutation_swap.
  - apply Nat.eqb_neq in E. intros [->|Hin]%elem_of_cons; [done|].
    rewrite (IH Hin). apply Permutation_swap.
Qed.

Lemma removeAll_perm x l : NoDup l → x ∈ l → x :: removeAll x l ≡ₚ l.
Proof.
  induction l as [|y l IH]; [by intros _ ?%elem_of_nil|].
  intros [Hy Hnd]%NoDup_cons Hin. unfold removeAll in *.
  destruct (decide (y = x)) as [->|Hne].
  - rewrite filter_cons_False by (by intros []). fold (removeAll x l).
    by rewrite removeAll_notin.
  - rewrite filter_cons_True by done. apply elem_of_cons in Hin as [->|Hin]; [done|].
    rewrite Permutation_swap. f_equiv. by apply IH.
Qed.

Section Chain.

Variable removeBranch : list MachineInstr → list MachineInstr.

Lemma nextMBB_succs MBB w x :
  MBB ∈ dom (mbbs w) → LastMBB w ≠ Some MBB →
  LastMBB (nextMBB removeBranch MBB w) = Some MBB
  ∧ dom (mbbs (nextMBB removeBranch MBB w)) = dom (mbbs w)
  ∧ succsOf (mbbs (nextMBB removeBranch MBB w)) x =
      if decide (x = MBB) then Some []
      else if decide (Some x = LastMBB w)
           then (fun l => l ++ [MBB]) <$> succsOf (mbbs w) x
           else succsOf (mbbs w) x.
Proof.
  intros Hdom Hlast. unfold nextMBB.
  apply elem_of_dom in Hdom as [B HB].
  assert (default [] (successors <$> mbbs w !! MBB) = successors B) as ->.
  { by rewrite HB. }
  set (m1 := foldl (fun m s => removeSuccessor MBB s m) (mbbs w) (successors B)).
  set (m2 := alter (fun B => mkMBB (removeBranch (instrs B)) (predecessors B)
                                   (successors B)) MBB m1).
  assert (∀ y, succsOf m2 y = if decide (y = MBB) then Some [] else succsOf (mbbs w) y)
    as Hm2.
  { intros y. unfold m2, succsOf. rewrite lookup_alter.
    pose proof (succsOf_removeAll MBB (successors B) (mbbs w) y) as H1.
    fold m1 in H1. unfold succsOf in H1.
    destruct (decide (MBB = y)) as [<-|Hne].
    - rewrite decide_True in * by done. rewrite HB in H1. simpl in H1.
      destruct (m1 !! MBB) as [B1|]; [|done]. simpl in *. injection H1 as ->.
      f_equal. apply filter_none. intros z Hz Hn. done.
    - rewrite decide_False in * by congruence. done. }
  assert (dom m2 = dom (mbbs w)) as Hd2.
  { unfold m2, m1. by rewrite dom_alter_L, dom_removeAll. }
  destruct (LastMBB w) as [last|] eqn:El; simpl.
  - assert (last ≠ MBB) as Hne by congruence.
    split; [done|]. split; [by rewrite dom_addSuccessor|].
    rewrite succsOf_addSuccessor, Hm2.
    destruct (decide (x = MBB)) as [->|Hx].
    + by rewrite decide_False by congruence.
    + destruct (decide (x = last)) as [->|Hxl].
      * by rewrite decide_True.
      * by rewrite decide_False by congruence.
  - split; [done|]. split; [done|]. rewrite Hm2.
    destruct (decide (x = MBB)); done.
Qed.

Lemma nextMBB_layout MBB w :
  layout (nextMBB removeBranch MBB w) =
    match LastMBB w with
    | Some last => moveAfter MBB last (layout w)
    | None => layout w
    end.
Proof. unfold nextMBB. by destruct (LastMBB w). Qed.

(** The walker after [nextMBB] on each block of a list, in this order. *)
Definition walkBlocks (bs : list nat) (w : Walker) : Walker :=
  foldl (fun w b => nextMBB removeBranch b w) w bs.

(** X17.  Starting with no last block, [nextMBB] on pairwise different
    blocks of the function links them into a chain: afterwards each of them
    has the block visited next as its only successor, the block visited last
    has no successor and is the walker's last block, and the blocks stand
    next to each other in the code layout, in the order of the visits. *)
Theorem nextMBB_chain (bs : list nat) (w : Walker) :
  LastMBB w = None → bs ≠ [] → NoDup bs →
  (∀ b, b ∈ bs → b ∈ dom (mbbs w) ∧ b ∈ layout w) →
  NoDup (layout w) →
  LastMBB (walkBlocks bs w) = last bs
  ∧ (∀ i b, bs !! i = Some b →
       succsOf (mbbs (walkBlocks bs w)) b = Some (option_list (bs !! S i)))
  ∧ ∃ pre post, layout (walkBlocks bs w) = pre ++ bs ++ post.
Proof.
  intros Hnone Hne Hnd Hin Hlay.
  enough (LastMBB (walkBlocks bs w) = last bs
          ∧ dom (mbbs (walkBlocks bs w)) = dom (mbbs w)
          ∧ (∀ i b, bs !! i = Some b →
               succsOf (mbbs (walkBlocks bs w)) b = Some (option_list (bs !! S i)))
          ∧ layout (walkBlocks bs w) ≡ₚ layout w
          ∧ ∃ pre post, layout (walkBlocks bs w) = pre ++ bs ++ post)
    as (H1 & _ & H3 & _ & H5) by done.
  induction bs as [|b bs IH] using rev_ind; [done|].
  unfold walkBlocks in *. rewrite foldl_app. simpl.
  pose proof Hnd as Hnd0.
  apply NoDup_app in Hnd as (Hnd & Hnotin & _).
  assert (b ∉ bs) as Hb by (intros Hb; apply (Hnotin b Hb), list_elem_of_here).
  destruct (Hin b) as [Hbdom Hblay]; [apply elem_of_app; right; apply list_elem_of_here|].
  destruct (decide (bs = [])) as [->|Hbs].
  - simpl. destruct (nextMBB_succs b w b Hbdom) as (HL & HD & HS); [by rewrite Hnone|].
    split; [done|]. split; [done|]. split.
    + intros i b' Hi. destruct i as [|i]; simpl in Hi; [|by rewrite lookup_nil in Hi].
      injection Hi as <-. by rewrite HS, decide_True.
    + rewrite nextMBB_layout, Hnone. split; [done|].
      apply list_elem_of_split in Hblay as (pre & post & ->). by exists pre, post.
  - destruct IH as (HL & HD & HS & Hperm & pre & post & Hlayout);
      [done|done|intros x Hx; apply Hin, elem_of_app; by left|].
    set (w1 := foldl (fun w b => nextMBB removeBranch b w) w bs) in *.
    destruct (last bs) as [l|] eqn:El; [|by apply last_None in El].
    apply last_Some in El as (bs' & ->).
    assert (l ≠ b) as Hlb.
    { intros ->. apply Hb, elem_of_app. right. apply list_elem_of_here. }
    assert (b ∈ dom (mbbs w1)) as Hbdom1 by (by rewrite HD).
    assert (LastMBB w1 ≠ Some b) as Hlast1 by (rewrite HL; congruence).
    assert (NoDup (layout w1)) as Hnd1 by (by rewrite Hperm).
    assert (b ∈ layout w1) as Hblay1 by (by rewrite Hperm).
    split; [|split; [|split; [|split]]].
    + rewrite last_snoc. by apply nextMBB_succs.
    + destruct (nextMBB_succs b w1 b Hbdom1 Hlast1) as (_ & HD1 & _). by rewrite HD1.
    + intros i b' Hi.
      destruct (nextMBB_succs b w1 b' Hbdom1 Hlast1) as (_ & _ & HS1). rewrite HS1.
      destruct (decide (i = length (bs' ++ [l]))) as [->|Hi'].
      * rewrite lookup_app_r, Nat.sub_diag in Hi by lia. simpl in Hi. injection Hi as <-.
        rewrite decide_True by done. rewrite lookup_ge_None_2; [done|].
        rewrite !length_app. simpl. lia.
      * assert (i < length (bs' ++ [l])) as Hlt.
        { apply lookup_lt_Some in Hi. rewrite length_app in Hi. simpl in Hi. lia. }
        rewrite lookup_app_l in Hi by done.
        assert (b' ≠ b) as Hne'.
        { intros ->. apply Hb. by eapply list_elem_of_lookup_2. }
        rewrite decide_False by done. rewrite HL, (HS _ _ Hi).
        destruct (decide (S i = length (bs' ++ [l]))) as [Hlast|Hmid].
        -- rewrite length_app in Hlast. simpl in Hlast.
           assert (b' = l) as ->.
           { rewrite lookup_app_r in Hi by lia.
             replace (i - length bs') with 0 in Hi by lia. by injection Hi as <-. }
           rewrite decide_True by done.
           rewrite (lookup_ge_None_2 (bs' ++ [l])) by (rewrite length_app; simpl; lia).
           rewrite lookup_app_r by (rewrite length_app; simpl; lia).
           replace (S i - length (bs' ++ [l])) with 0 by (rewrite length_app; simpl; lia).
           done.
        -- assert (S i < length (bs' ++ [l])) as HSi by lia.
           assert (b' ≠ l) as Hnl.
           { intros ->.
             assert ((bs' ++ [l]) !! length bs' = Some l) as Hl'
               by (by rewrite lookup_app_r, Nat.sub_diag by lia).
             pose proof (NoDup_lookup _ _ _ _ Hnd Hi Hl'). rewrite length_app in HSi.
             simpl in HSi. lia. }
           rewrite decide_False by congruence.
           by rewrite (lookup_app_l (bs' ++ [l])) by done.
    + rewrite nextMBB_layout, HL. unfold moveAfter.
      assert (l ∈ removeAll b (layout w1)) as Hl.
      { apply list_elem_of_filter. split; [done|]. rewrite Hlayout.
        apply elem_of_app. right. apply elem_of_app. left. apply elem_of_app. right.
        apply list_elem_of_here. }
      rewrite (insertAfter_perm _ _ _ Hl), (removeAll_perm _ _ Hnd1 Hblay1). done.
    + rewrite nextMBB_layout, HL. unfold moveAfter.
      rewrite Hlayout in Hnd1 |- *.
      rewrite (removeAll_app b pre), (removeAll_app b (bs' ++ [l]) post),
        (removeAll_notin b (bs' ++ [l])) by done.
      exists (removeAll b pre), (removeAll b post).
      assert (l ∉ removeAll b pre ++ bs') as Hl.
      { apply NoDup_app in Hnd1 as (_ & Hdisj & Hnd2).
        apply NoDup_app in Hnd2 as (Hnd2 & _ & _).
        apply NoDup_app in Hnd2 as (_ & Hdisj2 & _).
        intros [[_ Hp]%list_elem_of_filter|Hp]%elem_of_app.
        - apply (Hdisj l Hp). apply elem_of_app. left. apply elem_of_app. right.
          apply list_elem_of_here.
        - apply (Hdisj2 l Hp), list_elem_of_here. }
      rewrite <- !app_assoc. rewrite (app_assoc (removeAll b pre) bs').
      rewrite (insertAfter_app_l _ _ _ _ Hl). simpl. rewrite Nat.eqb_refl.
      by rewrite <- !app_assoc.
Qed.

End Chain.
(** A function of four blocks in which block 0 branches to the blocks 2
    and 3, before any block was visited. *)
Definition exChain : Walker :=
  mkWalker (<[0 := mkMBB [] [] [3; 2]]> (<[1 := emptyMBB]> (<[2 := mkMBB [] [0] []]>
             (<[3 := mkMBB [] [0] []]> ∅))))
           [0; 1; 2; 3] None.

Lemma nextMBB_chain_witness :
  LastMBB (walkBlocks (fun mis => mis) [0; 2; 1] exChain) = Some 1
  ∧ (∀ i b, [0; 2; 1] !! i = Some b →
       succsOf (mbbs (walkBlocks (fun mis => mis) [0; 2; 1] exChain)) b
       = Some (option_list ([0; 2; 1] !! S i)))
  ∧ ∃ pre post,
      layout (walkBlocks (fun mis => mis) [0; 2; 1] exChain) = pre ++ [0; 2; 1] ++ post.
Proof.
  apply (nextMBB_chain (fun mis => mis) [0; 2; 1] exChain).
  - reflexivity.
  - discriminate.
  - apply (bool_decide_unpack (NoDup [0; 2; 1])). reflexivity.
  - intros b Hb. split.
    + apply elem_of_cons in Hb as [->|Hb]; [apply (bool_decide_unpack (0 ∈ dom (mbbs exChain))); vm_compute; reflexivity|].
      apply elem_of_cons in Hb as [->|Hb]; [apply (bool_decide_unpack (2 ∈ dom (mbbs exChain))); vm_compute; reflexivity|].
      apply list_elem_of_singleton in Hb as ->.
      apply (bool_decide_unpack (1 ∈ dom (mbbs exChain))); vm_compute; reflexivity.
    + apply elem_of_cons in Hb as [->|Hb]; [apply (bool_decide_unpack (0 ∈ layout exChain)); reflexivity|].
      apply elem_of_cons in Hb as [->|Hb]; [apply (bool_decide_unpack (2 ∈ layout exChain)); reflexivity|].
      apply list_elem_of_singleton in Hb as ->.
      apply (bool_decide_unpack (1 ∈ layout exChain)); reflexivity.
  - apply (bool_decide_unpack (NoDup (layout exChain))). reflexivity.
Defined.
(* ===================================================================== *)
(** ** Entering a loop scope *)

Section EnterSubscope.

Variable AvailPredRegs : list Reg.
Variable GuardsReg : Reg.
Variable defaultPred : list MachineOperand.
Variable getSinglePathLoopCntFI : Z → Z.
Variable getSinglePathS0SpillFI : Z → Z.
Variable getSinglePathExcessSpillFI : nat → Z.
Variable copyPhysReg : Reg → Reg → bool → list MachineInstr.
Variable removeBranch : list MachineInstr → list MachineInstr.
Variable getLoopBound : SPScope → Z.

Local Abbreviation enterSubscope' :=
  (enterSubscope AvailPredRegs GuardsReg defaultPred getSinglePathLoopCntFI
     getSinglePathS0SpillFI getSinglePathExcessSpillFI copyPhysReg removeBranch
     getLoopBound).

(** What [AddDefaultPred] appends: no predicate register and flag 0. *)
Hypothesis defaultPred_always : defaultPred = [MO_Reg NoRegister; MO_Imm 0].

Lemma dummy_load_store op fi :
  op = LBC ∨ op = LWC →
  isUncondLoad GuardsReg (buildPred defaultPred op [MO_Reg GuardsReg] [MO_FI fi; MO_Imm 0])
  = Some fi
  ∧ isUncondStore GuardsReg
      (buildPred defaultPred (match op with LBC => SBC | _ => SWC end) []
         [MO_FI fi; MO_Imm 0; MO_Reg GuardsReg])
    = Some fi.
Proof using defaultPred_always.
  intros Hop. unfold isUncondLoad, isUncondStore, buildPred. rewrite defaultPred_always.
  destruct Hop as [-> | ->]; simpl; by rewrite !bool_decide_eq_true_2.
Qed.


End EnterSubscope.


(* ===================================================================== *)
(** ** Retirement in scopes with one predicate per block *)

(** The free set holds registers only. *)
Definition AllReg (st : Scan) : Prop := ∀ l, l ∈ FreeLocs st → isRegister l = true.

Lemma set_count_registers l s :
  isRegister l = true → (∀ x, x ∈ s → isRegister x = true) → l ∉ s → set_count l s = 0.
Proof.
  intros Hl Hs Hnin. unfold set_count.
  destruct (existsb (Location_equiv l) s) eqn:E; [|done].
  apply existsb_exists in E as (x & Hx & Hequiv). apply list_elem_of_In in Hx.
  destruct Hnin. specialize (Hs x Hx).
  unfold Location_equiv in Hequiv. apply andb_true_iff in Hequiv as [H1 H2].
  apply negb_true_iff in H1, H2.
  destruct l as [tl nl], x as [tx nx]. unfold isRegister in *. simpl in *.
  destruct tl, tx; try discriminate.
  unfold Location_lt in H1, H2. simpl in H1, H2.
  apply Nat.ltb_ge in H1, H2. by replace nx with nl in Hx by lia.
Qed.

Lemma getAvailLoc_AllReg st l st' : getAvailLoc st = (l, st') → AllReg st → AllReg st'.
Proof.
  unfold getAvailLoc, AllReg. destruct (FreeLocs st) as [|x rest] eqn:E.
  - intros [= <- <-]. simpl. by rewrite E.
  - intros [= <- <-] H. simpl. intros y Hy. by apply H, list_elem_of_further.
Qed.

Section SinglePredicate.

Variable sortFurthestNextUse : gmap nat LiveRange → nat → list nat → list nat.
Variable Sc : SPScope.

Lemma handleIfNotInRegister_AllReg blockIndex stackLoc st UL newLoc st' :
  handleIfNotInRegister sortFurthestNextUse blockIndex stackLoc st = Ok (UL, newLoc, st') →
  AllReg st → AllReg st'.
Proof.
  unfold handleIfNotInRegister. intros H Hall.
  destruct (hasFreeRegister st).
  - destruct (getAvailLoc st) as [l st1] eqn:E.
    apply assert_Ok in H as [_ [= _ _ <-]]. by eapply getAvailLoc_AllReg.
  - destruct (last _) as [furthest|]; [|discriminate].
    destruct (getAvailLoc st) as [l st1] eqn:E.
    apply assert_Ok in H as [_ H].
    destruct (curLocs st1 !! furthest) as [repl|]; [|discriminate].
    destruct (LRs (impl st1) !! furthest) as [lr|]; [|discriminate].
    apply bind_Ok in H as ([UL' st2] & H2 & H).
    apply assert_Ok in H as [_ [= _ _ <-]].
    assert (FreeLocs st2 = FreeLocs st1) as Hf.
    { destruct (anyUseBefore lr blockIndex).
      - by injection H2 as _ <-.
      - apply assert_Ok in H2 as [_ [= _ <-]]. done. }
    intros x Hx. simpl in Hx. rewrite Hf in Hx. by apply (getAvailLoc_AllReg _ _ _ E Hall).
Qed.

(** Assigning a use only takes locations out of the free set. *)
Lemma assignUse_AllReg i block usePred st st' :
  assignUse sortFurthestNextUse Sc i block usePred st = Ok st' → AllReg st → AllReg st'.
Proof.
  unfold assignUse. intros H Hall.
  apply bind_Ok in H as (p0 & _ & H). destruct (negb p0); [|by injection H as <-].
  apply assert_Ok in H as [_ H]. apply assert_Ok in H as [_ H].
  apply bind_Ok in H as ([useLoc st1] & H1 & H).
  apply assert_Ok in H as [_ [= <-]].
  enough (AllReg st1) as Hst1 by exact Hst1.
  destruct (isHeader i).
  - unfold calculateHeaderUseLoc in H1.
    destruct (getAvailLoc st) as [l st0] eqn:E.
    apply bind_Ok in H1 as (hp & _ & H1).
    apply assert_Ok in H1 as [_ H1]. apply assert_Ok in H1 as [_ H1].
    apply assert_Ok in H1 as [_ [= _ <-]].
    intros x Hx. simpl in Hx. by apply (getAvailLoc_AllReg _ _ _ E Hall).
  - unfold calculateNotHeaderUseLoc in H1.
    destruct (curLocs st !! usePred) as [cur|]; [|discriminate].
    destruct (isStack cur); [|by injection H1 as _ <-].
    apply bind_Ok in H1 as ([[UL newLoc] st0] & H0 & [= _ <-]).
    intros x Hx. simpl in Hx. by apply (handleIfNotInRegister_AllReg _ _ _ _ _ _ H0 Hall).
Qed.

(** After its use is assigned, a predicate is in a register: the header
    predicate when a register is free at the header, any other predicate
    always. *)
Lemma assignUse_in_register i block usePred st st' :
  assignUse sortFurthestNextUse Sc i block usePred st = Ok st' →
  usesP0 Sc usePred = Ok false → ScanInv st →
  (i = 0 → hasFreeRegister st = true ∧ usePred ∈ getBlockPredicates (getHeader Sc)) →
  ∃ l, curLocs st' !! usePred = Some l ∧ isRegister l = true.
Proof.
  unfold assignUse. intros H Hp0 Hinv Hhead. rewrite Hp0 in H. simpl in H.
  apply assert_Ok in H as [_ H]. apply assert_Ok in H as [_ H].
  apply bind_Ok in H as ([useLoc st1] & H1 & H).
  apply assert_Ok in H as [_ [= <-]]. simpl.
  unfold isHeader in H1. destruct (i =? 0) eqn:Ei.
  - apply Nat.eqb_eq in Ei. destruct (Hhead Ei) as [Hfree Hin].
    unfold calculateHeaderUseLoc in H1.
    pose proof (getAvailLoc_register st Hinv Hfree) as Hreg.
    destruct (getAvailLoc st) as [l st0] eqn:E.
    apply bind_Ok in H1 as (hp & Hhp & H1).
    apply assert_Ok in H1 as [Hlen H1]. apply assert_Ok in H1 as [_ H1].
    apply assert_Ok in H1 as [_ [= _ <-]]. simpl.
    unfold getHeaderPred in Hhp. apply Nat.eqb_eq in Hlen.
    destruct (getBlockPredicates (getHeader Sc)) as [|q [|? ?]]; try discriminate.
    injection Hhp as <-. apply list_elem_of_singleton in Hin as ->.
    exists l. by rewrite lookup_insert_eq.
  - unfold calculateNotHeaderUseLoc in H1.
    destruct (curLocs st !! usePred) as [cur|] eqn:Ecur; [|discriminate].
    destruct (isStack cur) eqn:Es.
    + apply bind_Ok in H1 as ([[UL newLoc] st0] & H0 & [= _ <-]). simpl.
      destruct (handleIfNotInRegister_inv _ _ _ _ _ _ _ H0 Hinv) as (_ & _ & _ & Hreg & _).
      exists newLoc. by rewrite lookup_insert_eq.
    + injection H1 as _ <-. exists cur. split; [done|].
      rewrite isRegister_isStack in Es. by destruct (isRegister cur).
Qed.

(** Retiring a predicate that is in a register never fails when the free
    set holds registers only. *)
Lemma retire_register i usePred st l :
  Distinct st → AllReg st →
  curLocs st !! usePred = Some l → isRegister l = true →
  is_Some (LRs (impl st) !! usePred) →
  usesP0 Sc usePred = Ok false →
  ∃ st', retire Sc i usePred st = Ok st' ∧ AllReg st'.
Proof.
  intros Hd Hall Hcur Hreg [lr Hlr] Hp0. unfold retire. rewrite Hp0, Hlr, Hcur. simpl.
  assert (isHeader i || (0 <? i) = true) as ->.
  { unfold isHeader. destruct i; reflexivity. }
  simpl. destruct (lastUse lr i); [|by exists st].
  rewrite (set_count_registers l (FreeLocs st) Hreg Hall (dist_free st Hd _ _ Hcur)). simpl.
  eexists. split; [done|]. intros x Hx. simpl in Hx.
  apply set_insert_elem in Hx as [->|Hx]; [done|by apply Hall].
Qed.


Lemma assignDef_AllReg pred st st' : assignDef pred st = Ok st' → AllReg st → AllReg st'.
Proof using Type.
  unfold assignDef. intros H Hall. destruct (getAvailLoc st) as [l st1] eqn:E.
  simpl in H. rewrite !lookup_insert_eq in H. apply assert_Ok in H as [_ [= <-]].
  intros x Hx. simpl in Hx. by apply (getAvailLoc_AllReg _ _ _ E Hall).
Qed.

(** What the scan keeps when every block has at most one predicate. *)
Definition registersFree (st : Scan) : Prop := ScanInv st ∧ Distinct st ∧ AllReg st.

Lemma forEach_assignDef_registersFree order st st' :
  forEach assignDef order st = Ok st' → registersFree st →
  registersFree st' ∧ grows (impl st) (impl st').
Proof using Type.
  revert st. induction order as [|pred order IH]; simpl; intros st H HK.
  - injection H as <-. split; [done|apply grows_refl].
  - apply bind_Ok in H as (st1 & H1 & H). destruct HK as (Hinv & Hd & Hall).
    destruct (assignDef_inv _ _ _ H1 Hinv) as [Hinv1 Hg1].
    destruct (IH st1 H) as [HK' Hg'].
    { split; [done|]. split; [by eapply assignDef_distinct|by eapply assignDef_AllReg]. }
    split; [done|by eapply grows_trans].
Qed.

Lemma handlePredUse_single i block st st1 p :
  getBlockPredicates block = [p] →
  registersFree st →
  is_Some (LRs (impl st) !! p) →
  (i = 0 → hasFreeRegister st = true ∧ p ∈ getBlockPredicates (getHeader Sc)) →
  assignUse sortFurthestNextUse Sc i block p st = Ok st1 →
  ∃ st2, retire Sc i p st1 = Ok st2
    ∧ handlePredUse sortFurthestNextUse Sc i block st = Ok st2
    ∧ registersFree st2 ∧ grows (impl st) (impl st2)
    ∧ (usesP0 Sc p = Ok false →
       ∃ l, curLocs st1 !! p = Some l ∧ isRegister l = true).
Proof using Type.
  intros Hpreds (Hinv & Hd & Hall) HLR Hhead H1.
  destruct (assignUse_inv _ _ _ _ _ _ _ H1 Hinv) as [Hinv1 Hg1].
  pose proof (assignUse_distinct _ _ _ _ _ _ _ H1 Hinv Hd) as Hd1.
  pose proof (assignUse_AllReg _ _ _ _ _ H1 Hall) as Hall1.
  assert (∃ p0, usesP0 Sc p = Ok p0) as [p0 Hp0].
  { unfold assignUse in H1. apply bind_Ok in H1 as (p0 & Hp0 & _). by exists p0. }
  assert (∃ st2, retire Sc i p st1 = Ok st2 ∧ AllReg st2
                 ∧ (usesP0 Sc p = Ok false →
                    ∃ l, curLocs st1 !! p = Some l ∧ isRegister l = true))
    as (st2 & Hr & Hall2 & Hreg).
  { destruct p0.
    - exists st1. unfold retire. rewrite Hp0. simpl. split; [done|]. split; [done|].
      intros [=].
    - destruct (assignUse_in_register _ _ _ _ _ H1 Hp0 Hinv Hhead) as (l & Hl & Hreg).
      destruct (retire_register i p st1 l Hd1 Hall1 Hl Hreg) as (st2 & Hr & Hall2);
        [|done|].
      + destruct Hg1 as (_ & -> & _). done.
      + exists st2. split; [done|]. split; [done|]. intros _. by exists l. }
  destruct (retire_inv _ _ _ _ _ Hr Hinv1) as [Hinv2 Hg2].
  exists st2. split; [done|]. split.
  { unfold handlePredUse. rewrite Hpreds. simpl. rewrite H1. simpl. by rewrite Hr. }
  split; [|split; [by eapply grows_trans|done]].
  split; [done|]. split; [by eapply retire_distinct|done].
Qed.

Lemma scanBlock_single i block st st' :
  length (getBlockPredicates block) ≤ 1 →
  (∀ p, p ∈ getBlockPredicates block → is_Some (LRs (impl st) !! p)) →
  (i = 0 → hasFreeRegister st = true ∧ block = getHeader Sc) →
  scanBlock sortFurthestNextUse Sc i block st = Ok st' →
  registersFree st → registersFree st' ∧ grows (impl st) (impl st').
Proof using Type.
  intros Hlen HLR Hhead H HK. unfold scanBlock in H.
  apply bind_Ok in H as (s1 & H1 & H).
  assert (registersFree s1 ∧ grows (impl st) (impl s1)) as [HK1 Hg1].
  { destruct (getBlockPredicates block) as [|p [|? ?]] eqn:Epreds; [| |simpl in Hlen; lia].
    - unfold handlePredUse in H1. rewrite Epreds in H1. simpl in H1.
      injection H1 as <-. split; [done|apply grows_refl].
    - pose proof H1 as H1'. unfold handlePredUse in H1'. rewrite Epreds in H1'.
      simpl in H1'. apply bind_Ok in H1' as (sa & Ha & _).
      apply bind_Ok in Ha as (sa' & Ha & [= <-]).
      destruct (handlePredUse_single i block st sa' p Epreds HK) as (st2 & _ & H2 & HK2 & Hg & _);
        [apply HLR, list_elem_of_here| |done|].
      + intros Hi. destruct (Hhead Hi) as [Hf ->]. split; [done|].
        rewrite Epreds. apply list_elem_of_here.
      + rewrite H1 in H2. injection H2 as <-. done. }
  destruct (forEach_assignDef_registersFree _ _ _ H HK1) as [HK' Hg'].
  split; [done|by eapply grows_trans].
Qed.

Lemma scanFrom_single bs i st st' :
  (∀ b, b ∈ bs → length (getBlockPredicates b) ≤ 1) →
  (∀ b p, b ∈ bs → p ∈ getBlockPredicates b → is_Some (LRs (impl st) !! p)) →
  (i = 0 → hasFreeRegister st = true ∧ ∀ b, head bs = Some b → b = getHeader Sc) →
  scanFrom sortFurthestNextUse Sc i bs st = Ok st' →
  registersFree st → registersFree st' ∧ grows (impl st) (impl st').
Proof using Type.
  revert i st. induction bs as [|block bs IH]; simpl; intros i st Hlen HLR Hhead H HK.
  - injection H as <-. split; [done|apply grows_refl].
  - apply bind_Ok in H as (s1 & H1 & H).
    destruct (scanBlock_single i block st s1) as [HK1 Hg1]; [| | |done|done|].
    + apply Hlen, list_elem_of_here.
    + intros p Hp. by apply (HLR block p (list_elem_of_here _ _)).
    + intros Hi. destruct (Hhead Hi) as [Hf Hh]. split; [done|]. by apply Hh.
    + destruct (IH (S i) s1) as [HK' Hg']; [| | |done|done|].
      * intros b Hb. by apply Hlen, list_elem_of_further.
      * intros b p Hb Hp. destruct Hg1 as (_ & -> & _).
        by apply (HLR b p (list_elem_of_further _ _ _ Hb)).
      * discriminate.
      * split; [done|by eapply grows_trans].
Qed.

(** X20.  In a scope in which every block up to the current one has at most
    one block predicate, and with at least one register available, the
    retire loop of [handlePredUse] never fails: once the use of the block's
    predicate is assigned, retiring it runs through.  A predicate other than
    the header predicate of a single-path root is then in a register, and
    when the block is its last use this register is in the free set
    afterwards and the predicate has left the map of current locations. *)
Theorem single_predicate_retirement avail pre block post p st0 st1 :
  0 < avail →
  getBlocksTopoOrd Sc = pre ++ block :: post →
  (∀ b, b ∈ pre → length (getBlockPredicates b) ≤ 1) →
  getBlockPredicates block = [p] →
  scanFrom sortFurthestNextUse Sc 0 pre (initialScan Sc avail) = Ok st0 →
  assignUse sortFurthestNextUse Sc (length pre) block p st0 = Ok st1 →
  ∃ st2, retire Sc (length pre) p st1 = Ok st2
    ∧ handlePredUse sortFurthestNextUse Sc (length pre) block st0 = Ok st2
    ∧ (usesP0 Sc p = Ok false →
       ∃ l, curLocs st1 !! p = Some l ∧ isRegister l = true
            ∧ ∀ lr, createLiveRanges Sc !! p = Some lr → lastUse lr (length pre) = true →
                l ∈ FreeLocs st2 ∧ curLocs st2 !! p = None).
Proof using Type.
  intros Havail Hblocks Hlen Hpreds H0 H1.
  assert (registersFree (initialScan Sc avail)) as HKi.
  { split; [by apply ScanInv_init|]. split; [|by intros l Hl; apply elem_of_nil in Hl].
    split; simpl.
    - intros q q' l Hq. by rewrite lookup_empty in Hq.
    - intros q l Hq. by rewrite lookup_empty in Hq.
    - constructor. }
  assert (∀ k b q, getBlocksTopoOrd Sc !! k = Some b → q ∈ getBlockPredicates b →
                   is_Some (createLiveRanges Sc !! q)) as HLRs.
  { intros k b q Hk Hq. destruct (createLiveRanges_use Sc k b q Hk Hq) as (lr & -> & _).
    by eexists. }
  assert (hasFreeRegister (initialScan Sc avail) = true) as Hfree.
  { unfold hasFreeRegister. simpl. by apply Nat.ltb_lt. }
  destruct (scanFrom_single pre 0 (initialScan Sc avail) st0) as [HK0 Hg0]; [done| | |done|done|].
  { intros b q Hb Hq. apply list_elem_of_lookup in Hb as [k Hk].
    apply (HLRs k b q); [|done]. rewrite Hblocks. by apply lookup_app_l_Some. }
  { intros _. split; [done|]. intros b Hb. destruct pre as [|b' pre']; [done|].
    injection Hb as ->. by injection Hblocks as <- _. }
  assert (LRs (impl st0) = createLiveRanges Sc) as HLR0 by (by destruct Hg0 as (_ & -> & _)).
  assert (is_Some (LRs (impl st0) !! p)) as HLRp.
  { rewrite HLR0. apply (HLRs (length pre) block p).
    - rewrite Hblocks. by rewrite list_lookup_middle.
    - rewrite Hpreds. apply list_elem_of_here. }
  destruct (handlePredUse_single (length pre) block st0 st1 p Hpreds HK0 HLRp)
    as (st2 & Hr & Hh & _ & _ & Hreg); [|done|].
  { intros Hi. apply length_zero_iff_nil in Hi. subst pre. simpl in H0, Hblocks.
    injection H0 as <-. split; [done|]. injection Hblocks as <- _.
    rewrite Hpreds. apply list_elem_of_here. }
  exists st2. split; [done|]. split; [done|]. intros Hp0.
  destruct (Hreg Hp0) as (l & Hl & Hlreg). exists l. split; [done|]. split; [done|].
  intros lr Hlr Hlast.
  assert (LRs (impl st1) !! p = Some lr) as Hlr1.
  { destruct HK0 as (Hinv0 & _).
    destruct (assignUse_inv _ _ _ _ _ _ _ H1 Hinv0) as [_ (_ & -> & _)]. by rewrite HLR0. }
  by apply (retire_last_use Sc (length pre) p st1 st2 lr l).
Qed.

End SinglePredicate.

Lemma single_predicate_retirement_witness :
  ∃ st0 st1 st2 l,
    scanFrom insertionSort exEvict 0 [mkBlock 0 [0] [1; 2]; mkBlock 1 [1] []]
      (initialScan exEvict 1) = Ok st0
    ∧ assignUse insertionSort exEvict 2 (mkBlock 2 [2] []) 2 st0 = Ok st1
    ∧ retire exEvict 2 2 st1 = Ok st2
    ∧ curLocs st1 !! 2 = Some l ∧ isRegister l = true
    ∧ l ∈ FreeLocs st2 ∧ curLocs st2 !! 2 = None.
Proof.
  destruct (scanFrom insertionSort exEvict 0 [mkBlock 0 [0] [1; 2]; mkBlock 1 [1] []]
              (initialScan exEvict 1)) as [st0| |] eqn:E0;
    [|vm_compute in E0; discriminate..].
  destruct (assignUse insertionSort exEvict 2 (mkBlock 2 [2] []) 2 st0) as [st1| |] eqn:E1;
    [|vm_compute in E0; injection E0 as <-; vm_compute in E1; discriminate..].
  destruct (single_predicate_retirement insertionSort exEvict 1
              [mkBlock 0 [0] [1; 2]; mkBlock 1 [1] []] (mkBlock 2 [2] [])
              [mkBlock 3 [1] []] 2 st0 st1) as (st2 & Hr & _ & H);
    [lia|reflexivity| |reflexivity|exact E0|exact E1|].
  { intros b Hb. apply elem_of_cons in Hb as [->|Hb]; [simpl; lia|].
    apply list_elem_of_singleton in Hb as ->. simpl. lia. }
  destruct (H eq_refl) as (l & Hl & Hreg & Hlast).
  destruct (Hlast (mkLR [false; false; true; false; false] [true; false; false; false; false]))
    as [Hfree Hnone]; [vm_compute; reflexivity|reflexivity|].
  exists st0, st1, st2, l. repeat (split; [first [reflexivity|assumption]|]). assumption.
Defined.
